(** * The CP-SAT presolve context (ortools/sat/presolve_context.cc)

    A shallow embedding of [PresolveContext] and of the operations its
    specification talks about: domain management, signed references, the
    Boolean/affine equality store, the absolute-value dictionary and the
    objective (read, canonicalize, substitute, write); then of the other
    methods of the class: the queries on variables and literals, the
    constraint-variable usage graph and the value encodings.

    Conventions of the embedding.
    - [int] and [int64] values are integers of [Z].  Signed overflow is
      undefined behaviour in C++: every [int64] operation that the source
      performs on objective data is checked, and an overflow gives no
      result.
    - A method is a function of the context in an error-state monad
      [M A := PresolveContext -> option (A * PresolveContext)].  [None]
      stands for a failed [CHECK], an out-of-range [operator[]] or any other
      undefined behaviour.  A [DCHECK] is a debug-only assertion; it is not
      executed, and is recorded as a predicate where a claim needs it.
    - The members behind the usage graph and the value encodings are kept
      in a second record [PresolveTables], which holds the context; their
      methods run in [T A := PresolveTables -> option (A * PresolveTables)],
      and [liftT] runs a method of the context on the tables.
    - The classes [Domain] (ortools/util/sorted_interval_list),
      [AffineRelation] (ortools/util/affine_relation.h), [SparseBitset] and
      the helpers of cp_model_utils.h are not part of the sources at hand;
      they are modelled from the specification. *)

From Stdlib Require Import ZArith Floats Lia.

From stdpp Require Import gmap list strings sorting.

Open Scope Z_scope.

(** ** Machine integers *)

Definition kint64min : Z := -9223372036854775808.

Definition kint64max : Z := 9223372036854775807.

Definition kint32min : Z := -2147483648.

Definition kint32max : Z := 2147483647.

Definition in_int64 (z : Z) : bool := (kint64min <=? z) && (z <=? kint64max).

Definition in_int32 (z : Z) : bool := (kint32min <=? z) && (z <=? kint32max).

(** An [int64] result: defined only when it is representable. *)
Definition checked64 (z : Z) : option Z := if in_int64 z then Some z else None.

(** Conversion [int64 -> int] as compilers implement it (reduction modulo
    2^32); used by [const int min = MinOf(var)] in [ExploitFixedDomain]. *)
Definition to_int32 (z : Z) : Z := (z + 2147483648) mod 4294967296 - 2147483648.

(** [static_cast<double>(int64)]: rounding to the nearest binary64. *)
Definition double_of_int64 (z : Z) : float :=
  if z =? kint64min then (- (PrimFloat.of_uint63 (Uint63.of_Z 4611686018427387904) * 2))%float
  else if z <? 0 then (- PrimFloat.of_uint63 (Uint63.of_Z (- z)))%float
  else PrimFloat.of_uint63 (Uint63.of_Z z).

(** ** Reference algebra (cp_model_utils.h) *)

(** Modelled from the spec: [NegatedRef], [PositiveRef] and [RefIsPositive]
    are declared in cp_model_utils.h, which is missing.  The specification
    asks for a bijective signed encoding with a [negated] involution; the
    two's-complement one maps variable [v >= 0] to its negation [-v - 1]. *)
Definition NegatedRef (ref : Z) : Z := - ref - 1.

Definition PositiveRef (ref : Z) : Z := Z.max ref (NegatedRef ref).

Definition RefIsPositive (ref : Z) : bool := 0 <=? ref.

(** Indexing a [std::vector] by an [int]: no result out of range. *)
Definition at_index {A} (l : list A) (i : Z) : option A :=
  if i <? 0 then None else l !! Z.to_nat i.

Definition set_index {A} (l : list A) (i : Z) (x : A) : list A :=
  <[Z.to_nat i := x]> l.

(** ** Domains *)

(** Modelled from the spec: class [Domain] is declared in
    ortools/util/sorted_interval_list.h, which is missing.  Following the
    data model, a domain is an ordered list of disjoint closed intervals
    [[a1,b1] ... [ak,bk]] with [ai <= bi < a(i+1)]; adjacent intervals are
    merged, so that a set of integers has one representation. *)
Abbreviation Domain := (list (Z * Z)) (only parsing).

Module Domain.

Definition interval_contains (i : Z * Z) (v : Z) : bool :=
  (i.1 <=? v) && (v <=? i.2).

Definition Contains (d : Domain) (v : Z) : bool :=
  existsb (fun i => interval_contains i v) d.

Definition IsEmpty (d : Domain) : bool :=
  match d with [] => true | _ => false end.

Definition NumIntervals (d : Domain) : Z := Z.of_nat (length d).

(** [Min] and [Max] of an empty domain are undefined. *)
Definition Min (d : Domain) : option Z := fst <$> head d.

Definition Max (d : Domain) : option Z := snd <$> last d.

Definition IsFixed (d : Domain) : option bool :=
  lo ← Min d; hi ← Max d; Some (lo =? hi).

Definition clamp64 (z : Z) : Z := Z.max kint64min (Z.min kint64max z).

(** Saturated number of elements. *)
Definition Size (d : Domain) : Z :=
  clamp64 (foldr (fun i acc => (i.2 - i.1 + 1) + acc) 0 d).

(** Every interval is non-empty. *)
Definition valid (d : Domain) : bool := forallb (fun i => i.1 <=? i.2) d.

(** Sorted, disjoint and non-adjacent, after a previous upper end. *)
Fixpoint sorted_after (prev : option Z) (d : Domain) : bool :=
  match d with
  | [] => true
  | i :: r =>
      (i.1 <=? i.2)
      && match prev with None => true | Some e => e + 1 <? i.1 end
      && sorted_after (Some i.2) r
  end.

Definition wf (d : Domain) : bool := sorted_after None d.

(** Union of a canonical domain with one interval. *)
Fixpoint add_interval (i : Z * Z) (d : Domain) : Domain :=
  if i.2 <? i.1 then d
  else match d with
       | [] => [i]
       | j :: r =>
           if i.2 + 1 <? j.1 then i :: j :: r
           else if j.2 + 1 <? i.1 then j :: add_interval i r
           else add_interval (Z.min i.1 j.1, Z.max i.2 j.2) r
       end.

(** [Domain::FromIntervals]: the union of arbitrary intervals. *)
Definition FromIntervals (l : list (Z * Z)) : Domain := foldr add_interval [] l.

(** [Domain(int64 value)] and [Domain(int64 left, int64 right)]. *)
Definition FromValue (v : Z) : Domain := [(v, v)].

Definition FromBounds (lo hi : Z) : Domain := if lo <=? hi then [(lo, hi)] else [].

Definition AllValues : Domain := [(kint64min, kint64max)].

Definition IntersectionWith (d1 d2 : Domain) : Domain :=
  flat_map (fun i =>
    flat_map (fun j =>
      let lo := Z.max i.1 j.1 in
      let hi := Z.min i.2 j.2 in
      if lo <=? hi then [(lo, hi)] else []) d2) d1.

Definition IsIncludedIn (d1 d2 : Domain) : bool :=
  forallb (fun i => existsb (fun j => (j.1 <=? i.1) && (i.2 <=? j.2)) d2) d1.

Definition UnionWith (d1 d2 : Domain) : Domain := foldr add_interval d2 d1.

(** The negation stays inside [int64]: the opposite of [kint64min] is
    dropped. *)
Definition Negation (d : Domain) : Domain :=
  IntersectionWith (reverse (map (fun i => (- i.2, - i.1)) d)) AllValues.

Definition Complement (d : Domain) : Domain :=
  let gaps :=
    foldr (fun i k => fun lo => (lo, i.1 - 1) :: k (i.2 + 1))
          (fun lo => [(lo, kint64max)]) d kint64min in
  filter (fun i => i.1 <= i.2) gaps.

(** Exact sum with saturation of the end points. *)
Definition AdditionWith (d1 d2 : Domain) : Domain :=
  FromIntervals
    (flat_map (fun i => map (fun j =>
       (clamp64 (i.1 + j.1), clamp64 (i.2 + j.2))) d2) d1).

(** The bound on the number of intervals (and of values enumerated by a
    multiplication) after which an operation falls back to a hull. *)
Definition kDomainComplexityLimit : Z := 100.

Definition RelaxIfTooComplex (d : Domain) : Domain :=
  if NumIntervals d <=? kDomainComplexityLimit then d
  else match Min d, Max d with
       | Some lo, Some hi => [(lo, hi)]
       | _, _ => d
       end.

Definition values_of (i : Z * Z) : list Z := seqZ i.1 (i.2 - i.1 + 1).

Definition ContinuousMultiplicationBy (d : Domain) (coeff : Z) : Domain :=
  FromIntervals (map (fun i =>
    let a := clamp64 (i.1 * coeff) in
    let b := clamp64 (i.2 * coeff) in
    (Z.min a b, Z.max a b)) d).

(** [MultiplicationBy(coeff, &exact)]: the set [{ v * coeff }], each
    product kept only when it is representable; a hull, flagged inexact,
    when the domain has too many values. *)
Definition MultiplicationBy (d : Domain) (coeff : Z) : Domain * bool :=
  if IsEmpty d then ([], true)
  else if coeff =? 0 then (FromValue 0, true)
  else if (1 <? Z.abs coeff) && (kDomainComplexityLimit <? Size d)
  then (ContinuousMultiplicationBy d coeff, false)
  else
    (FromIntervals
       (flat_map (fun i =>
          flat_map (fun v => if in_int64 (v * coeff)
                             then [(v * coeff, v * coeff)] else [])
                   (values_of i)) d), true).

(** [InverseMultiplicationBy(coeff)]: the set [{ v | v * coeff in d }]. *)
Definition InverseMultiplicationBy (d : Domain) (coeff : Z) : Domain :=
  if coeff =? 0 then (if Contains d 0 then AllValues else [])
  else
    let pos := FromIntervals (map (fun i =>
      (- ((- i.1) / Z.abs coeff), i.2 / Z.abs coeff)) d) in
    if 0 <? coeff then pos else Negation pos.

(** [SimplifyUsingImpliedDomain(implied)]: for every interval of the
    union of the domain with the complement of [implied], the hull of its
    points that lie in [implied]. *)
Definition SimplifyUsingImpliedDomain (d implied : Domain) : Domain :=
  if IsEmpty implied then []
  else
    flat_map (fun i =>
      let pts := IntersectionWith [i] implied in
      match Min pts, Max pts with
      | Some lo, Some hi => [(lo, hi)]
      | _, _ => []
      end) (UnionWith d (Complement implied)).

End Domain.

(** ** Affine relations *)

(** Modelled from the spec: class [AffineRelation] is declared in
    ortools/util/affine_relation.h, which is missing.  The union-find
    answers, for a variable [x], a triple [(representative, coeff, offset)]
    with [x = coeff * representative + offset] and [coeff <> 0]; a variable
    without relation is its own representative with [(x, 1, 0)].  The
    repository maps every related variable to its relation with the
    representative of its class (paths are fully compressed). *)
Module AffineRelation.

Record Relation : Type := MkRelation {
  representative : Z;
  coeff : Z;
  offset : Z;
}.

Definition Get (repo : gmap Z Relation) (x : Z) : Relation :=
  default (MkRelation x 1 0) (repo !! x).

Definition ClassSize (repo : gmap Z Relation) (x : Z) : Z :=
  let rep := representative (Get repo x) in
  1 + Z.of_nat (length (filter (fun kv => kv.1 <> rep /\ representative kv.2 = rep)
                               (map_to_list repo))).

(** [old = k * new + q]: every member of the class of [old] is expressed
    on [new]. *)
Definition relink (repo : gmap Z Relation) (old new k q : Z) : gmap Z Relation :=
  <[old := MkRelation new k q]>
    ((fun r => if representative r =? old
               then MkRelation new (coeff r * k) (coeff r * q + offset r)
               else r) <$> repo).

(** [TryAdd(x, y, coeff, offset, allow_rep_x, allow_rep_y)] records
    [x = coeff * y + offset].  A class may only be attached below a
    representative that is allowed and on which its members stay integer
    affine; the smaller class is attached when both directions work. *)
Definition TryAdd (repo : gmap Z Relation) (x y c o : Z)
    (allow_rep_x allow_rep_y : bool) : option (bool * gmap Z Relation) :=
  if (c =? 0) || (x =? y) || (x <? 0) || (y <? 0) then None
  else
    let rx := Get repo x in
    let ry := Get repo y in
    let rep_x := representative rx in
    let rep_y := representative ry in
    if rep_x =? rep_y then Some (false, repo)
    else
      (* coeff rx * rep_x = nc * rep_y + no *)
      let nc := c * coeff ry in
      let no := c * offset ry + o - offset rx in
      let to_rep_y :=
        allow_rep_y && (nc mod coeff rx =? 0) && (no mod coeff rx =? 0) in
      let to_rep_x :=
        allow_rep_x && (coeff rx mod nc =? 0) && (no mod nc =? 0) in
      if to_rep_y && (negb to_rep_x || (ClassSize repo x <=? ClassSize repo y))
      then Some (true, relink repo rep_x rep_y (nc / coeff rx) (no / coeff rx))
      else if to_rep_x
      then Some (true, relink repo rep_y rep_x (coeff rx / nc) (- no / nc))
      else Some (false, repo).

End AffineRelation.

Import AffineRelation.

(** ** Sparse bit sets *)

(** Modelled from the spec: [SparseBitset] (ortools/util/bitset.h) is
    missing; [modified_domains] is a bit per variable.  [Set_] is the method
    [Set]; outside of the current size it is undefined. *)
Module SparseBitset.

Definition Resize (new_size : nat) (bits : list bool) : list bool :=
  resize new_size false bits.

Definition Set_ (bits : list bool) (i : Z) : option (list bool) :=
  match at_index bits i with
  | Some _ => Some (set_index bits i true)
  | None => None
  end.

Definition Get (bits : list bool) (i : Z) : option bool := at_index bits i.

End SparseBitset.

(** ** The model (cp_model.proto) *)

(** Modelled from the spec: the protocol buffers of the model.  Domains are
    flat sequences [lb1, ub1, lb2, ub2, ...]. *)
Record IntegerVariableProto : Type := MkIntegerVariableProto {
  variable_domain : list Z;
}.

Record LinearConstraintProto : Type := MkLinearConstraintProto {
  linear_vars : list Z;
  linear_coeffs : list Z;
  linear_domain : list Z;
}.

Inductive ConstraintCase : Type :=
  | CONSTRAINT_NOT_SET
  | kBoolAnd (literals : list Z)
  | kLinear (linear : LinearConstraintProto).

Record ConstraintProto : Type := MkConstraintProto {
  enforcement_literal : list Z;
  constraint_case : ConstraintCase;
}.

Record CpObjectiveProto : Type := MkCpObjectiveProto {
  objective_vars : list Z;
  objective_coeffs : list Z;
  objective_proto_domain : list Z;
  objective_proto_offset : float;
  objective_proto_scaling_factor : float;
}.

Record CpModelProto : Type := MkCpModelProto {
  variables : list IntegerVariableProto;
  constraints : list ConstraintProto;
  objective : CpObjectiveProto;
}.

Fixpoint flat_pairs (flat : list Z) : option (list (Z * Z)) :=
  match flat with
  | [] => Some []
  | lb :: ub :: rest => cons (lb, ub) <$> flat_pairs rest
  | [_] => None
  end.

(** [ReadDomainFromProto]: the union of the closed intervals of the proto;
    a sequence of odd length is malformed. *)
Definition ReadDomainFromProto (flat : list Z) : option Domain :=
  Domain.FromIntervals <$> flat_pairs flat.

(** [FillDomainInProto]: the intervals of the domain, in order. *)
Definition FillDomainInProto (d : Domain) : list Z :=
  flat_map (fun i => [i.1; i.2]) d.

(** ** The context *)

(** The members of [PresolveContext] that the operations below read or
    write (presolve_context.h is missing; names and types are those used by
    presolve_context.cc). *)
Record PresolveContext : Type := MkPresolveContext {
  working_model : CpModelProto;
  (** [domains[v]] is the domain of variable [v] *)
  domains : list Domain;
  is_unsat : bool;
  modified_domains : list bool;
  constant_to_ref : gmap Z Z;
  affine_relations_ : gmap Z Relation;
  var_equiv_relations_ : gmap Z Relation;
  (** the stored [const ConstraintProto*], as indices into the constraints of [working_model] *)
  affine_constraints : gset nat;
  abs_relations : gmap Z Z;
  constraint_to_vars_ : list (list Z);
  (** [-1] stands for the objective *)
  var_to_constraints_ : list (gset Z);
  var_to_num_linear1_ : list Z;
  var_to_ub_only_constraints : list (gset Z);
  var_to_lb_only_constraints : list (gset Z);
  objective_map : gmap Z Z;
  objective_domain : Domain;
  objective_offset : float;
  objective_scaling_factor : float;
  objective_domain_is_constraining : bool;
  keep_all_feasible_solutions : bool;
  enable_stats : bool;
  num_presolve_operations : Z;
  stats_by_rule_name : gmap string Z;
}.

(** Assignment to one member. *)
Definition with_working_model (v : CpModelProto) (s : PresolveContext) : PresolveContext :=
  MkPresolveContext v (domains s) (is_unsat s) (modified_domains s)
    (constant_to_ref s) (affine_relations_ s) (var_equiv_relations_ s)
    (affine_constraints s) (abs_relations s) (constraint_to_vars_ s)
    (var_to_constraints_ s) (var_to_num_linear1_ s)
    (var_to_ub_only_constraints s) (var_to_lb_only_constraints s)
    (objective_map s) (objective_domain s) (objective_offset s)
    (objective_scaling_factor s) (objective_domain_is_constraining s)
    (keep_all_feasible_solutions s) (enable_stats s)
    (num_presolve_operations s) (stats_by_rule_name s).

Definition with_domains (v : list Domain) (s : PresolveContext) : PresolveContext :=
  MkPresolveContext (working_model s) v (is_unsat s) (modified_domains s)
    (constant_to_ref s) (affine_relations_ s) (var_equiv_relations_ s)
    (affine_constraints s) (abs_relations s) (constraint_to_vars_ s)
    (var_to_constraints_ s) (var_to_num_linear1_ s)
    (var_to_ub_only_constraints s) (var_to_lb_only_constraints s)
    (objective_map s) (objective_domain s) (objective_offset s)
    (objective_scaling_factor s) (objective_domain_is_constraining s)
    (keep_all_feasible_solutions s) (enable_stats s)
    (num_presolve_operations s) (stats_by_rule_name s).

Definition with_is_unsat (v : bool) (s : PresolveContext) : PresolveContext :=
  MkPresolveContext (working_model s) (domains s) v (modified_domains s)
    (constant_to_ref s) (affine_relations_ s) (var_equiv_relations_ s)
    (affine_constraints s) (abs_relations s) (constraint_to_vars_ s)
    (var_to_constraints_ s) (var_to_num_linear1_ s)
    (var_to_ub_only_constraints s) (var_to_lb_only_constraints s)
    (objective_map s) (objective_domain s) (objective_offset s)
    (objective_scaling_factor s) (objective_domain_is_constraining s)
    (keep_all_feasible_solutions s) (enable_stats s)
    (num_presolve_operations s) (stats_by_rule_name s).

Definition with_modified_domains (v : list bool) (s : PresolveContext) : PresolveContext :=
  MkPresolveContext (working_model s) (domains s) (is_unsat s) v
    (constant_to_ref s) (affine_relations_ s) (var_equiv_relations_ s)
    (affine_constraints s) (abs_relations s) (constraint_to_vars_ s)
    (var_to_constraints_ s) (var_to_num_linear1_ s)
    (var_to_ub_only_constraints s) (var_to_lb_only_constraints s)
    (objective_map s) (objective_domain s) (objective_offset s)
    (objective_scaling_factor s) (objective_domain_is_constraining s)
    (keep_all_feasible_solutions s) (enable_stats s)
    (num_presolve_operations s) (stats_by_rule_name s).

Definition with_constant_to_ref (v : gmap Z Z) (s : PresolveContext) : PresolveContext :=
  MkPresolveContext (working_model s) (domains s) (is_unsat s)
    (modified_domains s) v (affine_relations_ s) (var_equiv_relations_ s)
    (affine_constraints s) (abs_relations s) (constraint_to_vars_ s)
    (var_to_constraints_ s) (var_to_num_linear1_ s)
    (var_to_ub_only_constraints s) (var_to_lb_only_constraints s)
    (objective_map s) (objective_domain s) (objective_offset s)
    (objective_scaling_factor s) (objective_domain_is_constraining s)
    (keep_all_feasible_solutions s) (enable_stats s)
    (num_presolve_operations s) (stats_by_rule_name s).

Definition with_affine_relations_ (v : gmap Z Relation) (s : PresolveContext) : PresolveContext :=
  MkPresolveContext (working_model s) (domains s) (is_unsat s)
    (modified_domains s) (constant_to_ref s) v (var_equiv_relations_ s)
    (affine_constraints s) (abs_relations s) (constraint_to_vars_ s)
    (var_to_constraints_ s) (var_to_num_linear1_ s)
    (var_to_ub_only_constraints s) (var_to_lb_only_constraints s)
    (objective_map s) (objective_domain s) (objective_offset s)
    (objective_scaling_factor s) (objective_domain_is_constraining s)
    (keep_all_feasible_solutions s) (enable_stats s)
    (num_presolve_operations s) (stats_by_rule_name s).

Definition with_var_equiv_relations_ (v : gmap Z Relation) (s : PresolveContext) : PresolveContext :=
  MkPresolveContext (working_model s) (domains s) (is_unsat s)
    (modified_domains s) (constant_to_ref s) (affine_relations_ s) v
    (affine_constraints s) (abs_relations s) (constraint_to_vars_ s)
    (var_to_constraints_ s) (var_to_num_linear1_ s)
    (var_to_ub_only_constraints s) (var_to_lb_only_constraints s)
    (objective_map s) (objective_domain s) (objective_offset s)
    (objective_scaling_factor s) (objective_domain_is_constraining s)
    (keep_all_feasible_solutions s) (enable_stats s)
    (num_presolve_operations s) (stats_by_rule_name s).

Definition with_affine_constraints (v : gset nat) (s : PresolveContext) : PresolveContext :=
  MkPresolveContext (working_model s) (domains s) (is_unsat s)
    (modified_domains s) (constant_to_ref s) (affine_relations_ s)
    (var_equiv_relations_ s) v (abs_relations s) (constraint_to_vars_ s)
    (var_to_constraints_ s) (var_to_num_linear1_ s)
    (var_to_ub_only_constraints s) (var_to_lb_only_constraints s)
    (objective_map s) (objective_domain s) (objective_offset s)
    (objective_scaling_factor s) (objective_domain_is_constraining s)
    (keep_all_feasible_solutions s) (enable_stats s)
    (num_presolve_operations s) (stats_by_rule_name s).

Definition with_abs_relations (v : gmap Z Z) (s : PresolveContext) : PresolveContext :=
  MkPresolveContext (working_model s) (domains s) (is_unsat s)
    (modified_domains s) (constant_to_ref s) (affine_relations_ s)
    (var_equiv_relations_ s) (affine_constraints s) v (constraint_to_vars_ s)
    (var_to_constraints_ s) (var_to_num_linear1_ s)
    (var_to_ub_only_constraints s) (var_to_lb_only_constraints s)
    (objective_map s) (objective_domain s) (objective_offset s)
    (objective_scaling_factor s) (objective_domain_is_constraining s)
    (keep_all_feasible_solutions s) (enable_stats s)
    (num_presolve_operations s) (stats_by_rule_name s).

Definition with_var_to_constraints_ (v : list (gset Z)) (s : PresolveContext) : PresolveContext :=
  MkPresolveContext (working_model s) (domains s) (is_unsat s)
    (modified_domains s) (constant_to_ref s) (affine_relations_ s)
    (var_equiv_relations_ s) (affine_constraints s) (abs_relations s)
    (constraint_to_vars_ s) v (var_to_num_linear1_ s)
    (var_to_ub_only_constraints s) (var_to_lb_only_constraints s)
    (objective_map s) (objective_domain s) (objective_offset s)
    (objective_scaling_factor s) (objective_domain_is_constraining s)
    (keep_all_feasible_solutions s) (enable_stats s)
    (num_presolve_operations s) (stats_by_rule_name s).

Definition with_var_to_num_linear1_ (v : list Z) (s : PresolveContext) : PresolveContext :=
  MkPresolveContext (working_model s) (domains s) (is_unsat s)
    (modified_domains s) (constant_to_ref s) (affine_relations_ s)
    (var_equiv_relations_ s) (affine_constraints s) (abs_relations s)
    (constraint_to_vars_ s) (var_to_constraints_ s) v
    (var_to_ub_only_constraints s) (var_to_lb_only_constraints s)
    (objective_map s) (objective_domain s) (objective_offset s)
    (objective_scaling_factor s) (objective_domain_is_constraining s)
    (keep_all_feasible_solutions s) (enable_stats s)
    (num_presolve_operations s) (stats_by_rule_name s).

Definition with_var_to_ub_only_constraints (v : list (gset Z)) (s : PresolveContext) : PresolveContext :=
  MkPresolveContext (working_model s) (domains s) (is_unsat s)
    (modified_domains s) (constant_to_ref s) (affine_relations_ s)
    (var_equiv_relations_ s) (affine_constraints s) (abs_relations s)
    (constraint_to_vars_ s) (var_to_constraints_ s) (var_to_num_linear1_ s) v
    (var_to_lb_only_constraints s) (objective_map s) (objective_domain s)
    (objective_offset s) (objective_scaling_factor s)
    (objective_domain_is_constraining s) (keep_all_feasible_solutions s)
    (enable_stats s) (num_presolve_operations s) (stats_by_rule_name s).

Definition with_var_to_lb_only_constraints (v : list (gset Z)) (s : PresolveContext) : PresolveContext :=
  MkPresolveContext (working_model s) (domains s) (is_unsat s)
    (modified_domains s) (constant_to_ref s) (affine_relations_ s)
    (var_equiv_relations_ s) (affine_constraints s) (abs_relations s)
    (constraint_to_vars_ s) (var_to_constraints_ s) (var_to_num_linear1_ s)
    (var_to_ub_only_constraints s) v (objective_map s) (objective_domain s)
    (objective_offset s) (objective_scaling_factor s)
    (objective_domain_is_constraining s) (keep_all_feasible_solutions s)
    (enable_stats s) (num_presolve_operations s) (stats_by_rule_name s).

Definition with_objective_map (v : gmap Z Z) (s : PresolveContext) : PresolveContext :=
  MkPresolveContext (working_model s) (domains s) (is_unsat s)
    (modified_domains s) (constant_to_ref s) (affine_relations_ s)
    (var_equiv_relations_ s) (affine_constraints s) (abs_relations s)
    (constraint_to_vars_ s) (var_to_constraints_ s) (var_to_num_linear1_ s)
    (var_to_ub_only_constraints s) (var_to_lb_only_constraints s) v
    (objective_domain s) (objective_offset s) (objective_scaling_factor s)
    (objective_domain_is_constraining s) (keep_all_feasible_solutions s)
    (enable_stats s) (num_presolve_operations s) (stats_by_rule_name s).

Definition with_objective_domain (v : Domain) (s : PresolveContext) : PresolveContext :=
  MkPresolveContext (working_model s) (domains s) (is_unsat s)
    (modified_domains s) (constant_to_ref s) (affine_relations_ s)
    (var_equiv_relations_ s) (affine_constraints s) (abs_relations s)
    (constraint_to_vars_ s) (var_to_constraints_ s) (var_to_num_linear1_ s)
    (var_to_ub_only_constraints s) (var_to_lb_only_constraints s)
    (objective_map s) v (objective_offset s) (objective_scaling_factor s)
    (objective_domain_is_constraining s) (keep_all_feasible_solutions s)
    (enable_stats s) (num_presolve_operations s) (stats_by_rule_name s).

Definition with_objective_offset (v : float) (s : PresolveContext) : PresolveContext :=
  MkPresolveContext (working_model s) (domains s) (is_unsat s)
    (modified_domains s) (constant_to_ref s) (affine_relations_ s)
    (var_equiv_relations_ s) (affine_constraints s) (abs_relations s)
    (constraint_to_vars_ s) (var_to_constraints_ s) (var_to_num_linear1_ s)
    (var_to_ub_only_constraints s) (var_to_lb_only_constraints s)
    (objective_map s) (objective_domain s) v (objective_scaling_factor s)
    (objective_domain_is_constraining s) (keep_all_feasible_solutions s)
    (enable_stats s) (num_presolve_operations s) (stats_by_rule_name s).

Definition with_objective_scaling_factor (v : float) (s : PresolveContext) : PresolveContext :=
  MkPresolveContext (working_model s) (domains s) (is_unsat s)
    (modified_domains s) (constant_to_ref s) (affine_relations_ s)
    (var_equiv_relations_ s) (affine_constraints s) (abs_relations s)
    (constraint_to_vars_ s) (var_to_constraints_ s) (var_to_num_linear1_ s)
    (var_to_ub_only_constraints s) (var_to_lb_only_constraints s)
    (objective_map s) (objective_domain s) (objective_offset s) v
    (objective_domain_is_constraining s) (keep_all_feasible_solutions s)
    (enable_stats s) (num_presolve_operations s) (stats_by_rule_name s).

Definition with_objective_domain_is_constraining (v : bool) (s : PresolveContext) : PresolveContext :=
  MkPresolveContext (working_model s) (domains s) (is_unsat s)
    (modified_domains s) (constant_to_ref s) (affine_relations_ s)
    (var_equiv_relations_ s) (affine_constraints s) (abs_relations s)
    (constraint_to_vars_ s) (var_to_constraints_ s) (var_to_num_linear1_ s)
    (var_to_ub_only_constraints s) (var_to_lb_only_constraints s)
    (objective_map s) (objective_domain s) (objective_offset s)
    (objective_scaling_factor s) v (keep_all_feasible_solutions s)
    (enable_stats s) (num_presolve_operations s) (stats_by_rule_name s).

Definition with_num_presolve_operations (v : Z) (s : PresolveContext) : PresolveContext :=
  MkPresolveContext (working_model s) (domains s) (is_unsat s)
    (modified_domains s) (constant_to_ref s) (affine_relations_ s)
    (var_equiv_relations_ s) (affine_constraints s) (abs_relations s)
    (constraint_to_vars_ s) (var_to_constraints_ s) (var_to_num_linear1_ s)
    (var_to_ub_only_constraints s) (var_to_lb_only_constraints s)
    (objective_map s) (objective_domain s) (objective_offset s)
    (objective_scaling_factor s) (objective_domain_is_constraining s)
    (keep_all_feasible_solutions s) (enable_stats s) v (stats_by_rule_name s).

Definition with_stats_by_rule_name (v : gmap string Z) (s : PresolveContext) : PresolveContext :=
  MkPresolveContext (working_model s) (domains s) (is_unsat s)
    (modified_domains s) (constant_to_ref s) (affine_relations_ s)
    (var_equiv_relations_ s) (affine_constraints s) (abs_relations s)
    (constraint_to_vars_ s) (var_to_constraints_ s) (var_to_num_linear1_ s)
    (var_to_ub_only_constraints s) (var_to_lb_only_constraints s)
    (objective_map s) (objective_domain s) (objective_offset s)
    (objective_scaling_factor s) (objective_domain_is_constraining s)
    (keep_all_feasible_solutions s) (enable_stats s)
    (num_presolve_operations s) v.

(** The context of a model without variable, constraint or objective. *)
Definition empty_objective : CpObjectiveProto := MkCpObjectiveProto [] [] [] 0 0.

Definition empty_context : PresolveContext :=
  MkPresolveContext (MkCpModelProto [] [] empty_objective) [] false [] ∅ ∅ ∅ ∅ ∅
    [] [] [] [] [] ∅ [] 0 1 false false false 0 ∅.

(** ** The monad of the methods *)

Definition M (A : Type) : Type := PresolveContext -> option (A * PresolveContext).

Definition ret {A} (a : A) : M A := fun s => Some (a, s).

Definition bind {A B} (m : M A) (f : A -> M B) : M B :=
  fun s => match m s with
           | Some (a, s') => f a s'
           | None => None
           end.

(** A query that may be undefined. *)
Definition read {A} (f : PresolveContext -> option A) : M A :=
  fun s => match f s with
           | Some a => Some (a, s)
           | None => None
           end.

Definition gets {A} (f : PresolveContext -> A) : M A := fun s => Some (f s, s).

Definition modify (f : PresolveContext -> PresolveContext) : M unit :=
  fun s => Some (tt, f s).

(** [CHECK(b)] aborts the program when [b] is false. *)
Definition CHECK (b : bool) : M unit := fun s => if b then Some (tt, s) else None.

Declare Scope ctx_scope.

Delimit Scope ctx_scope with ctx.

Notation "x <- m ;; k" := (bind m (fun x => k))
  (at level 100, m at next level, right associativity) : ctx_scope.

Notation "m ;;; k" := (bind m (fun _ => k))
  (at level 100, right associativity) : ctx_scope.

Open Scope ctx_scope.

(** Result and final context of a run. *)
Definition result_of {A} (r : option (A * PresolveContext)) : option A := fst <$> r.

Definition state_of {A} (r : option (A * PresolveContext)) : option PresolveContext :=
  snd <$> r.

(** ** Domain queries *)

Definition DomainIsEmpty (ref : Z) (s : PresolveContext) : option bool :=
  Domain.IsEmpty <$> at_index (domains s) (PositiveRef ref).

(** [DCHECK(!DomainIsEmpty(ref))] is not executed; [Domain::IsFixed] of an
    empty domain is undefined. *)
Definition IsFixed (ref : Z) (s : PresolveContext) : option bool :=
  d ← at_index (domains s) (PositiveRef ref); Domain.IsFixed d.

Definition CanBeUsedAsLiteral (ref : Z) (s : PresolveContext) : option bool :=
  let var := PositiveRef ref in
  d ← at_index (domains s) var;
  lo ← Domain.Min d;
  hi ← Domain.Max d;
  Some ((0 <=? lo) && (hi <=? 1)).

Definition LiteralIsTrue (lit : Z) (s : PresolveContext) : option bool :=
  if RefIsPositive lit
  then d ← at_index (domains s) lit; lo ← Domain.Min d; Some (lo =? 1)
  else d ← at_index (domains s) (PositiveRef lit); hi ← Domain.Max d; Some (hi =? 0).

Definition LiteralIsFalse (lit : Z) (s : PresolveContext) : option bool :=
  if RefIsPositive lit
  then d ← at_index (domains s) lit; hi ← Domain.Max d; Some (hi =? 0)
  else d ← at_index (domains s) (PositiveRef lit); lo ← Domain.Min d; Some (lo =? 1).

Definition MinOf (ref : Z) (s : PresolveContext) : option Z :=
  d ← at_index (domains s) (PositiveRef ref);
  if RefIsPositive ref then Domain.Min d
  else hi ← Domain.Max d; checked64 (- hi).

Definition MaxOf (ref : Z) (s : PresolveContext) : option Z :=
  d ← at_index (domains s) (PositiveRef ref);
  if RefIsPositive ref then Domain.Max d
  else lo ← Domain.Min d; checked64 (- lo).

Definition DomainOf (ref : Z) (s : PresolveContext) : option Domain :=
  if RefIsPositive ref then at_index (domains s) ref
  else Domain.Negation <$> at_index (domains s) (PositiveRef ref).

Definition DomainContains (ref value : Z) (s : PresolveContext) : option bool :=
  if negb (RefIsPositive ref)
  then d ← at_index (domains s) (PositiveRef ref); Some (Domain.Contains d (- value))
  else d ← at_index (domains s) ref; Some (Domain.Contains d value).

Definition ConstraintVariableGraphIsUpToDate (s : PresolveContext) : bool :=
  bool_decide (length (constraint_to_vars_ s) = length (constraints (working_model s))).

(** ** Domain updates *)

(** [IntersectDomainWith(ref, domain, domain_modified)].  The out-parameter
    [bool* domain_modified] is [None] for [nullptr] and [Some b] for a
    pointer to a flag of value [b]; the flag after the call is returned
    with the result. *)
Definition IntersectDomainWith (ref : Z) (domain : Domain)
    (domain_modified : option bool) : M (bool * option bool) :=
  let var := PositiveRef ref in
  cur <- read (fun s => at_index (domains s) var) ;;
  match (if RefIsPositive ref
         then if Domain.IsIncludedIn cur domain then None
              else Some (Domain.IntersectionWith cur domain)
         else let temp := Domain.Negation domain in
              if Domain.IsIncludedIn cur temp then None
              else Some (Domain.IntersectionWith cur temp))
  with
  | None => ret (true, domain_modified)
  | Some new_domain =>
      modify (fun s => with_domains (set_index (domains s) var new_domain) s) ;;;
      let domain_modified' := (fun _ => true) <$> domain_modified in
      bits <- read (fun s => SparseBitset.Set_ (modified_domains s) var) ;;
      modify (with_modified_domains bits) ;;;
      if Domain.IsEmpty new_domain
      then modify (with_is_unsat true) ;;; ret (false, domain_modified')
      else ret (true, domain_modified')
  end.

Definition SetLiteralToFalse (lit : Z) : M bool :=
  let var := PositiveRef lit in
  let value := if RefIsPositive lit then 0 else 1 in
  r <- IntersectDomainWith var (Domain.FromValue value) None ;;
  ret r.1.

Definition SetLiteralToTrue (lit : Z) : M bool :=
  SetLiteralToFalse (NegatedRef lit).

Definition UpdateRuleStats (name : string) : M unit :=
  modify (fun s =>
    let s1 := if enable_stats s
              then with_stats_by_rule_name
                     (<[name := default 0 (stats_by_rule_name s !! name) + 1]>
                        (stats_by_rule_name s)) s
              else s in
    with_num_presolve_operations (num_presolve_operations s1 + 1) s1).

(** [NotifyThatModelIsUnsat] (presolve_context.h): marks the model
    infeasible and returns false. *)
Definition NotifyThatModelIsUnsat : M bool :=
  modify (with_is_unsat true) ;;; ret false.

(** ** Affine relations of the context *)

(** The two repositories, as the [AffineRelation*] argument of
    [AddRelation]. *)
Inductive Repo : Type := affine_relations_repo | var_equiv_relations_repo.

Definition repo_of (r : Repo) (s : PresolveContext) : gmap Z Relation :=
  match r with
  | affine_relations_repo => affine_relations_ s
  | var_equiv_relations_repo => var_equiv_relations_ s
  end.

Definition with_repo (r : Repo) (v : gmap Z Relation) (s : PresolveContext)
    : PresolveContext :=
  match r with
  | affine_relations_repo => with_affine_relations_ v s
  | var_equiv_relations_repo => with_var_equiv_relations_ v s
  end.

Definition repo_TryAdd (repo : Repo) (x y c o : Z) (allow_rep_x allow_rep_y : bool)
    : M bool :=
  r <- read (fun s => TryAdd (repo_of repo s) x y c o allow_rep_x allow_rep_y) ;;
  modify (with_repo repo r.2) ;;;
  ret r.1.

(** [AddRelation(int x, int y, int c, int o, AffineRelation* repo)]: the
    coefficient and the offset are received as [int]. *)
Definition AddRelation (x y c64 o64 : Z) (repo : Repo) : M bool :=
  let c := to_int32 c64 in
  let o := to_int32 o64 in
  if negb (Z.abs c =? 1) then repo_TryAdd repo x y c o true true
  else
    rep_x <- gets (fun s => representative (Get (repo_of repo s) x)) ;;
    rep_y <- gets (fun s => representative (Get (repo_of repo s) y)) ;;
    allow_rep_x <- read (CanBeUsedAsLiteral rep_x) ;;
    allow_rep_y <- read (CanBeUsedAsLiteral rep_y) ;;
    if allow_rep_x || allow_rep_y
    then repo_TryAdd repo x y c o allow_rep_x allow_rep_y
    else repo_TryAdd repo x y c o true true.

Definition ExploitFixedDomain (var : Z) : M unit :=
  CHECK (RefIsPositive var) ;;;
  fixed <- read (IsFixed var) ;;
  CHECK fixed ;;;
  min64 <- read (MinOf var) ;;
  let min := to_int32 min64 in
  known <- gets (fun s => constant_to_ref s !! min) ;;
  match known with
  | Some representative =>
      if negb (representative =? var)
      then AddRelation var representative 1 0 affine_relations_repo ;;;
           AddRelation var representative 1 0 var_equiv_relations_repo ;;;
           ret tt
      else ret tt
  | None =>
      modify (fun s => with_constant_to_ref (<[min := var]> (constant_to_ref s)) s)
  end.

(** This makes sure that the affine relation only uses one of the
    representative from the var_equiv_relations_. *)
Definition GetAffineRelation (ref : Z) (s : PresolveContext) : Relation :=
  let r := Get (affine_relations_ s) (PositiveRef ref) in
  let o := Get (var_equiv_relations_ s) (representative r) in
  let r := MkRelation (representative o)
                      (if coeff o =? -1 then - coeff r else coeff r)
                      (offset r) in
  if negb (RefIsPositive ref)
  then MkRelation (representative r) (coeff r * -1) (offset r * -1)
  else r.

(** [ct] is the index, in the constraints of the working model, of the
    constraint passed by reference. *)
Definition StoreAffineRelation (ct : nat) (ref_x ref_y coeff offset : Z) : M unit :=
  unsat <- gets is_unsat ;;
  if unsat then ret tt
  else
    fixed_x <- read (IsFixed ref_x) ;;
    fixed_y <- (if fixed_x then ret true else read (IsFixed ref_y)) ;;
    if fixed_x || fixed_y then ret tt
    else
      let x := PositiveRef ref_x in
      let y := PositiveRef ref_y in
      let c := if Bool.eqb (RefIsPositive ref_x) (RefIsPositive ref_y)
               then coeff else - coeff in
      let o := if RefIsPositive ref_x then offset else - offset in
      added <- AddRelation x y c o affine_relations_repo ;;
      added <- (if ((c =? 1) || (c =? -1)) && (o =? 0)
                then added2 <- AddRelation x y c o var_equiv_relations_repo ;;
                     ret (added || added2)
                else ret added) ;;
      if added then
        rep_x <- gets (fun s => representative (GetAffineRelation x s)) ;;
        (if negb (rep_x =? x)
         then bits <- read (fun s => SparseBitset.Set_ (modified_domains s) x) ;;
              modify (with_modified_domains bits)
         else ret tt) ;;;
        rep_y <- gets (fun s => representative (GetAffineRelation y s)) ;;
        (if negb (rep_y =? y)
         then bits <- read (fun s => SparseBitset.Set_ (modified_domains s) y) ;;
              modify (with_modified_domains bits)
         else ret tt) ;;;
        modify (fun s => with_affine_constraints ({[ct]} ∪ affine_constraints s) s)
      else ret tt.

Definition add_constraints (ct : ConstraintProto) (s : PresolveContext)
    : PresolveContext :=
  with_working_model
    (MkCpModelProto (variables (working_model s))
                    (constraints (working_model s) ++ [ct])
                    (objective (working_model s))) s.

Definition StoreBooleanEqualityRelation (ref_a ref_b : Z) : M unit :=
  lit_a <- read (CanBeUsedAsLiteral ref_a) ;;
  CHECK lit_a ;;;
  lit_b <- read (CanBeUsedAsLiteral ref_b) ;;
  CHECK lit_b ;;;
  if ref_a =? ref_b then ret tt
  else if ref_a =? NegatedRef ref_b then modify (with_is_unsat true)
  else
    let var_a := PositiveRef ref_a in
    let var_b := PositiveRef ref_b in
    rep_a <- gets (fun s => representative (GetAffineRelation var_a s)) ;;
    rep_b <- gets (fun s => representative (GetAffineRelation var_b s)) ;;
    if (rep_a =? var_b) || (rep_b =? var_a) then ret tt
    else
      ct <- gets (fun s => length (constraints (working_model s))) ;;
      if Bool.eqb (RefIsPositive ref_a) (RefIsPositive ref_b)
      then (* a = b *)
        modify (add_constraints
                  (MkConstraintProto []
                     (kLinear (MkLinearConstraintProto [var_a; var_b] [1; -1] [0; 0])))) ;;;
        StoreAffineRelation ct var_a var_b 1 0
      else (* a = 1 - b *)
        modify (add_constraints
                  (MkConstraintProto []
                     (kLinear (MkLinearConstraintProto [var_a; var_b] [1; 1] [1; 1])))) ;;;
        StoreAffineRelation ct var_a var_b (-1) 1.

Definition StoreAbsRelation (target_ref ref : Z) : M bool :=
  existing <- gets (fun s => abs_relations s !! target_ref) ;;
  match existing with
  | Some _ => ret false
  | None =>
      modify (fun s => with_abs_relations
                         (<[target_ref := PositiveRef ref]> (abs_relations s)) s) ;;;
      ret true
  end.

(** The two polarity tests of [GetLiteralRepresentative]. *)
Definition positive_possible (r : Relation) : bool :=
  (offset r =? 0) || (coeff r + offset r =? 1).

Definition negative_possible (r : Relation) : bool :=
  (offset r =? 1) || (coeff r + offset r =? 0).

Definition GetLiteralRepresentative (ref : Z) (s : PresolveContext) : option Z :=
  let r := GetAffineRelation (PositiveRef ref) s in
  lit ← CanBeUsedAsLiteral ref s;
  if negb lit then None
  else
    rep_lit ← CanBeUsedAsLiteral (representative r) s;
    if negb rep_lit then Some ref
    else
      if RefIsPositive ref
      then Some (if positive_possible r then representative r
                 else NegatedRef (representative r))
      else Some (if positive_possible r then NegatedRef (representative r)
                 else representative r).

(** The assertion [DCHECK_NE(positive_possible, negative_possible)] of
    [GetLiteralRepresentative], where the function reaches it. *)
Definition GetLiteralRepresentative_DCHECK (ref : Z) (s : PresolveContext)
    : option bool :=
  let r := GetAffineRelation (PositiveRef ref) s in
  lit ← CanBeUsedAsLiteral ref s;
  if negb lit then None
  else
    rep_lit ← CanBeUsedAsLiteral (representative r) s;
    if negb rep_lit then Some true
    else Some (negb (Bool.eqb (positive_possible r) (negative_possible r))).

(** ** Variable creation *)

Fixpoint InitializeNewDomains_loop (new_variables : list IntegerVariableProto)
    : M bool :=
  match new_variables with
  | [] => ret true
  | var_proto :: rest =>
      i <- gets (fun s => Z.of_nat (length (domains s))) ;;
      d <- read (fun _ => ReadDomainFromProto (variable_domain var_proto)) ;;
      modify (fun s => with_domains (domains s ++ [d]) s) ;;;
      if Domain.IsEmpty d
      then modify (with_is_unsat true) ;;; ret false
      else
        fixed <- read (IsFixed i) ;;
        (if fixed then ExploitFixedDomain i else ret tt) ;;;
        InitializeNewDomains_loop rest
  end.

(** Create the internal structure for any new variables in working_model.
    The loop result tells whether it ran to its end or returned. *)
Definition InitializeNewDomains : M unit :=
  new_variables <- gets (fun s =>
    drop (length (domains s)) (variables (working_model s))) ;;
  completed <- InitializeNewDomains_loop new_variables ;;
  if completed then
    modify (fun s =>
      let n := length (domains s) in
      with_var_to_lb_only_constraints (resize n ∅ (var_to_lb_only_constraints s))
        (with_var_to_ub_only_constraints (resize n ∅ (var_to_ub_only_constraints s))
          (with_var_to_num_linear1_ (resize n 0 (var_to_num_linear1_ s))
            (with_var_to_constraints_ (resize n ∅ (var_to_constraints_ s))
              (with_modified_domains
                 (SparseBitset.Resize n (modified_domains s)) s)))))
  else ret tt.

Definition add_variables (var_proto : IntegerVariableProto) (s : PresolveContext)
    : PresolveContext :=
  with_working_model
    (MkCpModelProto (variables (working_model s) ++ [var_proto])
                    (constraints (working_model s))
                    (objective (working_model s))) s.

Definition NewIntVar (domain : Domain) : M Z :=
  modify (add_variables (MkIntegerVariableProto (FillDomainInProto domain))) ;;;
  InitializeNewDomains ;;;
  gets (fun s => Z.of_nat (length (variables (working_model s))) - 1).

Definition NewBoolVar : M Z := NewIntVar (Domain.FromBounds 0 1).

Definition GetOrCreateConstantVar (cst : Z) : M Z :=
  known <- gets (fun s => constant_to_ref s !! cst) ;;
  (match known with
   | None =>
       modify (fun s => with_constant_to_ref
          (<[cst := Z.of_nat (length (variables (working_model s)))]>
             (constant_to_ref s)) s) ;;;
       modify (add_variables (MkIntegerVariableProto [cst; cst])) ;;;
       InitializeNewDomains
   | Some _ => ret tt
   end) ;;;
  read (fun s => constant_to_ref s !! cst).

(** ** The objective *)

(** [var_to_constraints_[var].insert(-1)] and [.erase(-1)]. *)
Definition update_var_to_constraints (var : Z) (f : gset Z -> gset Z) : M unit :=
  cs <- read (fun s => at_index (var_to_constraints_ s) var) ;;
  modify (fun s => with_var_to_constraints_
                     (set_index (var_to_constraints_ s) var (f cs)) s).

Definition insert_objective_usage (var : Z) : M unit :=
  update_var_to_constraints var (fun cs => {[-1]} ∪ cs).

Definition erase_objective_usage (var : Z) : M unit :=
  update_var_to_constraints var (fun cs => cs ∖ {[-1]}).

(** [objective_map[var]], which reads a missing entry as zero. *)
Definition objective_coeff (m : gmap Z Z) (var : Z) : Z := default 0 (m !! var).

Definition set_objective_coeff (var coeff : Z) : M unit :=
  modify (fun s => with_objective_map (<[var := coeff]> (objective_map s)) s).

Definition erase_objective_coeff (var : Z) : M unit :=
  modify (fun s => with_objective_map (delete var (objective_map s)) s).

(** A checked [int64] computation inside a method. *)
Definition int64_of (z : Z) : M Z := read (fun _ => checked64 z).

(** The loop of [ReadObjectiveFromProto] over [obj.vars(i)] and
    [obj.coeffs(i)]. *)
Fixpoint ReadObjectiveFromProto_loop (vars coeffs : list Z) : M unit :=
  match vars, coeffs with
  | [], _ => ret tt
  | _ :: _, [] => fun _ => None
  | ref :: vars, coeff :: coeffs =>
      coeff <- (if negb (RefIsPositive ref) then int64_of (- coeff) else ret coeff) ;;
      let var := PositiveRef ref in
      old <- gets (fun s => objective_coeff (objective_map s) var) ;;
      new_coeff <- int64_of (old + coeff) ;;
      set_objective_coeff var new_coeff ;;;
      (if new_coeff =? 0
       then erase_objective_coeff var ;;; erase_objective_usage var
       else insert_objective_usage var) ;;;
      ReadObjectiveFromProto_loop vars coeffs
  end.

Definition ReadObjectiveFromProto : M unit :=
  obj <- gets (fun s => objective (working_model s)) ;;
  modify (with_objective_offset (objective_proto_offset obj)) ;;;
  modify (with_objective_scaling_factor
            (if PrimFloat.eqb (objective_proto_scaling_factor obj) 0
             then 1%float else objective_proto_scaling_factor obj)) ;;;
  (if negb (bool_decide (objective_proto_domain obj = []))
   then
     d <- read (fun _ => ReadDomainFromProto (objective_proto_domain obj)) ;;
     modify (with_objective_domain_is_constraining true) ;;;
     modify (with_objective_domain d)
   else
     modify (with_objective_domain_is_constraining false) ;;;
     modify (with_objective_domain Domain.AllValues)) ;;;
  modify (with_objective_map ∅) ;;;
  ReadObjectiveFromProto_loop (objective_vars obj) (objective_coeffs obj).

(** [std::sort] of the entries of the map: by variable, then coefficient. *)
Definition entry_le (x y : Z * Z) : Prop := x.1 < y.1 \/ (x.1 = y.1 /\ x.2 <= y.2).

Definition sorted_entries (m : gmap Z Z) : list (Z * Z) :=
  merge_sort entry_le (map_to_list m).

Definition set_objective (obj : CpObjectiveProto) (s : PresolveContext)
    : PresolveContext :=
  with_working_model
    (MkCpModelProto (variables (working_model s))
                    (constraints (working_model s)) obj) s.

Definition WriteObjectiveToProto : M unit :=
  d <- gets objective_domain ;;
  if Domain.IsEmpty d then NotifyThatModelIsUnsat ;;; ret tt
  else
    entries <- gets (fun s => sorted_entries (objective_map s)) ;;
    modify (fun s =>
      set_objective
        (MkCpObjectiveProto entries.*1 entries.*2
           (FillDomainInProto (objective_domain s))
           (objective_offset s) (objective_scaling_factor s)) s).

(** [equality.linear()]: the default message when the constraint is of
    another kind. *)
Definition linear_of (ct : ConstraintProto) : LinearConstraintProto :=
  match constraint_case ct with
  | kLinear lin => lin
  | _ => MkLinearConstraintProto [] [] []
  end.

(** The loop of [SubstituteVariableInObjective] over the terms of the
    equality; [new_vars] is the vector behind [new_vars_in_objective]. *)
Fixpoint SubstituteVariableInObjective_loop (var_in_equality multiplier : Z)
    (vars coeffs : list Z) (new_vars : option (list Z)) : M (option (list Z)) :=
  match vars, coeffs with
  | [], _ => ret new_vars
  | _ :: _, [] => fun _ => None
  | ref :: vars, coeff :: coeffs =>
      coeff <- (if negb (RefIsPositive ref) then int64_of (- coeff) else ret coeff) ;;
      let var := if negb (RefIsPositive ref) then NegatedRef ref else ref in
      if var =? var_in_equality
      then SubstituteVariableInObjective_loop var_in_equality multiplier
             vars coeffs new_vars
      else
        map_ref <- gets (fun s => objective_coeff (objective_map s) var) ;;
        let new_vars :=
          if map_ref =? 0 then (fun l => l ++ [var]) <$> new_vars else new_vars in
        delta <- int64_of (coeff * multiplier) ;;
        map_ref <- int64_of (map_ref - delta) ;;
        set_objective_coeff var map_ref ;;;
        (if map_ref =? 0
         then erase_objective_coeff var ;;; erase_objective_usage var
         else insert_objective_usage var) ;;;
        SubstituteVariableInObjective_loop var_in_equality multiplier
          vars coeffs new_vars
  end.

Definition SubstituteVariableInObjective (var_in_equality coeff_in_equality : Z)
    (equality : ConstraintProto) (new_vars_in_objective : option (list Z))
    : M (option (list Z)) :=
  CHECK (bool_decide (enforcement_literal equality = [])) ;;;
  CHECK (RefIsPositive var_in_equality) ;;;
  let new_vars := (fun _ => []) <$> new_vars_in_objective in
  coeff_in_objective <- read (fun s => objective_map s !! var_in_equality) ;;
  CHECK (negb (coeff_in_equality =? 0)) ;;;
  CHECK (Z.rem coeff_in_objective coeff_in_equality =? 0) ;;;
  multiplier <- int64_of (Z.quot coeff_in_objective coeff_in_equality) ;;
  new_vars <- SubstituteVariableInObjective_loop var_in_equality multiplier
                (linear_vars (linear_of equality))
                (linear_coeffs (linear_of equality)) new_vars ;;
  erase_objective_coeff var_in_equality ;;;
  erase_objective_usage var_in_equality ;;;
  offset <- read (fun _ => ReadDomainFromProto (linear_domain (linear_of equality))) ;;
  let '(offset, exact) := Domain.MultiplicationBy offset multiplier in
  CHECK exact ;;;
  offset_min <- read (fun _ => Domain.Min offset) ;;
  modify (fun s => with_objective_offset
                     (objective_offset s + double_of_int64 offset_min)%float s) ;;;
  shift <- int64_of (- offset_min) ;;
  modify (fun s => with_objective_domain
                     (Domain.AdditionWith (objective_domain s) (Domain.FromValue shift)) s) ;;;
  modify (with_objective_domain_is_constraining true) ;;;
  ret new_vars.

(** [MathUtil::GCD64] on non-negative arguments. *)
Definition GCD64 (x y : Z) : Z := Z.gcd x y.

(** [std::abs] on [int64]. *)
Definition abs64 (z : Z) : M Z := int64_of (Z.abs z).

(** The first loop of [CanonicalizeObjective]: each entry is replaced by
    its affine representative.  The answer is [None] when the function
    returns false from inside the loop, the accumulated [offset_change]
    otherwise. *)
Fixpoint CanonicalizeObjective_loop (tmp_entries : list (Z * Z)) (offset_change : Z)
    : M (option Z) :=
  match tmp_entries with
  | [] => ret (Some offset_change)
  | entry :: rest =>
      let var := entry.1 in
      it <- gets (fun s => objective_map s !! var) ;;
      match it with
      | None => CanonicalizeObjective_loop rest offset_change
      | Some coeff =>
          only_in_objective <-
            (fun s =>
               if negb (keep_all_feasible_solutions s)
                  && negb (objective_domain_is_constraining s)
                  && ConstraintVariableGraphIsUpToDate s
               then read (fun s => cs ← at_index (var_to_constraints_ s) var;
                                   Some (bool_decide (size cs = 1%nat)
                                         && bool_decide (-1 ∈ cs))) s
               else ret false s) ;;
          fixed_ok <-
            (if only_in_objective
             then
               UpdateRuleStats "objective: variable not used elsewhere" ;;;
               bound <- (if 0 <? coeff then read (MinOf var) else read (MaxOf var)) ;;
               r <- IntersectDomainWith var (Domain.FromValue bound) None ;;
               ret r.1
             else ret true) ;;
          if negb fixed_ok then ret None
          else
            fixed <- read (IsFixed var) ;;
            if fixed
            then
              min <- read (MinOf var) ;;
              product <- int64_of (coeff * min) ;;
              offset_change <- int64_of (offset_change + product) ;;
              erase_objective_usage var ;;;
              erase_objective_coeff var ;;;
              CanonicalizeObjective_loop rest offset_change
            else
              r <- gets (GetAffineRelation var) ;;
              if representative r =? var
              then CanonicalizeObjective_loop rest offset_change
              else
                erase_objective_coeff var ;;;
                erase_objective_usage var ;;;
                product <- int64_of (coeff * offset r) ;;
                offset_change <- int64_of (offset_change + product) ;;
                product <- int64_of (coeff * AffineRelation.coeff r) ;;
                old <- gets (fun s => objective_coeff (objective_map s)
                                        (representative r)) ;;
                new_coeff <- int64_of (old + product) ;;
                set_objective_coeff (representative r) new_coeff ;;;
                if new_coeff =? 0
                then
                  erase_objective_coeff (representative r) ;;;
                  erase_objective_usage (representative r) ;;;
                  CanonicalizeObjective_loop rest offset_change
                else
                  insert_objective_usage (representative r) ;;;
                  rep_fixed <- read (IsFixed (representative r)) ;;
                  if rep_fixed
                  then
                    min <- read (MinOf (representative r)) ;;
                    product <- int64_of (new_coeff * min) ;;
                    offset_change <- int64_of (offset_change + product) ;;
                    erase_objective_usage (representative r) ;;;
                    erase_objective_coeff (representative r) ;;;
                    CanonicalizeObjective_loop rest offset_change
                  else CanonicalizeObjective_loop rest offset_change
      end
  end.

(** The second loop: the gcd of the coefficients and the implied domain,
    over the sorted entries. *)
Fixpoint CanonicalizeObjective_implied (entries : list (Z * Z)) (gcd : Z)
    (implied_domain : Domain) : M (Z * Domain) :=
  match entries with
  | [] => ret (gcd, implied_domain)
  | entry :: rest =>
      let var := entry.1 in
      let coeff := entry.2 in
      a <- abs64 coeff ;;
      let gcd := GCD64 gcd a in
      d <- read (DomainOf var) ;;
      let implied_domain :=
        Domain.RelaxIfTooComplex
          (Domain.AdditionWith implied_domain (Domain.MultiplicationBy d coeff).1) in
      CanonicalizeObjective_implied rest gcd implied_domain
  end.

(** [CanonicalizeObjective]; [tmp_entries] is the copy of the entries of
    [objective_map], in the iteration order of the hash map. *)
Definition CanonicalizeObjective (tmp_entries : list (Z * Z)) : M bool :=
  substituted <- CanonicalizeObjective_loop tmp_entries 0 ;;
  match substituted with
  | None => ret false
  | Some offset_change =>
      entries <- gets (fun s => sorted_entries (objective_map s)) ;;
      gi <- CanonicalizeObjective_implied entries 0 (Domain.FromValue 0) ;;
      let gcd := gi.1 in
      let implied_domain := gi.2 in
      shift <- int64_of (- offset_change) ;;
      modify (fun s => with_objective_domain
        (Domain.IntersectionWith
           (Domain.AdditionWith (objective_domain s) (Domain.FromValue shift))
           implied_domain) s) ;;;
      modify (fun s => with_objective_domain
        (Domain.SimplifyUsingImpliedDomain (objective_domain s) implied_domain) s) ;;;
      modify (fun s => with_objective_offset
        (objective_offset s + double_of_int64 offset_change)%float s) ;;;
      (if 1 <? gcd
       then
         modify (fun s => with_objective_map
                            ((fun c => Z.quot c gcd) <$> objective_map s) s) ;;;
         modify (fun s => with_objective_domain
                            (Domain.InverseMultiplicationBy (objective_domain s) gcd) s) ;;;
         modify (fun s => with_objective_offset
                            (objective_offset s / double_of_int64 gcd)%float s) ;;;
         modify (fun s => with_objective_scaling_factor
                            (objective_scaling_factor s * double_of_int64 gcd)%float s)
       else ret tt) ;;;
      d <- gets objective_domain ;;
      if Domain.IsEmpty d then ret false
      else
        max <- read (fun _ => Domain.Max d) ;;
        modify (with_objective_domain_is_constraining
                  (negb (Domain.IsIncludedIn
                           (Domain.IntersectionWith implied_domain
                              (Domain.FromBounds kint64min max)) d))) ;;;
        ret true
  end.

(** * Definitions used by the statements *)

(** The context after the domain of [var] was narrowed to [new_domain]:
    the three assignments of the second half of [IntersectDomainWith]. *)
Definition narrowed (var : Z) (new_domain : Domain) (s : PresolveContext)
    : PresolveContext :=
  let s1 := with_modified_domains (set_index (modified_domains s) var true)
              (with_domains (set_index (domains s) var new_domain) s) in
  if Domain.IsEmpty new_domain then with_is_unsat true s1 else s1.

(** The domain that [IntersectDomainWith(ref, domain)] intersects with. *)
Definition signed_domain (ref : Z) (domain : Domain) : Domain :=
  if RefIsPositive ref then domain else Domain.Negation domain.

(** The value that [SetLiteralToTrue(lit)] gives to the variable of [lit]. *)
Definition true_value (lit : Z) : Z := if RefIsPositive lit then 1 else 0.

(** The signed view of a literal: the negation of [x] takes the value
    [1 - x].  The answer tells whether the literal can take the value
    [b]. *)
Definition literal_can_be (lit b : Z) (s : PresolveContext) : option bool :=
  d ← at_index (domains s) (PositiveRef lit);
  Some (Domain.Contains d (if RefIsPositive lit then b else 1 - b)).

(** The operations on affine relations only write the two repositories,
    [modified_domains] and [affine_constraints]. *)
Definition relations_frame (s s' : PresolveContext) : Prop :=
  exists ar er md ac,
    s' = with_affine_constraints ac
           (with_modified_domains md
              (with_var_equiv_relations_ er (with_affine_relations_ ar s))).

(** A method preserves a relation between the contexts before and after
    each of its successful runs. *)
Definition preserves (R : relation PresolveContext) {A} (m : M A) : Prop :=
  forall s a s', m s = Some (a, s') -> R s s'.

(** The model, the domains and the infeasibility flag are the same. *)
Definition same_core (s s' : PresolveContext) : Prop :=
  working_model s' = working_model s
  /\ domains s' = domains s
  /\ is_unsat s' = is_unsat s.

Definition nonempty_domains (s : PresolveContext) : Prop :=
  Forall (fun d => Domain.IsEmpty d = false) (domains s).

(** Every entry of the domain vector is non-empty, or [is_unsat] is true. *)
Definition domains_invariant (s : PresolveContext) : Prop :=
  is_unsat s = true \/ nonempty_domains s.

(** The operations of the claim, and a sequence of them. *)
Inductive operation : Type :=
  | new_variable (domain : Domain)
  | get_or_create_constant (cst : Z)
  | intersect_domain (ref : Z) (domain : Domain) (domain_modified : option bool)
  | set_literal_true (lit : Z)
  | set_literal_false (lit : Z).

Definition run_operation (op : operation) : M unit :=
  match op with
  | new_variable domain => NewIntVar domain ;;; ret tt
  | get_or_create_constant cst => GetOrCreateConstantVar cst ;;; ret tt
  | intersect_domain ref domain domain_modified =>
      IntersectDomainWith ref domain domain_modified ;;; ret tt
  | set_literal_true lit => SetLiteralToTrue lit ;;; ret tt
  | set_literal_false lit => SetLiteralToFalse lit ;;; ret tt
  end.

Fixpoint run_operations (ops : list operation) : M unit :=
  match ops with
  | [] => ret tt
  | op :: rest => run_operation op ;;; run_operations rest
  end.

(** Every variable of the model has its domain. *)
Definition initialized (s : PresolveContext) : Prop :=
  length (domains s) = length (variables (working_model s)).

(** The domains are the same. *)
Definition same_domains (s s' : PresolveContext) : Prop := domains s' = domains s.

(** Scenario 2 of the specification: two fresh Booleans, their equality,
    then the first one asserted; the answer is that of
    [LiteralIsTrue(b)]. *)
Definition boolean_equality_scenario : M (Z * Z * bool) :=
  a <- NewBoolVar ;;
  b <- NewBoolVar ;;
  StoreBooleanEqualityRelation a b ;;;
  SetLiteralToTrue a ;;;
  b_is_true <- read (LiteralIsTrue b) ;;
  ret (a, b, b_is_true).

(** The linear constraint that [StoreBooleanEqualityRelation] appends:
    [a - b = 0] for references of equal polarity, [a + b = 1] otherwise
    (on the variables of the references). *)
Definition boolean_equality_constraint (ref_a ref_b : Z) : ConstraintProto :=
  let same := Bool.eqb (RefIsPositive ref_a) (RefIsPositive ref_b) in
  MkConstraintProto []
    (kLinear (MkLinearConstraintProto
                [PositiveRef ref_a; PositiveRef ref_b]
                [1; if same then -1 else 1]
                (if same then [0; 0] else [1; 1]))).

(** The relations that [GetAffineRelation] gives for [x] and [y] are on
    the same representative and entail [x = c * y + o]. *)
Definition affine_relation_stored (x y c o : Z) (s : PresolveContext) : Prop :=
  let rx := GetAffineRelation x s in
  let ry := GetAffineRelation y s in
  representative rx = representative ry
  /\ coeff rx = c * coeff ry
  /\ offset rx = c * offset ry + o.

(** One of the two variables is now expressed on the other in the
    repository, by [x = c * y + o] or by its inverse (which has the same
    coefficient and offset for the two Boolean relations). *)
Definition relation_entered (repo : gmap Z Relation) (x y c o : Z) : Prop :=
  (repo !! x = Some (MkRelation y c o) /\ repo !! y = None)
  \/ (repo !! y = Some (MkRelation x c o) /\ repo !! x = None).

(** Neither repository has an entry for the variable. *)
Definition unrelated (var : Z) (s : PresolveContext) : Prop :=
  affine_relations_ s !! var = None /\ var_equiv_relations_ s !! var = None.

(** The constraints, the relation repositories and [affine_constraints]
    are the same. *)
Definition same_records (s s' : PresolveContext) : Prop :=
  constraints (working_model s') = constraints (working_model s)
  /\ affine_relations_ s' = affine_relations_ s
  /\ var_equiv_relations_ s' = var_equiv_relations_ s
  /\ affine_constraints s' = affine_constraints s.

(** The repositories have no entry for a variable that does not exist
    yet. *)
Definition no_relation_beyond (s : PresolveContext) : Prop :=
  forall var, Z.of_nat (length (domains s)) <= var -> unrelated var s.






(** A model with the constraint [x = 2 y + 5], whose relation is stored
    while [x] is in [[0, 7]] and [y] in [[-3, 1]]; both domains are then
    narrowed to [[0, 1]] by other deductions. *)
Definition unsatisfiable_relation_context : option PresolveContext :=
  state_of
    ((x <- NewIntVar (Domain.FromBounds 0 7) ;;
      y <- NewIntVar (Domain.FromBounds (-3) 1) ;;
      modify (add_constraints
                (MkConstraintProto []
                   (kLinear (MkLinearConstraintProto [x; y] [1; -2] [5; 5])))) ;;;
      StoreAffineRelation 0 x y 2 5 ;;;
      IntersectDomainWith x (Domain.FromBounds 0 1) None ;;;
      IntersectDomainWith y (Domain.FromBounds 0 1) None ;;;
      ret tt) empty_context).

(** The operations on the objective coefficients only write
    [objective_map] and [var_to_constraints_]. *)
Definition objective_frame (s s' : PresolveContext) : Prop :=
  exists om vtc, s' = with_var_to_constraints_ vtc (with_objective_map om s).

(** The terms of a linear expression on positive variables: a negated
    reference passes its sign to the coefficient. *)
Definition normalized_terms (vars coeffs : list Z) : list (Z * Z) :=
  (fun t : Z * Z => if RefIsPositive t.1 then t else (NegatedRef t.1, - t.2))
    <$> zip vars coeffs.

Definition other_terms (var_in_equality : Z) (terms : list (Z * Z)) : list (Z * Z) :=
  filter (fun t => t.1 <> var_in_equality) terms.

(** One step of the substitution, on the map and on the reported
    variables: the entry of [t.1] is decremented by [t.2 * multiplier];
    the variable is reported when its entry was zero (absent), and the
    entry is dropped when it becomes zero. *)
Definition substitute_term (multiplier : Z)
    (acc : gmap Z Z * option (list Z)) (t : Z * Z) : gmap Z Z * option (list Z) :=
  let c := objective_coeff acc.1 t.1 - t.2 * multiplier in
  (if c =? 0 then delete t.1 acc.1 else <[t.1 := c]> acc.1,
   if objective_coeff acc.1 t.1 =? 0 then (fun l => l ++ [t.1]) <$> acc.2 else acc.2).

(** The sum of the coefficients of [v] in a list of terms. *)
Definition term_sum (terms : list (Z * Z)) (v : Z) : Z :=
  foldr (fun t acc => (if bool_decide (t.1 = v) then t.2 else 0) + acc) 0 terms.

(** Zero coefficients are absent from the map. *)
Definition sparse (m : gmap Z Z) : Prop := forall v c, m !! v = Some c -> c <> 0.

(** Scenario 6: the objective [5 x + y + 7 z] over [[0, 100]] and the
    equality [x + 2 y - z = 4]. *)
Definition substitution_scenario_context : option PresolveContext :=
  state_of
    ((NewIntVar (Domain.FromBounds 0 10) ;;;
      NewIntVar (Domain.FromBounds 0 10) ;;;
      NewIntVar (Domain.FromBounds 0 10) ;;;
      modify (set_objective (MkCpObjectiveProto [0; 1; -3] [5; 1; -7] [0; 100] 0 1)) ;;;
      ReadObjectiveFromProto) empty_context).

Definition substitution_scenario_equality : ConstraintProto :=
  MkConstraintProto []
    (kLinear (MkLinearConstraintProto [0; 1; 2] [1; 2; -1] [4; 4])).



(** The user-visible value [scaling_factor * (raw + offset)]. *)
Definition objective_value (obj : CpObjectiveProto) (raw : Z) : float :=
  (objective_proto_scaling_factor obj
   * (double_of_int64 raw + objective_proto_offset obj))%float.



(** The gcd that [CanonicalizeObjective] accumulates over a list of
    entries, from [gcd]. *)
Definition entries_gcd (gcd : Z) (entries : list (Z * Z)) : Z :=
  foldl (fun g t => GCD64 g (Z.abs t.2)) gcd entries.

(** The gcd of the absolute values of the coefficients of the map, as the
    code computes it. *)
Definition objective_gcd (m : gmap Z Z) : Z := entries_gcd 0 (sorted_entries m).

(** The coefficients of the map have no common divisor but 1 and -1. *)
Definition coprime_coefficients (m : gmap Z Z) : Prop :=
  forall d, (forall v c, m !! v = Some c -> (d | c)) -> (d | 1).

(** The relation repositories are the same. *)
Definition same_relations (s s' : PresolveContext) : Prop :=
  affine_relations_ s' = affine_relations_ s
  /\ var_equiv_relations_ s' = var_equiv_relations_ s.

(** The relation repositories and the objective map are the same. *)
Definition same_objective_map (s s' : PresolveContext) : Prop :=
  same_relations s s' /\ objective_map s' = objective_map s.

(** The invariant of the first loop of [CanonicalizeObjective]: the map is
    sparse, and each of its variables is still to be visited or
    canonical. *)
Definition canonical_but (canon : Z -> Prop) (entries : list (Z * Z))
    (m : gmap Z Z) : Prop :=
  sparse m /\ forall v, is_Some (m !! v) -> v ∈ entries.*1 \/ canon v.

(** Every representative answered by [GetAffineRelation] is its own
    representative (invariant 4 of the specification). *)
Definition canonical_representatives (s : PresolveContext) : Prop :=
  forall v,
    representative
      (GetAffineRelation (representative (GetAffineRelation v s)) s)
    = representative (GetAffineRelation v s).

(** A Boolean [a], a Boolean [z] with the stored relation [z = 2 r - 4]
    on an integer [r] in [[2, 3]], and the Boolean equality [a = z].  The
    affine repository must refuse this equality: [r] is not usable as a
    literal, so it may not represent [a], and [r = (a + 4) / 2] is not an
    integer relation on [a].  The equivalence repository accepts it, with
    [z] as the representative of [a].  The objective is [a]. *)
Definition refused_merge_context : option PresolveContext :=
  state_of
    ((a <- NewBoolVar ;;
      z <- NewBoolVar ;;
      r <- NewIntVar (Domain.FromBounds 2 3) ;;
      modify (add_constraints
                (MkConstraintProto []
                   (kLinear (MkLinearConstraintProto [z; r] [1; -2] [-4; -4])))) ;;;
      StoreAffineRelation 0 z r 2 (-4) ;;;
      StoreBooleanEqualityRelation a z ;;;
      modify (set_objective (MkCpObjectiveProto [a] [1] [] 0 1)) ;;;
      ReadObjectiveFromProto) empty_context).

(** Scenario 5, with a substitution: the objective [3 w + 6 y - 9 z] where
    [w = 2 x + 1] is stored, and a constraint whose usage is not yet
    registered. *)
Definition canonicalize_scenario_context : option PresolveContext :=
  state_of
    ((NewIntVar (Domain.FromBounds 0 10) ;;;
      NewIntVar (Domain.FromBounds 0 10) ;;;
      NewIntVar (Domain.FromBounds 0 10) ;;;
      NewIntVar (Domain.FromBounds 1 21) ;;;
      modify (add_constraints
                (MkConstraintProto []
                   (kLinear (MkLinearConstraintProto [3; 0] [1; -2] [1; 1])))) ;;;
      StoreAffineRelation 0 3 0 2 1 ;;;
      modify (set_objective (MkCpObjectiveProto [3; 1; 2] [3; 6; -9] [] 0 1)) ;;;
      ReadObjectiveFromProto) empty_context).

(** * Further operations of the context *)

(** ** Statistics and small constraints *)

Definition ClearStats : M unit := modify (with_stats_by_rule_name ∅).

(** a => b. *)
Definition AddImplication (a b : Z) : M unit :=
  modify (add_constraints (MkConstraintProto [a] (kBoolAnd [b]))).

(** b => x in [lb, ub]. *)
Definition AddImplyInDomain (b x : Z) (domain : Domain) : M unit :=
  modify (add_constraints
            (MkConstraintProto [b]
               (kLinear (MkLinearConstraintProto [x] [1]
                           (FillDomainInProto domain))))).

(** ** Bounds of a linear expression *)

(** Modelled from the spec: [LinearExpressionProto] (cp_model.proto) is the
    expression [offset + sum coeffs(i) * vars(i)]. *)
Record LinearExpressionProto : Type := MkLinearExpressionProto {
  expr_vars : list Z;
  expr_coeffs : list Z;
  expr_offset : Z;
}.

(** The loop of [MinOf(const LinearExpressionProto&)]; every [int64]
    product and sum is checked, and [expr.coeffs(i)] is undefined past the
    end. *)
Fixpoint MinOf_expr_loop (vars coeffs : list Z) (result : Z) (s : PresolveContext)
    : option Z :=
  match vars, coeffs with
  | [], _ => Some result
  | _ :: _, [] => None
  | ref :: vars, coeff :: coeffs =>
      bound ← (if 0 <? coeff then MinOf ref s else MaxOf ref s);
      product ← checked64 (coeff * bound);
      result ← checked64 (result + product);
      MinOf_expr_loop vars coeffs result s
  end.

Definition MinOf_expr (expr : LinearExpressionProto) (s : PresolveContext)
    : option Z :=
  MinOf_expr_loop (expr_vars expr) (expr_coeffs expr) (expr_offset expr) s.

Fixpoint MaxOf_expr_loop (vars coeffs : list Z) (result : Z) (s : PresolveContext)
    : option Z :=
  match vars, coeffs with
  | [], _ => Some result
  | _ :: _, [] => None
  | ref :: vars, coeff :: coeffs =>
      bound ← (if 0 <? coeff then MaxOf ref s else MinOf ref s);
      product ← checked64 (coeff * bound);
      result ← checked64 (result + product);
      MaxOf_expr_loop vars coeffs result s
  end.

Definition MaxOf_expr (expr : LinearExpressionProto) (s : PresolveContext)
    : option Z :=
  MaxOf_expr_loop (expr_vars expr) (expr_coeffs expr) (expr_offset expr) s.

(** ** Removable variables *)

Definition VariableIsNotRepresentativeOfEquivalenceClass (var : Z)
    (s : PresolveContext) : bool :=
  if ClassSize (affine_relations_ s) var =? 1 then true
  else negb (representative (GetAffineRelation var s) =? var).

(** The operands of [&&] are evaluated from left to right, and only as far
    as needed: [var_to_constraints_[var]] is not indexed when an earlier
    operand is false. *)
Definition VariableIsUniqueAndRemovable (ref : Z) (s : PresolveContext)
    : option bool :=
  if negb (ConstraintVariableGraphIsUpToDate s) then Some false
  else
    let var := PositiveRef ref in
    cs ← at_index (var_to_constraints_ s) var;
    Some (bool_decide (size cs = 1%nat)
          && VariableIsNotRepresentativeOfEquivalenceClass var s
          && negb (keep_all_feasible_solutions s)).

Definition VariableWithCostIsUniqueAndRemovable (ref : Z) (s : PresolveContext)
    : option bool :=
  if negb (ConstraintVariableGraphIsUpToDate s) then Some false
  else
    let var := PositiveRef ref in
    if keep_all_feasible_solutions s then Some false
    else
      cs ← at_index (var_to_constraints_ s) var;
      Some (bool_decide (-1 ∈ cs)
            && bool_decide (size cs = 2%nat)
            && VariableIsNotRepresentativeOfEquivalenceClass var s).

Definition VariableIsNotUsedAnymore (ref : Z) (s : PresolveContext) : option bool :=
  if negb (ConstraintVariableGraphIsUpToDate s) then Some false
  else
    cs ← at_index (var_to_constraints_ s) (PositiveRef ref);
    Some (bool_decide (cs = ∅)).

Definition VariableIsOnlyUsedInEncoding (ref : Z) (s : PresolveContext)
    : option bool :=
  if negb (ConstraintVariableGraphIsUpToDate s) then Some false
  else
    let var := PositiveRef ref in
    n ← at_index (var_to_num_linear1_ s) var;
    cs ← at_index (var_to_constraints_ s) var;
    Some (n =? Z.of_nat (size cs)).

(** ** The representative of a variable *)

(** [None] is a failed [CHECK_EQ]. *)
Definition GetVariableRepresentative (ref : Z) (s : PresolveContext) : option Z :=
  let r := Get (var_equiv_relations_ s) (PositiveRef ref) in
  if negb (Z.abs (coeff r) =? 1) then None
  else if negb (offset r =? 0) then None
  else Some (if Bool.eqb (RefIsPositive ref) (coeff r =? 1)
             then representative r
             else NegatedRef (representative r)).

(** ** Definitions used by the further statements *)

(** An assignment of the variables that respects every domain. *)
Definition in_domains (val : Z -> Z) (s : PresolveContext) : Prop :=
  forall var d, at_index (domains s) var = Some d ->
                Domain.Contains d (val var) = true.

(** The value of a reference: a negated reference takes the opposite of
    the value of its variable. *)
Definition ref_value (val : Z -> Z) (ref : Z) : Z :=
  if RefIsPositive ref then val ref else - val (PositiveRef ref).

Definition expr_value (val : Z -> Z) (expr : LinearExpressionProto) : Z :=
  expr_offset expr
  + foldr (fun t acc => t.2 * ref_value val t.1 + acc) 0
          (zip (expr_vars expr) (expr_coeffs expr)).

(** Every domain of the context is in canonical form. *)
Definition canonical_domains (s : PresolveContext) : Prop :=
  Forall (fun d => Domain.wf d = true) (domains s).

(** ** The usage vectors and the encoding tables *)

(** The members of [PresolveContext] behind the constraint-variable graph
    and the value encodings, next to the members of the record above
    (names and types are those used by presolve_context.cc). *)
Record PresolveTables : Type := MkPresolveTables {
  context : PresolveContext;
  constraint_to_linear1_var_ : list Z;
  constraint_to_intervals_ : list (list Z);
  interval_usage_ : list Z;
  (** [(var, value) -> literal] *)
  encoding : gmap (Z * Z) Z;
  eq_half_encoding : gmap (Z * Z) (gset Z);
  neq_half_encoding : gmap (Z * Z) (gset Z);
}.

Definition with_context (v : PresolveContext) (t : PresolveTables) : PresolveTables :=
  MkPresolveTables v (constraint_to_linear1_var_ t) (constraint_to_intervals_ t)
    (interval_usage_ t) (encoding t) (eq_half_encoding t) (neq_half_encoding t).

Definition with_constraint_to_linear1_var_ (v : list Z) (t : PresolveTables)
    : PresolveTables :=
  MkPresolveTables (context t) v (constraint_to_intervals_ t)
    (interval_usage_ t) (encoding t) (eq_half_encoding t) (neq_half_encoding t).

Definition with_constraint_to_intervals_ (v : list (list Z)) (t : PresolveTables)
    : PresolveTables :=
  MkPresolveTables (context t) (constraint_to_linear1_var_ t) v
    (interval_usage_ t) (encoding t) (eq_half_encoding t) (neq_half_encoding t).

Definition with_interval_usage_ (v : list Z) (t : PresolveTables) : PresolveTables :=
  MkPresolveTables (context t) (constraint_to_linear1_var_ t)
    (constraint_to_intervals_ t) v (encoding t) (eq_half_encoding t)
    (neq_half_encoding t).

Definition with_encoding (v : gmap (Z * Z) Z) (t : PresolveTables) : PresolveTables :=
  MkPresolveTables (context t) (constraint_to_linear1_var_ t)
    (constraint_to_intervals_ t) (interval_usage_ t) v (eq_half_encoding t)
    (neq_half_encoding t).

Definition with_eq_half_encoding (v : gmap (Z * Z) (gset Z)) (t : PresolveTables)
    : PresolveTables :=
  MkPresolveTables (context t) (constraint_to_linear1_var_ t)
    (constraint_to_intervals_ t) (interval_usage_ t) (encoding t) v
    (neq_half_encoding t).

Definition with_neq_half_encoding (v : gmap (Z * Z) (gset Z)) (t : PresolveTables)
    : PresolveTables :=
  MkPresolveTables (context t) (constraint_to_linear1_var_ t)
    (constraint_to_intervals_ t) (interval_usage_ t) (encoding t)
    (eq_half_encoding t) v.

Definition with_constraint_to_vars_ (v : list (list Z)) (s : PresolveContext)
    : PresolveContext :=
  MkPresolveContext (working_model s) (domains s) (is_unsat s)
    (modified_domains s) (constant_to_ref s) (affine_relations_ s)
    (var_equiv_relations_ s) (affine_constraints s) (abs_relations s)
    v (var_to_constraints_ s) (var_to_num_linear1_ s)
    (var_to_ub_only_constraints s) (var_to_lb_only_constraints s)
    (objective_map s) (objective_domain s) (objective_offset s)
    (objective_scaling_factor s) (objective_domain_is_constraining s)
    (keep_all_feasible_solutions s) (enable_stats s)
    (num_presolve_operations s) (stats_by_rule_name s).

(** The tables of a context that has none. *)
Definition empty_tables (s : PresolveContext) : PresolveTables :=
  MkPresolveTables s [] [] [] ∅ ∅ ∅.

(** The monad of the methods that use the tables. *)
Definition T (A : Type) : Type := PresolveTables -> option (A * PresolveTables).

Definition retT {A} (a : A) : T A := fun t => Some (a, t).

Definition bindT {A B} (m : T A) (f : A -> T B) : T B :=
  fun t => match m t with
           | Some (a, t') => f a t'
           | None => None
           end.

Definition readT {A} (f : PresolveTables -> option A) : T A :=
  fun t => match f t with
           | Some a => Some (a, t)
           | None => None
           end.

Definition getsT {A} (f : PresolveTables -> A) : T A := fun t => Some (f t, t).

Definition modifyT (f : PresolveTables -> PresolveTables) : T unit :=
  fun t => Some (tt, f t).

Definition CHECKT (b : bool) : T unit := fun t => if b then Some (tt, t) else None.

(** A method of the record above, run on the context of the tables. *)
Definition liftT {A} (m : M A) : T A :=
  fun t => match m (context t) with
           | Some (a, s') => Some (a, with_context s' t)
           | None => None
           end.

Declare Scope tbl_scope.

Delimit Scope tbl_scope with tbl.

Notation "x <- m ;; k" := (bindT m (fun x => k))
  (at level 100, m at next level, right associativity) : tbl_scope.

Notation "m ;;; k" := (bindT m (fun _ => k))
  (at level 100, right associativity) : tbl_scope.

Open Scope tbl_scope.

(** ** The constraint-variable graph *)

(** Modelled from the spec: [UsedVariables] and [UsedIntervals]
    (cp_model_utils.cc) are missing.  [used_vars(ct)] is the sorted,
    deduped list of the positive indices of the variables and literals of
    the constraint, its enforcement literals included; none of the
    constraint kinds of this model references an interval. *)
Fixpoint insert_sorted (x : Z) (l : list Z) : list Z :=
  match l with
  | [] => [x]
  | y :: r => if x <? y then x :: y :: r
              else if x =? y then y :: r
              else y :: insert_sorted x r
  end.

Definition sort_unique (l : list Z) : list Z := foldr insert_sorted [] l.

Definition references (ct : ConstraintProto) : list Z :=
  match constraint_case ct with
  | CONSTRAINT_NOT_SET => []
  | kBoolAnd literals => literals
  | kLinear lin => linear_vars lin
  end ++ enforcement_literal ct.

Definition UsedVariables (ct : ConstraintProto) : list Z :=
  sort_unique (PositiveRef <$> references ct).

Definition UsedIntervals (ct : ConstraintProto) : list Z := [].

(** [counter[i] += delta] on a vector of [int]. *)
Definition add_at (l : list Z) (i delta : Z) : option (list Z) :=
  n ← at_index l i; Some (set_index l i (n + delta)).

(** [var_to_constraints_[var].insert(c)] and [.erase(c)]. *)
Definition update_usage (var : Z) (f : gset Z -> gset Z) : T unit :=
  cs <- readT (fun t => at_index (var_to_constraints_ (context t)) var) ;;
  modifyT (fun t => with_context
    (with_var_to_constraints_
       (set_index (var_to_constraints_ (context t)) var (f cs)) (context t)) t).

Definition insert_usage (var c : Z) : T unit :=
  update_usage var (fun cs => {[c]} ∪ cs).

Definition erase_usage (var c : Z) : T unit :=
  update_usage var (fun cs => cs ∖ {[c]}).

Definition add_num_linear1 (var delta : Z) : T unit :=
  v <- readT (fun t => add_at (var_to_num_linear1_ (context t)) var delta) ;;
  modifyT (fun t => with_context (with_var_to_num_linear1_ v (context t)) t).

Definition add_interval_usage (i delta : Z) : T unit :=
  v <- readT (fun t => add_at (interval_usage_ t) i delta) ;;
  modifyT (with_interval_usage_ v).

Definition UpdateLinear1Usage (ct : ConstraintProto) (c : Z) : T unit :=
  old_var <- readT (fun t => at_index (constraint_to_linear1_var_ t) c) ;;
  (if 0 <=? old_var then add_num_linear1 old_var (-1) else retT tt) ;;;
  match constraint_case ct with
  | kLinear lin =>
      match linear_vars lin with
      | [ref] =>
          let var := PositiveRef ref in
          modifyT (fun t => with_constraint_to_linear1_var_
                              (set_index (constraint_to_linear1_var_ t) c var) t) ;;;
          add_num_linear1 var 1
      | _ => retT tt
      end
  | _ => retT tt
  end.

(** The loops [for (const int v : ...)] over a vector of variables or of
    intervals. *)
Fixpoint for_each (l : list Z) (body : Z -> T unit) : T unit :=
  match l with
  | [] => retT tt
  | x :: r => body x ;;; for_each r body
  end.

Definition set_constraint_to_vars (c : Z) (vars : list Z) : T unit :=
  readT (fun t => at_index (constraint_to_vars_ (context t)) c) ;;;
  modifyT (fun t => with_context
    (with_constraint_to_vars_
       (set_index (constraint_to_vars_ (context t)) c vars) (context t)) t).

Definition set_constraint_to_intervals (c : Z) (intervals : list Z) : T unit :=
  readT (fun t => at_index (constraint_to_intervals_ t) c) ;;;
  modifyT (fun t => with_constraint_to_intervals_
                      (set_index (constraint_to_intervals_ t) c intervals) t).

Definition AddVariableUsage (c : Z) : T unit :=
  ct <- readT (fun t => at_index (constraints (working_model (context t))) c) ;;
  set_constraint_to_vars c (UsedVariables ct) ;;;
  set_constraint_to_intervals c (UsedIntervals ct) ;;;
  for_each (UsedVariables ct) (fun v => insert_usage v c) ;;;
  for_each (UsedIntervals ct) (fun i => add_interval_usage i 1) ;;;
  UpdateLinear1Usage ct c.

(** [while (i < old_size && old_usage[i] < var)]: the index [i] is
    represented by the part [old_usage[i..]] that is still to be read. *)
Fixpoint erase_smaller (c var : Z) (old_usage : list Z) : T (list Z) :=
  match old_usage with
  | [] => retT []
  | o :: rest =>
      if o <? var then erase_usage o c ;;; erase_smaller c var rest
      else retT (o :: rest)
  end.

(** The loop [for (const int var : tmp_new_usage_)]; the answer is the
    part of [old_usage] that is left. *)
Fixpoint UpdateConstraintVariableUsage_loop (c : Z) (new_usage old_usage : list Z)
    : T (list Z) :=
  match new_usage with
  | [] => retT old_usage
  | var :: new_usage =>
      old_usage <- erase_smaller c var old_usage ;;
      match old_usage with
      | o :: rest =>
          if o =? var then UpdateConstraintVariableUsage_loop c new_usage rest
          else insert_usage var c ;;;
               UpdateConstraintVariableUsage_loop c new_usage (o :: rest)
      | [] =>
          insert_usage var c ;;;
          UpdateConstraintVariableUsage_loop c new_usage []
      end
  end.

Definition UpdateConstraintVariableUsage (c : Z) : T unit :=
  ct <- readT (fun t => at_index (constraints (working_model (context t))) c) ;;
  old_intervals <- readT (fun t => at_index (constraint_to_intervals_ t) c) ;;
  for_each old_intervals (fun i => add_interval_usage i (-1)) ;;;
  set_constraint_to_intervals c (UsedIntervals ct) ;;;
  for_each (UsedIntervals ct) (fun i => add_interval_usage i 1) ;;;
  let tmp_new_usage_ := UsedVariables ct in
  old_usage <- readT (fun t => at_index (constraint_to_vars_ (context t)) c) ;;
  rest <- UpdateConstraintVariableUsage_loop c tmp_new_usage_ old_usage ;;
  for_each rest (fun v => erase_usage v c) ;;;
  set_constraint_to_vars c tmp_new_usage_ ;;;
  UpdateLinear1Usage ct c.

Definition UpdateNewConstraintsVariableUsage : T unit :=
  old_size <- getsT (fun t => length (constraint_to_vars_ (context t))) ;;
  new_size <- getsT (fun t => length (constraints (working_model (context t)))) ;;
  CHECKT (bool_decide (old_size <= new_size)%nat) ;;;
  modifyT (fun t => with_context
    (with_constraint_to_vars_
       (resize new_size [] (constraint_to_vars_ (context t))) (context t)) t) ;;;
  modifyT (fun t => with_constraint_to_linear1_var_
                      (resize new_size (-1) (constraint_to_linear1_var_ t)) t) ;;;
  modifyT (fun t => with_constraint_to_intervals_
                      (resize new_size [] (constraint_to_intervals_ t)) t) ;;;
  modifyT (fun t => with_interval_usage_ (resize new_size 0 (interval_usage_ t)) t) ;;;
  for_each (Z.of_nat <$> seq old_size (new_size - old_size)) AddVariableUsage.

(** The loop of [ConstraintVariableUsageIsConsistent] over the constraints;
    the two vectors have the same size. *)
Fixpoint ConstraintVariableUsageIsConsistent_loop
    (usage : list (list Z)) (cts : list ConstraintProto) : bool :=
  match usage, cts with
  | vars :: usage, ct :: cts =>
      if bool_decide (vars <> UsedVariables ct) then false
      else ConstraintVariableUsageIsConsistent_loop usage cts
  | _, _ => true
  end.

Definition ConstraintVariableUsageIsConsistent (s : PresolveContext) : bool :=
  if is_unsat s then true
  else if negb (bool_decide (length (constraint_to_vars_ s)
                             = length (constraints (working_model s))))
  then false
  else ConstraintVariableUsageIsConsistent_loop
         (constraint_to_vars_ s) (constraints (working_model s)).

(** ** Value encodings *)

(** A checked [int64] computation inside a method. *)
Definition int64_ofT (z : Z) : T Z := readT (fun _ => checked64 z).

(** [eq_half_encoding[key]] and [neq_half_encoding[key]]: [operator[]]
    creates the empty entry of a missing key. *)
Definition half_entry (key : Z * Z) (m : gmap (Z * Z) (gset Z))
    : gmap (Z * Z) (gset Z) :=
  <[key := default ∅ (m !! key)]> m.

Definition half_insert (key : Z * Z) (literal : Z) (m : gmap (Z * Z) (gset Z))
    : gmap (Z * Z) (gset Z) :=
  <[key := {[literal]} ∪ default ∅ (m !! key)]> m.

Definition set_encoding (key : Z * Z) (literal : Z) : T unit :=
  modifyT (fun t => with_encoding (<[key := literal]> (encoding t)) t).

Definition InsertVarValueEncoding (literal ref value : Z) : T unit :=
  let var := PositiveRef ref in
  var_value <- (if RefIsPositive ref then retT value else int64_ofT (- value)) ;;
  let key := (var, var_value) in
  previous <- getsT (fun t => encoding t !! key) ;;
  match previous with
  | None =>
      set_encoding key literal ;;;
      d <- liftT (read (DomainOf var)) ;;
      if Domain.Size d =? 2 then
        (* Encode the other literal. *)
        var_min <- liftT (read (MinOf var)) ;;
        var_max <- liftT (read (MaxOf var)) ;;
        let other_value := if value =? var_min then var_max else var_min in
        let other_key := (var, other_value) in
        other <- getsT (fun t => encoding t !! other_key) ;;
        match other with
        | Some previous_other_literal =>
            (* Other value in the domain was already encoded. *)
            if negb (previous_other_literal =? NegatedRef literal)
            then liftT (StoreBooleanEqualityRelation
                          literal (NegatedRef previous_other_literal))
            else retT tt
        | None =>
            set_encoding other_key (NegatedRef literal) ;;;
            (* Add affine relation. *)
            ct <- getsT (fun t => length (constraints (working_model (context t)))) ;;
            if Bool.eqb (RefIsPositive literal) (var_value =? var_max)
            then
              coeff <- int64_ofT (var_min - var_max) ;;
              liftT (modify (add_constraints
                (MkConstraintProto []
                   (kLinear (MkLinearConstraintProto
                               [var; PositiveRef literal] [1; coeff]
                               [var_min; var_min]))))) ;;;
              coeff <- int64_ofT (var_max - var_min) ;;
              liftT (StoreAffineRelation ct var (PositiveRef literal) coeff var_min)
            else
              coeff <- int64_ofT (var_max - var_min) ;;
              liftT (modify (add_constraints
                (MkConstraintProto []
                   (kLinear (MkLinearConstraintProto
                               [var; PositiveRef literal] [1; coeff]
                               [var_max; var_max]))))) ;;;
              coeff <- int64_ofT (var_min - var_max) ;;
              liftT (StoreAffineRelation ct var (PositiveRef literal) coeff var_max)
        end
      else
        modifyT (fun t => with_eq_half_encoding
                            (half_insert key literal (eq_half_encoding t)) t) ;;;
        liftT (AddImplyInDomain literal var (Domain.FromValue var_value)) ;;;
        modifyT (fun t => with_neq_half_encoding
                            (half_insert key (NegatedRef literal)
                               (neq_half_encoding t)) t) ;;;
        liftT (AddImplyInDomain (NegatedRef literal) var
                 (Domain.Complement (Domain.FromValue var_value)))
  | Some previous_literal =>
      if negb (literal =? previous_literal)
      then liftT (StoreBooleanEqualityRelation literal previous_literal)
      else retT tt
  end.

Definition direct_map (imply_eq : bool) (t : PresolveTables) : gmap (Z * Z) (gset Z) :=
  if imply_eq then eq_half_encoding t else neq_half_encoding t.

Definition other_map (imply_eq : bool) (t : PresolveTables) : gmap (Z * Z) (gset Z) :=
  if imply_eq then neq_half_encoding t else eq_half_encoding t.

Definition with_direct_map (imply_eq : bool) (v : gmap (Z * Z) (gset Z))
    (t : PresolveTables) : PresolveTables :=
  if imply_eq then with_eq_half_encoding v t else with_neq_half_encoding v t.

Definition InsertHalfVarValueEncoding (literal var value : Z) (imply_eq : bool)
    : T bool :=
  CHECKT (RefIsPositive var) ;;;
  (* Creates the linking maps on demand. *)
  let key := (var, value) in
  modifyT (fun t =>
    with_neq_half_encoding (half_entry key (neq_half_encoding t))
      (with_eq_half_encoding (half_entry key (eq_half_encoding t)) t)) ;;;
  (* Insert the reference literal in the half encoding map. *)
  direct <- getsT (fun t => default ∅ (direct_map imply_eq t !! key)) ;;
  let new_info := negb (bool_decide (literal ∈ direct)) in
  modifyT (fun t => with_direct_map imply_eq
                      (half_insert key literal (direct_map imply_eq t)) t) ;;;
  (if new_info then
     liftT (UpdateRuleStats "variables: detect half reified value encoding") ;;;
     other <- getsT (fun t => default ∅ (other_map imply_eq t !! key)) ;;
     if bool_decide (NegatedRef literal ∈ other) then
       let imply_eq_literal := if imply_eq then literal else NegatedRef literal in
       previous <- getsT (fun t => encoding t !! key) ;;
       match previous with
       | None =>
           set_encoding key imply_eq_literal ;;;
           liftT (UpdateRuleStats "variables: detect fully reified value encoding")
       | Some previous_imply_eq_literal =>
           if negb (imply_eq_literal =? previous_imply_eq_literal) then
             liftT (StoreBooleanEqualityRelation
                      imply_eq_literal previous_imply_eq_literal) ;;;
             liftT (UpdateRuleStats
                      "variables: merge equivalent var value encoding literals")
           else retT tt
       end
     else retT tt
   else retT tt) ;;;
  retT new_info.

Definition StoreLiteralImpliesVarEqValue (literal var value : Z) : T bool :=
  InsertHalfVarValueEncoding literal var value true.

Definition StoreLiteralImpliesVarNEqValue (literal var value : Z) : T bool :=
  InsertHalfVarValueEncoding literal var value false.

(** [HasVarValueEncoding(ref, value, literal)].  The out-parameter
    [int* literal] is [None] for [nullptr] and [Some l] for a pointer to
    an [int] of value [l]; its value after the call is returned with the
    result. *)
Definition HasVarValueEncoding (ref value : Z) (literal : option Z)
    : T (bool * option Z) :=
  let var := PositiveRef ref in
  var_value <- (if RefIsPositive ref then retT value else int64_ofT (- value)) ;;
  let key := (var, var_value) in
  it <- getsT (fun t => encoding t !! key) ;;
  match it with
  | Some encoded =>
      match literal with
      | Some _ =>
          representative <- liftT (read (GetLiteralRepresentative encoded)) ;;
          retT (true, Some representative)
      | None => retT (true, None)
      end
  | None => retT (false, literal)
  end.

Definition GetOrCreateVarValueEncoding (ref value : Z) : T Z :=
  let var := PositiveRef ref in
  var_value <- (if RefIsPositive ref then retT value else int64_ofT (- value)) ;;
  (* Returns the false literal if the value is not in the domain. *)
  d <- liftT (read (fun s => at_index (domains s) var)) ;;
  if negb (Domain.Contains d var_value) then liftT (GetOrCreateConstantVar 0)
  else
    (* Returns the associated literal if already present. *)
    let key := (var, var_value) in
    it <- getsT (fun t => encoding t !! key) ;;
    match it with
    | Some encoded => liftT (read (GetLiteralRepresentative encoded))
    | None =>
        (* Special case for fixed domains. *)
        if Domain.Size d =? 1 then
          true_literal <- liftT (GetOrCreateConstantVar 1) ;;
          set_encoding key true_literal ;;;
          retT true_literal
        else
          (* Special case for domains of size 2. *)
          var_min <- liftT (read (MinOf var)) ;;
          var_max <- liftT (read (MaxOf var)) ;;
          if Domain.Size d =? 2 then
            (* Checks if the other value is already encoded. *)
            let other_value := if var_value =? var_min then var_max else var_min in
            let other_key := (var, other_value) in
            other_it <- getsT (fun t => encoding t !! other_key) ;;
            match other_it with
            | Some other_encoded =>
                other_literal <-
                  liftT (read (GetLiteralRepresentative (NegatedRef other_encoded))) ;;
                set_encoding key other_literal ;;;
                retT other_literal
            | None =>
                if (var_min =? 0) && (var_max =? 1) then
                  representative <- liftT (read (GetLiteralRepresentative var)) ;;
                  set_encoding (var, 1) representative ;;;
                  set_encoding (var, 0) (NegatedRef representative) ;;;
                  retT (if value =? 1 then representative
                        else NegatedRef representative)
                else
                  literal <- liftT NewBoolVar ;;
                  InsertVarValueEncoding literal var var_max ;;;
                  representative <- liftT (read (GetLiteralRepresentative literal)) ;;
                  retT (if var_value =? var_max then representative
                        else NegatedRef representative)
            end
          else
            literal <- liftT NewBoolVar ;;
            InsertVarValueEncoding literal var var_value ;;;
            liftT (read (GetLiteralRepresentative literal))
    end.

Close Scope tbl_scope.

(** ** Definitions used by the statements on the tables *)

(** The tables after every set [var_to_constraints_[v]] was replaced by
    [delta v] of it. *)
Definition map_usage (delta : Z -> gset Z -> gset Z) (t : PresolveTables)
    : PresolveTables :=
  with_context
    (with_var_to_constraints_
       (imap (fun i cs => delta (Z.of_nat i) cs) (var_to_constraints_ (context t)))
       (context t)) t.

(** What the update of the usage of constraint [c] must do to the set of
    a variable [v]: insert [c] when [v] is newly used, erase it when [v]
    is no longer used. *)
Definition usage_diff (c : Z) (new_usage old_usage : list Z) (v : Z) (cs : gset Z)
    : gset Z :=
  if bool_decide (v ∈ new_usage)
  then (if bool_decide (v ∈ old_usage) then cs else {[c]} ∪ cs)
  else (if bool_decide (v ∈ old_usage) then cs ∖ {[c]} else cs).

(** [v] is an index of [var_to_constraints_]. *)
Definition in_usage_range (t : PresolveTables) (v : Z) : Prop :=
  is_Some (at_index (var_to_constraints_ (context t)) v).

(** The entries of constraint [c] in the vectors of intervals and of
    one-variable linear constraints exist and point inside the vectors
    that they index. *)
Definition usage_tables_in_range (c : Z) (t : PresolveTables) : Prop :=
  length (var_to_num_linear1_ (context t)) = length (var_to_constraints_ (context t))
  /\ (exists old_intervals,
        at_index (constraint_to_intervals_ t) c = Some old_intervals
        /\ Forall (fun i => is_Some (at_index (interval_usage_ t) i)) old_intervals)
  /\ (exists old_var,
        at_index (constraint_to_linear1_var_ t) c = Some old_var
        /\ (0 <= old_var -> in_usage_range t old_var)).

(** A method on the tables preserves a relation between the tables before
    and after each of its successful runs. *)
Definition preservesT (R : relation PresolveTables) {A} (m : T A) : Prop :=
  forall t a t', m t = Some (a, t') -> R t t'.

(** The half-encoding maps are the same. *)
Definition same_half_encodings (t t' : PresolveTables) : Prop :=
  eq_half_encoding t' = eq_half_encoding t
  /\ neq_half_encoding t' = neq_half_encoding t.

(** The encoding keeps its entries, possibly with another literal. *)
Definition encoding_grows (t t' : PresolveTables) : Prop :=
  forall key, is_Some (encoding t !! key) -> is_Some (encoding t' !! key).

(** The literal that [InsertHalfVarValueEncoding] promotes to a full
    encoding. *)
Definition imply_eq_literal (imply_eq : bool) (literal : Z) : Z :=
  if imply_eq then literal else NegatedRef literal.

(** The context after [UpdateRuleStats(name)]. *)
Definition rule_counted (name : string) (s : PresolveContext) : PresolveContext :=
  let s1 := if enable_stats s
            then with_stats_by_rule_name
                   (<[name := default 0 (stats_by_rule_name s !! name) + 1]>
                      (stats_by_rule_name s)) s
            else s in
  with_num_presolve_operations (num_presolve_operations s1 + 1) s1.

(** The tables after [InsertHalfVarValueEncoding] has created the two
    entries of [key] and inserted [literal] in the direct one. *)
Definition half_recorded (literal : Z) (key : Z * Z) (imply_eq : bool)
    (t : PresolveTables) : PresolveTables :=
  let t0 := with_neq_half_encoding (half_entry key (neq_half_encoding t))
              (with_eq_half_encoding (half_entry key (eq_half_encoding t)) t) in
  with_direct_map imply_eq (half_insert key literal (direct_map imply_eq t0)) t0.

(** The literals recorded in a half-encoding map for a key. *)
Definition half_literals (m : gmap (Z * Z) (gset Z)) (key : Z * Z) : gset Z :=
  default ∅ (m !! key).

(** The encoding is the same except at [key]. *)
Definition same_encoding_but (key : Z * Z) (t t' : PresolveTables) : Prop :=
  forall k, k <> key -> encoding t' !! k = encoding t !! k.

(** The part of [InsertHalfVarValueEncoding] that follows a new insertion
    in the direct map: the statistics, and the promotion to a full
    encoding when the other map holds the negated literal. *)
Definition InsertHalfVarValueEncoding_promotion (literal : Z) (key : Z * Z)
    (imply_eq : bool) : T unit :=
  bindT (liftT (UpdateRuleStats "variables: detect half reified value encoding"))
    (fun _ =>
  bindT (getsT (fun t => default ∅ (other_map imply_eq t !! key)))
    (fun other =>
  if bool_decide (NegatedRef literal ∈ other) then
    bindT (getsT (fun t => encoding t !! key)) (fun previous =>
    match previous with
    | None =>
        bindT (set_encoding key (imply_eq_literal imply_eq literal))
          (fun _ => liftT (UpdateRuleStats
             "variables: detect fully reified value encoding"))
    | Some previous_imply_eq_literal =>
        if negb (imply_eq_literal imply_eq literal =? previous_imply_eq_literal)
        then
          bindT (liftT (StoreBooleanEqualityRelation
                   (imply_eq_literal imply_eq literal)
                   previous_imply_eq_literal))
            (fun _ => liftT (UpdateRuleStats
               "variables: merge equivalent var value encoding literals"))
        else retT tt
    end)
  else retT tt)).

(** The entries of [objective_map] are in the form the presolve keeps
    them: positive variables of the usage graph with non-zero [int64]
    coefficients. *)
Definition objective_entries_valid (s : PresolveContext) : Prop :=
  forall v c, objective_map s !! v = Some c ->
    0 <= v /\ c <> 0 /\ in_int64 c = true
    /\ is_Some (at_index (var_to_constraints_ s) v).

(** The usage graph after the objective was read back: [-1] is added to
    the entry of each variable of [objective_map]. *)
Definition objective_usage_added (s s' : PresolveContext) : Prop :=
  forall v,
    at_index (var_to_constraints_ s') v
    = (fun cs => if bool_decide (is_Some (objective_map s !! v))
                 then {[-1]} ∪ cs else cs)
        <$> at_index (var_to_constraints_ s) v.

(** ** Contexts that instantiate the further statements *)

(** Three variables: a Boolean, [x] in [{2, 5}] and [y] in [[2, 5]]. *)
Definition three_variables_context : option PresolveContext :=
  state_of ((b <- NewBoolVar ;;
             x <- NewIntVar [(2, 2); (5, 5)] ;;
             y <- NewIntVar (Domain.FromBounds 2 5) ;;
             ret tt) empty_context).

(** The values [b = 1], [x = 5], [y = 4]. *)
Definition three_values (var : Z) : Z :=
  if var =? 0 then 1 else if var =? 1 then 5 else 4.

(** The tables of a model without variable protos: the constraints [cts],
    of which the first [length usage] are registered with the usage
    [usage], and the sets [var_usage] of the variables. *)
Definition usage_tables (cts : list ConstraintProto) (usage : list (list Z))
    (var_usage : list (gset Z)) : PresolveTables :=
  MkPresolveTables
    (with_constraint_to_vars_ usage
       (with_var_to_constraints_ var_usage
          (with_var_to_num_linear1_ (replicate (length var_usage) 0)
             (with_working_model (MkCpModelProto [] cts empty_objective)
                empty_context))))
    (replicate (length usage) (-1)) (replicate (length usage) [])
    (replicate (length usage) 0) ∅ ∅ ∅.

(** The objective [3 b - 2 y] in [[0, 10]], scaled by 2, over three
    variables. *)
Definition objective_context : PresolveContext :=
  with_objective_map {[0 := 3; 2 := -2]}
    (with_objective_domain [(0, 10)]
       (with_objective_scaling_factor 2
          (with_var_to_constraints_ [∅; ∅; ∅] empty_context))).

(** * Properties *)

(** ** Facts on domains *)

Module DomainFacts.
Import Domain.

(** *** Set semantics of the operations used by the context *)

Lemma Contains_app d1 d2 v :
  Contains (d1 ++ d2) v = Contains d1 v || Contains d2 v.
Proof. unfold Contains. apply existsb_app. Qed.

Lemma Contains_IntersectionWith d1 d2 v :
  Contains (IntersectionWith d1 d2) v = Contains d1 v && Contains d2 v.
Proof.
  unfold IntersectionWith.
  induction d1 as [|i d1 IH]; simpl; [done|].
  rewrite Contains_app, IH. clear IH.
  rewrite andb_orb_distrib_l. f_equal.
  induction d2 as [|j d2 IH]; simpl; [by rewrite andb_false_r|].
  rewrite Contains_app, IH. clear IH.
  rewrite andb_orb_distrib_r. f_equal.
  unfold interval_contains.
  destruct (Z.leb_spec (Z.max i.1 j.1) (Z.min i.2 j.2)); simpl.
  - unfold interval_contains; simpl. rewrite orb_false_r.
    apply eq_true_iff_eq.
    rewrite !andb_true_iff, !Z.leb_le. lia.
  - symmetry. apply not_true_iff_false.
    rewrite !andb_true_iff, !Z.leb_le. lia.
Qed.

Lemma IsIncludedIn_Contains d1 d2 v :
  IsIncludedIn d1 d2 = true -> Contains d1 v = true -> Contains d2 v = true.
Proof.
  unfold IsIncludedIn, Contains.
  rewrite forallb_forall, !existsb_exists.
  intros Hall (i & Hi & Hv).
  specialize (Hall i Hi). rewrite existsb_exists in Hall.
  destruct Hall as (j & Hj & Hij).
  exists j. split; [done|].
  unfold interval_contains in *.
  rewrite !andb_true_iff, !Z.leb_le in *. lia.
Qed.

Lemma IsEmpty_Contains d v : IsEmpty d = true -> Contains d v = false.
Proof. by destruct d. Qed.

Lemma valid_nonempty_Contains d :
  valid d = true -> IsEmpty d = false -> exists v, Contains d v = true.
Proof.
  destruct d as [|i d]; [done|]. simpl. intros Hv _.
  apply andb_true_iff in Hv as [Hi _]. apply Z.leb_le in Hi.
  exists i.1. unfold interval_contains.
  replace (i.1 <=? i.1) with true by (symmetry; apply Z.leb_le; lia).
  replace (i.1 <=? i.2) with true by (symmetry; by apply Z.leb_le).
  done.
Qed.

Lemma IsEmpty_IntersectionWith_value d k :
  IsEmpty (IntersectionWith d (FromValue k)) = negb (Contains d k).
Proof.
  unfold IntersectionWith, FromValue.
  induction d as [|i d IH]; [done|]. simpl.
  rewrite app_nil_r. unfold interval_contains at 1.
  destruct (Z.leb_spec (Z.max i.1 k) (Z.min i.2 k)); simpl.
  - replace ((i.1 <=? k) && (k <=? i.2)) with true; [done|].
    symmetry. rewrite andb_true_iff, !Z.leb_le. lia.
  - replace ((i.1 <=? k) && (k <=? i.2)) with false; [done|].
    symmetry. apply not_true_iff_false.
    rewrite andb_true_iff, !Z.leb_le. lia.
Qed.

(** A non-empty domain that is included in [{k}] contains [k]. *)
Lemma IsIncludedIn_value_Contains d k :
  valid d = true -> IsEmpty d = false ->
  IsIncludedIn d (FromValue k) = true -> Contains d k = true.
Proof.
  intros Hv Hne Hinc.
  destruct (valid_nonempty_Contains d Hv Hne) as [v Hc].
  pose proof (IsIncludedIn_Contains _ _ _ Hinc Hc) as Hk.
  simpl in Hk. unfold interval_contains in Hk. simpl in Hk.
  rewrite orb_false_r, andb_true_iff, !Z.leb_le in Hk.
  by replace k with v by lia.
Qed.

(** *** Canonical form *)

Lemma sorted_after_valid prev d : sorted_after prev d = true -> valid d = true.
Proof.
  revert prev. induction d as [|i d IH]; intros prev; [done|]. simpl.
  rewrite !andb_true_iff. intros [[Hi _] Hr]. split; [done|]. eauto.
Qed.

Lemma wf_valid d : wf d = true -> valid d = true.
Proof. apply sorted_after_valid. Qed.


Lemma sorted_after_None e d :
  sorted_after (Some e) d = true -> sorted_after None d = true.
Proof.
  destruct d as [|i d]; [done|]. simpl.
  rewrite !andb_true_iff. intros [[Hi _] Hr]. done.
Qed.

Lemma add_interval_sorted_cons i d :
  i.1 <= i.2 -> sorted_after (Some i.2) d = true -> add_interval i d = i :: d.
Proof.
  intros Hi Hd. destruct d as [|j r]; simpl.
  - destruct (Z.ltb_spec i.2 i.1); [lia|done].
  - simpl in Hd. rewrite !andb_true_iff, Z.ltb_lt in Hd.
    destruct Hd as [[_ Hlt] _].
    destruct (Z.ltb_spec i.2 i.1); [lia|].
    destruct (Z.ltb_spec (i.2 + 1) j.1); [done|lia].
Qed.

(** Reading back a canonical list of intervals gives the same domain. *)
Lemma FromIntervals_wf d : wf d = true -> FromIntervals d = d.
Proof.
  unfold wf, FromIntervals.
  induction d as [|i d IH]; [done|]. simpl.
  rewrite !andb_true_iff. intros [[Hi _] Hr]. apply Z.leb_le in Hi.
  rewrite IH by (eapply sorted_after_None; eauto).
  by apply add_interval_sorted_cons.
Qed.



End DomainFacts.

(** ** References, vectors and protos *)

Lemma NegatedRef_involutive ref : NegatedRef (NegatedRef ref) = ref.
Proof. unfold NegatedRef. lia. Qed.

Lemma PositiveRef_NegatedRef ref : PositiveRef (NegatedRef ref) = PositiveRef ref.
Proof. unfold PositiveRef. rewrite NegatedRef_involutive. lia. Qed.

Lemma RefIsPositive_NegatedRef ref :
  RefIsPositive (NegatedRef ref) = negb (RefIsPositive ref).
Proof. unfold RefIsPositive, NegatedRef. destruct (Z.leb_spec 0 ref); lia. Qed.

Lemma RefIsPositive_PositiveRef ref : RefIsPositive (PositiveRef ref) = true.
Proof. unfold RefIsPositive, PositiveRef, NegatedRef. lia. Qed.

Lemma PositiveRef_of_positive ref : RefIsPositive ref = true -> PositiveRef ref = ref.
Proof. unfold RefIsPositive, PositiveRef, NegatedRef. lia. Qed.

Lemma NegatedRef_neq ref : NegatedRef ref <> ref.
Proof. unfold NegatedRef. lia. Qed.

Lemma at_index_Some {A} (l : list A) i x :
  at_index l i = Some x -> 0 <= i /\ (Z.to_nat i < length l)%nat.
Proof.
  unfold at_index. destruct (Z.ltb_spec i 0); [discriminate|].
  intros H'. split; [lia|]. eapply lookup_lt_Some; eauto.
Qed.

Lemma at_index_set_index_eq {A} (l : list A) i x y :
  at_index l i = Some y -> at_index (set_index l i x) i = Some x.
Proof.
  intros H. pose proof (at_index_Some _ _ _ H) as [Hi Hl].
  unfold at_index, set_index. destruct (Z.ltb_spec i 0); [lia|].
  by apply list_lookup_insert_eq.
Qed.

Lemma at_index_set_index_ne {A} (l : list A) i j x :
  0 <= i -> i <> j -> at_index (set_index l i x) j = at_index l j.
Proof.
  intros Hi Hne. unfold at_index, set_index.
  destruct (Z.ltb_spec j 0); [done|].
  apply list_lookup_insert_ne. lia.
Qed.

Lemma flat_pairs_Fill d : flat_pairs (FillDomainInProto d) = Some d.
Proof.
  induction d as [|[a b] d IH]; [done|].
  change (FillDomainInProto ((a, b) :: d)) with (a :: b :: FillDomainInProto d).
  simpl. by rewrite IH.
Qed.

Lemma ReadDomainFromProto_Fill d :
  Domain.wf d = true -> ReadDomainFromProto (FillDomainInProto d) = Some d.
Proof.
  intros Hwf. unfold ReadDomainFromProto. rewrite flat_pairs_Fill. simpl.
  by rewrite DomainFacts.FromIntervals_wf.
Qed.


(** ** Running the monad *)

Lemma bind_Some {A B} (m : M A) (f : A -> M B) s b s' :
  bind m f s = Some (b, s') <->
  exists a s1, m s = Some (a, s1) /\ f a s1 = Some (b, s').
Proof.
  unfold bind. split.
  - destruct (m s) as [[a s1]|]; [|done]. intros Hf. by exists a, s1.
  - intros (a & s1 & Hm & Hf). by rewrite Hm.
Qed.

Lemma read_Some {A} (f : PresolveContext -> option A) s a s' :
  read f s = Some (a, s') <-> f s = Some a /\ s' = s.
Proof.
  unfold read. destruct (f s) as [x|]; split.
  - by intros [= -> ->].
  - by intros [[= ->] ->].
  - done.
  - by intros [? _].
Qed.

Lemma gets_Some {A} (f : PresolveContext -> A) s a s' :
  gets f s = Some (a, s') <-> a = f s /\ s' = s.
Proof.
  unfold gets. split.
  - by intros [= <- <-].
  - by intros [-> ->].
Qed.

Lemma modify_Some f s u s' : modify f s = Some (u, s') <-> s' = f s.
Proof.
  unfold modify. destruct u. split.
  - by intros [= <-].
  - by intros ->.
Qed.

Lemma ret_Some {A} (a : A) s b s' : ret a s = Some (b, s') <-> b = a /\ s' = s.
Proof.
  unfold ret. split.
  - by intros [= <- <-].
  - by intros [-> ->].
Qed.

Lemma CHECK_Some b s u s' : CHECK b s = Some (u, s') <-> b = true /\ s' = s.
Proof.
  unfold CHECK. destruct b, u; split; try done.
  - by intros [= <-].
  - by intros [_ ->].
  - by intros [? _].
Qed.

Lemma int64_of_Some z s a s' :
  int64_of z s = Some (a, s') <-> (in_int64 z = true /\ a = z) /\ s' = s.
Proof.
  unfold int64_of. rewrite read_Some. unfold checked64.
  destruct (in_int64 z); split.
  - by intros [[= <-] ->].
  - by intros [[_ ->] ->].
  - by intros [? _].
  - by intros [[? _] _].
Qed.

(** Decompose a successful run into the runs of its steps. *)
Ltac run_inv H :=
  repeat match type of H with
  | bind _ _ _ = Some _ =>
      let a := fresh "a" in
      let s1 := fresh "s" in
      let H1 := fresh "Hrun" in
      apply bind_Some in H as (a & s1 & H1 & H);
      first [ apply int64_of_Some in H1 as [[? ->] ->]
            | apply read_Some in H1 as [H1 ->]
            | apply gets_Some in H1 as [-> ->]
            | apply modify_Some in H1 as ->
            | apply ret_Some in H1 as [-> ->]
            | apply CHECK_Some in H1 as [H1 ->]
            | idtac ]
  | ret _ _ = Some _ => apply ret_Some in H as [? ?]
  | modify _ _ = Some _ => apply modify_Some in H
  | read _ _ = Some _ => apply read_Some in H as [H ?]
  | gets _ _ = Some _ => apply gets_Some in H as [? ?]
  | CHECK _ _ = Some _ => apply CHECK_Some in H as [H ?]
  end.

Lemma with_domains_same s : with_domains (domains s) s = s.
Proof. by destruct s. Qed.

(** ** Domain intersection *)

Lemma IntersectDomainWith_included ref domain domain_modified s cur :
  at_index (domains s) (PositiveRef ref) = Some cur ->
  Domain.IsIncludedIn cur (signed_domain ref domain) = true ->
  IntersectDomainWith ref domain domain_modified s = Some ((true, domain_modified), s).
Proof.
  intros Hcur Hinc. unfold IntersectDomainWith, bind, read. rewrite Hcur.
  unfold signed_domain in Hinc. destruct (RefIsPositive ref); simpl; by rewrite Hinc.
Qed.

Lemma IntersectDomainWith_narrows ref domain domain_modified s cur bit :
  at_index (domains s) (PositiveRef ref) = Some cur ->
  at_index (modified_domains s) (PositiveRef ref) = Some bit ->
  Domain.IsIncludedIn cur (signed_domain ref domain) = false ->
  let new_domain := Domain.IntersectionWith cur (signed_domain ref domain) in
  IntersectDomainWith ref domain domain_modified s =
    Some ((negb (Domain.IsEmpty new_domain), (fun _ => true) <$> domain_modified),
          narrowed (PositiveRef ref) new_domain s).
Proof.
  intros Hcur Hbit Hinc new_domain. subst new_domain.
  unfold IntersectDomainWith, bind, read. rewrite Hcur.
  unfold signed_domain in *.
  destruct (RefIsPositive ref); simpl; rewrite Hinc; simpl;
    unfold SparseBitset.Set_; simpl; rewrite Hbit; simpl; unfold narrowed;
    match goal with |- context [Domain.IsEmpty ?d] => destruct (Domain.IsEmpty d) end;
    done.
Qed.

(** C1.  [IntersectDomainWith(ref, domain, domain_modified)] on an existing
    variable [var = PositiveRef(ref)], with [D] the domain itself for a
    positive reference and its negation for a negated one:
    - when [domains[var]] is included in [D] the call returns true and the
      context and the out-flag are unchanged;
    - otherwise [domains[var]] becomes [domains[var].IntersectionWith(D)],
      the out-flag (if any) and the bit [modified_domains[var]] are set,
      the other domains are untouched, the result is false exactly when
      the new domain is empty, and then [is_unsat] is true (it is left as
      it was otherwise);
    - in both cases the domain of [var] afterwards contains exactly the
      values of its former domain that are in [D]. *)
Theorem IntersectDomainWith_spec ref domain domain_modified s cur bit :
  at_index (domains s) (PositiveRef ref) = Some cur ->
  at_index (modified_domains s) (PositiveRef ref) = Some bit ->
  let var := PositiveRef ref in
  let D := signed_domain ref domain in
  exists result flag s' new_domain,
    IntersectDomainWith ref domain domain_modified s = Some ((result, flag), s')
    /\ at_index (domains s') var = Some new_domain
    /\ (forall v, Domain.Contains new_domain v
                  = Domain.Contains cur v && Domain.Contains D v)
    /\ (forall w, w <> var -> at_index (domains s') w = at_index (domains s) w)
    /\ (Domain.IsIncludedIn cur D = true ->
          result = true /\ s' = s /\ flag = domain_modified)
    /\ (Domain.IsIncludedIn cur D = false ->
          new_domain = Domain.IntersectionWith cur D
          /\ s' = narrowed var new_domain s
          /\ at_index (modified_domains s') var = Some true
          /\ flag = (fun _ => true) <$> domain_modified
          /\ (result = false <-> Domain.IsEmpty new_domain = true)
          /\ is_unsat s' = (is_unsat s || Domain.IsEmpty new_domain)).
Proof.
  intros Hcur Hbit var D.
  destruct (Domain.IsIncludedIn cur D) eqn:Hinc.
  - exists true, domain_modified, s, cur.
    split; [by eapply IntersectDomainWith_included|].
    split; [done|]. split.
    { intros v. destruct (Domain.Contains cur v) eqn:Hv; [|done].
      symmetry. simpl. eapply DomainFacts.IsIncludedIn_Contains; eauto. }
    repeat split; done.
  - set (new_domain := Domain.IntersectionWith cur D).
    exists (negb (Domain.IsEmpty new_domain)),
           ((fun _ => true) <$> domain_modified),
           (narrowed var new_domain s), new_domain.
    split; [by apply IntersectDomainWith_narrows with (bit := bit)|].
    assert (Hdom : domains (narrowed var new_domain s)
                   = set_index (domains s) var new_domain).
    { unfold narrowed. by destruct (Domain.IsEmpty new_domain). }
    assert (Hmod : modified_domains (narrowed var new_domain s)
                   = set_index (modified_domains s) var true).
    { unfold narrowed. by destruct (Domain.IsEmpty new_domain). }
    split; [rewrite Hdom; by eapply at_index_set_index_eq|].
    split; [intros v; apply DomainFacts.Contains_IntersectionWith|].
    split.
    { intros w Hw. rewrite Hdom. apply at_index_set_index_ne; [|done].
      by apply at_index_Some in Hcur as [? _]. }
    split; [done|]. intros _.
    repeat split; try done.
    + rewrite Hmod. by eapply at_index_set_index_eq.
    + by intros ?%negb_false_iff.
    + by intros ->.
    + unfold narrowed. destruct (Domain.IsEmpty new_domain); simpl;
        by rewrite ?orb_true_r, ?orb_false_r.
Qed.

(** Scenario 1: [x] in [{0,...,4}] intersected with [[2, +oo)]. *)
Lemma IntersectDomainWith_spec_witness :
  exists result flag s' new_domain,
    IntersectDomainWith 0 (Domain.FromBounds 2 kint64max) (Some false)
      (with_modified_domains [false] (with_domains [[(0, 4)]] empty_context))
    = Some ((result, flag), s')
    /\ at_index (domains s') 0 = Some new_domain
    /\ new_domain = [(2, 4)]
    /\ result = true
    /\ flag = Some true
    /\ at_index (modified_domains s') 0 = Some true
    /\ MinOf 0 s' = Some 2.
Proof.
  destruct (IntersectDomainWith_spec 0 (Domain.FromBounds 2 kint64max) (Some false)
              (with_modified_domains [false] (with_domains [[(0, 4)]] empty_context))
              [(0, 4)] false eq_refl eq_refl)
    as (result & flag & s' & new_domain & Hrun & Hdom & _ & _ & _ & Hnarrow).
  destruct (Hnarrow eq_refl) as (Hnew & Hs' & Hbit & Hflag & Hres & _).
  exists result, flag, s', new_domain.
  repeat split; try done.
  - destruct result; [done|]. by destruct Hres as [Hres _]; specialize (Hres eq_refl); subst.
  - by subst.
Defined.

(** ** The absolute-value dictionary *)

(** C10.  [StoreAbsRelation(target_ref, ref)] returns true and records
    [(target_ref, PositiveRef(ref))] exactly when [abs_relations] has no
    entry for [target_ref]; when an entry exists, whatever its value (also
    [PositiveRef(ref)] itself), it returns false and the context is
    unchanged. *)
Theorem StoreAbsRelation_spec target_ref ref s :
  (abs_relations s !! target_ref = None ->
     StoreAbsRelation target_ref ref s =
       Some (true, with_abs_relations
                     (<[target_ref := PositiveRef ref]> (abs_relations s)) s))
  /\ (forall existing, abs_relations s !! target_ref = Some existing ->
        StoreAbsRelation target_ref ref s = Some (false, s))
  /\ (forall s', StoreAbsRelation target_ref ref s = Some (true, s') ->
        abs_relations s !! target_ref = None
        /\ abs_relations s' !! target_ref = Some (PositiveRef ref))
  /\ (forall s1 r1,
        StoreAbsRelation target_ref ref s = Some (r1, s1) ->
        StoreAbsRelation target_ref ref s1 = Some (false, s1)).
Proof.
  unfold StoreAbsRelation, bind, gets, modify, ret.
  destruct (abs_relations s !! target_ref) as [e|] eqn:He; simpl.
  - split; [done|]. split; [done|]. split; [done|].
    intros s1 r1 [= <- <-]. by rewrite He.
  - split; [done|]. split; [done|]. split.
    + intros s' [= <-]. simpl. split; [done|]. apply lookup_insert_eq.
    + intros s1 r1 [= <- <-]. simpl. by rewrite lookup_insert_eq.
Qed.

Lemma StoreAbsRelation_spec_witness :
  StoreAbsRelation 2 (-4) empty_context
    = Some (true, with_abs_relations {[2 := 3]} empty_context)
  /\ StoreAbsRelation 2 (-4) (with_abs_relations {[2 := 3]} empty_context)
     = Some (false, with_abs_relations {[2 := 3]} empty_context).
Proof.
  split.
  - apply (proj1 (StoreAbsRelation_spec 2 (-4) empty_context)). reflexivity.
  - apply (proj1 (proj2 (StoreAbsRelation_spec 2 (-4)
                           (with_abs_relations {[2 := 3]} empty_context))) 3).
    reflexivity.
Defined.

(** ** Asserting a literal *)

Lemma PositiveRef_idemp ref : PositiveRef (PositiveRef ref) = PositiveRef ref.
Proof. unfold PositiveRef, NegatedRef. lia. Qed.

Lemma signed_domain_PositiveRef ref d : signed_domain (PositiveRef ref) d = d.
Proof. unfold signed_domain. by rewrite RefIsPositive_PositiveRef. Qed.

Lemma SetLiteralToTrue_unfold lit :
  SetLiteralToTrue lit =
  (r <- IntersectDomainWith (PositiveRef lit) (Domain.FromValue (true_value lit)) None ;;
   ret r.1).
Proof.
  unfold SetLiteralToTrue, SetLiteralToFalse, true_value.
  rewrite PositiveRef_NegatedRef, RefIsPositive_NegatedRef.
  by destruct (RefIsPositive lit).
Qed.

Lemma SetLiteralToFalse_unfold lit :
  SetLiteralToFalse lit =
  (r <- IntersectDomainWith (PositiveRef lit)
                            (Domain.FromValue (1 - true_value lit)) None ;;
   ret r.1).
Proof.
  unfold SetLiteralToFalse, true_value. by destruct (RefIsPositive lit).
Qed.

(** Intersecting the domain [cur] of an existing variable with [{value}]. *)
Lemma IntersectDomainWith_value var value s cur bit :
  at_index (domains s) (PositiveRef var) = Some cur ->
  at_index (modified_domains s) (PositiveRef var) = Some bit ->
  Domain.valid cur = true ->
  Domain.IsEmpty cur = false ->
  exists result s' new_domain,
    (r <- IntersectDomainWith (PositiveRef var) (Domain.FromValue value) None ;;
     ret r.1) s = Some (result, s')
    /\ at_index (domains s') (PositiveRef var) = Some new_domain
    /\ (forall v, Domain.Contains new_domain v = Domain.Contains cur v && (v =? value))
    /\ (forall w, w <> PositiveRef var ->
                  at_index (domains s') w = at_index (domains s) w)
    /\ (result = false <-> Domain.Contains cur value = false)
    /\ is_unsat s' = (is_unsat s || negb result).
Proof.
  intros Hcur Hbit Hvalid Hne.
  assert (Hsingle : forall v, Domain.Contains (Domain.FromValue value) v = (v =? value)).
  { intros v. simpl. unfold Domain.interval_contains. simpl.
    rewrite orb_false_r. apply eq_true_iff_eq.
    rewrite andb_true_iff, !Z.leb_le, Z.eqb_eq. lia. }
  destruct (Domain.IsIncludedIn cur (Domain.FromValue value)) eqn:Hincl.
  - exists true, s, cur.
    split.
    { unfold bind.
      rewrite (IntersectDomainWith_included _ _ None s cur); [done| |].
      - by rewrite PositiveRef_idemp.
      - by rewrite signed_domain_PositiveRef. }
    split; [done|]. split.
    { intros v. rewrite <- Hsingle.
      destruct (Domain.Contains cur v) eqn:Hv; [|done].
      symmetry. eapply DomainFacts.IsIncludedIn_Contains; eauto. }
    split; [done|].
    rewrite (DomainFacts.IsIncludedIn_value_Contains cur value Hvalid Hne Hincl).
    split; [done|]. by rewrite orb_false_r.
  - set (new_domain := Domain.IntersectionWith cur (Domain.FromValue value)).
    exists (negb (Domain.IsEmpty new_domain)),
           (narrowed (PositiveRef var) new_domain s), new_domain.
    assert (Hdom : domains (narrowed (PositiveRef var) new_domain s)
                   = set_index (domains s) (PositiveRef var) new_domain).
    { unfold narrowed. by destruct (Domain.IsEmpty new_domain). }
    split.
    { unfold bind.
      rewrite (IntersectDomainWith_narrows _ _ None s cur bit).
      - by rewrite PositiveRef_idemp, signed_domain_PositiveRef.
      - by rewrite PositiveRef_idemp.
      - by rewrite PositiveRef_idemp.
      - by rewrite signed_domain_PositiveRef. }
    split; [rewrite Hdom; by eapply at_index_set_index_eq|].
    split.
    { intros v. rewrite <- Hsingle. apply DomainFacts.Contains_IntersectionWith. }
    split.
    { intros w Hw. rewrite Hdom. apply at_index_set_index_ne; [|done].
      by apply at_index_Some in Hcur as [? _]. }
    subst new_domain. rewrite DomainFacts.IsEmpty_IntersectionWith_value.
    rewrite negb_involutive. split; [done|].
    unfold narrowed. rewrite DomainFacts.IsEmpty_IntersectionWith_value.
    destruct (Domain.Contains cur value); simpl;
      by rewrite ?orb_true_r, ?orb_false_r.
Qed.

Lemma literal_can_be_true lit s cur :
  at_index (domains s) (PositiveRef lit) = Some cur ->
  literal_can_be lit 1 s = Some (Domain.Contains cur (true_value lit)).
Proof.
  intros Hcur. unfold literal_can_be, true_value. rewrite Hcur. simpl.
  by destruct (RefIsPositive lit).
Qed.

Lemma literal_can_be_false lit s cur :
  at_index (domains s) (PositiveRef lit) = Some cur ->
  literal_can_be lit 0 s = Some (Domain.Contains cur (1 - true_value lit)).
Proof.
  intros Hcur. unfold literal_can_be, true_value. rewrite Hcur. simpl.
  by destruct (RefIsPositive lit).
Qed.

(** C9.  Without any assumption that [lit] is usable as a literal,
    [SetLiteralToTrue(lit)] is the call
    [IntersectDomainWith(PositiveRef(lit), {1})] for a positive [lit] and
    [IntersectDomainWith(PositiveRef(lit), {0})] for a negated one, and
    [SetLiteralToFalse(lit)] is the same call with the other value.  On an
    existing variable with a non-empty domain (the [DCHECK] of
    [IntersectDomainWith]), Boolean or not, the call narrows the domain to
    that single value; it returns false, with [is_unsat] set, exactly when
    that value is not in the domain of the variable, that is when 1
    (for [SetLiteralToFalse]: 0) is not in the signed domain of [lit]. *)
Theorem SetLiteralToTrue_spec lit s :
  let var := PositiveRef lit in
  let value := true_value lit in
  SetLiteralToTrue lit s
    = (r <- IntersectDomainWith var (Domain.FromValue value) None ;; ret r.1) s
  /\ SetLiteralToFalse lit s
    = (r <- IntersectDomainWith var (Domain.FromValue (1 - value)) None ;; ret r.1) s
  /\ forall cur bit,
       at_index (domains s) var = Some cur ->
       at_index (modified_domains s) var = Some bit ->
       Domain.valid cur = true ->
       Domain.IsEmpty cur = false ->
       (exists result s' new_domain,
          SetLiteralToTrue lit s = Some (result, s')
          /\ at_index (domains s') var = Some new_domain
          /\ (forall v, Domain.Contains new_domain v
                        = Domain.Contains cur v && (v =? value))
          /\ (result = false <-> Domain.Contains cur value = false)
          /\ (result = false <-> literal_can_be lit 1 s = Some false)
          /\ is_unsat s' = (is_unsat s || negb result))
       /\ (exists result s' new_domain,
          SetLiteralToFalse lit s = Some (result, s')
          /\ at_index (domains s') var = Some new_domain
          /\ (forall v, Domain.Contains new_domain v
                        = Domain.Contains cur v && (v =? 1 - value))
          /\ (result = false <-> Domain.Contains cur (1 - value) = false)
          /\ (result = false <-> literal_can_be lit 0 s = Some false)
          /\ is_unsat s' = (is_unsat s || negb result)).
Proof.
  intros var value. subst var value.
  split; [by rewrite SetLiteralToTrue_unfold|].
  split; [by rewrite SetLiteralToFalse_unfold|].
  intros cur bit Hcur Hbit Hvalid Hne. split.
  - destruct (IntersectDomainWith_value lit (true_value lit) s cur bit
                Hcur Hbit Hvalid Hne)
      as (result & s' & new_domain & Hrun & Hdom & Hsem & _ & Hres & Hunsat).
    exists result, s', new_domain.
    rewrite SetLiteralToTrue_unfold, (literal_can_be_true _ _ _ Hcur).
    split; [done|]. split; [done|]. split; [done|]. split; [done|].
    split; [|done]. rewrite Hres. split; [by intros ->|by intros [= ->]].
  - destruct (IntersectDomainWith_value lit (1 - true_value lit) s cur bit
                Hcur Hbit Hvalid Hne)
      as (result & s' & new_domain & Hrun & Hdom & Hsem & _ & Hres & Hunsat).
    exists result, s', new_domain.
    rewrite SetLiteralToFalse_unfold, (literal_can_be_false _ _ _ Hcur).
    split; [done|]. split; [done|]. split; [done|]. split; [done|].
    split; [|done]. rewrite Hres. split; [by intros ->|by intros [= ->]].
Qed.

(** A negated reference to a variable of domain [{0, 2, 5}]: asserting the
    literal narrows the domain to [{0}]; on [{2, 5}] it fails. *)
Lemma SetLiteralToTrue_spec_witness :
  (exists s', SetLiteralToTrue (-1)
                (with_modified_domains [false] (with_domains [[(0, 0); (2, 2); (5, 5)]]
                   empty_context)) = Some (true, s')
              /\ domains s' = [[(0, 0)]] /\ is_unsat s' = false)
  /\ (exists s', SetLiteralToTrue (-1)
                (with_modified_domains [false] (with_domains [[(2, 2); (5, 5)]]
                   empty_context)) = Some (false, s')
              /\ is_unsat s' = true).
Proof.
  split.
  - destruct (proj2 (proj2 (SetLiteralToTrue_spec (-1)
        (with_modified_domains [false] (with_domains [[(0, 0); (2, 2); (5, 5)]]
           empty_context)))) [(0, 0); (2, 2); (5, 5)] false
        eq_refl eq_refl eq_refl eq_refl)
      as [(result & s' & new_domain & Hrun & _) _].
    vm_compute in Hrun. injection Hrun as <- <-.
    eexists. split; [vm_compute; reflexivity|]. split; reflexivity.
  - destruct (proj2 (proj2 (SetLiteralToTrue_spec (-1)
        (with_modified_domains [false] (with_domains [[(2, 2); (5, 5)]]
           empty_context)))) [(2, 2); (5, 5)] false
        eq_refl eq_refl eq_refl eq_refl)
      as [(result & s' & new_domain & Hrun & _) _].
    vm_compute in Hrun. injection Hrun as <- <-.
    eexists. split; [vm_compute; reflexivity|]. reflexivity.
Defined.

(** ** What the relation store leaves alone *)

Lemma relations_frame_refl s : relations_frame s s.
Proof.
  exists (affine_relations_ s), (var_equiv_relations_ s),
         (modified_domains s), (affine_constraints s).
  by destruct s.
Qed.

Lemma relations_frame_trans s1 s2 s3 :
  relations_frame s1 s2 -> relations_frame s2 s3 -> relations_frame s1 s3.
Proof.
  intros (ar & er & md & ac & ->) (ar' & er' & md' & ac' & ->).
  by exists ar', er', md', ac'.
Qed.

Lemma relations_frame_core s s' :
  relations_frame s s' ->
  working_model s' = working_model s
  /\ domains s' = domains s
  /\ is_unsat s' = is_unsat s
  /\ constant_to_ref s' = constant_to_ref s
  /\ abs_relations s' = abs_relations s.
Proof. by intros (ar & er & md & ac & ->). Qed.

Lemma with_repo_frame repo v s : relations_frame s (with_repo repo v s).
Proof.
  destruct repo; simpl.
  - exists v, (var_equiv_relations_ s), (modified_domains s), (affine_constraints s).
    by destruct s.
  - exists (affine_relations_ s), v, (modified_domains s), (affine_constraints s).
    by destruct s.
Qed.

Lemma with_modified_domains_frame v s : relations_frame s (with_modified_domains v s).
Proof.
  exists (affine_relations_ s), (var_equiv_relations_ s), v, (affine_constraints s).
  by destruct s.
Qed.

Lemma with_affine_constraints_frame v s :
  relations_frame s (with_affine_constraints v s).
Proof.
  exists (affine_relations_ s), (var_equiv_relations_ s), (modified_domains s), v.
  by destruct s.
Qed.

(** The rules of [preserves] for the operations of the monad. *)
Section Preserves.

  Context (R : relation PresolveContext) `{!Reflexive R} `{!Transitive R}.

Lemma preserves_ret {A} (a : A) : preserves R (ret a).
Proof. intros s b s' [-> ->]%ret_Some. reflexivity. Qed.

Lemma preserves_read {A} (f : PresolveContext -> option A) : preserves R (read f).
Proof. intros s b s' [_ ->]%read_Some. reflexivity. Qed.

Lemma preserves_gets {A} (f : PresolveContext -> A) : preserves R (gets f).
Proof. intros s b s' [_ ->]%gets_Some. reflexivity. Qed.

Lemma preserves_CHECK b : preserves R (CHECK b).
Proof. intros s u s' [_ ->]%CHECK_Some. reflexivity. Qed.

Lemma preserves_modify f : (forall s, R s (f s)) -> preserves R (modify f).
Proof. intros Hf s u s' ->%modify_Some. apply Hf. Qed.

Lemma preserves_bind {A B} (m : M A) (f : A -> M B) :
  preserves R m -> (forall a, preserves R (f a)) -> preserves R (bind m f).
Proof.
  intros Hm Hf s b s' (a & s1 & H1 & H2)%bind_Some.
  transitivity s1; [by eapply Hm|by eapply Hf].
Qed.

End Preserves.

Ltac preserves_step :=
  lazymatch goal with
  | |- preserves _ (ret _) => apply preserves_ret; typeclasses eauto
  | |- preserves _ (read _) => apply preserves_read; typeclasses eauto
  | |- preserves _ (gets _) => apply preserves_gets; typeclasses eauto
  | |- preserves _ (CHECK _) => apply preserves_CHECK; typeclasses eauto
  | |- preserves _ (bind _ _) => apply preserves_bind; [typeclasses eauto| |intros ?]
  | |- preserves _ (if ?b then _ else _) => destruct b
  | |- preserves _ (match ?x with _ => _ end) => destruct x
  end.

Global Instance relations_frame_Reflexive : Reflexive relations_frame.
Proof. intros s. apply relations_frame_refl. Qed.

Global Instance relations_frame_Transitive : Transitive relations_frame.
Proof. intros s1 s2 s3. apply relations_frame_trans. Qed.

Lemma repo_TryAdd_frame repo x y c o ax ay :
  preserves relations_frame (repo_TryAdd repo x y c o ax ay).
Proof.
  unfold repo_TryAdd. repeat preserves_step.
  apply preserves_modify. apply with_repo_frame.
Qed.

Lemma AddRelation_frame x y c o repo :
  preserves relations_frame (AddRelation x y c o repo).
Proof.
  unfold AddRelation. repeat preserves_step; apply repo_TryAdd_frame.
Qed.

Lemma StoreAffineRelation_frame ct ref_x ref_y coeff offset :
  preserves relations_frame (StoreAffineRelation ct ref_x ref_y coeff offset).
Proof.
  unfold StoreAffineRelation.
  repeat preserves_step;
    first [ apply AddRelation_frame
          | apply preserves_modify; intros;
            first [ apply with_modified_domains_frame
                  | apply with_affine_constraints_frame ] ].
Qed.

Global Instance same_core_Reflexive : Reflexive same_core.
Proof. by intros s. Qed.

Global Instance same_core_Transitive : Transitive same_core.
Proof.
  intros s1 s2 s3 (H1 & H2 & H3) (H1' & H2' & H3').
  unfold same_core. by rewrite H1', H2', H3'.
Qed.

Lemma preserves_weaken (R R' : relation PresolveContext) {A} (m : M A) :
  (forall s s', R s s' -> R' s s') -> preserves R m -> preserves R' m.
Proof. intros HR Hm s a s' Hrun. apply HR. by eapply Hm. Qed.

Lemma relations_frame_same_core s s' : relations_frame s s' -> same_core s s'.
Proof. intros H. apply relations_frame_core in H. unfold same_core. tauto. Qed.

Lemma AddRelation_same_core x y c o repo :
  preserves same_core (AddRelation x y c o repo).
Proof.
  eapply preserves_weaken; [apply relations_frame_same_core|].
  apply AddRelation_frame.
Qed.

Lemma ExploitFixedDomain_same_core var : preserves same_core (ExploitFixedDomain var).
Proof.
  unfold ExploitFixedDomain.
  repeat preserves_step;
    first [ apply AddRelation_same_core
          | apply preserves_modify; by intros ].
Qed.

(** ** The domain invariant *)

Lemma same_core_invariant s s' :
  same_core s s' -> domains_invariant s -> domains_invariant s'.
Proof.
  intros (_ & Hd & Hu). unfold domains_invariant, nonempty_domains.
  by rewrite Hd, Hu.
Qed.

Lemma IntersectDomainWith_invariant ref domain flag s r s' :
  domains_invariant s ->
  IntersectDomainWith ref domain flag s = Some (r, s') ->
  domains_invariant s'.
Proof.
  intros Hinv H. unfold IntersectDomainWith in H. run_inv H.
  match type of H with
  | context [match ?x with Some _ => _ | None => _ end] => destruct x as [new_domain|]
  end.
  - run_inv H.
    destruct (Domain.IsEmpty new_domain) eqn:Hempty.
    + run_inv H. subst. by left.
    + run_inv H. subst.
      destruct Hinv as [Hunsat|Hne]; [by left|].
      right. unfold nonempty_domains. simpl. unfold set_index. by apply Forall_insert.
  - run_inv H. by subst.
Qed.

Lemma SetLiteralToFalse_invariant lit s r s' :
  domains_invariant s -> SetLiteralToFalse lit s = Some (r, s') ->
  domains_invariant s'.
Proof.
  intros Hinv H. unfold SetLiteralToFalse in H. run_inv H. subst.
  destruct a. by eapply IntersectDomainWith_invariant.
Qed.

Lemma InitializeNewDomains_loop_invariant new_variables s completed s' :
  domains_invariant s ->
  InitializeNewDomains_loop new_variables s = Some (completed, s') ->
  domains_invariant s'
  /\ working_model s' = working_model s
  /\ (is_unsat s = true -> is_unsat s' = true)
  /\ (completed = false -> is_unsat s' = true)
  /\ (completed = true ->
        Forall (fun v => exists d, ReadDomainFromProto (variable_domain v) = Some d
                                   /\ Domain.IsEmpty d = false) new_variables).
Proof.
  revert s. induction new_variables as [|var_proto rest IH]; intros s Hinv H.
  - simpl in H. run_inv H. subst. repeat split; try done.
  - simpl in H. run_inv H.
    rename a into d.
    destruct (Domain.IsEmpty d) eqn:Hempty.
    + run_inv H. subst. simpl. repeat split; try done. by left.
    + run_inv H.
      set (s1 := with_domains (domains s ++ [d]) s) in *.
      assert (Hinv1 : domains_invariant s1).
      { destruct Hinv as [Hu|Hne]; [by left|right].
        unfold nonempty_domains. simpl. apply Forall_app. split; [done|].
        by apply Forall_singleton. }
      assert (Hcore : same_core s1 s0).
      { destruct a.
        - by eapply ExploitFixedDomain_same_core.
        - run_inv Hrun1. by subst. }
      pose proof (same_core_invariant _ _ Hcore Hinv1) as Hinv0.
      destruct (IH s0 Hinv0 H) as (Hi & Hw & Hu & Hc & Hall).
      destruct Hcore as (Hw1 & Hd1 & Hu1).
      split; [done|]. split; [by rewrite Hw, Hw1|].
      split; [intros Hs; apply Hu; by rewrite Hu1|].
      split; [done|].
      intros Hcompleted. constructor; [by exists d|by apply Hall].
Qed.

Lemma InitializeNewDomains_invariant s u s' :
  domains_invariant s ->
  InitializeNewDomains s = Some (u, s') ->
  domains_invariant s' /\ working_model s' = working_model s.
Proof.
  intros Hinv H. unfold InitializeNewDomains in H. run_inv H.
  destruct (InitializeNewDomains_loop_invariant _ _ _ _ Hinv Hrun)
    as (Hi & Hw & _).
  destruct a.
  - run_inv H. subst s'. split; [|done].
    destruct Hi as [Hu|Hne]; [by left|by right].
  - run_inv H. by subst.
Qed.

Lemma add_variables_invariant var_proto s :
  domains_invariant s -> domains_invariant (add_variables var_proto s).
Proof. by intros [Hu|Hne]; [left|right]. Qed.

Lemma NewIntVar_invariant domain s i s' :
  domains_invariant s -> NewIntVar domain s = Some (i, s') -> domains_invariant s'.
Proof.
  intros Hinv H. unfold NewIntVar in H. run_inv H. subst.
  eapply InitializeNewDomains_invariant; [|exact Hrun].
  by apply add_variables_invariant.
Qed.

Lemma GetOrCreateConstantVar_invariant cst s i s' :
  domains_invariant s -> GetOrCreateConstantVar cst s = Some (i, s') ->
  domains_invariant s'.
Proof.
  intros Hinv H. unfold GetOrCreateConstantVar in H. run_inv H. subst.
  destruct (constant_to_ref s !! cst).
  - run_inv Hrun. by subst.
  - run_inv Hrun.
    eapply InitializeNewDomains_invariant; [|exact Hrun].
    apply add_variables_invariant.
    by destruct Hinv as [Hu|Hne]; [left|right].
Qed.

Lemma run_operation_invariant op s u s' :
  domains_invariant s -> run_operation op s = Some (u, s') -> domains_invariant s'.
Proof.
  intros Hinv H. destruct op; simpl in H; run_inv H; subst.
  - by eapply NewIntVar_invariant.
  - by eapply GetOrCreateConstantVar_invariant.
  - by eapply IntersectDomainWith_invariant.
  - by eapply SetLiteralToFalse_invariant.
  - by eapply SetLiteralToFalse_invariant.
Qed.

(** C2.  The invariant "every entry of [domains] is a non-empty domain, or
    [is_unsat] is true" holds in the initial context and after every
    operation of every sequence of variable creations ([NewIntVar],
    [GetOrCreateConstantVar]) and domain updates ([IntersectDomainWith],
    [SetLiteralToTrue], [SetLiteralToFalse]) started in a context where it
    holds; and creating a variable with an empty domain, in a context
    whose existing variables all have their domain, sets [is_unsat]. *)
Theorem domains_invariant_preserved :
  domains_invariant empty_context
  /\ (forall ops s u s',
        domains_invariant s ->
        run_operations ops s = Some (u, s') ->
        domains_invariant s')
  /\ (forall domain s i s',
        domains_invariant s ->
        (length (domains s) <= length (variables (working_model s)))%nat ->
        Domain.IsEmpty domain = true ->
        NewIntVar domain s = Some (i, s') ->
        is_unsat s' = true).
Proof.
  split; [right; constructor|]. split.
  - intros ops. induction ops as [|op rest IH]; intros s u s' Hinv H.
    + simpl in H. run_inv H. by subst.
    + simpl in H. run_inv H.
      eapply IH; [|exact H]. by eapply run_operation_invariant.
  - intros domain s i s' Hinv Hlen Hempty H.
    unfold NewIntVar in H. run_inv H. subst.
    unfold InitializeNewDomains in Hrun. run_inv Hrun.
    match goal with
    | Hloop : InitializeNewDomains_loop _ _ = Some _ |- _ =>
        apply InitializeNewDomains_loop_invariant in Hloop
          as (_ & _ & _ & Hfalse & Htrue);
        [|by apply add_variables_invariant]
    end.
    match goal with
    | Hif : (if ?b then _ else _) _ = Some _ |- _ => destruct b; run_inv Hif; subst
    end.
    + exfalso. specialize (Htrue eq_refl).
      simpl in Htrue. rewrite drop_app_le in Htrue by done.
      apply Forall_app in Htrue as [_ Hnew].
      apply Forall_singleton in Hnew as (d & Hread & Hne).
      simpl in Hread. destruct domain; [|done].
      by injection Hread as <-.
    + by apply Hfalse.
Qed.

(** A run that narrows a domain, creates a constant and then empties a
    domain; and the creation of a variable without values. *)
Lemma domains_invariant_preserved_witness :
  (exists s',
     run_operations
       [new_variable (Domain.FromBounds 0 4);
        intersect_domain 0 (Domain.FromBounds 2 kint64max) None;
        get_or_create_constant 7;
        set_literal_false (-1)] empty_context = Some (tt, s')
     /\ domains s' = [[]; [(7, 7)]]
     /\ is_unsat s' = true
     /\ domains_invariant s')
  /\ (exists i s', NewIntVar [] empty_context = Some (i, s') /\ is_unsat s' = true).
Proof.
  split.
  - eexists. split; [vm_compute; reflexivity|].
    split; [reflexivity|]. split; [reflexivity|].
    eapply (proj1 (proj2 domains_invariant_preserved)
              [new_variable (Domain.FromBounds 0 4);
               intersect_domain 0 (Domain.FromBounds 2 kint64max) None;
               get_or_create_constant 7;
               set_literal_false (-1)] empty_context tt).
    + exact (proj1 domains_invariant_preserved).
    + vm_compute. reflexivity.
  - eexists _, _. split; [vm_compute; reflexivity|].
    eapply (proj2 (proj2 domains_invariant_preserved) [] empty_context).
    + exact (proj1 domains_invariant_preserved).
    + simpl. lia.
    + reflexivity.
    + vm_compute. reflexivity.
Defined.

(** ** Creating a variable in an initialized context *)

Lemma NewIntVar_fresh domain s i s' :
  initialized s ->
  NewIntVar domain s = Some (i, s') ->
  exists d,
    ReadDomainFromProto (FillDomainInProto domain) = Some d
    /\ i = Z.of_nat (length (domains s))
    /\ domains s' = domains s ++ [d]
    /\ initialized s'
    /\ constraints (working_model s') = constraints (working_model s)
    /\ is_unsat s' = (is_unsat s || Domain.IsEmpty d).
Proof.
  unfold initialized. intros Hlen H.
  unfold NewIntVar in H. run_inv H. subst.
  unfold InitializeNewDomains in Hrun. run_inv Hrun.
  simpl in Hrun0. rewrite Hlen, drop_app_length in Hrun0.
  simpl in Hrun0. run_inv Hrun0.
  match goal with
  | Hr : ReadDomainFromProto _ = Some ?x |- _ => rename x into d
  end.
  exists d. split; [done|].
  destruct (Domain.IsEmpty d) eqn:Hempty.
  - run_inv Hrun0. subst. run_inv Hrun. subst. simpl.
    rewrite !length_app. simpl. rewrite orb_true_r. repeat split; try done; lia.
  - run_inv Hrun0. subst.
    match goal with
    | Hfix : (if ?b then ExploitFixedDomain _ else ret ()) _ = Some (_, ?st) |- _ =>
        assert (Hcore : same_core
                  (with_domains (domains s ++ [d])
                     (add_variables
                        {| variable_domain := FillDomainInProto domain |} s)) st)
          by (destruct b; [by eapply ExploitFixedDomain_same_core
                          |run_inv Hfix; by subst])
    end.
    destruct Hcore as (Hw & Hd & Hu). simpl in Hw, Hd, Hu.
    run_inv Hrun. subst. simpl.
    rewrite Hw, Hd, Hu. simpl. rewrite !length_app. simpl.
    rewrite orb_false_r. repeat split; try done; lia.
Qed.

Lemma NewBoolVar_fresh s i s' :
  initialized s ->
  NewBoolVar s = Some (i, s') ->
  i = Z.of_nat (length (domains s))
  /\ domains s' = domains s ++ [[(0, 1)]]
  /\ initialized s'
  /\ constraints (working_model s') = constraints (working_model s)
  /\ is_unsat s' = is_unsat s.
Proof.
  intros Hinit H. unfold NewBoolVar in H.
  destruct (NewIntVar_fresh _ _ _ _ Hinit H) as (d & Hread & Hi & Hd & Hi' & Hc & Hu).
  vm_compute in Hread. injection Hread as <-.
  simpl in Hu. rewrite orb_false_r in Hu. done.
Qed.

(** ** Running a method step by step *)

(** Symbolic execution of a method, one step at a time. *)
Lemma run_bind_assoc {A B C} (m : M A) (g : A -> M B) (f : B -> M C) s :
  bind (bind m g) f s = bind m (fun a => bind (g a) f) s.
Proof. unfold bind. by destruct (m s) as [[a s']|]. Qed.

Lemma run_bind_modify {B} g (f : unit -> M B) s : bind (modify g) f s = f tt (g s).
Proof. done. Qed.

Lemma run_bind_gets {A B} (g : PresolveContext -> A) (f : A -> M B) s :
  bind (gets g) f s = f (g s) s.
Proof. done. Qed.

Lemma run_bind_ret {A B} (a : A) (f : A -> M B) s : bind (ret a) f s = f a s.
Proof. done. Qed.

Lemma run_bind_read {A B} (g : PresolveContext -> option A) (f : A -> M B) s a :
  g s = Some a -> bind (read g) f s = f a s.
Proof. intros H. unfold bind, read. by rewrite H. Qed.

Lemma run_bind_CHECK {B} (f : unit -> M B) s : bind (CHECK true) f s = f tt s.
Proof. done. Qed.

Lemma run_bind_eq {A B} (m : M A) (f : A -> M B) s a s' :
  m s = Some (a, s') -> bind m f s = f a s'.
Proof. intros H. unfold bind. by rewrite H. Qed.

Ltac exec :=
  repeat first
    [ rewrite run_bind_assoc
    | rewrite run_bind_modify
    | rewrite run_bind_gets
    | rewrite run_bind_ret
    | rewrite run_bind_CHECK ];
  cbv beta.

Lemma at_index_app_length {A} (l : list A) x :
  at_index (l ++ [x]) (Z.of_nat (length l)) = Some x.
Proof.
  unfold at_index. destruct (Z.ltb_spec (Z.of_nat (length l)) 0); [lia|].
  rewrite Nat2Z.id. by rewrite lookup_app_r, Nat.sub_diag.
Qed.

Lemma is_Some_at_index_length {A B} (l : list A) (l' : list B) i :
  length l = length l' -> is_Some (at_index l i) -> is_Some (at_index l' i).
Proof.
  intros Hlen [x Hx]. pose proof (at_index_Some _ _ _ Hx) as [Hi Hlt].
  unfold at_index. destruct (Z.ltb_spec i 0); [lia|].
  apply lookup_lt_is_Some. lia.
Qed.

(** ** Storing a Boolean equality *)

Global Instance same_domains_Reflexive : Reflexive same_domains.
Proof. by intros s. Qed.

Global Instance same_domains_Transitive : Transitive same_domains.
Proof. intros s1 s2 s3 H1 H2. unfold same_domains in *. congruence. Qed.

Lemma StoreAffineRelation_same_domains ct ref_x ref_y coeff offset :
  preserves same_domains (StoreAffineRelation ct ref_x ref_y coeff offset).
Proof.
  eapply preserves_weaken; [|apply StoreAffineRelation_frame].
  intros s s' H. by apply relations_frame_core in H as (_ & ? & _).
Qed.

Lemma StoreBooleanEqualityRelation_same_domains ref_a ref_b :
  preserves same_domains (StoreBooleanEqualityRelation ref_a ref_b).
Proof.
  unfold StoreBooleanEqualityRelation.
  repeat preserves_step;
    first [ apply StoreAffineRelation_same_domains
          | apply preserves_modify; by intros ].
Qed.

(** ** Storing the relation of two unrelated Booleans *)
Lemma relink_lookup_old repo old new k q :
  relink repo old new k q !! old = Some (MkRelation new k q).
Proof. unfold relink. apply lookup_insert_eq. Qed.

Lemma relink_lookup_None repo old new k q v :
  v <> old -> repo !! v = None -> relink repo old new k q !! v = None.
Proof.
  intros Hne Hv. unfold relink. rewrite lookup_insert_ne by done.
  by rewrite lookup_fmap, Hv.
Qed.

(** [TryAdd] of one of the two Boolean relations between variables that
    have no entry: one of them is attached to the other. *)
Lemma TryAdd_unrelated repo x y c o :
  repo !! x = None -> repo !! y = None ->
  x <> y -> 0 <= x -> 0 <= y ->
  (c = 1 /\ o = 0) \/ (c = -1 /\ o = 1) ->
  exists repo',
    TryAdd repo x y c o true true = Some (true, repo')
    /\ relation_entered repo' x y c o.
Proof.
  intros Hx Hy Hne Hx0 Hy0 Hco. unfold TryAdd, Get. rewrite Hx, Hy. simpl.
  assert ((c =? 0) = false) as -> by (apply Z.eqb_neq; lia).
  assert ((x =? y) = false) as -> by (by apply Z.eqb_neq).
  assert ((x <? 0) = false) as -> by (apply Z.ltb_ge; lia).
  assert ((y <? 0) = false) as -> by (apply Z.ltb_ge; lia).
  simpl.
  destruct (ClassSize repo x <=? ClassSize repo y);
    destruct Hco as [[-> ->]|[-> ->]]; simpl; eexists; (split; [reflexivity|]).
  - left. split; [apply relink_lookup_old|by apply relink_lookup_None].
  - left. split; [apply relink_lookup_old|by apply relink_lookup_None].
  - right. split; [apply relink_lookup_old|by apply relink_lookup_None].
  - right. split; [apply relink_lookup_old|by apply relink_lookup_None].
Qed.
Lemma AddRelation_unrelated x y c o repo s :
  repo_of repo s !! x = None -> repo_of repo s !! y = None ->
  x <> y -> 0 <= x -> 0 <= y ->
  (c = 1 /\ o = 0) \/ (c = -1 /\ o = 1) ->
  CanBeUsedAsLiteral x s = Some true ->
  CanBeUsedAsLiteral y s = Some true ->
  exists repo',
    AddRelation x y c o repo s = Some (true, with_repo repo repo' s)
    /\ relation_entered repo' x y c o.
Proof.
  intros Hx Hy Hne Hx0 Hy0 Hco Hlx Hly.
  destruct (TryAdd_unrelated _ x y c o Hx Hy Hne Hx0 Hy0 Hco) as (repo' & Htry & Hin).
  exists repo'. split; [|exact Hin].
  unfold AddRelation.
  assert (Hc : to_int32 c = c) by (by destruct Hco as [[-> ->]|[-> ->]]).
  assert (Ho : to_int32 o = o) by (by destruct Hco as [[-> ->]|[-> ->]]).
  rewrite Hc, Ho.
  assert (Habs : (Z.abs c =? 1) = true) by (by destruct Hco as [[-> ->]|[-> ->]]).
  rewrite Habs. cbn [negb]. exec.
  unfold Get. rewrite Hx, Hy. cbn [default representative].
  rewrite (run_bind_read _ _ _ true) by done.
  rewrite (run_bind_read _ _ _ true) by done.
  cbn [orb]. unfold repo_TryAdd.
  rewrite (run_bind_read _ _ _ (true, repo')) by done.
  exec. reflexivity.
Qed.

Lemma CanBeUsedAsLiteral_frame ref s s' :
  domains s' = domains s -> CanBeUsedAsLiteral ref s' = CanBeUsedAsLiteral ref s.
Proof. intros H. unfold CanBeUsedAsLiteral. by rewrite H. Qed.

Lemma GetAffineRelation_unrelated var s :
  0 <= var -> unrelated var s -> GetAffineRelation var s = MkRelation var 1 0.
Proof.
  intros Hv [Ha He]. unfold GetAffineRelation.
  assert (Hpos : RefIsPositive var = true) by (by apply Z.leb_le).
  rewrite (PositiveRef_of_positive _ Hpos), Hpos. unfold Get.
  rewrite Ha. simpl. by rewrite He.
Qed.

(** What [GetAffineRelation] answers once a Boolean relation between [x]
    and [y] was entered in the repository of affine relations, and, for an
    equality, in that of equivalences. *)
Lemma relation_entered_stored x y c o s :
  0 <= x -> 0 <= y -> x <> y ->
  (c = 1 /\ o = 0) \/ (c = -1 /\ o = 1) ->
  relation_entered (affine_relations_ s) x y c o ->
  (relation_entered (var_equiv_relations_ s) x y 1 0
   \/ (var_equiv_relations_ s !! x = None /\ var_equiv_relations_ s !! y = None)) ->
  affine_relation_stored x y c o s
  /\ (representative (GetAffineRelation x s) = x
      \/ representative (GetAffineRelation x s) = y).
Proof.
  intros Hx Hy Hne Hco Ha He.
  assert (Hpx : RefIsPositive x = true) by (by apply Z.leb_le).
  assert (Hpy : RefIsPositive y = true) by (by apply Z.leb_le).
  unfold affine_relation_stored, GetAffineRelation.
  rewrite !(PositiveRef_of_positive _ Hpx), !(PositiveRef_of_positive _ Hpy), Hpx, Hpy.
  unfold Get. cbn [negb].
  destruct Ha as [[Ha1 Ha2]|[Ha1 Ha2]]; rewrite Ha1, Ha2;
    destruct He as [[[He1 He2]|[He1 He2]]|[He1 He2]];
    destruct Hco as [[-> ->]|[-> ->]]; simpl; rewrite ?He1, ?He2; simpl;
    (split; [done|]); auto.
Qed.
Lemma Set_modified_run x s :
  is_Some (at_index (modified_domains s) x) ->
  exists bits,
    SparseBitset.Set_ (modified_domains s) x = Some bits
    /\ length bits = length (modified_domains s).
Proof.
  intros [b Hb]. unfold SparseBitset.Set_. rewrite Hb. eexists. split; [done|].
  unfold set_index. apply length_insert.
Qed.

Lemma CanBeUsedAsLiteral_is_Some ref s b :
  CanBeUsedAsLiteral ref s = Some b ->
  is_Some (at_index (domains s) (PositiveRef ref)).
Proof.
  unfold CanBeUsedAsLiteral. destruct (at_index _ _); [by eexists|done].
Qed.

(** The end of [StoreAffineRelation], once a relation was added. *)
Lemma StoreAffineRelation_added_run (ct : nat) x y s :
  is_Some (at_index (modified_domains s) x) ->
  is_Some (at_index (modified_domains s) y) ->
  exists s',
    (rep_x <- gets (fun s => representative (GetAffineRelation x s)) ;;
     (if negb (rep_x =? x)
      then bits <- read (fun s => SparseBitset.Set_ (modified_domains s) x) ;;
           modify (with_modified_domains bits)
      else ret tt) ;;;
     rep_y <- gets (fun s => representative (GetAffineRelation y s)) ;;
     (if negb (rep_y =? y)
      then bits <- read (fun s => SparseBitset.Set_ (modified_domains s) y) ;;
           modify (with_modified_domains bits)
      else ret tt) ;;;
     modify (fun s => with_affine_constraints ({[ct]} ∪ affine_constraints s) s)) s
    = Some (tt, s')
    /\ affine_relations_ s' = affine_relations_ s
    /\ var_equiv_relations_ s' = var_equiv_relations_ s
    /\ affine_constraints s' = {[ct]} ∪ affine_constraints s.
Proof.
  intros Hbx Hby. exec.
  assert (Hx1 : exists s1,
    (if negb (representative (GetAffineRelation x s) =? x)
     then bits <- read (fun s => SparseBitset.Set_ (modified_domains s) x) ;;
          modify (with_modified_domains bits)
     else ret tt) s = Some (tt, s1)
    /\ affine_relations_ s1 = affine_relations_ s
    /\ var_equiv_relations_ s1 = var_equiv_relations_ s
    /\ affine_constraints s1 = affine_constraints s
    /\ is_Some (at_index (modified_domains s1) y)).
  { destruct (negb (representative (GetAffineRelation x s) =? x)).
    - destruct (Set_modified_run x s Hbx) as (bits & Hbits & Hl).
      eexists. rewrite (run_bind_read _ _ _ bits Hbits). split; [reflexivity|].
      repeat split. simpl.
      destruct Hby as [b Hb]. pose proof (at_index_Some _ _ _ Hb) as [Hi Hlt].
      unfold at_index. destruct (Z.ltb_spec y 0); [lia|].
      apply lookup_lt_is_Some. lia.
    - eexists. by repeat split. }
  destruct Hx1 as (s1 & Hrun1 & Ha1 & He1 & Hc1 & Hby1).
  rewrite (run_bind_eq _ _ _ _ _ Hrun1). exec.
  assert (Hy1 : exists s2,
    (if negb (representative (GetAffineRelation y s1) =? y)
     then bits <- read (fun s => SparseBitset.Set_ (modified_domains s) y) ;;
          modify (with_modified_domains bits)
     else ret tt) s1 = Some (tt, s2)
    /\ affine_relations_ s2 = affine_relations_ s1
    /\ var_equiv_relations_ s2 = var_equiv_relations_ s1
    /\ affine_constraints s2 = affine_constraints s1).
  { destruct (negb (representative (GetAffineRelation y s1) =? y)).
    - destruct (Set_modified_run y s1 Hby1) as (bits & Hbits & Hl).
      eexists. rewrite (run_bind_read _ _ _ bits Hbits). by split.
    - eexists. by repeat split. }
  destruct Hy1 as (s2 & Hrun2 & Ha2 & He2 & Hc2).
  rewrite (run_bind_eq _ _ _ _ _ Hrun2).
  eexists. split; [reflexivity|]. simpl.
  rewrite Ha2, He2, Hc2, Ha1, He1, Hc1. done.
Qed.

Lemma StoreAffineRelation_stores ct x y c o s :
  is_unsat s = false ->
  IsFixed x s = Some false -> IsFixed y s = Some false ->
  0 <= x -> 0 <= y -> x <> y ->
  (c = 1 /\ o = 0) \/ (c = -1 /\ o = 1) ->
  CanBeUsedAsLiteral x s = Some true ->
  CanBeUsedAsLiteral y s = Some true ->
  unrelated x s -> unrelated y s ->
  length (modified_domains s) = length (domains s) ->
  exists s',
    StoreAffineRelation ct x y c o s = Some (tt, s')
    /\ relation_entered (affine_relations_ s') x y c o
    /\ (if o =? 0 then relation_entered (var_equiv_relations_ s') x y 1 0
        else var_equiv_relations_ s' = var_equiv_relations_ s)
    /\ affine_constraints s' = {[ct]} ∪ affine_constraints s.
Proof.
  intros Hsat Hfx Hfy Hx Hy Hne Hco Hlx Hly [Hax Hex] [Hay Hey] Hlen.
  assert (Hpx : RefIsPositive x = true) by (by apply Z.leb_le).
  assert (Hpy : RefIsPositive y = true) by (by apply Z.leb_le).
  unfold StoreAffineRelation. exec. rewrite Hsat.
  rewrite (run_bind_read _ _ _ false) by done. cbv iota.
  rewrite (run_bind_read _ _ _ false) by done. cbn [orb].
  rewrite !(PositiveRef_of_positive _ Hpx), !(PositiveRef_of_positive _ Hpy), Hpx, Hpy.
  cbn [Bool.eqb].
  destruct (AddRelation_unrelated x y c o affine_relations_repo s)
    as (A' & Hadd1 & HA'); try done.
  rewrite (run_bind_eq _ _ _ _ _ Hadd1). cbn [with_repo].
  set (s1 := with_affine_relations_ A' s).
  assert (Hbx : is_Some (at_index (modified_domains s) x)).
  { eapply is_Some_at_index_length; [symmetry; exact Hlen|].
    rewrite <- (PositiveRef_of_positive _ Hpx). by eapply CanBeUsedAsLiteral_is_Some. }
  assert (Hby : is_Some (at_index (modified_domains s) y)).
  { eapply is_Some_at_index_length; [symmetry; exact Hlen|].
    rewrite <- (PositiveRef_of_positive _ Hpy). by eapply CanBeUsedAsLiteral_is_Some. }
  destruct Hco as [[-> ->]|[-> ->]]; cbn [Z.eqb Pos.eqb orb andb].
  - destruct (AddRelation_unrelated x y 1 0 var_equiv_relations_repo s1)
      as (E' & Hadd2 & HE'); try done; [by left|].
    rewrite run_bind_assoc, (run_bind_eq _ _ _ _ _ Hadd2). exec. cbn [orb with_repo].
    set (s2 := with_var_equiv_relations_ E' s1).
    destruct (StoreAffineRelation_added_run ct x y s2 Hbx Hby)
      as (s' & Hrun & Ha & He & Hc).
    exists s'. split; [exact Hrun|]. rewrite Ha, He, Hc. done.
  - exec.
    destruct (StoreAffineRelation_added_run ct x y s1 Hbx Hby)
      as (s' & Hrun & Ha & He & Hc).
    exists s'. split; [exact Hrun|]. rewrite Ha, He, Hc. done.
Qed.
Lemma PositiveRef_inj ref_a ref_b :
  PositiveRef ref_a = PositiveRef ref_b -> ref_a = ref_b \/ ref_a = NegatedRef ref_b.
Proof.
  unfold PositiveRef, RefIsPositive, NegatedRef.
  destruct (Z.leb_spec 0 ref_a), (Z.leb_spec 0 ref_b); lia.
Qed.

Lemma PositiveRef_nonneg ref : 0 <= PositiveRef ref.
Proof.
  unfold PositiveRef, RefIsPositive, NegatedRef.
  destruct (Z.leb_spec 0 ref); lia.
Qed.

Lemma IsFixed_PositiveRef ref s : IsFixed (PositiveRef ref) s = IsFixed ref s.
Proof. unfold IsFixed. by rewrite PositiveRef_idemp. Qed.

Lemma CanBeUsedAsLiteral_PositiveRef ref s :
  CanBeUsedAsLiteral (PositiveRef ref) s = CanBeUsedAsLiteral ref s.
Proof. unfold CanBeUsedAsLiteral. by rewrite PositiveRef_idemp. Qed.

(** The run of [StoreBooleanEqualityRelation] that stores the relation:
    a feasible context, two variables that are not fixed and have no
    entry in the repositories. *)
Lemma StoreBooleanEqualityRelation_stores ref_a ref_b s :
  CanBeUsedAsLiteral ref_a s = Some true ->
  CanBeUsedAsLiteral ref_b s = Some true ->
  ref_a <> ref_b -> ref_a <> NegatedRef ref_b ->
  is_unsat s = false ->
  IsFixed ref_a s = Some false -> IsFixed ref_b s = Some false ->
  unrelated (PositiveRef ref_a) s -> unrelated (PositiveRef ref_b) s ->
  length (modified_domains s) = length (domains s) ->
  let var_a := PositiveRef ref_a in
  let var_b := PositiveRef ref_b in
  let same := Bool.eqb (RefIsPositive ref_a) (RefIsPositive ref_b) in
  let c := if same then 1 else -1 in
  let o := if same then 0 else 1 in
  exists s',
    StoreBooleanEqualityRelation ref_a ref_b s = Some (tt, s')
    /\ relations_frame (add_constraints (boolean_equality_constraint ref_a ref_b) s) s'
    /\ relation_entered (affine_relations_ s') var_a var_b c o
    /\ (if same then relation_entered (var_equiv_relations_ s') var_a var_b 1 0
        else var_equiv_relations_ s' = var_equiv_relations_ s)
    /\ affine_constraints s'
       = {[length (constraints (working_model s))]} ∪ affine_constraints s
    /\ affine_relation_stored var_a var_b c o s'.
Proof.
  intros Ha Hb Hne Hnn Hsat Hfa Hfb Hua Hub Hlen var_a var_b same c o.
  assert (Hab : var_a <> var_b).
  { intros Heq. by apply PositiveRef_inj in Heq as [?|?]. }
  pose proof (PositiveRef_nonneg ref_a) as Ha0.
  pose proof (PositiveRef_nonneg ref_b) as Hb0.
  fold var_a in Ha0, Hua. fold var_b in Hb0, Hub.
  assert (Hco : (c = 1 /\ o = 0) \/ (c = -1 /\ o = 1)).
  { subst c o. destruct same; [by left|by right]. }
  set (ct := boolean_equality_constraint ref_a ref_b).
  set (s1 := add_constraints ct s).
  destruct (StoreAffineRelation_stores (length (constraints (working_model s)))
              var_a var_b c o s1) as (s' & Hrun & HA & HE & HC); try done.
  { subst var_a. by rewrite IsFixed_PositiveRef. }
  { subst var_b. by rewrite IsFixed_PositiveRef. }
  { subst var_a. by rewrite CanBeUsedAsLiteral_PositiveRef. }
  { subst var_b. by rewrite CanBeUsedAsLiteral_PositiveRef. }
  exists s'.
  assert (Hunfold : StoreBooleanEqualityRelation ref_a ref_b s
                    = StoreAffineRelation (length (constraints (working_model s)))
                        var_a var_b c o s1).
  { unfold StoreBooleanEqualityRelation, bind, read, CHECK, gets. rewrite Ha, Hb.
    destruct (Z.eqb_spec ref_a ref_b); [done|].
    destruct (Z.eqb_spec ref_a (NegatedRef ref_b)); [done|].
    fold var_a var_b.
    rewrite (GetAffineRelation_unrelated var_a s Ha0 Hua).
    rewrite (GetAffineRelation_unrelated var_b s Hb0 Hub).
    cbn [representative].
    destruct (Z.eqb_spec var_a var_b); [done|].
    destruct (Z.eqb_spec var_b var_a); [done|]. cbn [orb].
    subst s1 ct c o. unfold boolean_equality_constraint. fold same var_a var_b.
    by destruct same. }
  split; [by rewrite Hunfold|].
  split; [by eapply StoreAffineRelation_frame|].
  split; [exact HA|].
  assert (HE' : if same then relation_entered (var_equiv_relations_ s') var_a var_b 1 0
                else var_equiv_relations_ s' = var_equiv_relations_ s).
  { subst o. by destruct same. }
  split; [exact HE'|]. split; [exact HC|].
  apply relation_entered_stored; try done.
  destruct same; [by left|]. right. rewrite HE'. split; [apply Hua|apply Hub].
Qed.
Global Instance same_records_Reflexive : Reflexive same_records.
Proof. by intros s. Qed.

Global Instance same_records_Transitive : Transitive same_records.
Proof.
  intros s1 s2 s3 (H1 & H2 & H3 & H4) (H1' & H2' & H3' & H4').
  unfold same_records. by rewrite H1', H2', H3', H4'.
Qed.

Lemma IntersectDomainWith_same_records ref domain flag :
  preserves same_records (IntersectDomainWith ref domain flag).
Proof.
  unfold IntersectDomainWith. repeat preserves_step;
    apply preserves_modify; by intros.
Qed.

(** The run of [NewBoolVar] in an initialized context. *)
Lemma NewBoolVar_run s :
  initialized s ->
  exists s',
    NewBoolVar s = Some (Z.of_nat (length (domains s)), s')
    /\ domains s' = domains s ++ [[(0, 1)]]
    /\ length (modified_domains s') = length (domains s')
    /\ same_records s s'
    /\ is_unsat s' = is_unsat s.
Proof.
  intros Hinit. unfold initialized in Hinit.
  unfold NewBoolVar, NewIntVar, InitializeNewDomains. exec. simpl.
  rewrite Hinit, drop_app_length. simpl. exec.
  rewrite (run_bind_read _ _ _ [(0, 1)]) by reflexivity.
  exec. simpl.
  set (s1 := with_domains _ _).
  assert (Hfix : IsFixed (Z.of_nat (length (domains s))) s1 = Some false).
  { unfold IsFixed. rewrite PositiveRef_of_positive by (apply Z.leb_le; lia).
    subst s1. simpl. unfold at_index.
    destruct (Z.ltb_spec (Z.of_nat (length (domains s))) 0); [lia|].
    rewrite Nat2Z.id, lookup_app_r by lia.
    by replace (length (domains s) - length (domains s))%nat with 0%nat by lia. }
  exec. rewrite (run_bind_read _ _ _ false Hfix). exec.
  eexists. split.
  { unfold gets. apply f_equal, (f_equal2 pair); [|reflexivity].
    simpl. rewrite length_app. simpl. lia. }
  simpl. split; [done|]. split.
  { unfold SparseBitset.Resize. by rewrite length_resize. }
  split; [|done]. by repeat split.
Qed.
(** A fresh Boolean variable next to the facts that
    [StoreBooleanEqualityRelation] needs about it. *)
Lemma fresh_Boolean_facts s var :
  at_index (domains s) var = Some [(0, 1)] ->
  0 <= var ->
  CanBeUsedAsLiteral var s = Some true /\ IsFixed var s = Some false.
Proof.
  intros Hd Hv.
  assert (Hpos : PositiveRef var = var)
    by (apply PositiveRef_of_positive; by apply Z.leb_le).
  unfold CanBeUsedAsLiteral, IsFixed. by rewrite Hpos, Hd.
Qed.

Lemma at_index_app_l {A} (l l' : list A) i x :
  at_index l i = Some x -> at_index (l ++ l') i = Some x.
Proof.
  unfold at_index. destruct (i <? 0); [done|]. intros H.
  by apply lookup_app_l_Some.
Qed.

(** ** The scenario of two equal Booleans *)

(** C4, as stated, fails: from the empty context the scenario answers
    false. *)
Lemma boolean_equality_not_propagated :
  ~ (forall s a b b_is_true s',
       boolean_equality_scenario s = Some ((a, b, b_is_true), s') ->
       b_is_true = true).
Proof.
  intros Hclaim.
  assert (Hrun : exists s', boolean_equality_scenario empty_context
                            = Some ((0, 1, false), s')).
  { eexists. vm_compute. reflexivity. }
  destruct Hrun as [s' Hrun].
  by specialize (Hclaim _ _ _ _ _ Hrun).
Qed.

Lemma IntersectDomainWith_domains ref domain flag s r s' cur :
  at_index (domains s) (PositiveRef ref) = Some cur ->
  IntersectDomainWith ref domain flag s = Some (r, s') ->
  domains s' =
    if Domain.IsIncludedIn cur (signed_domain ref domain) then domains s
    else set_index (domains s) (PositiveRef ref)
           (Domain.IntersectionWith cur (signed_domain ref domain)).
Proof.
  intros Hcur H.
  destruct (Domain.IsIncludedIn cur (signed_domain ref domain)) eqn:Hinc.
  - rewrite (IntersectDomainWith_included _ _ _ _ _ Hcur Hinc) in H.
    by injection H as _ <-.
  - destruct (at_index (modified_domains s) (PositiveRef ref)) as [bit|] eqn:Hbit.
    + rewrite (IntersectDomainWith_narrows _ _ _ _ _ _ Hcur Hbit Hinc) in H.
      injection H as _ <-. unfold narrowed.
      by destruct (Domain.IsEmpty _).
    + exfalso. unfold IntersectDomainWith, bind, read in H. rewrite Hcur in H.
      unfold signed_domain in Hinc.
      destruct (RefIsPositive ref); simpl in H; rewrite Hinc in H; simpl in H;
        unfold SparseBitset.Set_ in H; simpl in H; by rewrite Hbit in H.
Qed.

(** C4, amended.  For two freshly created Boolean variables [a] and [b] of
    an initialized context, after [StoreBooleanEqualityRelation(a, b)] and
    [SetLiteralToTrue(a)] the domain of [a] is [{1}] and the domain of [b]
    is still [{0, 1}]: [LiteralIsTrue(b)] and [LiteralIsFalse(b)] both
    answer false.  The context records the equality, it does not propagate
    it: in a feasible context whose repositories hold nothing on variables
    that do not exist yet, the constraint [a - b = 0] is appended and
    registered in [affine_constraints], the relation [a = b] is entered
    in both repositories, and [GetAffineRelation] expresses [a] and [b] on
    the same representative with [a = 1 * b + 0]. *)
Theorem boolean_equality_scenario_spec s a b b_is_true s' :
  initialized s ->
  boolean_equality_scenario s = Some ((a, b, b_is_true), s') ->
  b_is_true = false
  /\ a = Z.of_nat (length (domains s))
  /\ b = a + 1
  /\ at_index (domains s') a = Some [(1, 1)]
  /\ at_index (domains s') b = Some [(0, 1)]
  /\ LiteralIsTrue a s' = Some true
  /\ LiteralIsTrue b s' = Some false
  /\ LiteralIsFalse b s' = Some false
  /\ (is_unsat s = false ->
      no_relation_beyond s ->
        constraints (working_model s')
        = constraints (working_model s)
          ++ [MkConstraintProto []
                (kLinear (MkLinearConstraintProto [a; b] [1; -1] [0; 0]))]
        /\ relation_entered (affine_relations_ s') a b 1 0
        /\ relation_entered (var_equiv_relations_ s') a b 1 0
        /\ affine_constraints s'
           = {[length (constraints (working_model s))]} ∪ affine_constraints s
        /\ affine_relation_stored a b 1 0 s').
Proof.
  intros Hinit H.
  assert (Hrecords :
    is_unsat s = false ->
    no_relation_beyond s ->
    constraints (working_model s')
    = constraints (working_model s)
      ++ [MkConstraintProto []
            (kLinear (MkLinearConstraintProto [a; b] [1; -1] [0; 0]))]
    /\ relation_entered (affine_relations_ s') a b 1 0
    /\ relation_entered (var_equiv_relations_ s') a b 1 0
    /\ affine_constraints s'
       = {[length (constraints (working_model s))]} ∪ affine_constraints s
    /\ affine_relation_stored a b 1 0 s').
  { intros Hsat Hnone. unfold boolean_equality_scenario in H.
    apply bind_Some in H as (a' & s1 & Ha & H).
    apply bind_Some in H as (b' & s2 & Hb & H).
    apply bind_Some in H as (u & s3 & Heq & H).
    apply bind_Some in H as (r & s4 & Hset & H).
    apply bind_Some in H as (t & s5 & Hlit & H).
    apply read_Some in Hlit as [Hlit ->].
    apply ret_Some in H as [[= <- <- _] <-].
    destruct (NewBoolVar_fresh _ _ _ Hinit Ha) as (_ & _ & Hinit1 & _).
    destruct (NewBoolVar_run s Hinit) as (s1' & Ha' & Hd1 & _ & Hrec1 & Hu1).
    rewrite Ha in Ha'. injection Ha' as -> <-.
    destruct (NewBoolVar_run s1 Hinit1) as (s2' & Hb' & Hd2 & Hlen2 & Hrec2 & Hu2).
    rewrite Hb in Hb'. injection Hb' as -> <-.
    set (n := length (domains s)) in *.
    assert (Hn1 : length (domains s1) = S n) by (rewrite Hd1, length_app; simpl; lia).
    rewrite Hn1 in *.
    assert (Hda : at_index (domains s2) (Z.of_nat n) = Some [(0, 1)]).
    { rewrite Hd2. apply at_index_app_l. rewrite Hd1. apply at_index_app_length. }
    assert (Hdb : at_index (domains s2) (Z.of_nat (S n)) = Some [(0, 1)]).
    { rewrite Hd2, <- Hn1. apply at_index_app_length. }
    destruct (fresh_Boolean_facts s2 _ Hda) as [Hla Hfa]; [lia|].
    destruct (fresh_Boolean_facts s2 _ Hdb) as [Hlb Hfb]; [lia|].
    assert (Hrec : same_records s s2) by (by etrans).
    destruct Hrec as (Hc2 & Har2 & Her2 & Hac2).
    assert (Hpa : PositiveRef (Z.of_nat n) = Z.of_nat n)
      by (apply PositiveRef_of_positive, Z.leb_le; lia).
    assert (Hpb : PositiveRef (Z.of_nat (S n)) = Z.of_nat (S n))
      by (apply PositiveRef_of_positive, Z.leb_le; lia).
    destruct (StoreBooleanEqualityRelation_stores (Z.of_nat n) (Z.of_nat (S n)) s2)
      as (s3' & Hrun & Hframe & HA & HE & HC & _); try done.
    { lia. }
    { unfold NegatedRef. lia. }
    { congruence. }
    { rewrite Hpa. unfold unrelated. rewrite Har2, Her2. apply Hnone. lia. }
    { rewrite Hpb. unfold unrelated. rewrite Har2, Her2. apply Hnone. lia. }
    rewrite Heq in Hrun. destruct u. injection Hrun as <-.
    rewrite Hpa, Hpb in HA, HE.
    assert (Hsame : Bool.eqb (RefIsPositive (Z.of_nat n))
                      (RefIsPositive (Z.of_nat (S n))) = true).
    { unfold RefIsPositive.
      destruct (Z.leb_spec 0 (Z.of_nat n)), (Z.leb_spec 0 (Z.of_nat (S n)));
        done || lia. }
    rewrite Hsame in HA, HE.
    apply relations_frame_core in Hframe as (Hw3 & _).
    rewrite SetLiteralToTrue_unfold in Hset.
    apply bind_Some in Hset as (r' & s4' & Hset & Hret).
    apply ret_Some in Hret as [-> ->].
    apply IntersectDomainWith_same_records in Hset as (Hc4 & Har4 & Her4 & Hac4).
    rewrite <- Har4 in HA. rewrite <- Her4 in HE.
    split.
    { rewrite Hc4, Hw3. simpl. rewrite Hc2.
      unfold boolean_equality_constraint. by rewrite Hsame, Hpa, Hpb. }
    split; [exact HA|]. split; [exact HE|]. split.
    { by rewrite Hac4, HC, Hc2, Hac2. }
    apply relation_entered_stored; try done; try lia; by left. }
  revert Hrecords. unfold boolean_equality_scenario in H.
  apply bind_Some in H as (a' & s1 & Ha & H).
  apply bind_Some in H as (b' & s2 & Hb & H).
  apply bind_Some in H as (u & s3 & Heq & H).
  apply bind_Some in H as (r & s4 & Hset & H).
  apply bind_Some in H as (t & s5 & Hlit & H).
  apply read_Some in Hlit as [Hlit ->].
  apply ret_Some in H as [[= <- <- <-] <-].
  destruct (NewBoolVar_fresh _ _ _ Hinit Ha) as (-> & Hd1 & Hinit1 & _).
  destruct (NewBoolVar_fresh _ _ _ Hinit1 Hb) as (-> & Hd2 & _).
  apply StoreBooleanEqualityRelation_same_domains in Heq. unfold same_domains in Heq.
  set (n := length (domains s)) in *.
  assert (Hlen1 : length (domains s1) = S n).
  { rewrite Hd1, length_app. simpl. lia. }
  assert (Hd3 : domains s3 = domains s ++ [[(0, 1)]; [(0, 1)]]).
  { rewrite Heq, Hd2, Hd1, <- app_assoc. done. }
  assert (Ha3 : at_index (domains s3) (Z.of_nat n) = Some [(0, 1)]).
  { unfold at_index. destruct (Z.ltb_spec (Z.of_nat n) 0); [lia|].
    rewrite Nat2Z.id, Hd3. rewrite lookup_app_r by (unfold n; lia).
    by replace (n - length (domains s))%nat with 0%nat by (unfold n; lia). }
  assert (Hpos : PositiveRef (Z.of_nat n) = Z.of_nat n).
  { apply PositiveRef_of_positive. unfold RefIsPositive. lia. }
  rewrite SetLiteralToTrue_unfold in Hset.
  apply bind_Some in Hset as (r' & s4' & Hset & Hret).
  apply ret_Some in Hret as [-> ->].
  assert (Htv : true_value (Z.of_nat n) = 1).
  { unfold true_value, RefIsPositive.
    destruct (Z.leb_spec 0 (Z.of_nat n)); [done|lia]. }
  rewrite Htv, Hpos in Hset.
  eapply IntersectDomainWith_domains in Hset; [|by rewrite Hpos].
  rewrite Hpos, signed_domain_PositiveRef in Hset || rewrite Hpos in Hset.
  assert (Hsd : signed_domain (Z.of_nat n) (Domain.FromValue 1) = Domain.FromValue 1).
  { rewrite <- Hpos. apply signed_domain_PositiveRef. }
  rewrite ?Hsd in Hset. vm_compute Domain.IsIncludedIn in Hset.
  change (Domain.IntersectionWith [(0, 1)] (Domain.FromValue 1)) with [(1, 1)] in Hset.
  assert (Ha4 : at_index (domains s4') (Z.of_nat n) = Some [(1, 1)]).
  { rewrite Hset. simpl. by eapply at_index_set_index_eq. }
  assert (Hb4 : at_index (domains s4') (Z.of_nat (length (domains s1))) = Some [(0, 1)]).
  { rewrite Hset. simpl. rewrite at_index_set_index_ne by lia.
    unfold at_index. destruct (Z.ltb_spec (Z.of_nat (length (domains s1))) 0); [lia|].
    rewrite Nat2Z.id, Hd3, Hlen1. rewrite lookup_app_r by (unfold n; lia).
    by replace (S n - length (domains s))%nat with 1%nat by (unfold n; lia). }
  assert (Hposb : RefIsPositive (Z.of_nat (length (domains s1))) = true).
  { unfold RefIsPositive. lia. }
  assert (Hposa : RefIsPositive (Z.of_nat n) = true).
  { unfold RefIsPositive. lia. }
  unfold LiteralIsTrue, LiteralIsFalse in *.
  rewrite Hposb in *. rewrite Hposa. rewrite Hb4 in *. rewrite Ha4.
  simpl in Hlit. injection Hlit as <-.
  intros Hrecords.
  repeat (split; [done || lia|]). exact Hrecords.
Qed.

Lemma boolean_equality_scenario_spec_witness :
  exists s',
    boolean_equality_scenario empty_context = Some ((0, 1, false), s')
    /\ at_index (domains s') 0 = Some [(1, 1)]
    /\ at_index (domains s') 1 = Some [(0, 1)]
    /\ LiteralIsTrue 1 s' = Some false
    /\ constraints (working_model s')
       = [MkConstraintProto []
            (kLinear (MkLinearConstraintProto [0; 1] [1; -1] [0; 0]))]
    /\ affine_relation_stored 0 1 1 0 s'.
Proof.
  assert (Hrun : exists s', boolean_equality_scenario empty_context
                            = Some ((0, 1, false), s')).
  { eexists. vm_compute. reflexivity. }
  destruct Hrun as [s' Hrun]. exists s'.
  destruct (boolean_equality_scenario_spec empty_context 0 1 false s' eq_refl Hrun)
    as (_ & _ & _ & Ha & Hb & _ & Ht & _ & Hrecords).
  destruct Hrecords as (Hct & _ & _ & _ & Hstored); [done| |done].
  intros var _. split; apply lookup_empty.
Defined.





(** ** The literal representative *)

(** The part of the assertion that the non-zero coefficient gives: the two
    polarities are never both possible. *)
Lemma polarities_not_both r :
  coeff r <> 0 -> positive_possible r && negative_possible r = false.
Proof.
  intros Hc. unfold positive_possible, negative_possible.
  apply not_true_iff_false.
  rewrite andb_true_iff, !orb_true_iff, !Z.eqb_eq. lia.
Qed.

(** One polarity is possible exactly when the relation
    [x = coeff * representative + offset] has a solution with both
    variables in [{0, 1}]. *)
Lemma polarities_one_iff_satisfiable r :
  positive_possible r || negative_possible r = true <->
  exists v, (v = 0 \/ v = 1)
            /\ (coeff r * v + offset r = 0 \/ coeff r * v + offset r = 1).
Proof.
  unfold positive_possible, negative_possible.
  rewrite !orb_true_iff, !Z.eqb_eq. split.
  - intros [[H|H]|[H|H]].
    + exists 0. lia.
    + exists 1. lia.
    + exists 0. lia.
    + exists 1. lia.
  - intros (v & [-> | ->] & H); lia.
Qed.

(** C5: the code violates its own assertion.  In the context above
    [is_unsat] is false, [x] (variable 0) and its representative [y]
    (variable 1) are usable as literals, the relation of [x] is
    [(y, 2, 5)], and neither polarity is possible: the [DCHECK_NE] of
    [GetLiteralRepresentative(x)] fails, and without the assertion the
    function answers [NegatedRef(y)]. *)
Theorem GetLiteralRepresentative_assertion_fails :
  exists s,
    unsatisfiable_relation_context = Some s
    /\ is_unsat s = false
    /\ domains s = [[(0, 1)]; [(0, 1)]]
    /\ CanBeUsedAsLiteral 0 s = Some true
    /\ GetAffineRelation (PositiveRef 0) s = MkRelation 1 2 5
    /\ CanBeUsedAsLiteral 1 s = Some true
    /\ positive_possible (GetAffineRelation (PositiveRef 0) s) = false
    /\ negative_possible (GetAffineRelation (PositiveRef 0) s) = false
    /\ GetLiteralRepresentative_DCHECK 0 s = Some false
    /\ GetLiteralRepresentative 0 s = Some (NegatedRef 1).
Proof.
  eexists. split; [vm_compute; reflexivity|].
  repeat split; vm_compute; reflexivity.
Qed.

(** ** Substituting a variable in the objective *)

Global Instance objective_frame_Reflexive : Reflexive objective_frame.
Proof.
  intros s. exists (objective_map s), (var_to_constraints_ s). by destruct s.
Qed.

Global Instance objective_frame_Transitive : Transitive objective_frame.
Proof.
  intros s1 s2 s3 (om & vtc & ->) (om' & vtc' & ->). by exists om', vtc'.
Qed.

Lemma set_objective_coeff_frame var c :
  preserves objective_frame (set_objective_coeff var c).
Proof.
  apply preserves_modify. intros s.
  exists (<[var := c]> (objective_map s)), (var_to_constraints_ s). by destruct s.
Qed.

Lemma erase_objective_coeff_frame var :
  preserves objective_frame (erase_objective_coeff var).
Proof.
  apply preserves_modify. intros s.
  exists (delete var (objective_map s)), (var_to_constraints_ s). by destruct s.
Qed.

Lemma update_var_to_constraints_frame var f :
  preserves objective_frame (update_var_to_constraints var f).
Proof.
  unfold update_var_to_constraints. repeat preserves_step.
  apply preserves_modify. intros s.
  eexists (objective_map s), _. by destruct s.
Qed.

Lemma int64_of_preserves (R : relation PresolveContext) `{!Reflexive R} z :
  preserves R (int64_of z).
Proof. by apply preserves_read. Qed.

Lemma objective_map_update_var_to_constraints var f s u s' :
  update_var_to_constraints var f s = Some (u, s') ->
  objective_map s' = objective_map s.
Proof.
  unfold update_var_to_constraints. intros H. run_inv H. by subst.
Qed.

Lemma update_var_to_constraints_run var f s u s' :
  update_var_to_constraints var f s = Some (u, s') ->
  exists cs,
    at_index (var_to_constraints_ s) var = Some cs
    /\ s' = with_var_to_constraints_ (set_index (var_to_constraints_ s) var (f cs)) s.
Proof.
  unfold update_var_to_constraints. intros H. run_inv H. subst. by eexists.
Qed.

(** Writing a coefficient and keeping the objective usage of the variable
    in line with it. *)
Lemma objective_coeff_written var c s0 u1 s1 u2 s2 :
  set_objective_coeff var c s0 = Some (u1, s1) ->
  (if c =? 0
   then erase_objective_coeff var ;;; erase_objective_usage var
   else insert_objective_usage var) s1 = Some (u2, s2) ->
  objective_map s2 = (if c =? 0 then delete var (objective_map s0)
                      else <[var := c]> (objective_map s0))
  /\ objective_frame s0 s2
  /\ (exists cs, at_index (var_to_constraints_ s2) var = Some cs
                 /\ (-1 ∈ cs <-> c <> 0))
  /\ (forall w, w <> var ->
        at_index (var_to_constraints_ s2) w = at_index (var_to_constraints_ s0) w).
Proof.
  intros H1 H2. apply modify_Some in H1 as ->.
  destruct (Z.eqb_spec c 0) as [->|Hc].
  - apply bind_Some in H2 as (u & s & He & H2). apply modify_Some in He as ->.
    apply update_var_to_constraints_run in H2 as (cs & Hcs & ->). simpl in *.
    split; [apply delete_insert_eq|]. split.
    { eexists _, _. by destruct s0. }
    split.
    + eexists. split; [by eapply at_index_set_index_eq|].
      rewrite elem_of_difference, elem_of_singleton. tauto.
    + intros w Hw. apply at_index_set_index_ne; [|done].
      by apply at_index_Some in Hcs as [? _].
  - apply update_var_to_constraints_run in H2 as (cs & Hcs & ->). simpl in *.
    split; [done|]. split.
    { eexists _, _. by destruct s0. }
    split.
    + eexists. split; [by eapply at_index_set_index_eq|].
      rewrite elem_of_union, elem_of_singleton. tauto.
    + intros w Hw. apply at_index_set_index_ne; [|done].
      by apply at_index_Some in Hcs as [? _].
Qed.

Lemma normalized_sign ref coeff s c s0 :
  (if negb (RefIsPositive ref) then int64_of (- coeff) else ret coeff) s = Some (c, s0) ->
  c = (if RefIsPositive ref then coeff else - coeff) /\ s0 = s.
Proof.
  destruct (RefIsPositive ref); simpl; intros H.
  - by apply ret_Some in H.
  - by apply int64_of_Some in H as [[_ ->] ->].
Qed.

Lemma objective_coeff_written_value (m : gmap Z Z) var c v :
  objective_coeff (if c =? 0 then delete var m else <[var := c]> m) v
  = if bool_decide (var = v) then c else objective_coeff m v.
Proof.
  unfold objective_coeff. case_bool_decide as Hv.
  - subst v. destruct (Z.eqb_spec c 0) as [->|Hc].
    + by rewrite lookup_delete_eq.
    + by rewrite lookup_insert_eq.
  - destruct (Z.eqb_spec c 0).
    + by rewrite lookup_delete_ne.
    + by rewrite lookup_insert_ne.
Qed.

Lemma sparse_written (m : gmap Z Z) var c :
  sparse m -> sparse (if c =? 0 then delete var m else <[var := c]> m).
Proof.
  intros Hm v c'. destruct (Z.eqb_spec c 0) as [->|Hc].
  - intros [_ H]%lookup_delete_Some. by eapply Hm.
  - intros [[_ <-]|[_ H]]%lookup_insert_Some; [done|]. by eapply Hm.
Qed.

Lemma sparse_objective_coeff (m : gmap Z Z) v :
  sparse m -> (objective_coeff m v =? 0) = bool_decide (m !! v = None).
Proof.
  intros Hm. unfold objective_coeff.
  destruct (m !! v) as [c|] eqn:Hv; case_bool_decide; try done; simpl.
  apply Z.eqb_neq. by eapply Hm.
Qed.

Lemma foldl_substitute_coeff multiplier terms m nv v :
  objective_coeff (foldl (substitute_term multiplier) (m, nv) terms).1 v
  = objective_coeff m v - term_sum terms v * multiplier.
Proof.
  revert m nv. induction terms as [|t terms IH]; intros m nv; simpl.
  - lia.
  - unfold substitute_term at 2. simpl. rewrite IH.
    rewrite objective_coeff_written_value.
    case_bool_decide; subst; lia.
Qed.

Lemma foldl_substitute_sparse multiplier terms m nv :
  sparse m -> sparse (foldl (substitute_term multiplier) (m, nv) terms).1.
Proof.
  revert m nv. induction terms as [|t terms IH]; intros m nv Hm; simpl; [done|].
  apply IH. by apply sparse_written.
Qed.

Lemma foldl_substitute_lookup_other multiplier terms (m : gmap Z Z) nv v :
  v ∉ terms.*1 ->
  (foldl (substitute_term multiplier) (m, nv) terms).1 !! v = m !! v.
Proof.
  revert m nv. induction terms as [|t terms IH]; intros m nv Hv; simpl; [done|].
  rewrite fmap_cons, not_elem_of_cons in Hv. destruct Hv as [Hne Hv].
  unfold substitute_term at 2. simpl. rewrite IH by done.
  destruct (_ =? 0).
  - by rewrite lookup_delete_ne.
  - by rewrite lookup_insert_ne.
Qed.

Lemma filter_ext_elem_of {A} (P Q : A -> Prop)
    `{!forall x, Decision (P x)} `{!forall x, Decision (Q x)} (l : list A) :
  (forall x, x ∈ l -> (P x <-> Q x)) -> filter P l = filter Q l.
Proof.
  induction l as [|x l IH]; intros Hext; [done|].
  assert (Hl : forall y, y ∈ l -> (P y <-> Q y)).
  { intros y Hy. apply Hext. by right. }
  destruct (decide (P x)) as [HP|HP].
  - rewrite !filter_cons_True; [|by apply Hext; [left|]|done].
    by rewrite IH.
  - rewrite !filter_cons_False; [|rewrite <- Hext; [done|left]|done].
    by apply IH.
Qed.

(** With distinct variables in the equality and a sparse map, the reported
    variables are those of the equality that were absent from the map. *)
Lemma foldl_substitute_new_vars multiplier terms (m : gmap Z Z) nv :
  sparse m -> NoDup terms.*1 ->
  (foldl (substitute_term multiplier) (m, nv) terms).2
  = (fun l => l ++ filter (fun v => m !! v = None) terms.*1) <$> nv.
Proof.
  revert m nv. induction terms as [|t terms IH]; intros m nv Hm Hnd; simpl.
  - destruct nv; simpl; [|done]. by rewrite app_nil_r.
  - rewrite fmap_cons in Hnd. apply NoDup_cons in Hnd as [Hnotin Hnd].
    unfold substitute_term at 2. simpl.
    rewrite IH by (done || by apply sparse_written).
    rewrite (sparse_objective_coeff _ _ Hm).
    assert (Hfilter :
      filter (fun v => (if objective_coeff m t.1 - t.2 * multiplier =? 0
                        then delete t.1 m
                        else <[t.1 := objective_coeff m t.1 - t.2 * multiplier]> m)
                       !! v = None) terms.*1
      = filter (fun v => m !! v = None) terms.*1).
    { apply filter_ext_elem_of. intros v Hv.
      assert (t.1 <> v) by (intros Heq; by subst v).
      destruct (_ =? 0).
      - by rewrite lookup_delete_ne.
      - by rewrite lookup_insert_ne. }
    rewrite Hfilter. case_bool_decide as Habs.
    + rewrite filter_cons_True by done.
      destruct nv; simpl; [|done]. by rewrite <- app_assoc.
    + by rewrite filter_cons_False by done.
Qed.

Lemma SubstituteVariableInObjective_loop_spec x multiplier vars coeffs nv s out s' :
  SubstituteVariableInObjective_loop x multiplier vars coeffs nv s = Some (out, s') ->
  let terms := other_terms x (normalized_terms vars coeffs) in
  (objective_map s', out)
  = foldl (substitute_term multiplier) (objective_map s, nv) terms
  /\ objective_frame s s'
  /\ (forall w, w ∉ terms.*1 ->
        at_index (var_to_constraints_ s') w = at_index (var_to_constraints_ s) w)
  /\ (forall v, v ∈ terms.*1 ->
        exists cs, at_index (var_to_constraints_ s') v = Some cs
                   /\ (-1 ∈ cs <-> is_Some (objective_map s' !! v))).
Proof.
  revert coeffs nv s.
  induction vars as [|ref vars IH]; intros coeffs nv s H.
  - simpl in H. run_inv H. subst. simpl. repeat split; try done.
    intros v Hv. by apply elem_of_nil in Hv.
  - destruct coeffs as [|coeff coeffs]; [done|].
    simpl in H.
    apply bind_Some in H as (c & s0 & Hc & H).
    apply normalized_sign in Hc as [-> ->].
    unfold normalized_terms, other_terms. simpl.
    set (var := if negb (RefIsPositive ref) then NegatedRef ref else ref) in *.
    set (term := if RefIsPositive ref then (ref, coeff) else (NegatedRef ref, - coeff)).
    assert (Hvar : term.1 = var) by (subst term var; by destruct (RefIsPositive ref)).
    assert (Hcoeff : term.2 = if RefIsPositive ref then coeff else - coeff)
      by (subst term; by destruct (RefIsPositive ref)).
    destruct (Z.eqb_spec var x) as [Heq|Hne].
    + rewrite filter_cons_False by (rewrite Hvar; tauto).
      by apply IH.
    + rewrite filter_cons_True by (by rewrite Hvar).
      apply bind_Some in H as (map_ref & s1 & Hget & H).
      apply gets_Some in Hget as [-> ->].
      apply bind_Some in H as (delta & s1 & Hdelta & H).
      apply int64_of_Some in Hdelta as [[_ ->] ->].
      apply bind_Some in H as (new_ref & s1 & Hnew & H).
      apply int64_of_Some in Hnew as [[_ ->] ->].
      apply bind_Some in H as (u1 & s1 & Hset & H).
      apply bind_Some in H as (u2 & s2 & Hupd & H).
      destruct (objective_coeff_written _ _ _ _ _ _ _ Hset Hupd)
        as (Hmap & Hframe & (cs & Hcs & Hin) & Hothers).
      apply IH in H as (Hfold & Hframe' & Hout & Hin').
      fold (normalized_terms vars coeffs) in *.
      fold (other_terms x (normalized_terms vars coeffs)) in *.
      set (terms := other_terms x (normalized_terms vars coeffs)) in *.
      split; [|split; [by transitivity s2|split]].
      * rewrite Hfold. simpl. f_equal. unfold substitute_term. simpl.
        rewrite Hvar, Hcoeff, Hmap. done.
      * intros w Hw. rewrite fmap_cons, not_elem_of_cons, Hvar in Hw.
        destruct Hw as [Hwv Hw]. rewrite Hout by done. by apply Hothers.
      * intros v Hv. rewrite fmap_cons, elem_of_cons, Hvar in Hv.
        destruct (decide (v ∈ terms.*1)) as [Hlater|Hnot]; [by apply Hin'|].
        destruct Hv as [->|Hv]; [|done].
        exists cs. rewrite Hout by done. split; [done|].
        rewrite Hin.
        assert (Hlook : objective_map s' !! var = objective_map s2 !! var).
        { change (objective_map s') with ((objective_map s', out).1).
          rewrite Hfold. by apply foldl_substitute_lookup_other. }
        rewrite Hlook, Hmap.
        destruct (Z.eqb_spec (objective_coeff (objective_map s) var
                   - (if RefIsPositive ref then coeff else - coeff) * multiplier) 0)
          as [Hz|Hnz].
        -- rewrite lookup_delete_eq. split; [done|]. by intros [? ?].
        -- rewrite lookup_insert_eq. split; [eauto|done].
Qed.

(** The product of a one-value domain by a coefficient, when it is
    representable. *)
Lemma MultiplicationBy_value k multiplier d exact m :
  Domain.MultiplicationBy [(k, k)] multiplier = (d, exact) ->
  Domain.Min d = Some m ->
  m = k * multiplier /\ exact = true.
Proof.
  unfold Domain.MultiplicationBy. simpl Domain.IsEmpty. cbv iota.
  destruct (Z.eqb_spec multiplier 0) as [->|Hm].
  { intros [= <- <-]. simpl. intros [= <-]. lia. }
  assert (Hsize : Domain.Size [(k, k)] = 1).
  { unfold Domain.Size. simpl. replace (k - k + 1 + 0) with 1 by lia. done. }
  rewrite Hsize. change (Domain.kDomainComplexityLimit <? 1) with false.
  rewrite andb_false_r.
  intros [= <- <-]. simpl.
  unfold Domain.values_of. simpl. replace (k - k + 1) with 1 by lia.
  rewrite seqZ_cons by lia. rewrite seqZ_nil by lia. simpl. rewrite app_nil_r.
  destruct (in_int64 (k * multiplier)); simpl; [|done].
  destruct (Z.ltb_spec (k * multiplier) (k * multiplier)); [lia|].
  simpl. by intros [= <-].
Qed.

(** C6.  Assume that [var_in_equality] is a positive reference, that
    [objective_map] holds [coeff_in_objective] for it, an exact multiple
    of the non-zero [coeff_in_equality], that the equality has the fixed
    right-hand side [k], and that the map is sparse.  A call of
    [SubstituteVariableInObjective] that returns, with
    [multiplier = coeff_in_objective / coeff_in_equality]:
    - decrements the coefficient of every other variable [v] by
      [multiplier] times the (sign-normalized) coefficients of [v] in the
      equality, an entry being created when it was absent and erased
      when it becomes zero, so that the map stays sparse;
    - erases [var_in_equality] from the map and the objective [-1] from its
      set of constraints, and keeps [-1] in the set of every other
      variable of the equality exactly when it has an entry;
    - reports in [new_vars_in_objective] (when given) the variables that had
      no entry when they were met; for an equality with distinct
      variables these are the variables absent from the map before the
      call;
    - adds [k * multiplier] to [objective_offset], shifts [objective_domain]
      by [- k * multiplier], and sets
      [objective_domain_is_constraining]. *)
Theorem SubstituteVariableInObjective_spec
    var_in_equality coeff_in_equality equality new_vars_in_objective s
    coeff_in_objective k out s' :
  RefIsPositive var_in_equality = true ->
  objective_map s !! var_in_equality = Some coeff_in_objective ->
  coeff_in_equality <> 0 ->
  Z.rem coeff_in_objective coeff_in_equality = 0 ->
  ReadDomainFromProto (linear_domain (linear_of equality)) = Some [(k, k)] ->
  sparse (objective_map s) ->
  SubstituteVariableInObjective var_in_equality coeff_in_equality equality
    new_vars_in_objective s = Some (out, s') ->
  let multiplier := coeff_in_objective / coeff_in_equality in
  let terms := other_terms var_in_equality
                 (normalized_terms (linear_vars (linear_of equality))
                                   (linear_coeffs (linear_of equality))) in
  let substituted :=
    foldl (substitute_term multiplier)
          (objective_map s, (fun _ => []) <$> new_vars_in_objective) terms in
  coeff_in_objective = multiplier * coeff_in_equality
  /\ (forall v, v <> var_in_equality ->
        objective_coeff (objective_map s') v
        = objective_coeff (objective_map s) v - term_sum terms v * multiplier)
  /\ objective_map s' !! var_in_equality = None
  /\ sparse (objective_map s')
  /\ objective_map s' = delete var_in_equality substituted.1
  /\ out = substituted.2
  /\ (NoDup terms.*1 ->
        out = (fun _ => filter (fun v => objective_map s !! v = None) terms.*1)
                <$> new_vars_in_objective)
  /\ (exists cs, at_index (var_to_constraints_ s') var_in_equality = Some cs
                 /\ -1 ∉ cs)
  /\ (forall v, v ∈ terms.*1 ->
        exists cs, at_index (var_to_constraints_ s') v = Some cs
                   /\ (-1 ∈ cs <-> is_Some (objective_map s' !! v)))
  /\ objective_offset s'
     = (objective_offset s + double_of_int64 (k * multiplier))%float
  /\ objective_domain s'
     = Domain.AdditionWith (objective_domain s)
                           (Domain.FromValue (- (k * multiplier)))
  /\ objective_domain_is_constraining s' = true
  /\ working_model s' = working_model s
  /\ domains s' = domains s
  /\ is_unsat s' = is_unsat s.
Proof.
  intros Hpos Hcoeff Hnz Hrem Hrhs Hsparse H multiplier terms substituted.
  assert (Hquot : Z.quot coeff_in_objective coeff_in_equality = multiplier).
  { subst multiplier. apply Z.rem_divide in Hrem as [q ->]; [|done].
    rewrite Z.quot_mul, Z.div_mul; done. }
  assert (Hexact : coeff_in_objective = multiplier * coeff_in_equality).
  { subst multiplier. apply Z.rem_divide in Hrem as [q ->]; [|done].
    by rewrite Z.div_mul. }
  unfold SubstituteVariableInObjective in H.
  apply bind_Some in H as (u1 & s1 & Hc1 & H). apply CHECK_Some in Hc1 as [_ ->].
  apply bind_Some in H as (u2 & s1 & Hc2 & H). apply CHECK_Some in Hc2 as [_ ->].
  apply bind_Some in H as (c & s1 & Hfind & H). apply read_Some in Hfind as [Hfind ->].
  rewrite Hcoeff in Hfind. injection Hfind as <-.
  apply bind_Some in H as (u3 & s1 & Hc3 & H). apply CHECK_Some in Hc3 as [_ ->].
  apply bind_Some in H as (u4 & s1 & Hc4 & H). apply CHECK_Some in Hc4 as [_ ->].
  apply bind_Some in H as (m & s1 & Hm & H).
  apply int64_of_Some in Hm as [[_ ->] ->]. rewrite Hquot in H.
  apply bind_Some in H as (nv & s1 & Hloop & H).
  apply SubstituteVariableInObjective_loop_spec in Hloop
    as (Hfold & Hframe & Hvtc_other & Hvtc_terms).
  fold terms in Hfold, Hvtc_other, Hvtc_terms. fold substituted in Hfold.
  apply bind_Some in H as (u5 & s2 & Herase & H). apply modify_Some in Herase as ->.
  apply bind_Some in H as (u6 & s2 & Husage & H).
  apply update_var_to_constraints_run in Husage as (cs & Hcs & ->).
  apply bind_Some in H as (offset & s2 & Hread & H).
  apply read_Some in Hread as [Hread ->].
  rewrite Hrhs in Hread. injection Hread as <-.
  destruct (Domain.MultiplicationBy [(k, k)] multiplier) as [offset exact] eqn:Hmul.
  apply bind_Some in H as (u7 & s2 & Hc5 & H). apply CHECK_Some in Hc5 as [_ ->].
  apply bind_Some in H as (offset_min & s2 & Hmin & H).
  apply read_Some in Hmin as [Hmin ->].
  destruct (MultiplicationBy_value _ _ _ _ _ Hmul Hmin) as [-> _].
  apply bind_Some in H as (u8 & s2 & Hoff & H). apply modify_Some in Hoff as ->.
  apply bind_Some in H as (shift & s2 & Hshift & H).
  apply int64_of_Some in Hshift as [[_ ->] ->].
  apply bind_Some in H as (u9 & s2 & Hdom & H). apply modify_Some in Hdom as ->.
  apply bind_Some in H as (u10 & s2 & Hcons & H). apply modify_Some in Hcons as ->.
  apply ret_Some in H as [-> ->].
  destruct Hframe as (om & vtc & ->). simpl in *.
  assert (Hom : om = substituted.1) by (by rewrite <- Hfold).
  assert (Hnv : nv = substituted.2) by (by rewrite <- Hfold).
  assert (Hnotin : var_in_equality ∉ terms.*1).
  { intros (t & Heq & Ht)%list_elem_of_fmap. subst terms.
    unfold other_terms in Ht. apply list_elem_of_filter in Ht as [Hne _]. done. }
  split; [done|]. split.
  { intros v Hv. unfold objective_coeff at 1. rewrite lookup_delete_ne by done.
    fold (objective_coeff om v). rewrite Hom. subst substituted.
    apply foldl_substitute_coeff. }
  split; [apply lookup_delete_eq|]. split.
  { intros v c [_ Hv]%lookup_delete_Some. rewrite Hom in Hv.
    eapply foldl_substitute_sparse; [exact Hsparse|exact Hv]. }
  split; [by rewrite Hom|]. split; [done|]. split.
  { intros Hnd. rewrite Hnv. subst substituted.
    rewrite foldl_substitute_new_vars by done.
    by destruct new_vars_in_objective. }
  split.
  { eexists. split; [by eapply at_index_set_index_eq|].
    rewrite elem_of_difference, elem_of_singleton. tauto. }
  split.
  { intros v Hv. destruct (Hvtc_terms v Hv) as (cs' & Hcs' & Hin).
    assert (Hne : v <> var_in_equality) by (intros ->; done).
    exists cs'. rewrite at_index_set_index_ne;
      [|by apply at_index_Some in Hcs as [? _]|done].
    split; [done|]. by rewrite lookup_delete_ne. }
  repeat split; done.
Qed.

Lemma sparse_decide (m : gmap Z Z) :
  bool_decide (map_Forall (fun _ c => c <> 0) m) = true -> sparse m.
Proof. intros H. by apply bool_decide_eq_true_1 in H. Qed.

Lemma SubstituteVariableInObjective_spec_witness :
  exists s out s',
    substitution_scenario_context = Some s
    /\ SubstituteVariableInObjective 0 1 substitution_scenario_equality (Some [9]) s
       = Some (out, s')
    /\ objective_coeff (objective_map s') 1 = 1 - 2 * 5
    /\ objective_coeff (objective_map s') 2 = 7 - (-1) * 5
    /\ objective_map s' !! 0 = None
    /\ out = Some []
    /\ objective_offset s' = (0 + 20)%float
    /\ objective_domain s' = [(-20, 80)]
    /\ objective_domain_is_constraining s' = true.
Proof.
  assert (Hs : exists s, substitution_scenario_context = Some s).
  { eexists. vm_compute. reflexivity. }
  destruct Hs as [s Hs].
  assert (Hfacts :
    objective_map s !! 0 = Some 5
    /\ bool_decide (map_Forall (fun _ c => c <> 0) (objective_map s)) = true
    /\ objective_coeff (objective_map s) 1 = 1
    /\ objective_coeff (objective_map s) 2 = 7
    /\ objective_map s !! 1 = Some 1
    /\ objective_map s !! 2 = Some 7
    /\ objective_offset s = 0%float
    /\ objective_domain s = [(0, 100)]
    /\ exists out s',
         SubstituteVariableInObjective 0 1 substitution_scenario_equality (Some [9]) s
         = Some (out, s')).
  { vm_compute in Hs. injection Hs as <-.
    repeat split; try (vm_compute; reflexivity).
    eexists _, _. vm_compute. reflexivity. }
  destruct Hfacts as (H0 & Hsp & H1 & H2 & Hl1 & Hl2 & Hoff & Hdom & out & s' & Hrun).
  exists s, out, s'. split; [done|]. split; [done|].
  destruct (SubstituteVariableInObjective_spec 0 1 substitution_scenario_equality
              (Some [9]) s 5 4 out s' eq_refl H0 ltac:(lia) eq_refl eq_refl
              (sparse_decide _ Hsp) Hrun)
    as (_ & Hcoeff & Hgone & _ & _ & _ & Hnew & _ & _ & Hoffset & Hdomain & Hcons & _).
  split; [rewrite Hcoeff by lia; by rewrite H1|].
  split; [rewrite Hcoeff by lia; by rewrite H2|].
  split; [done|]. split.
  { assert (Hterms :
      other_terms 0
        (normalized_terms (linear_vars (linear_of substitution_scenario_equality))
                          (linear_coeffs (linear_of substitution_scenario_equality)))
      = [(1, 2); (2, -1)]) by (vm_compute; reflexivity).
    rewrite Hterms in Hnew. simpl in Hnew. rewrite Hnew.
    - rewrite filter_cons_False by (rewrite Hl1; done).
      rewrite filter_cons_False by (rewrite Hl2; done). done.
    - apply NoDup_cons. split; [|apply NoDup_singleton].
      rewrite list_elem_of_singleton. lia. }
  split; [by rewrite Hoffset, Hoff|].
  split; [by rewrite Hdomain, Hdom|done].
Defined.

(** ** Reading and writing the objective *)










Lemma sorted_entries_Permutation (m : gmap Z Z) : sorted_entries m ≡ₚ map_to_list m.
Proof. apply merge_sort_Permutation. Qed.







(** A scaling factor 0 in a proto (the factor is unset) is outside of the
    data model, which has a scaling factor that is not 0:
    [ReadObjectiveFromProto] reads it as 1, so that the written proto
    gives the raw value 1 the value 1, where the formula
    [scaling_factor * (raw + offset)] gave 0 on the proto read. *)
Lemma objective_round_trip_changes_value :
  exists s s1 s2,
    s = set_objective (MkCpObjectiveProto [0] [1] [] 0 0) empty_context
    /\ ReadObjectiveFromProto (with_var_to_constraints_ [∅] s) = Some (tt, s1)
    /\ WriteObjectiveToProto s1 = Some (tt, s2)
    /\ objective_value (objective (working_model s)) 1 = 0%float
    /\ objective_value (objective (working_model s2)) 1 = 1%float
    /\ objective_value (objective (working_model s2)) 1
       <> objective_value (objective (working_model s)) 1.
Proof.
  eexists _, _, _. split; [reflexivity|].
  split; [vm_compute; reflexivity|].
  split; [vm_compute; reflexivity|].
  split; [vm_compute; reflexivity|].
  split; [vm_compute; reflexivity|].
  intros Heq. apply (f_equal (fun x => PrimFloat.eqb x 0)) in Heq.
  vm_compute in Heq. discriminate.
Qed.



(** ** Canonical form of the objective *)

Lemma entries_gcd_nonneg g entries : 0 <= g -> 0 <= entries_gcd g entries.
Proof.
  revert g. induction entries as [|t entries IH]; intros g Hg; simpl; [done|].
  apply IH. apply Z.gcd_nonneg.
Qed.

Lemma entries_gcd_divides g entries :
  (entries_gcd g entries | g)
  /\ forall t, t ∈ entries -> (entries_gcd g entries | t.2).
Proof.
  revert g. induction entries as [|t entries IH]; intros g; simpl.
  - split; [reflexivity|]. intros t Ht. by apply elem_of_nil in Ht.
  - destruct (IH (GCD64 g (Z.abs t.2))) as [Hg Hall]. unfold GCD64 in *.
    split.
    + etransitivity; [exact Hg|]. apply Z.gcd_divide_l.
    + intros t' [->|Ht']%elem_of_cons; [|by apply Hall].
      etransitivity; [exact Hg|].
      etransitivity; [apply Z.gcd_divide_r|]. apply Z.divide_abs_l. reflexivity.
Qed.

Lemma entries_gcd_greatest g entries d :
  (d | g) -> (forall t, t ∈ entries -> (d | t.2)) -> (d | entries_gcd g entries).
Proof.
  revert g. induction entries as [|t entries IH]; intros g Hg Hall; simpl; [done|].
  apply IH.
  - unfold GCD64. apply Z.gcd_greatest; [done|].
    apply Z.divide_abs_r. apply Hall. by left.
  - intros t' Ht'. apply Hall. by right.
Qed.

Lemma elem_of_sorted_entries (m : gmap Z Z) t :
  t ∈ sorted_entries m <-> m !! t.1 = Some t.2.
Proof.
  rewrite sorted_entries_Permutation. destruct t as [v c]. apply elem_of_map_to_list.
Qed.

Lemma objective_gcd_divides (m : gmap Z Z) v c :
  m !! v = Some c -> (objective_gcd m | c).
Proof.
  intros Hv. unfold objective_gcd.
  apply (proj2 (entries_gcd_divides 0 (sorted_entries m)) (v, c)).
  by apply elem_of_sorted_entries.
Qed.

Lemma objective_gcd_greatest (m : gmap Z Z) d :
  (forall v c, m !! v = Some c -> (d | c)) -> (d | objective_gcd m).
Proof.
  intros Hd. apply entries_gcd_greatest; [apply Z.divide_0_r|].
  intros [v c] Ht%elem_of_sorted_entries. by eapply Hd.
Qed.

Lemma objective_gcd_nonneg m : 0 <= objective_gcd m.
Proof. by apply entries_gcd_nonneg. Qed.

Lemma objective_gcd_zero (m : gmap Z Z) :
  sparse m -> objective_gcd m = 0 -> m = ∅.
Proof.
  intros Hsparse Hzero. apply map_empty. intros v.
  destruct (m !! v) as [c|] eqn:Hv; [|done]. exfalso.
  pose proof (objective_gcd_divides m v c Hv) as Hdiv.
  rewrite Hzero in Hdiv. apply Z.divide_0_l in Hdiv. by eapply Hsparse.
Qed.

Lemma coprime_objective_gcd (m : gmap Z Z) :
  coprime_coefficients m -> objective_gcd m = 1.
Proof.
  intros Hco.
  assert (Hdiv : (objective_gcd m | 1)).
  { apply Hco. apply objective_gcd_divides. }
  pose proof (objective_gcd_nonneg m).
  apply Z.divide_1_r in Hdiv. lia.
Qed.

(** Dividing the coefficients of a sparse map by their gcd. *)
Lemma divided_by_gcd (m : gmap Z Z) :
  sparse m -> m <> ∅ ->
  let g := objective_gcd m in
  let m' := if 1 <? g then (fun c => Z.quot c g) <$> m else m in
  sparse m'
  /\ coprime_coefficients m'
  /\ (forall v, is_Some (m' !! v) <-> is_Some (m !! v)).
Proof.
  intros Hsparse Hne g m'.
  assert (Hg0 : g <> 0).
  { intros Hz. apply Hne. by apply objective_gcd_zero. }
  pose proof (objective_gcd_nonneg m) as Hnn. fold g in Hnn.
  destruct (Z.ltb_spec 1 g) as [Hgt|Hle]; subst m'.
  - assert (Hq : forall v c, m !! v = Some c -> c = g * Z.quot c g).
    { intros v c Hv. destruct (objective_gcd_divides m v c Hv) as [q Hq].
      fold g in Hq. rewrite Hq, Z.quot_mul by done. lia. }
    split; [|split].
    + intros v c'. rewrite lookup_fmap.
      destruct (m !! v) as [c|] eqn:Hv; [|done]. simpl. intros [= <-].
      intros Hz. pose proof (Hq v c Hv) as Hc. rewrite Hz in Hc.
      apply (Hsparse v c Hv). lia.
    + intros d Hd.
      assert (Hdg : (d * g | g)).
      { apply objective_gcd_greatest. intros v c Hv.
        rewrite (Hq v c Hv).
        rewrite (Z.mul_comm d g). apply Z.mul_divide_mono_l.
        apply (Hd v). by rewrite lookup_fmap, Hv. }
      destruct Hdg as [q Hq']. exists q.
      apply (Z.mul_cancel_r _ _ g); [done|]. lia.
    + intros v. rewrite lookup_fmap. by rewrite fmap_is_Some.
  - assert (Hg1 : g = 1) by lia.
    split; [done|]. split; [|done].
    intros d Hd. rewrite <- Hg1. by apply objective_gcd_greatest.
Qed.

Global Instance same_relations_Reflexive : Reflexive same_relations.
Proof. by intros s. Qed.

Global Instance same_relations_Transitive : Transitive same_relations.
Proof. intros s1 s2 s3 [H1 H2] [H1' H2']. unfold same_relations. split; congruence. Qed.

Lemma GetAffineRelation_same_relations s s' ref :
  same_relations s s' -> GetAffineRelation ref s' = GetAffineRelation ref s.
Proof. intros [Ha He]. unfold GetAffineRelation. by rewrite Ha, He. Qed.

Global Instance same_objective_map_Reflexive : Reflexive same_objective_map.
Proof. by intros s. Qed.

Global Instance same_objective_map_Transitive : Transitive same_objective_map.
Proof.
  intros s1 s2 s3 [H1 H2] [H1' H2']. split; [by transitivity s2|congruence].
Qed.

Lemma IntersectDomainWith_same_objective_map ref domain flag :
  preserves same_objective_map (IntersectDomainWith ref domain flag).
Proof.
  unfold IntersectDomainWith. repeat preserves_step;
    apply preserves_modify; by intros.
Qed.

Lemma UpdateRuleStats_same_objective_map name :
  preserves same_objective_map (UpdateRuleStats name).
Proof.
  unfold UpdateRuleStats. apply preserves_modify. intros s.
  by destruct (enable_stats s).
Qed.

Lemma update_var_to_constraints_same_objective_map var f :
  preserves same_objective_map (update_var_to_constraints var f).
Proof.
  unfold update_var_to_constraints. repeat preserves_step.
  apply preserves_modify. by intros.
Qed.

Lemma canonical_but_delete canon entries (m : gmap Z Z) k :
  canonical_but canon entries m -> canonical_but canon entries (delete k m).
Proof.
  intros [Hs Hk]. split.
  - intros v c [_ H]%lookup_delete_Some. by eapply Hs.
  - intros v [c [_ H]%lookup_delete_Some]. apply Hk. by eexists.
Qed.

Lemma canonical_but_insert canon entries (m : gmap Z Z) k c :
  c <> 0 -> canon k ->
  canonical_but canon entries m -> canonical_but canon entries (<[k := c]> m).
Proof.
  intros Hc Hcanon [Hs Hk]. split.
  - intros v c' [[_ <-]|[_ H]]%lookup_insert_Some; [done|]. by eapply Hs.
  - intros v [c' [[<- _]|[_ H]]%lookup_insert_Some]; [by right|].
    apply Hk. by eexists.
Qed.

Lemma canonical_but_skip canon e entries (m : gmap Z Z) :
  m !! e.1 = None \/ canon e.1 ->
  canonical_but canon (e :: entries) m -> canonical_but canon entries m.
Proof.
  intros He [Hs Hk]. split; [done|].
  intros v Hv. destruct (Hk v Hv) as [Hin|Hc]; [|by right].
  rewrite fmap_cons in Hin. apply elem_of_cons in Hin as [->|Hin]; [|by left].
  destruct He as [Hnone|Hc]; [|by right].
  rewrite Hnone in Hv. by destruct Hv.
Qed.

Lemma canonical_but_delete_head canon e entries (m : gmap Z Z) :
  canonical_but canon (e :: entries) m ->
  canonical_but canon entries (delete e.1 m).
Proof.
  intros H. apply (canonical_but_skip canon e).
  - left. apply lookup_delete_eq.
  - by apply canonical_but_delete.
Qed.

Lemma preserves_elim (R : relation PresolveContext) {A} (m : M A) s a s' :
  preserves R m -> m s = Some (a, s') -> R s s'.
Proof. intros Hm. apply Hm. Qed.

Lemma erase_objective_usage_same_objective_map var s u s' :
  erase_objective_usage var s = Some (u, s') -> same_objective_map s s'.
Proof. apply update_var_to_constraints_same_objective_map. Qed.

Lemma insert_objective_usage_same_objective_map var s u s' :
  insert_objective_usage var s = Some (u, s') -> same_objective_map s s'.
Proof. apply update_var_to_constraints_same_objective_map. Qed.

Lemma CanonicalizeObjective_loop_spec canon entries offset_change s r s' :
  CanonicalizeObjective_loop entries offset_change s = Some (r, s') ->
  same_relations s s'
  /\ ((forall v, canon (representative (GetAffineRelation v s))) ->
      (forall v, representative (GetAffineRelation v s) = v -> canon v) ->
      canonical_but canon entries (objective_map s) ->
      is_Some r ->
      canonical_but canon [] (objective_map s')).
Proof.
  revert offset_change s.
  induction entries as [|entry rest IH]; intros offset_change s H.
  { simpl in H. apply ret_Some in H as [-> ->]. split; [done|]. by intros _ _ HK _. }
  simpl in H.
  apply bind_Some in H as (it & s0 & Hit & H). apply gets_Some in Hit as [-> ->].
  destruct (objective_map s !! entry.1) as [coeff|] eqn:Hlookup.
  2:{ apply IH in H as [Hrel Hcanon]. split; [done|].
      intros H1 H2 HK Hr. apply Hcanon; try done.
      apply (canonical_but_skip canon entry); [by left|done]. }
  apply bind_Some in H as (only & s0 & Honly & H).
  assert (s0 = s) as ->.
  { destruct (_ && _ && _) in Honly.
    - by apply read_Some in Honly as [_ ->].
    - by apply ret_Some in Honly as [_ ->]. }
  apply bind_Some in H as (fixed_ok & s1 & Hfix & H).
  assert (Hs1 : same_objective_map s s1).
  { revert Hfix. apply preserves_elim. destruct only.
    - repeat preserves_step;
        first [ apply UpdateRuleStats_same_objective_map
              | apply IntersectDomainWith_same_objective_map ].
    - apply preserves_ret. typeclasses eauto. }
  destruct Hs1 as [Hrel1 Hmap1].
  destruct fixed_ok; simpl in H.
  2:{ apply ret_Some in H as [-> ->]. split; [done|]. intros _ _ _ [? ?]. done. }
  apply bind_Some in H as (fixed & s2 & Hfixed & H).
  apply read_Some in Hfixed as [_ ->].
  destruct fixed.
  { (* the variable is fixed *)
    apply bind_Some in H as (min & s2 & Hmin & H). apply read_Some in Hmin as [_ ->].
    apply bind_Some in H as (p & s2 & Hp & H). apply int64_of_Some in Hp as [_ ->].
    apply bind_Some in H as (oc & s2 & Hoc & H). apply int64_of_Some in Hoc as [_ ->].
    apply bind_Some in H as (u1 & s2 & Hu & H).
    apply erase_objective_usage_same_objective_map in Hu as [Hrel2 Hmap2].
    apply bind_Some in H as (u2 & s3 & He & H). apply modify_Some in He as ->.
    apply IH in H as [Hrel3 Hcanon]. simpl in Hrel3, Hcanon.
    split.
    { transitivity s1; [done|]. transitivity s2; [done|].
      destruct Hrel3 as [? ?]. by split. }
    intros H1 H2 HK Hr. apply Hcanon; try done.
    - intros v. rewrite GetAffineRelation_same_relations with (s := s); [done|].
      transitivity s1; [done|]. by transitivity s2.
    - intros v. rewrite GetAffineRelation_same_relations with (s := s); [apply H2|].
      transitivity s1; [done|]. by transitivity s2.
    - rewrite Hmap2, Hmap1. by apply canonical_but_delete_head. }
  (* the variable is not fixed: its affine representative *)
  apply bind_Some in H as (r0 & s2 & Hr0 & H). apply gets_Some in Hr0 as [-> ->].
  assert (Hr1 : GetAffineRelation entry.1 s1 = GetAffineRelation entry.1 s)
    by (by apply GetAffineRelation_same_relations).
  rewrite Hr1 in H.
  set (rel := GetAffineRelation entry.1 s) in *.
  destruct (Z.eqb_spec (representative rel) entry.1) as [Hself|Hother].
  { apply IH in H as [Hrel2 Hcanon].
    split; [by transitivity s1|].
    intros H1 H2 HK Hr. apply Hcanon; try done.
    - intros v. by rewrite GetAffineRelation_same_relations with (s := s).
    - intros v. rewrite GetAffineRelation_same_relations with (s := s); [apply H2|done].
    - rewrite Hmap1. apply (canonical_but_skip canon entry); [|done].
      right. by apply H2. }
  apply bind_Some in H as (u1 & s2 & He & H). apply modify_Some in He as ->.
  apply bind_Some in H as (u2 & s2 & Hu & H).
  apply erase_objective_usage_same_objective_map in Hu as [Hrel2 Hmap2].
  simpl in Hrel2, Hmap2.
  apply bind_Some in H as (p1 & s3 & Hp1 & H). apply int64_of_Some in Hp1 as [_ ->].
  apply bind_Some in H as (oc & s3 & Hoc & H). apply int64_of_Some in Hoc as [_ ->].
  apply bind_Some in H as (p2 & s3 & Hp2 & H). apply int64_of_Some in Hp2 as [_ ->].
  apply bind_Some in H as (old & s3 & Hold & H). apply gets_Some in Hold as [-> ->].
  apply bind_Some in H as (new_coeff & s3 & Hnew & H).
  apply int64_of_Some in Hnew as [_ ->].
  apply bind_Some in H as (u3 & s3 & Hset & H). apply modify_Some in Hset as ->.
  assert (Hrel_s2 : same_relations s s2).
  { transitivity s1; [done|]. destruct Hrel2 as [? ?]. by split. }
  assert (Hbase : canonical_but canon (entry :: rest) (objective_map s) ->
                  canonical_but canon rest (objective_map s2)).
  { intros HK. rewrite Hmap2, Hmap1. by apply canonical_but_delete_head. }
  destruct (Z.eqb_spec new_coeff 0) as [Hzero|Hnonzero].
  { apply bind_Some in H as (u4 & s3 & He & H). apply modify_Some in He as ->.
    apply bind_Some in H as (u5 & s3 & Hu & H).
    apply erase_objective_usage_same_objective_map in Hu as [Hrel3 Hmap3].
    simpl in Hrel3, Hmap3.
    apply IH in H as [Hrel4 Hcanon].
    assert (Hrel_s3 : same_relations s s3).
    { transitivity s2; [done|]. destruct Hrel3 as [? ?]. by split. }
    split; [by transitivity s3|].
    intros H1 H2 HK Hr. apply Hcanon; try done.
    - intros v. by rewrite GetAffineRelation_same_relations with (s := s).
    - intros v. rewrite GetAffineRelation_same_relations with (s := s); [apply H2|done].
    - rewrite Hmap3, delete_insert_eq. apply canonical_but_delete. by apply Hbase. }
  apply bind_Some in H as (u4 & s3 & Hu & H).
  apply insert_objective_usage_same_objective_map in Hu as [Hrel3 Hmap3].
  simpl in Hrel3, Hmap3.
  assert (Hrel_s3 : same_relations s s3).
  { transitivity s2; [done|]. destruct Hrel3 as [? ?]. by split. }
  apply bind_Some in H as (rep_fixed & s4 & Hrf & H). apply read_Some in Hrf as [_ ->].
  destruct rep_fixed.
  { apply bind_Some in H as (min & s4 & Hmin & H). apply read_Some in Hmin as [_ ->].
    apply bind_Some in H as (p & s4 & Hp & H). apply int64_of_Some in Hp as [_ ->].
    apply bind_Some in H as (oc' & s4 & Hoc' & H). apply int64_of_Some in Hoc' as [_ ->].
    apply bind_Some in H as (u5 & s4 & Hu & H).
    apply erase_objective_usage_same_objective_map in Hu as [Hrel4 Hmap4].
    apply bind_Some in H as (u6 & s5 & He & H). apply modify_Some in He as ->.
    apply IH in H as [Hrel5 Hcanon]. simpl in Hrel5, Hcanon.
    assert (Hrel_s4 : same_relations s s4) by (by transitivity s3).
    split.
    { transitivity s4; [done|]. destruct Hrel5 as [? ?]. by split. }
    intros H1 H2 HK Hr. apply Hcanon; try done.
    - intros v. by rewrite GetAffineRelation_same_relations with (s := s).
    - intros v. rewrite GetAffineRelation_same_relations with (s := s); [apply H2|done].
    - rewrite Hmap4, Hmap3, delete_insert_eq. apply canonical_but_delete.
      by apply Hbase. }
  apply IH in H as [Hrel4 Hcanon].
  split; [by transitivity s3|].
  intros H1 H2 HK Hr. apply Hcanon; try done.
  - intros v. by rewrite GetAffineRelation_same_relations with (s := s).
  - intros v. rewrite GetAffineRelation_same_relations with (s := s); [apply H2|done].
  - rewrite Hmap3. apply canonical_but_insert; [done|apply H1|by apply Hbase].
Qed.

Lemma CanonicalizeObjective_implied_spec entries gcd implied_domain s r s' :
  CanonicalizeObjective_implied entries gcd implied_domain s = Some (r, s') ->
  s' = s /\ r.1 = entries_gcd gcd entries.
Proof.
  revert gcd implied_domain s.
  induction entries as [|entry rest IH]; intros gcd implied_domain s H.
  - simpl in H. by apply ret_Some in H as [-> ->].
  - simpl in H.
    apply bind_Some in H as (a & s0 & Ha & H).
    apply int64_of_Some in Ha as [[_ ->] ->].
    apply bind_Some in H as (d & s0 & Hd & H). apply read_Some in Hd as [_ ->].
    by apply IH in H.
Qed.

(** C3, as stated, fails for the representatives: in the context above
    (no zero coefficient, feasible, not marked infeasible)
    [CanonicalizeObjective] returns true and leaves the objective [z],
    while [GetAffineRelation(z)] answers the representative [r]. *)
Lemma CanonicalizeObjective_key_not_representative :
  exists s s',
    refused_merge_context = Some s
    /\ is_unsat s = false
    /\ map_to_list (objective_map s) = [(0, 1)]
    /\ GetAffineRelation 0 s = MkRelation 1 1 0
    /\ CanonicalizeObjective (map_to_list (objective_map s)) s = Some (true, s')
    /\ map_to_list (objective_map s') = [(1, 1)]
    /\ GetAffineRelation 1 s' = MkRelation 2 2 (-4)
    /\ representative (GetAffineRelation 1 s') <> 1.
Proof.
  eexists _, _. split; [vm_compute; reflexivity|].
  split; [vm_compute; reflexivity|].
  split; [vm_compute; reflexivity|].
  split; [vm_compute; reflexivity|].
  split; [vm_compute; reflexivity|].
  split; [vm_compute; reflexivity|].
  split; [vm_compute; reflexivity|].
  vm_compute. discriminate.
Qed.

(** C3, amended.  In a context where zero coefficients are absent from
    [objective_map] and every representative answered by
    [GetAffineRelation] is its own representative, whenever
    [CanonicalizeObjective], run on a copy [tmp_entries] of the entries of
    the map (in any order), returns true: every variable of
    [objective_map] is its own affine representative and has a non-zero
    coefficient; when the map is not empty its coefficients have no common
    divisor but 1, so that the gcd of their absolute values is 1; and
    [objective_domain] is not empty. *)
Theorem CanonicalizeObjective_spec tmp_entries s s' :
  sparse (objective_map s) ->
  canonical_representatives s ->
  tmp_entries ≡ₚ map_to_list (objective_map s) ->
  CanonicalizeObjective tmp_entries s = Some (true, s') ->
  (forall v c, objective_map s' !! v = Some c ->
     representative (GetAffineRelation v s') = v /\ c <> 0)
  /\ (objective_map s' <> ∅ ->
        coprime_coefficients (objective_map s')
        /\ objective_gcd (objective_map s') = 1)
  /\ Domain.IsEmpty (objective_domain s') = false.
Proof.
  intros Hsparse Hcanon Hcover H. unfold CanonicalizeObjective in H.
  apply bind_Some in H as (substituted & s1 & Hloop & H).
  destruct substituted as [offset_change|];
    [|by apply ret_Some in H as [[=] _]].
  apply (CanonicalizeObjective_loop_spec
           (fun v => representative (GetAffineRelation v s) = v)) in Hloop
    as [Hrel1 Hloop].
  destruct Hloop as [Hsparse1 Hkeys1]; [done|done| |done|].
  { split; [done|]. intros v [c Hv]. left. rewrite Hcover.
    apply list_elem_of_fmap. exists (v, c). split; [done|].
    by apply elem_of_map_to_list. }
  assert (Hkeys : forall v, is_Some (objective_map s1 !! v) ->
                            representative (GetAffineRelation v s) = v).
  { intros v Hv. destruct (Hkeys1 v Hv) as [Hin|Hc]; [|done].
    by apply elem_of_nil in Hin. }
  clear Hkeys1.
  apply bind_Some in H as (entries & s2 & He & H). apply gets_Some in He as [-> ->].
  apply bind_Some in H as (gi & s2 & Hgi & H).
  apply CanonicalizeObjective_implied_spec in Hgi as [-> Hgcd].
  fold (objective_gcd (objective_map s1)) in Hgcd.
  apply bind_Some in H as (shift & s2 & Hshift & H).
  apply int64_of_Some in Hshift as [[_ ->] ->].
  apply bind_Some in H as (u1 & s2 & H1 & H). apply modify_Some in H1 as ->.
  apply bind_Some in H as (u2 & s2 & H2 & H). apply modify_Some in H2 as ->.
  apply bind_Some in H as (u3 & s2 & H3 & H). apply modify_Some in H3 as ->.
  apply bind_Some in H as (u4 & s2 & Hdiv & H).
  assert (Hs2 : same_relations s1 s2
                /\ objective_map s2
                   = if 1 <? gi.1 then (fun c => Z.quot c gi.1) <$> objective_map s1
                     else objective_map s1).
  { destruct (1 <? gi.1).
    - apply bind_Some in Hdiv as (v1 & t1 & Hm1 & Hdiv). apply modify_Some in Hm1 as ->.
      apply bind_Some in Hdiv as (v2 & t1 & Hm2 & Hdiv). apply modify_Some in Hm2 as ->.
      apply bind_Some in Hdiv as (v3 & t1 & Hm3 & Hdiv). apply modify_Some in Hm3 as ->.
      apply modify_Some in Hdiv as ->. done.
    - by apply ret_Some in Hdiv as [_ ->]. }
  destruct Hs2 as [Hrel2 Hmap2]. rewrite Hgcd in Hmap2.
  apply bind_Some in H as (d & s3 & Hd & H). apply gets_Some in Hd as [-> ->].
  destruct (Domain.IsEmpty (objective_domain s2)) eqn:Hempty;
    [by apply ret_Some in H as [[=] _]|].
  apply bind_Some in H as (max & s3 & Hmax & H). apply read_Some in Hmax as [_ ->].
  apply bind_Some in H as (u5 & s3 & Hc & H). apply modify_Some in Hc as ->.
  apply ret_Some in H as [_ ->]. simpl.
  assert (Hrel : same_relations s s2) by (by transitivity s1).
  destruct (decide (objective_map s1 = ∅)) as [Hnil|Hnonnil].
  - assert (Hmap : objective_map s2 = ∅).
    { rewrite Hmap2, Hnil. by destruct (1 <? objective_gcd ∅); [rewrite fmap_empty|]. }
    rewrite Hmap. split; [|split; [done|done]].
    intros v c. by rewrite lookup_empty.
  - destruct (divided_by_gcd (objective_map s1) Hsparse1 Hnonnil)
      as (Hsp & Hco & Hsame).
    rewrite <- Hmap2 in Hsp, Hco, Hsame.
    split; [|split; [|done]].
    + intros v c Hv. split; [|by eapply Hsp].
      rewrite GetAffineRelation_same_relations with (s := s) by done.
      apply Hkeys. apply Hsame. by eexists.
    + intros _. split; [done|]. by apply coprime_objective_gcd.
Qed.

(** A context with one affine relation, whose representative is related
    to nothing, has canonical representatives. *)
Lemma canonical_representatives_single s k rel :
  affine_relations_ s = {[k := rel]} ->
  var_equiv_relations_ s = ∅ ->
  0 <= representative rel -> representative rel <> k ->
  canonical_representatives s.
Proof.
  intros Ha He Hpos Hne v.
  unfold GetAffineRelation, Get. rewrite Ha, He, !lookup_empty. simpl.
  destruct (decide (PositiveRef v = k)) as [Hk|Hk].
  - rewrite Hk, lookup_singleton_eq. simpl.
    assert (Hrep : PositiveRef (representative rel) = representative rel).
    { apply PositiveRef_of_positive. unfold RefIsPositive. lia. }
    assert (Hnone : ({[k := rel]} : gmap Z Relation) !! representative rel = None)
      by (by apply lookup_singleton_ne).
    destruct (negb (RefIsPositive v)); simpl; rewrite Hrep, Hnone; simpl;
      by destruct (negb (RefIsPositive (representative rel))).
  - rewrite lookup_singleton_ne by done. simpl.
    assert (Hnone : ({[k := rel]} : gmap Z Relation) !! PositiveRef v = None)
      by (by apply lookup_singleton_ne).
    destruct (negb (RefIsPositive v)); simpl; rewrite PositiveRef_idemp, Hnone; simpl;
      by destruct (negb (RefIsPositive (PositiveRef v))).
Qed.

Lemma CanonicalizeObjective_spec_witness :
  exists s s',
    canonicalize_scenario_context = Some s
    /\ CanonicalizeObjective (map_to_list (objective_map s)) s = Some (true, s')
    /\ objective_map s' !! 0 = Some 2
    /\ objective_map s' !! 1 = Some 2
    /\ objective_map s' !! 2 = Some (-3)
    /\ objective_map s' !! 3 = None
    /\ objective_scaling_factor s' = 3%float
    /\ objective_offset s' = 1%float
    /\ (forall v c, objective_map s' !! v = Some c ->
          representative (GetAffineRelation v s') = v /\ c <> 0)
    /\ objective_gcd (objective_map s') = 1
    /\ Domain.IsEmpty (objective_domain s') = false.
Proof.
  assert (Hs : exists s, canonicalize_scenario_context = Some s).
  { eexists. vm_compute. reflexivity. }
  destruct Hs as [s Hs].
  assert (Hfacts :
    bool_decide (map_Forall (fun _ c => c <> 0) (objective_map s)) = true
    /\ affine_relations_ s = {[3 := MkRelation 0 2 1]}
    /\ var_equiv_relations_ s = ∅
    /\ exists s',
         CanonicalizeObjective (map_to_list (objective_map s)) s = Some (true, s')
         /\ objective_map s' !! 0 = Some 2
         /\ objective_map s' !! 1 = Some 2
         /\ objective_map s' !! 2 = Some (-3)
         /\ objective_map s' !! 3 = None
         /\ objective_scaling_factor s' = 3%float
         /\ objective_offset s' = 1%float).
  { vm_compute in Hs. injection Hs as <-.
    split; [vm_compute; reflexivity|].
    split; [vm_compute; reflexivity|].
    split; [vm_compute; reflexivity|].
    eexists. split; [vm_compute; reflexivity|].
    repeat split; vm_compute; reflexivity. }
  destruct Hfacts as (Hsp & Ha & He & s' & Hrun & H0 & H1 & H2 & H3 & Hsc & Hoff).
  exists s, s'. do 8 (split; [done|]).
  destruct (CanonicalizeObjective_spec (map_to_list (objective_map s)) s s'
              (sparse_decide _ Hsp)) as (Hkeys & Hgcd & Hdom).
  - by apply (canonical_representatives_single s 3 (MkRelation 0 2 1)).
  - done.
  - exact Hrun.
  - split; [done|]. split; [|done].
    apply Hgcd. intros Hnil. by rewrite Hnil, lookup_empty in H0.
Defined.

(** * Further properties *)

(** ** Bounds of a canonical domain *)

Module DomainBounds.
Import Domain.

Lemma sorted_after_lower prev d v :
  sorted_after prev d = true ->
  Contains d v = true ->
  match prev with Some e => e + 1 < v | None => True end
  /\ forall lo, Min d = Some lo -> lo <= v.
Proof.
  revert prev. induction d as [|i d IH]; intros prev Hs Hc; [done|].
  simpl in Hs. apply andb_true_iff in Hs as [Hs Hrest].
  apply andb_true_iff in Hs as [Hi Hprev].
  apply Z.leb_le in Hi.
  simpl in Hc. apply orb_true_iff in Hc as [Hc|Hc].
  - unfold interval_contains in Hc. apply andb_true_iff in Hc as [H1 H2].
    apply Z.leb_le in H1, H2. split.
    + destruct prev; [|done]. apply Z.ltb_lt in Hprev. lia.
    + intros lo [= <-]. done.
  - destruct (IH _ Hrest Hc) as [Hlt _]. simpl in Hlt. split.
    + destruct prev; [|done]. apply Z.ltb_lt in Hprev. lia.
    + intros lo [= <-]. lia.
Qed.

Lemma Min_le d v lo :
  wf d = true -> Contains d v = true -> Min d = Some lo -> lo <= v.
Proof. intros Hwf Hc. by apply (sorted_after_lower None d v Hwf Hc). Qed.

Lemma sorted_after_upper prev d v hi :
  sorted_after prev d = true ->
  Contains d v = true -> Max d = Some hi -> v <= hi.
Proof.
  revert prev v. induction d as [|i d IH]; intros prev v Hs Hc Hmax; [done|].
  simpl in Hs. apply andb_true_iff in Hs as [Hs Hrest].
  apply andb_true_iff in Hs as [Hi Hprev]. apply Z.leb_le in Hi.
  destruct d as [|j d].
  - simpl in Hc. rewrite orb_false_r in Hc.
    unfold interval_contains in Hc. apply andb_true_iff in Hc as [H1 H2].
    apply Z.leb_le in H2. injection Hmax as <-. done.
  - assert (Hmax' : Max (j :: d) = Some hi) by done.
    simpl in Hc. apply orb_true_iff in Hc as [Hc|Hc].
    + unfold interval_contains in Hc. apply andb_true_iff in Hc as [H1 H2].
      apply Z.leb_le in H2.
      assert (Hj : Contains (j :: d) j.1 = true).
      { simpl. unfold interval_contains. simpl in Hrest.
        apply andb_true_iff in Hrest as [Hr _].
        apply andb_true_iff in Hr as [Hr _]. apply Z.leb_le in Hr.
        apply orb_true_iff. left. apply andb_true_iff. split; apply Z.leb_le; lia. }
      pose proof (IH _ _ Hrest Hj Hmax') as Hle.
      destruct (sorted_after_lower _ _ _ Hrest Hj) as [Hlt _]. simpl in Hlt. lia.
    + by eapply IH.
Qed.

Lemma Max_ge d v hi :
  wf d = true -> Contains d v = true -> Max d = Some hi -> v <= hi.
Proof. intros Hwf. by apply (sorted_after_upper None). Qed.

Lemma Min_Contains d lo :
  valid d = true -> Min d = Some lo -> Contains d lo = true.
Proof.
  destruct d as [|i d]; [done|]. intros Hv [= <-].
  simpl in Hv. apply andb_true_iff in Hv as [Hi _]. apply Z.leb_le in Hi.
  simpl. unfold interval_contains. apply orb_true_iff. left.
  apply andb_true_iff. split; apply Z.leb_le; lia.
Qed.

Lemma Max_Contains d hi :
  valid d = true -> Max d = Some hi -> Contains d hi = true.
Proof.
  induction d as [|i d IH]; [done|]. intros Hv Hmax.
  simpl in Hv. apply andb_true_iff in Hv as [Hi Hv]. apply Z.leb_le in Hi.
  destruct d as [|j d].
  - injection Hmax as <-. simpl. unfold interval_contains.
    rewrite orb_false_r. apply andb_true_iff. split; apply Z.leb_le; lia.
  - simpl. apply orb_true_iff. right. by apply IH.
Qed.

Lemma nonempty_Min d : IsEmpty d = false -> is_Some (Min d).
Proof. destruct d; [done|]. by eexists. Qed.

Lemma nonempty_Max d : IsEmpty d = false -> is_Some (Max d).
Proof.
  destruct d as [|i d _] using rev_ind; [done|]. intros _.
  unfold Max. rewrite last_snoc. by eexists.
Qed.

End DomainBounds.

(** ** Bounds of references and of linear expressions *)

Lemma checked64_Some z r : checked64 z = Some r -> r = z.
Proof. unfold checked64. destruct (in_int64 z); by intros [= <-]. Qed.

Lemma canonical_domains_lookup s var d :
  canonical_domains s -> at_index (domains s) var = Some d -> Domain.wf d = true.
Proof.
  intros Hc Hd. unfold at_index in Hd. destruct (var <? 0); [done|].
  unfold canonical_domains in Hc. rewrite Forall_lookup in Hc. by eapply Hc.
Qed.

Lemma MinOf_le ref s v lo :
  canonical_domains s ->
  DomainContains ref v s = Some true ->
  MinOf ref s = Some lo -> lo <= v.
Proof.
  intros Hc Hv Hlo. unfold DomainContains in Hv. unfold MinOf in Hlo.
  destruct (RefIsPositive ref) eqn:Hpos; simpl in Hv.
  - rewrite (PositiveRef_of_positive _ Hpos) in Hlo.
    destruct (at_index (domains s) ref) as [d|] eqn:Hd; [|done].
    simpl in Hv, Hlo. injection Hv as Hv.
    eapply DomainBounds.Min_le; eauto using canonical_domains_lookup.
  - destruct (at_index (domains s) (PositiveRef ref)) as [d|] eqn:Hd; [|done].
    simpl in Hv, Hlo. injection Hv as Hv.
    destruct (Domain.Max d) as [hi|] eqn:Hhi; [|done]. simpl in Hlo.
    apply checked64_Some in Hlo as ->.
    assert (- v <= hi); [|lia].
    eapply DomainBounds.Max_ge; eauto using canonical_domains_lookup.
Qed.

Lemma MaxOf_ge ref s v hi :
  canonical_domains s ->
  DomainContains ref v s = Some true ->
  MaxOf ref s = Some hi -> v <= hi.
Proof.
  intros Hc Hv Hhi. unfold DomainContains in Hv. unfold MaxOf in Hhi.
  destruct (RefIsPositive ref) eqn:Hpos; simpl in Hv.
  - rewrite (PositiveRef_of_positive _ Hpos) in Hhi.
    destruct (at_index (domains s) ref) as [d|] eqn:Hd; [|done].
    simpl in Hv, Hhi. injection Hv as Hv.
    eapply DomainBounds.Max_ge; eauto using canonical_domains_lookup.
  - destruct (at_index (domains s) (PositiveRef ref)) as [d|] eqn:Hd; [|done].
    simpl in Hv, Hhi. injection Hv as Hv.
    destruct (Domain.Min d) as [lo|] eqn:Hlo; [|done]. simpl in Hhi.
    apply checked64_Some in Hhi as ->.
    assert (lo <= - v); [|lia].
    eapply DomainBounds.Min_le; eauto using canonical_domains_lookup.
Qed.

(** The value of a reference under an assignment that respects the
    domains is a value of the signed domain of the reference. *)
Lemma in_domains_DomainContains val s ref d :
  in_domains val s ->
  at_index (domains s) (PositiveRef ref) = Some d ->
  DomainContains ref (ref_value val ref) s = Some true.
Proof.
  intros Hval Hd. unfold DomainContains, ref_value.
  destruct (RefIsPositive ref) eqn:Hpos; simpl.
  - rewrite (PositiveRef_of_positive _ Hpos) in Hd. rewrite Hd. simpl.
    f_equal. by eapply Hval.
  - rewrite Hd. simpl. f_equal. rewrite Z.opp_involutive. by eapply Hval.
Qed.

(** [MinOf(ref)] and [MaxOf(ref)] bound every value of the signed domain
    of [ref], for a positive and for a negated reference. *)
Theorem MinOf_MaxOf_bound_the_signed_domain ref s v lo hi :
  canonical_domains s ->
  DomainContains ref v s = Some true ->
  MinOf ref s = Some lo ->
  MaxOf ref s = Some hi ->
  lo <= v <= hi.
Proof. intros. split; [by eapply MinOf_le | by eapply MaxOf_ge]. Qed.

Lemma MinOf_defined ref s lo :
  MinOf ref s = Some lo -> is_Some (at_index (domains s) (PositiveRef ref)).
Proof. unfold MinOf. destruct (at_index _ _); [by eexists|done]. Qed.

Lemma MaxOf_defined ref s hi :
  MaxOf ref s = Some hi -> is_Some (at_index (domains s) (PositiveRef ref)).
Proof. unfold MaxOf. destruct (at_index _ _); [by eexists|done]. Qed.

Lemma MinOf_expr_loop_le val s vars coeffs result lo :
  canonical_domains s ->
  in_domains val s ->
  MinOf_expr_loop vars coeffs result s = Some lo ->
  lo <= result + foldr (fun t acc => t.2 * ref_value val t.1 + acc) 0
                       (zip vars coeffs).
Proof.
  intros Hc Hval. revert coeffs result.
  induction vars as [|ref vars IH]; intros coeffs result H.
  { simpl in H. injection H as <-. simpl. lia. }
  destruct coeffs as [|coeff coeffs]; [done|]. simpl in H.
  destruct (if 0 <? coeff then MinOf ref s else MaxOf ref s) as [bound|] eqn:Hb;
    [|done].
  simpl in H.
  destruct (checked64 (coeff * bound)) as [product|] eqn:Hp; [|done].
  apply checked64_Some in Hp as ->. simpl in H.
  destruct (checked64 (result + coeff * bound)) as [result'|] eqn:Hr; [|done].
  apply checked64_Some in Hr as ->. simpl in H.
  apply IH in H. simpl.
  assert (coeff * bound <= coeff * ref_value val ref); [|lia].
  destruct (Z.ltb_spec 0 coeff).
  - destruct (MinOf_defined _ _ _ Hb) as [d Hd].
    pose proof (MinOf_le _ _ _ _ Hc (in_domains_DomainContains _ _ _ _ Hval Hd) Hb).
    nia.
  - destruct (MaxOf_defined _ _ _ Hb) as [d Hd].
    pose proof (MaxOf_ge _ _ _ _ Hc (in_domains_DomainContains _ _ _ _ Hval Hd) Hb).
    nia.
Qed.

Lemma MaxOf_expr_loop_ge val s vars coeffs result hi :
  canonical_domains s ->
  in_domains val s ->
  MaxOf_expr_loop vars coeffs result s = Some hi ->
  result + foldr (fun t acc => t.2 * ref_value val t.1 + acc) 0
                 (zip vars coeffs) <= hi.
Proof.
  intros Hc Hval. revert coeffs result.
  induction vars as [|ref vars IH]; intros coeffs result H.
  { simpl in H. injection H as <-. simpl. lia. }
  destruct coeffs as [|coeff coeffs]; [done|]. simpl in H.
  destruct (if 0 <? coeff then MaxOf ref s else MinOf ref s) as [bound|] eqn:Hb;
    [|done].
  simpl in H.
  destruct (checked64 (coeff * bound)) as [product|] eqn:Hp; [|done].
  apply checked64_Some in Hp as ->. simpl in H.
  destruct (checked64 (result + coeff * bound)) as [result'|] eqn:Hr; [|done].
  apply checked64_Some in Hr as ->. simpl in H.
  apply IH in H. simpl.
  assert (coeff * ref_value val ref <= coeff * bound); [|lia].
  destruct (Z.ltb_spec 0 coeff).
  - destruct (MaxOf_defined _ _ _ Hb) as [d Hd].
    pose proof (MaxOf_ge _ _ _ _ Hc (in_domains_DomainContains _ _ _ _ Hval Hd) Hb).
    nia.
  - destruct (MinOf_defined _ _ _ Hb) as [d Hd].
    pose proof (MinOf_le _ _ _ _ Hc (in_domains_DomainContains _ _ _ _ Hval Hd) Hb).
    nia.
Qed.

(** Interval arithmetic on a linear expression is sound: under every
    assignment that respects the domains, the value of the expression lies
    between [MinOf(expr)] and [MaxOf(expr)]. *)
Theorem MinOf_MaxOf_expr_bound_the_expression val expr s lo hi :
  canonical_domains s ->
  in_domains val s ->
  MinOf_expr expr s = Some lo ->
  MaxOf_expr expr s = Some hi ->
  lo <= expr_value val expr <= hi.
Proof.
  intros Hc Hval Hlo Hhi. unfold expr_value. split.
  - by eapply MinOf_expr_loop_le.
  - by eapply MaxOf_expr_loop_ge.
Qed.

(** ** The status of a literal *)

Lemma valid_IntersectionWith d1 d2 :
  Domain.valid (Domain.IntersectionWith d1 d2) = true.
Proof.
  unfold Domain.valid, Domain.IntersectionWith.
  apply forallb_forall. intros i Hi. apply in_flat_map in Hi as (a & _ & Hi).
  apply in_flat_map in Hi as (b & _ & Hi).
  destruct (Z.leb_spec (Z.max a.1 b.1) (Z.min a.2 b.2)); [|done].
  destruct Hi as [<-|[]]. simpl. by apply Z.leb_le.
Qed.

Lemma single_valued d value :
  Domain.valid d = true ->
  Domain.IsEmpty d = false ->
  (forall v, Domain.Contains d v = true -> v = value) ->
  Domain.Min d = Some value /\ Domain.Max d = Some value.
Proof.
  intros Hv Hne Hall.
  destruct (DomainBounds.nonempty_Min d Hne) as [lo Hlo].
  destruct (DomainBounds.nonempty_Max d Hne) as [hi Hhi].
  rewrite Hlo, Hhi.
  rewrite (Hall lo (DomainBounds.Min_Contains d lo Hv Hlo)).
  by rewrite (Hall hi (DomainBounds.Max_Contains d hi Hv Hhi)).
Qed.

Lemma Contains_FromValue value v :
  Domain.Contains (Domain.FromValue value) v = (v =? value).
Proof.
  simpl. unfold Domain.interval_contains. simpl.
  rewrite orb_false_r. apply eq_true_iff_eq.
  rewrite andb_true_iff, !Z.leb_le, Z.eqb_eq. lia.
Qed.

(** The run of [IntersectDomainWith] on the variable [var] of a reference,
    with the domain [{value}]. *)
Lemma IntersectDomainWith_value_run var value s cur bit :
  at_index (domains s) (PositiveRef var) = Some cur ->
  at_index (modified_domains s) (PositiveRef var) = Some bit ->
  let new_domain := Domain.IntersectionWith cur (Domain.FromValue value) in
  (r <- IntersectDomainWith (PositiveRef var) (Domain.FromValue value) None ;;
   ret r.1) s
  = Some (if Domain.IsIncludedIn cur (Domain.FromValue value) then (true, s)
          else (negb (Domain.IsEmpty new_domain),
                narrowed (PositiveRef var) new_domain s)).
Proof.
  intros Hcur Hbit new_domain. unfold bind.
  destruct (Domain.IsIncludedIn cur (Domain.FromValue value)) eqn:Hinc.
  - rewrite (IntersectDomainWith_included _ _ None s cur); [done| |].
    + by rewrite PositiveRef_idemp.
    + by rewrite signed_domain_PositiveRef.
  - rewrite (IntersectDomainWith_narrows _ _ None s cur bit).
    + by rewrite PositiveRef_idemp, signed_domain_PositiveRef.
    + by rewrite PositiveRef_idemp.
    + by rewrite PositiveRef_idemp.
    + by rewrite signed_domain_PositiveRef.
Qed.

Lemma domains_narrowed var new_domain s :
  domains (narrowed var new_domain s) = set_index (domains s) var new_domain.
Proof. unfold narrowed. by destruct (Domain.IsEmpty new_domain). Qed.

Lemma is_unsat_narrowed var new_domain s :
  is_unsat (narrowed var new_domain s) = (is_unsat s || Domain.IsEmpty new_domain).
Proof.
  unfold narrowed. destruct (Domain.IsEmpty new_domain); simpl;
    by rewrite ?orb_true_r, ?orb_false_r.
Qed.

Lemma modified_domains_narrowed var new_domain s :
  modified_domains (narrowed var new_domain s)
  = set_index (modified_domains s) var true.
Proof. unfold narrowed. by destruct (Domain.IsEmpty new_domain). Qed.

(** After a successful intersection with [{value}], the domain of the
    variable is valid, non-empty and holds only [value]. *)
Lemma IntersectDomainWith_value_fixed var value s cur bit s' :
  at_index (domains s) (PositiveRef var) = Some cur ->
  at_index (modified_domains s) (PositiveRef var) = Some bit ->
  Domain.valid cur = true ->
  Domain.IsEmpty cur = false ->
  (r <- IntersectDomainWith (PositiveRef var) (Domain.FromValue value) None ;;
   ret r.1) s = Some (true, s') ->
  exists d, at_index (domains s') (PositiveRef var) = Some d
            /\ Domain.Min d = Some value /\ Domain.Max d = Some value.
Proof.
  intros Hcur Hbit Hvalid Hne Hrun.
  rewrite (IntersectDomainWith_value_run _ _ _ _ _ Hcur Hbit) in Hrun.
  destruct (Domain.IsIncludedIn cur (Domain.FromValue value)) eqn:Hinc.
  - injection Hrun as <-. exists cur. split; [done|].
    apply single_valued; [done..|]. intros v Hv.
    pose proof (DomainFacts.IsIncludedIn_Contains _ _ _ Hinc Hv) as Hc.
    rewrite Contains_FromValue in Hc. by apply Z.eqb_eq in Hc.
  - injection Hrun as Hres <-. apply negb_true_iff in Hres.
    eexists. split.
    { rewrite domains_narrowed. by eapply at_index_set_index_eq. }
    apply single_valued; [apply valid_IntersectionWith|done|].
    intros v Hv. rewrite DomainFacts.Contains_IntersectionWith in Hv.
    apply andb_true_iff in Hv as [_ Hv].
    rewrite Contains_FromValue in Hv. by apply Z.eqb_eq in Hv.
Qed.

(** Once [SetLiteralToTrue(lit)] has returned true, [lit] is a true
    literal: [LiteralIsTrue(lit)] holds, [LiteralIsFalse(lit)] does not,
    and its variable is fixed.  Symmetrically for [SetLiteralToFalse]. *)
Theorem asserted_literal_has_its_value lit s cur bit :
  at_index (domains s) (PositiveRef lit) = Some cur ->
  at_index (modified_domains s) (PositiveRef lit) = Some bit ->
  Domain.valid cur = true ->
  Domain.IsEmpty cur = false ->
  (forall s', SetLiteralToTrue lit s = Some (true, s') ->
     LiteralIsTrue lit s' = Some true
     /\ LiteralIsFalse lit s' = Some false
     /\ IsFixed lit s' = Some true)
  /\ (forall s', SetLiteralToFalse lit s = Some (true, s') ->
     LiteralIsFalse lit s' = Some true
     /\ LiteralIsTrue lit s' = Some false
     /\ IsFixed lit s' = Some true).
Proof.
  intros Hcur Hbit Hvalid Hne. split; intros s' Hrun.
  - rewrite SetLiteralToTrue_unfold in Hrun.
    destruct (IntersectDomainWith_value_fixed _ _ _ _ _ _ Hcur Hbit Hvalid Hne Hrun)
      as (d & Hd & Hmin & Hmax).
    unfold LiteralIsTrue, LiteralIsFalse, IsFixed, Domain.IsFixed, true_value in *.
    destruct (RefIsPositive lit) eqn:Hpos.
    + rewrite (PositiveRef_of_positive _ Hpos) in Hd.
      rewrite ?(PositiveRef_of_positive _ Hpos).
      rewrite Hd. simpl. by rewrite Hmin, Hmax.
    + rewrite Hd. simpl. by rewrite Hmin, Hmax.
  - rewrite SetLiteralToFalse_unfold in Hrun.
    destruct (IntersectDomainWith_value_fixed _ _ _ _ _ _ Hcur Hbit Hvalid Hne Hrun)
      as (d & Hd & Hmin & Hmax).
    unfold LiteralIsTrue, LiteralIsFalse, IsFixed, Domain.IsFixed, true_value in *.
    destruct (RefIsPositive lit) eqn:Hpos.
    + rewrite (PositiveRef_of_positive _ Hpos) in Hd.
      rewrite ?(PositiveRef_of_positive _ Hpos).
      rewrite Hd. simpl. by rewrite Hmin, Hmax.
    + rewrite Hd. simpl. by rewrite Hmin, Hmax.
Qed.

Lemma single_valued_excludes d value k :
  Domain.valid d = true ->
  Domain.IsEmpty d = false ->
  (forall v, Domain.Contains d v = true -> v = value) ->
  k <> value ->
  Domain.IsIncludedIn d (Domain.FromValue k) = false
  /\ Domain.IsEmpty (Domain.IntersectionWith d (Domain.FromValue k)) = true.
Proof.
  intros Hv Hne Hall Hk.
  assert (Hc : Domain.Contains d k = false).
  { destruct (Domain.Contains d k) eqn:Hc; [|done]. by apply Hall in Hc. }
  split.
  - destruct (Domain.IsIncludedIn d (Domain.FromValue k)) eqn:Hinc; [|done].
    by rewrite (DomainFacts.IsIncludedIn_value_Contains d k Hv Hne Hinc) in Hc.
  - by rewrite DomainFacts.IsEmpty_IntersectionWith_value, Hc.
Qed.

Lemma true_value_other lit : 1 - true_value lit <> true_value lit.
Proof. unfold true_value. destruct (RefIsPositive lit); lia. Qed.

(** Asserting a literal and then its negation ends in an infeasible
    context.  On a variable with a valid non-empty domain,
    [SetLiteralToTrue(lit)] runs; when it returns false, [is_unsat] is
    set; when it returns true, the domain is still non-empty, as the
    assertion of [IntersectDomainWith] asks of the next call, and
    [SetLiteralToFalse(lit)] then returns false and sets [is_unsat]. *)
Theorem asserting_a_literal_both_ways_is_unsat lit s cur bit :
  at_index (domains s) (PositiveRef lit) = Some cur ->
  at_index (modified_domains s) (PositiveRef lit) = Some bit ->
  Domain.valid cur = true ->
  Domain.IsEmpty cur = false ->
  exists r1 s1,
    SetLiteralToTrue lit s = Some (r1, s1)
    /\ (r1 = false -> is_unsat s1 = true)
    /\ (r1 = true ->
          DomainIsEmpty lit s1 = Some false
          /\ exists s2,
               SetLiteralToFalse lit s1 = Some (false, s2)
               /\ is_unsat s2 = true).
Proof.
  intros Hcur Hbit Hvalid Hne.
  set (var := PositiveRef lit). set (tv := true_value lit).
  rewrite SetLiteralToTrue_unfold.
  rewrite (IntersectDomainWith_value_run _ _ _ _ _ Hcur Hbit).
  destruct (Domain.IsIncludedIn cur (Domain.FromValue (true_value lit))) eqn:Hinc.
  - (* the literal was already true *)
    assert (Hall : forall v, Domain.Contains cur v = true -> v = tv).
    { intros v Hv.
      pose proof (DomainFacts.IsIncludedIn_Contains _ _ _ Hinc Hv) as Hc.
      rewrite Contains_FromValue in Hc. by apply Z.eqb_eq in Hc. }
    destruct (single_valued_excludes cur tv (1 - tv) Hvalid Hne Hall
                (true_value_other lit)) as [Hninc Hempty].
    eexists _, _. split; [reflexivity|]. split; [done|]. intros _. split.
    { unfold DomainIsEmpty. by rewrite Hcur, <- Hne. }
    rewrite SetLiteralToFalse_unfold.
    rewrite (IntersectDomainWith_value_run _ _ _ _ _ Hcur Hbit).
    fold tv. rewrite Hninc, Hempty. simpl.
    eexists. split; [reflexivity|].
    by rewrite is_unsat_narrowed, Hempty, orb_true_r.
  - set (nd := Domain.IntersectionWith cur (Domain.FromValue (true_value lit))).
    assert (Hnd : at_index (domains (narrowed var nd s)) var = Some nd).
    { rewrite domains_narrowed. by eapply at_index_set_index_eq. }
    assert (Hbit' : at_index (modified_domains (narrowed var nd s)) var = Some true).
    { rewrite modified_domains_narrowed. by eapply at_index_set_index_eq. }
    eexists _, _. split; [reflexivity|].
    destruct (Domain.IsEmpty nd) eqn:Hempty; simpl.
    + (* the first call failed: no second call *)
      split; [|done]. intros _. by rewrite is_unsat_narrowed, Hempty, orb_true_r.
    + split; [done|]. intros _. split.
      { unfold DomainIsEmpty. fold var. by rewrite Hnd, <- Hempty. }
      assert (Hall : forall v, Domain.Contains nd v = true -> v = tv).
      { intros v Hv. subst nd.
        rewrite DomainFacts.Contains_IntersectionWith in Hv.
        apply andb_true_iff in Hv as [_ Hv].
        rewrite Contains_FromValue in Hv. by apply Z.eqb_eq in Hv. }
      destruct (single_valued_excludes nd tv (1 - tv)
                  (valid_IntersectionWith _ _) Hempty Hall
                  (true_value_other lit)) as [Hninc Hempty'].
      rewrite SetLiteralToFalse_unfold.
      rewrite (IntersectDomainWith_value_run _ _ _ _ _ Hnd Hbit').
      fold tv. rewrite Hninc, Hempty'. simpl.
      eexists. split; [reflexivity|].
      by rewrite is_unsat_narrowed, Hempty', orb_true_r.
Qed.

Lemma Boolean_bounds d lo hi :
  Domain.wf d = true ->
  Domain.Min d = Some lo -> Domain.Max d = Some hi ->
  0 <= lo -> hi <= 1 ->
  (lo =? 1) = negb (Domain.Contains d 0)
  /\ (hi =? 0) = negb (Domain.Contains d 1).
Proof.
  intros Hwf Hlo Hhi H0 H1.
  pose proof (DomainFacts.wf_valid _ Hwf) as Hv.
  pose proof (DomainBounds.Min_Contains _ _ Hv Hlo) as Hclo.
  pose proof (DomainBounds.Max_Contains _ _ Hv Hhi) as Hchi.
  pose proof (DomainBounds.Max_ge _ _ _ Hwf Hclo Hhi) as Hle.
  split.
  - destruct (Z.eqb_spec lo 1) as [->|Hne].
    + destruct (Domain.Contains d 0) eqn:Hc; [|done].
      pose proof (DomainBounds.Min_le _ _ _ Hwf Hc Hlo). lia.
    + assert (lo = 0) as -> by lia. by rewrite Hclo.
  - destruct (Z.eqb_spec hi 0) as [->|Hne].
    + destruct (Domain.Contains d 1) eqn:Hc; [|done].
      pose proof (DomainBounds.Max_ge _ _ _ Hwf Hc Hhi). lia.
    + assert (hi = 1) as -> by lia. by rewrite Hchi.
Qed.

(** For a reference usable as a literal, [LiteralIsTrue] says that the
    literal cannot take the value 0 and [LiteralIsFalse] that it cannot
    take the value 1 (the negation of [x] being [1 - x]); the two queries
    exchange under negation and never both hold. *)
Theorem literal_queries_decide_the_value lit s d :
  at_index (domains s) (PositiveRef lit) = Some d ->
  Domain.wf d = true ->
  CanBeUsedAsLiteral lit s = Some true ->
  LiteralIsTrue lit s = negb <$> literal_can_be lit 0 s
  /\ LiteralIsFalse lit s = negb <$> literal_can_be lit 1 s
  /\ LiteralIsTrue (NegatedRef lit) s = LiteralIsFalse lit s
  /\ LiteralIsFalse (NegatedRef lit) s = LiteralIsTrue lit s
  /\ ~ (LiteralIsTrue lit s = Some true /\ LiteralIsFalse lit s = Some true).
Proof.
  intros Hd Hwf Hlit. unfold CanBeUsedAsLiteral in Hlit. rewrite Hd in Hlit.
  simpl in Hlit.
  destruct (Domain.Min d) as [lo|] eqn:Hlo; [|done].
  destruct (Domain.Max d) as [hi|] eqn:Hhi; [|done].
  simpl in Hlit. injection Hlit as Hlit.
  apply andb_true_iff in Hlit as [H0 H1]. apply Z.leb_le in H0, H1.
  destruct (Boolean_bounds d lo hi Hwf Hlo Hhi H0 H1) as [Etrue Efalse].
  assert (Hone : Domain.Contains d 0 = true \/ Domain.Contains d 1 = true).
  { pose proof (DomainBounds.Min_Contains _ _ (DomainFacts.wf_valid _ Hwf) Hlo) as Hc.
    pose proof (DomainBounds.Max_Contains _ _ (DomainFacts.wf_valid _ Hwf) Hhi) as Hc'.
    pose proof (DomainBounds.Max_ge _ _ _ Hwf Hc Hhi).
    assert (lo = 0 \/ lo = 1) as [->| ->] by lia; [by left|by right]. }
  unfold LiteralIsTrue, LiteralIsFalse, literal_can_be.
  rewrite RefIsPositive_NegatedRef, PositiveRef_NegatedRef.
  destruct (RefIsPositive lit) eqn:Hpos; simpl.
  - rewrite ?(PositiveRef_of_positive _ Hpos) in *. rewrite !Hd. simpl.
    rewrite Hlo, Hhi. simpl. rewrite Etrue, Efalse.
    repeat split; try done.
    intros [[= E1] [= E2]]. apply negb_true_iff in E1, E2.
    destruct Hone; congruence.
  - assert (Hneg : NegatedRef lit = PositiveRef lit).
    { unfold RefIsPositive in Hpos. apply Z.leb_gt in Hpos.
      unfold PositiveRef, NegatedRef. lia. }
    rewrite ?Hneg, !Hd. simpl. rewrite Hlo, Hhi. simpl. rewrite Etrue, Efalse.
    repeat split; try done.
    intros [[= E1] [= E2]]. apply negb_true_iff in E1, E2.
    destruct Hone; congruence.
Qed.

(** ** Representatives and negation *)

Lemma NegatedRef_PositiveRef_of_negative ref :
  RefIsPositive ref = false -> NegatedRef (PositiveRef ref) = ref.
Proof.
  unfold RefIsPositive, PositiveRef, NegatedRef. intros H%Z.leb_gt. lia.
Qed.

Lemma CanBeUsedAsLiteral_NegatedRef ref s :
  CanBeUsedAsLiteral (NegatedRef ref) s = CanBeUsedAsLiteral ref s.
Proof. unfold CanBeUsedAsLiteral. by rewrite PositiveRef_NegatedRef. Qed.

(** The three representative lookups commute with the negation of the
    reference: the affine relation of the negation has the opposite
    coefficient and offset on the same representative, and the literal and
    variable representatives of the negation are the negations of those of
    the reference. *)
Theorem representatives_commute_with_negation ref s :
  GetAffineRelation (NegatedRef ref) s
  = MkRelation (representative (GetAffineRelation ref s))
               (- coeff (GetAffineRelation ref s))
               (- offset (GetAffineRelation ref s))
  /\ GetLiteralRepresentative (NegatedRef ref) s
     = NegatedRef <$> GetLiteralRepresentative ref s
  /\ GetVariableRepresentative (NegatedRef ref) s
     = NegatedRef <$> GetVariableRepresentative ref s.
Proof.
  split; [|split].
  - unfold GetAffineRelation.
    rewrite PositiveRef_NegatedRef, RefIsPositive_NegatedRef.
    destruct (RefIsPositive ref); simpl; f_equal; lia.
  - unfold GetLiteralRepresentative.
    rewrite CanBeUsedAsLiteral_NegatedRef, PositiveRef_NegatedRef,
      RefIsPositive_NegatedRef.
    destruct (CanBeUsedAsLiteral ref s) as [[]|]; simpl; [|done..].
    destruct (CanBeUsedAsLiteral _ s) as [[]|]; simpl; [|done..].
    destruct (RefIsPositive ref), (positive_possible _); simpl;
      by rewrite ?NegatedRef_involutive.
  - unfold GetVariableRepresentative.
    rewrite PositiveRef_NegatedRef, RefIsPositive_NegatedRef.
    destruct (Z.abs _ =? 1); simpl; [|done].
    destruct (offset _ =? 0); simpl; [|done].
    destruct (RefIsPositive ref), (coeff _ =? 1); simpl;
      by rewrite ?NegatedRef_involutive.
Qed.

(** A variable without stored relation is its own representative, for
    the three lookups and for both polarities of the reference. *)
Theorem unrelated_variable_is_its_own_representative ref s :
  affine_relations_ s !! PositiveRef ref = None ->
  var_equiv_relations_ s !! PositiveRef ref = None ->
  GetAffineRelation ref s
  = MkRelation (PositiveRef ref) (if RefIsPositive ref then 1 else -1) 0
  /\ GetVariableRepresentative ref s = Some ref
  /\ (CanBeUsedAsLiteral ref s = Some true ->
      GetLiteralRepresentative ref s = Some ref).
Proof.
  intros Ha He.
  assert (Hrel : GetAffineRelation (PositiveRef ref) s
                 = MkRelation (PositiveRef ref) 1 0).
  { unfold GetAffineRelation, Get.
    rewrite PositiveRef_idemp, Ha. simpl. rewrite He. simpl.
    by rewrite RefIsPositive_PositiveRef. }
  split; [|split].
  - unfold GetAffineRelation, Get. rewrite Ha. simpl. rewrite He. simpl.
    by destruct (RefIsPositive ref).
  - unfold GetVariableRepresentative, Get. rewrite He. simpl.
    destruct (RefIsPositive ref) eqn:Hpos; simpl; f_equal.
    + by apply PositiveRef_of_positive.
    + by apply NegatedRef_PositiveRef_of_negative.
  - intros Hlit. unfold GetLiteralRepresentative. rewrite Hrel, Hlit. simpl.
    assert (Hrep : CanBeUsedAsLiteral (PositiveRef ref) s = Some true).
    { unfold CanBeUsedAsLiteral in *. by rewrite PositiveRef_idemp. }
    rewrite Hrep. simpl.
    destruct (RefIsPositive ref) eqn:Hpos; simpl; f_equal.
    + by apply PositiveRef_of_positive.
    + by apply NegatedRef_PositiveRef_of_negative.
Qed.

(** ** Constants and new variables *)

Lemma to_int32_id z : in_int32 z = true -> to_int32 z = z.
Proof.
  unfold in_int32, to_int32, kint32min, kint32max.
  intros [H1%Z.leb_le H2%Z.leb_le]%andb_true_iff.
  rewrite Z.mod_small; lia.
Qed.

Lemma GetOrCreateConstantVar_known cst s j :
  constant_to_ref s !! cst = Some j ->
  GetOrCreateConstantVar cst s = Some (j, s).
Proof.
  intros Hk. unfold GetOrCreateConstantVar, bind, gets, read, ret.
  rewrite Hk. by rewrite Hk.
Qed.

Lemma ReadDomainFromProto_value cst :
  ReadDomainFromProto [cst; cst] = Some (Domain.FromValue cst).
Proof.
  unfold ReadDomainFromProto. simpl. by rewrite Z.ltb_irrefl.
Qed.

Lemma IsFixed_value var s c :
  at_index (domains s) (PositiveRef var) = Some (Domain.FromValue c) ->
  IsFixed var s = Some true.
Proof.
  intros Hd. unfold IsFixed. rewrite Hd. simpl. unfold Domain.IsFixed. simpl. by rewrite Z.eqb_refl.
Qed.

(** A fixed variable that is the registered variable of its constant. *)
Lemma ExploitFixedDomain_registered var s c :
  RefIsPositive var = true ->
  at_index (domains s) var = Some (Domain.FromValue c) ->
  constant_to_ref s !! to_int32 c = Some var ->
  ExploitFixedDomain var s = Some (tt, s).
Proof.
  intros Hpos Hd Hk. unfold ExploitFixedDomain. rewrite Hpos. exec.
  rewrite (run_bind_read _ _ _ true)
    by (apply (IsFixed_value _ _ c); by rewrite PositiveRef_of_positive).
  exec.
  rewrite (run_bind_read _ _ _ c).
  2:{ unfold MinOf. rewrite PositiveRef_of_positive by done.
      rewrite Hd, Hpos. done. }
  exec. rewrite Hk. by rewrite Z.eqb_refl.
Qed.

Lemma GetOrCreateConstantVar_new cst s :
  initialized s ->
  in_int32 cst = true ->
  constant_to_ref s !! cst = None ->
  let i := Z.of_nat (length (variables (working_model s))) in
  exists s',
    GetOrCreateConstantVar cst s = Some (i, s')
    /\ domains s' = domains s ++ [Domain.FromValue cst]
    /\ variables (working_model s')
       = variables (working_model s) ++ [MkIntegerVariableProto [cst; cst]]
    /\ constraints (working_model s') = constraints (working_model s)
    /\ is_unsat s' = is_unsat s
    /\ constant_to_ref s' = <[cst := i]> (constant_to_ref s).
Proof.
  intros Hinit H32 Hk i. unfold initialized in Hinit.
  unfold GetOrCreateConstantVar, InitializeNewDomains.
  exec. rewrite Hk. exec. simpl. rewrite Hinit, drop_app_length.
  simpl. exec.
  rewrite (run_bind_read _ _ _ _ (ReadDomainFromProto_value cst)).
  exec. simpl Domain.IsEmpty. cbv iota. exec. simpl.
  set (s1 := with_domains _ _).
  rewrite Hinit. fold i.
  assert (Hd1 : at_index (domains s1) i = Some (Domain.FromValue cst)).
  { subst s1 i. simpl. rewrite <- Hinit. apply at_index_app_length. }
  assert (Hpos : RefIsPositive i = true).
  { unfold RefIsPositive. apply Z.leb_le. subst i. lia. }
  rewrite (run_bind_read _ _ _ true)
    by (apply (IsFixed_value _ _ cst); by rewrite PositiveRef_of_positive).
  cbv beta iota. exec.
  rewrite (run_bind_eq _ _ _ tt s1).
  2:{ apply (ExploitFixedDomain_registered _ _ cst); [done..|].
      rewrite to_int32_id by done. subst s1. simpl. by rewrite lookup_insert_eq. }
  exec.
  eexists. split.
  { unfold read. subst s1. simpl. rewrite lookup_insert_eq. reflexivity. }
  done.
Qed.

Lemma DomainOf_positive i s d :
  RefIsPositive i = true -> at_index (domains s) i = Some d -> DomainOf i s = Some d.
Proof. intros Hpos Hd. unfold DomainOf. by rewrite Hpos. Qed.

Lemma RefIsPositive_of_nat n : RefIsPositive (Z.of_nat n) = true.
Proof. unfold RefIsPositive. apply Z.leb_le. lia. Qed.

(** [GetOrCreateConstantVar] keeps one variable per constant: in an
    initialized context, and for a constant that fits an [int], the call
    returns the registered variable without touching the context, or
    creates a variable of domain [{cst}] and registers it; a second call
    returns the same variable and changes nothing. *)
Theorem GetOrCreateConstantVar_gives_one_variable_per_constant cst s :
  initialized s ->
  in_int32 cst = true ->
  exists i s',
    GetOrCreateConstantVar cst s = Some (i, s')
    /\ GetOrCreateConstantVar cst s' = Some (i, s')
    /\ (forall j, constant_to_ref s !! cst = Some j -> i = j /\ s' = s)
    /\ (constant_to_ref s !! cst = None ->
        i = Z.of_nat (length (variables (working_model s)))
        /\ DomainOf i s' = Some (Domain.FromValue cst)
        /\ domains s' = domains s ++ [Domain.FromValue cst]
        /\ is_unsat s' = is_unsat s).
Proof.
  intros Hinit H32.
  destruct (constant_to_ref s !! cst) as [j|] eqn:Hk.
  - exists j, s. rewrite (GetOrCreateConstantVar_known _ _ _ Hk).
    split; [done|]. split; [done|]. split; [|done]. by intros ? [= <-].
  - destruct (GetOrCreateConstantVar_new cst s Hinit H32 Hk)
      as (s' & Hrun & Hd & Hv & Hc & Hu & Hm).
    eexists _, s'. split; [exact Hrun|]. split.
    { apply GetOrCreateConstantVar_known. rewrite Hm. apply lookup_insert_eq. }
    split; [done|]. intros _. split; [done|]. split; [|done].
    apply DomainOf_positive; [apply RefIsPositive_of_nat|].
    rewrite Hd. unfold initialized in Hinit. rewrite <- Hinit.
    apply at_index_app_length.
Qed.

(** A fixed variable whose constant has no registered variable. *)
Lemma ExploitFixedDomain_unregistered var s c :
  RefIsPositive var = true ->
  at_index (domains s) var = Some (Domain.FromValue c) ->
  constant_to_ref s !! to_int32 c = None ->
  ExploitFixedDomain var s
  = Some (tt, with_constant_to_ref (<[to_int32 c := var]> (constant_to_ref s)) s).
Proof.
  intros Hpos Hd Hk. unfold ExploitFixedDomain. rewrite Hpos. exec.
  rewrite (run_bind_read _ _ _ true)
    by (apply (IsFixed_value _ _ c); by rewrite PositiveRef_of_positive).
  exec.
  rewrite (run_bind_read _ _ _ c).
  2:{ unfold MinOf. rewrite PositiveRef_of_positive by done.
      rewrite Hd, Hpos. done. }
  exec. by rewrite Hk.
Qed.

(** The run of [NewIntVar] in an initialized context, when the new
    variable is not fixed to a constant that has another registered
    variable. *)
Lemma NewIntVar_run domain s :
  initialized s ->
  Domain.wf domain = true ->
  (forall c, domain = Domain.FromValue c -> constant_to_ref s !! to_int32 c = None) ->
  let i := Z.of_nat (length (variables (working_model s))) in
  exists s',
    NewIntVar domain s = Some (i, s')
    /\ domains s' = domains s ++ [domain]
    /\ is_unsat s' = (is_unsat s || Domain.IsEmpty domain)
    /\ constant_to_ref s'
       = match domain with
         | [(lo, hi)] => if lo =? hi then <[to_int32 lo := i]> (constant_to_ref s)
                         else constant_to_ref s
         | _ => constant_to_ref s
         end.
Proof.
  intros Hinit Hwf Hk i. unfold initialized in Hinit.
  unfold NewIntVar, InitializeNewDomains.
  exec. simpl. rewrite Hinit, drop_app_length. simpl. exec.
  rewrite (run_bind_read _ _ _ domain)
    by (by apply ReadDomainFromProto_Fill).
  exec. simpl. rewrite Hinit. fold i.
  set (s1 := with_domains _ _).
  assert (Hd1 : at_index (domains s1) i = Some domain).
  { subst s1 i. simpl. rewrite <- Hinit. apply at_index_app_length. }
  assert (Hpos : RefIsPositive i = true) by apply RefIsPositive_of_nat.
  destruct domain as [|[lo hi] rest].
  { simpl. exec. eexists. split.
    { unfold gets. apply f_equal, (f_equal2 pair); [|reflexivity].
      simpl. rewrite length_app. simpl. lia. }
    simpl. by rewrite orb_true_r. }
  simpl Domain.IsEmpty. cbv iota.
  assert (Hfix : IsFixed i s1
                 = Domain.IsFixed ((lo, hi) :: rest)).
  { unfold IsFixed. rewrite PositiveRef_of_positive by done. by rewrite Hd1. }
  destruct (DomainBounds.nonempty_Max ((lo, hi) :: rest) eq_refl) as [mx Hmx].
  assert (Hfixed : Domain.IsFixed ((lo, hi) :: rest) = Some (lo =? mx)).
  { unfold Domain.IsFixed. simpl. by rewrite Hmx. }
  exec. rewrite (run_bind_read _ _ _ (lo =? mx)) by (by rewrite Hfix).
  destruct (Z.eqb_spec lo mx) as [<-|Hne].
  - (* a fixed domain is a single interval [lo, lo] *)
    assert (rest = [] /\ hi = lo) as [-> ->].
    { pose proof (DomainFacts.wf_valid _ Hwf) as Hv.
      simpl in Hv. apply andb_true_iff in Hv as [Hlh%Z.leb_le Hv].
      destruct rest as [|j rest].
      - injection Hmx as ->. done.
      - exfalso.
        assert (Hj : Domain.Contains ((lo, hi) :: j :: rest) j.1 = true).
        { simpl. unfold Domain.wf in Hwf. simpl in Hwf.
          apply andb_true_iff in Hwf as [_ Hwf].
          apply andb_true_iff in Hwf as [Hwf _].
          apply andb_true_iff in Hwf as [Hj%Z.leb_le _].
          unfold Domain.interval_contains at 2.
          apply orb_true_iff. right. apply orb_true_iff. left.
          apply andb_true_iff. split; apply Z.leb_le; lia. }
        pose proof (DomainBounds.Max_ge _ _ _ Hwf Hj Hmx).
        unfold Domain.wf in Hwf. simpl in Hwf.
        apply andb_true_iff in Hwf as [_ Hwf].
        apply andb_true_iff in Hwf as [Hwf _].
        apply andb_true_iff in Hwf as [_ Hlt%Z.ltb_lt]. simpl in *. lia. }
    cbv beta iota. exec.
    rewrite (run_bind_eq _ _ _ tt _
               (ExploitFixedDomain_unregistered i s1 lo Hpos Hd1 (Hk lo eq_refl))).
    exec. eexists. split.
    { unfold gets. apply f_equal, (f_equal2 pair); [|reflexivity].
      simpl. rewrite length_app. simpl. lia. }
    simpl. by rewrite Z.eqb_refl, orb_false_r.
  - cbv beta iota. exec. eexists. split.
    { unfold gets. apply f_equal, (f_equal2 pair); [|reflexivity].
      simpl. rewrite length_app. simpl. lia. }
    simpl. rewrite orb_false_r. split; [done|]. split; [done|].
    destruct rest; [|done].
    injection Hmx as ->. by destruct (Z.eqb_spec lo mx).
Qed.

(** [NewIntVar(domain)] stores the domain it is given: in an initialized
    context the call returns the next index, and the domain read back for
    the new variable is [domain] (its negation for the negated
    reference); the other domains are untouched and [is_unsat] is set
    exactly when [domain] is empty. *)
Theorem NewIntVar_stores_the_domain domain s :
  initialized s ->
  Domain.wf domain = true ->
  (forall c, domain = Domain.FromValue c ->
             constant_to_ref s !! to_int32 c = None) ->
  exists i s',
    NewIntVar domain s = Some (i, s')
    /\ i = Z.of_nat (length (variables (working_model s)))
    /\ DomainOf i s' = Some domain
    /\ DomainOf (NegatedRef i) s' = Some (Domain.Negation domain)
    /\ (forall v, v <> i -> at_index (domains s') v = at_index (domains s) v)
    /\ is_unsat s' = (is_unsat s || Domain.IsEmpty domain).
Proof.
  intros Hinit Hwf Hk.
  destruct (NewIntVar_run domain s Hinit Hwf Hk) as (s' & Hrun & Hd & Hu & _).
  unfold initialized in Hinit.
  assert (Hi : at_index (domains s') (Z.of_nat (length (variables (working_model s))))
               = Some domain).
  { rewrite Hd, <- Hinit. apply at_index_app_length. }
  eexists _, s'. split; [exact Hrun|]. split; [done|].
  split; [by apply DomainOf_positive; [apply RefIsPositive_of_nat|]|].
  split.
  { unfold DomainOf. rewrite RefIsPositive_NegatedRef, RefIsPositive_of_nat.
    simpl. rewrite PositiveRef_NegatedRef.
    rewrite PositiveRef_of_positive by apply RefIsPositive_of_nat.
    by rewrite Hi. }
  split; [|done].
  intros v Hv. rewrite Hd. unfold at_index.
  destruct (v <? 0) eqn:Hneg; [done|]. apply Z.ltb_ge in Hneg.
  destruct (decide (Z.to_nat v < length (domains s))%nat).
  - by rewrite lookup_app_l.
  - rewrite lookup_app_r by lia. rewrite (lookup_ge_None_2 (domains s)) by lia.
    destruct (Z.to_nat v - length (domains s))%nat eqn:E; [|done].
    exfalso. apply Hv. rewrite <- Hinit. lia.
Qed.

(** A variable created with a fixed domain [{c}] becomes the variable of
    the constant [c] (for [c] that fits an [int] and has no variable yet):
    [GetOrCreateConstantVar(c)] then returns it and creates nothing. *)
Theorem NewIntVar_registers_a_constant c s :
  initialized s ->
  in_int32 c = true ->
  constant_to_ref s !! c = None ->
  exists i s',
    NewIntVar (Domain.FromValue c) s = Some (i, s')
    /\ DomainOf i s' = Some (Domain.FromValue c)
    /\ GetOrCreateConstantVar c s' = Some (i, s').
Proof.
  intros Hinit H32 Hk.
  assert (Hwf : Domain.wf (Domain.FromValue c) = true).
  { unfold Domain.wf. simpl. by rewrite Z.leb_refl. }
  destruct (NewIntVar_run (Domain.FromValue c) s Hinit Hwf)
    as (s' & Hrun & Hd & Hu & Hm).
  { intros c' [= <-]. by rewrite to_int32_id. }
  simpl in Hm. rewrite Z.eqb_refl, to_int32_id in Hm by done.
  eexists _, s'. split; [exact Hrun|]. split.
  - apply DomainOf_positive; [apply RefIsPositive_of_nat|].
    unfold initialized in Hinit. rewrite Hd, <- Hinit. apply at_index_app_length.
  - apply GetOrCreateConstantVar_known. rewrite Hm. apply lookup_insert_eq.
Qed.

(** ** Intersecting twice *)

Lemma IsIncludedIn_IntersectionWith d1 d2 :
  Domain.IsIncludedIn (Domain.IntersectionWith d1 d2) d2 = true.
Proof.
  unfold Domain.IsIncludedIn, Domain.IntersectionWith.
  apply forallb_forall. intros i Hi. apply in_flat_map in Hi as (a & _ & Hi).
  apply in_flat_map in Hi as (b & Hb & Hi).
  destruct (Z.leb_spec (Z.max a.1 b.1) (Z.min a.2 b.2)); [|done].
  destruct Hi as [<-|[]]. apply existsb_exists. exists b. split; [done|].
  simpl. apply andb_true_iff. split; apply Z.leb_le; lia.
Qed.

(** [IntersectDomainWith] is idempotent where it may be called again.  On
    a variable with a non-empty domain the call runs; when it returns
    false, the domain of the variable is empty and [is_unsat] is set; when
    it returns true, the domain is still non-empty, as the assertion of the
    function asks, and the same call returns true and changes neither the
    context nor the out-flag. *)
Theorem IntersectDomainWith_twice ref domain domain_modified flag' s cur bit :
  at_index (domains s) (PositiveRef ref) = Some cur ->
  at_index (modified_domains s) (PositiveRef ref) = Some bit ->
  Domain.IsEmpty cur = false ->
  exists result flag s',
    IntersectDomainWith ref domain domain_modified s = Some ((result, flag), s')
    /\ (result = false ->
          DomainIsEmpty ref s' = Some true /\ is_unsat s' = true)
    /\ (result = true ->
          DomainIsEmpty ref s' = Some false
          /\ IntersectDomainWith ref domain flag' s' = Some ((true, flag'), s')).
Proof.
  intros Hcur Hbit Hne.
  destruct (Domain.IsIncludedIn cur (signed_domain ref domain)) eqn:Hinc.
  - rewrite (IntersectDomainWith_included _ _ _ _ _ Hcur Hinc).
    eexists _, _, _. split; [done|]. split; [done|]. intros _. split.
    + unfold DomainIsEmpty. by rewrite Hcur, <- Hne.
    + by apply (IntersectDomainWith_included _ _ _ _ _ Hcur Hinc).
  - rewrite (IntersectDomainWith_narrows _ _ _ _ _ _ Hcur Hbit Hinc).
    set (nd := Domain.IntersectionWith cur (signed_domain ref domain)).
    assert (Hnd : at_index (domains (narrowed (PositiveRef ref) nd s)) (PositiveRef ref)
                  = Some nd).
    { rewrite domains_narrowed. by eapply at_index_set_index_eq. }
    eexists _, _, _. split; [done|].
    unfold DomainIsEmpty. rewrite Hnd. simpl.
    destruct (Domain.IsEmpty nd) eqn:Hempty; simpl.
    + split; [|done]. intros _. split; [done|].
      by rewrite is_unsat_narrowed, Hempty, orb_true_r.
    + split; [done|]. intros _. split; [done|].
      eapply IntersectDomainWith_included; [exact Hnd|].
      apply IsIncludedIn_IntersectionWith.
Qed.

(** ** Appended constraints and the usage graph *)

Lemma ConstraintVariableGraphIsUpToDate_add_constraints ct s :
  ConstraintVariableGraphIsUpToDate s = true ->
  ConstraintVariableGraphIsUpToDate (add_constraints ct s) = false.
Proof.
  unfold ConstraintVariableGraphIsUpToDate. simpl.
  intros H%bool_decide_eq_true. apply bool_decide_eq_false.
  rewrite length_app. simpl. lia.
Qed.

(** [AddImplication] and [AddImplyInDomain] append one constraint (the
    enforced [bool_and], the enforced one-variable linear constraint) and
    touch nothing else.  When the usage graph was up to date it no longer
    is, and every query on the usage of a variable answers false. *)
Theorem appending_a_constraint_outdates_the_graph a b x domain s :
  ConstraintVariableGraphIsUpToDate s = true ->
  let implication := MkConstraintProto [a] (kBoolAnd [b]) in
  let imply_in_domain :=
    MkConstraintProto [b]
      (kLinear (MkLinearConstraintProto [x] [1] (FillDomainInProto domain))) in
  AddImplication a b s = Some (tt, add_constraints implication s)
  /\ AddImplyInDomain b x domain s = Some (tt, add_constraints imply_in_domain s)
  /\ forall ct s',
       s' = add_constraints ct s ->
       constraints (working_model s') = constraints (working_model s) ++ [ct]
       /\ variables (working_model s') = variables (working_model s)
       /\ domains s' = domains s
       /\ ConstraintVariableGraphIsUpToDate s' = false
       /\ forall ref,
            VariableIsUniqueAndRemovable ref s' = Some false
            /\ VariableWithCostIsUniqueAndRemovable ref s' = Some false
            /\ VariableIsNotUsedAnymore ref s' = Some false
            /\ VariableIsOnlyUsedInEncoding ref s' = Some false.
Proof.
  intros Hup implication imply_in_domain.
  split; [done|]. split; [done|].
  intros ct s' ->.
  pose proof (ConstraintVariableGraphIsUpToDate_add_constraints ct s Hup) as Hstale.
  split; [done|]. split; [done|]. split; [done|]. split; [done|].
  intros ref.
  unfold VariableIsUniqueAndRemovable, VariableWithCostIsUniqueAndRemovable,
    VariableIsNotUsedAnymore, VariableIsOnlyUsedInEncoding.
  by rewrite Hstale.
Qed.

(** The three removal tests exclude one another, and none of the two
    "unique and removable" tests holds when all feasible solutions must be
    kept. *)
Theorem removal_tests_are_exclusive ref s :
  (keep_all_feasible_solutions s = true ->
     VariableIsUniqueAndRemovable ref s <> Some true
     /\ VariableWithCostIsUniqueAndRemovable ref s <> Some true)
  /\ ~ (VariableIsUniqueAndRemovable ref s = Some true
        /\ VariableWithCostIsUniqueAndRemovable ref s = Some true)
  /\ ~ (VariableIsNotUsedAnymore ref s = Some true
        /\ VariableIsUniqueAndRemovable ref s = Some true)
  /\ ~ (VariableIsNotUsedAnymore ref s = Some true
        /\ VariableWithCostIsUniqueAndRemovable ref s = Some true).
Proof.
  unfold VariableIsUniqueAndRemovable, VariableWithCostIsUniqueAndRemovable,
    VariableIsNotUsedAnymore.
  destruct (ConstraintVariableGraphIsUpToDate s); simpl;
    [|repeat split; try done; by intros [? ?]].
  destruct (at_index (var_to_constraints_ s) (PositiveRef ref)) as [cs|];
    simpl; [|destruct (keep_all_feasible_solutions s);
             repeat split; try done; by intros [? ?]].
  split; [|split; [|split]].
  - intros ->. simpl. rewrite andb_false_r. done.
  - destruct (keep_all_feasible_solutions s); [by intros [_ ?]|].
    intros [[= H1] [= H2]].
    apply andb_true_iff in H1 as [H1 _]. apply andb_true_iff in H1 as [H1 _].
    apply andb_true_iff in H2 as [H2 _]. apply andb_true_iff in H2 as [_ H2].
    apply bool_decide_eq_true in H1, H2. lia.
  - intros [[= H1] [= H2]]. apply bool_decide_eq_true in H1. subst cs.
    apply andb_true_iff in H2 as [H2 _]. apply andb_true_iff in H2 as [H2 _].
    apply bool_decide_eq_true in H2. by rewrite size_empty in H2.
  - destruct (keep_all_feasible_solutions s); [by intros [_ ?]|].
    intros [[= H1] [= H2]]. apply bool_decide_eq_true in H1. subst cs.
    apply andb_true_iff in H2 as [H2 _]. apply andb_true_iff in H2 as [_ H2].
    apply bool_decide_eq_true in H2. by rewrite size_empty in H2.
Qed.

(** ** Running the methods on the tables *)

Open Scope tbl_scope.

Lemma runT_bind_assoc {A B C} (m : T A) (g : A -> T B) (f : B -> T C) t :
  bindT (bindT m g) f t = bindT m (fun a => bindT (g a) f) t.
Proof. unfold bindT. by destruct (m t) as [[a t']|]. Qed.

Lemma runT_bind_modify {B} g (f : unit -> T B) t : bindT (modifyT g) f t = f tt (g t).
Proof. done. Qed.

Lemma runT_bind_gets {A B} (g : PresolveTables -> A) (f : A -> T B) t :
  bindT (getsT g) f t = f (g t) t.
Proof. done. Qed.

Lemma runT_bind_ret {A B} (a : A) (f : A -> T B) t : bindT (retT a) f t = f a t.
Proof. done. Qed.

Lemma runT_bind_read {A B} (g : PresolveTables -> option A) (f : A -> T B) t a :
  g t = Some a -> bindT (readT g) f t = f a t.
Proof. intros H. unfold bindT, readT. by rewrite H. Qed.

Lemma runT_bind_CHECK {B} (f : unit -> T B) t : bindT (CHECKT true) f t = f tt t.
Proof. done. Qed.

Lemma runT_bind_eq {A B} (m : T A) (f : A -> T B) t a t' :
  m t = Some (a, t') -> bindT m f t = f a t'.
Proof. intros H. unfold bindT. by rewrite H. Qed.

Lemma runT_lift {A} (m : M A) t a s' :
  m (context t) = Some (a, s') -> liftT m t = Some (a, with_context s' t).
Proof. intros H. unfold liftT. by rewrite H. Qed.

Lemma bindT_Some {A B} (m : T A) (f : A -> T B) t b t' :
  bindT m f t = Some (b, t') <->
  exists a t1, m t = Some (a, t1) /\ f a t1 = Some (b, t').
Proof.
  unfold bindT. destruct (m t) as [[a t1]|]; split.
  - intros H. by exists a, t1.
  - by intros (? & ? & [= <- <-] & ?).
  - done.
  - by intros (? & ? & ? & ?).
Qed.

Lemma liftT_Some {A} (m : M A) t a t' :
  liftT m t = Some (a, t') <->
  exists s', m (context t) = Some (a, s') /\ t' = with_context s' t.
Proof.
  unfold liftT. destruct (m (context t)) as [[a' s']|]; split.
  - intros [= <- <-]. by exists s'.
  - by intros (? & [= <- <-] & ->).
  - done.
  - by intros (? & ? & ?).
Qed.

Ltac execT :=
  repeat first
    [ rewrite runT_bind_assoc
    | rewrite runT_bind_modify
    | rewrite runT_bind_gets
    | rewrite runT_bind_ret
    | rewrite runT_bind_CHECK ];
  cbv beta.

Lemma with_context_same t : with_context (context t) t = t.
Proof. by destruct t. Qed.

(** ** Sorted lists without duplicates *)

Lemma elem_of_insert_sorted x y l : y ∈ insert_sorted x l <-> y = x \/ y ∈ l.
Proof.
  induction l as [|z l IH]; simpl.
  - rewrite list_elem_of_singleton, elem_of_nil. tauto.
  - destruct (Z.ltb_spec x z).
    + rewrite !elem_of_cons. tauto.
    + destruct (Z.eqb_spec x z) as [->|].
      * rewrite !elem_of_cons. tauto.
      * rewrite !elem_of_cons, IH. tauto.
Qed.

Lemma elem_of_sort_unique x l : x ∈ sort_unique l <-> x ∈ l.
Proof.
  induction l as [|y l IH]; simpl; [done|].
  rewrite elem_of_insert_sorted, IH, elem_of_cons. tauto.
Qed.

Lemma insert_sorted_sorted x l :
  StronglySorted Z.lt l -> StronglySorted Z.lt (insert_sorted x l).
Proof.
  induction 1 as [|z l Hl IH Hz]; simpl.
  - repeat constructor.
  - destruct (Z.ltb_spec x z).
    + constructor; [by constructor|].
      constructor; [done|]. eapply Forall_impl; [exact Hz|]. simpl. lia.
    + destruct (Z.eqb_spec x z) as [->|]; [by constructor|].
      constructor; [done|].
      apply Forall_forall. intros y [->|Hy]%elem_of_insert_sorted; [lia|].
      rewrite Forall_forall in Hz. by apply Hz.
Qed.

Lemma sort_unique_sorted l : StronglySorted Z.lt (sort_unique l).
Proof.
  induction l; simpl; [constructor|]. by apply insert_sorted_sorted.
Qed.

Lemma UsedVariables_sorted ct : StronglySorted Z.lt (UsedVariables ct).
Proof. apply sort_unique_sorted. Qed.

Lemma elem_of_UsedVariables v ct :
  v ∈ UsedVariables ct <-> exists ref, ref ∈ references ct /\ v = PositiveRef ref.
Proof.
  unfold UsedVariables. rewrite elem_of_sort_unique, list_elem_of_fmap.
  split; intros (ref & ? & ?); by exists ref.
Qed.

(** ** The sets of constraints of the variables *)

Lemma at_index_imap {A B} (f : Z -> A -> B) (l : list A) v :
  at_index (imap (fun i x => f (Z.of_nat i) x) l) v = f v <$> at_index l v.
Proof.
  unfold at_index. destruct (Z.ltb_spec v 0); [done|].
  rewrite list_lookup_imap. destruct (l !! Z.to_nat v); [|done]. simpl.
  by rewrite Z2Nat.id.
Qed.

Lemma map_usage_ext delta delta' t :
  (forall v cs, at_index (var_to_constraints_ (context t)) v = Some cs ->
                delta v cs = delta' v cs) ->
  map_usage delta t = map_usage delta' t.
Proof.
  intros H. unfold map_usage. do 2 f_equal. apply imap_ext. intros i cs Hi.
  apply H. unfold at_index. destruct (Z.ltb_spec (Z.of_nat i) 0); [lia|].
  by rewrite Nat2Z.id.
Qed.

Lemma map_usage_compose delta1 delta2 t :
  map_usage delta2 (map_usage delta1 t)
  = map_usage (fun v cs => delta2 v (delta1 v cs)) t.
Proof.
  unfold map_usage, with_context, with_var_to_constraints_. simpl.
  do 2 f_equal.
  apply list_eq. intros i. rewrite !list_lookup_imap.
  by destruct (var_to_constraints_ (context t) !! i).
Qed.

Lemma map_usage_id t : map_usage (fun _ cs => cs) t = t.
Proof.
  unfold map_usage. destruct t as [s ? ? ? ? ? ?]. simpl.
  replace (imap _ (var_to_constraints_ s)) with (var_to_constraints_ s).
  - by destruct s.
  - apply list_eq. intros i. rewrite list_lookup_imap.
    by destruct (var_to_constraints_ s !! i).
Qed.

Lemma var_to_constraints_map_usage delta t v :
  at_index (var_to_constraints_ (context (map_usage delta t))) v
  = delta v <$> at_index (var_to_constraints_ (context t)) v.
Proof. unfold map_usage. simpl. apply at_index_imap. Qed.

Lemma update_usage_run var f t cs :
  at_index (var_to_constraints_ (context t)) var = Some cs ->
  update_usage var f t
  = Some (tt, map_usage (fun v cs => if bool_decide (v = var) then f cs else cs) t).
Proof.
  intros Hcs. unfold update_usage.
  rewrite (runT_bind_read _ _ _ _ Hcs). unfold modifyT. do 2 f_equal.
  unfold map_usage, with_context, with_var_to_constraints_. do 2 f_equal.
  pose proof (at_index_Some _ _ _ Hcs) as [Hpos Hlt].
  unfold at_index in Hcs. destruct (Z.ltb_spec var 0); [lia|].
  unfold set_index. apply list_eq. intros i. rewrite list_lookup_imap.
  destruct (decide (i = Z.to_nat var)) as [->|Hne].
  - rewrite list_lookup_insert_eq by done.
    rewrite Hcs. simpl. rewrite Z2Nat.id by done. by rewrite bool_decide_true.
  - rewrite list_lookup_insert_ne by done.
    destruct (var_to_constraints_ (context t) !! i); [|done]. simpl.
    rewrite bool_decide_false; [done|]. lia.
Qed.

Lemma in_usage_range_map_usage delta t v :
  in_usage_range (map_usage delta t) v <-> in_usage_range t v.
Proof.
  unfold in_usage_range. rewrite var_to_constraints_map_usage.
  by rewrite fmap_is_Some.
Qed.

Lemma for_each_update_usage_run (f : gset Z -> gset Z) l t
    (body : Z -> T unit) :
  (forall v, body v = update_usage v f) ->
  (forall cs, f (f cs) = f cs) ->
  Forall (in_usage_range t) l ->
  for_each l body t
  = Some (tt, map_usage (fun v cs => if bool_decide (v ∈ l) then f cs else cs) t).
Proof.
  intros Hbody Hidem. revert t. induction l as [|x l IH]; intros t Hl.
  { cbn [for_each]. unfold retT. f_equal. f_equal. symmetry.
    transitivity (map_usage (fun _ cs => cs) t); [|apply map_usage_id].
    apply map_usage_ext. intros v cs _.
    by rewrite bool_decide_false by apply not_elem_of_nil. }
  apply Forall_cons in Hl as [[cs Hx] Hl]. cbn [for_each].
  rewrite Hbody.
  rewrite (runT_bind_eq _ _ _ _ _ (update_usage_run _ _ _ _ Hx)).
  rewrite IH.
  2:{ eapply Forall_impl; [exact Hl|]. intros v Hv.
      by apply in_usage_range_map_usage. }
  rewrite map_usage_compose. f_equal. f_equal. apply map_usage_ext.
  intros v cs' _.
  destruct (decide (v = x)) as [->|Hne].
  - rewrite (bool_decide_true (x = x)) by done.
    rewrite (bool_decide_true (x ∈ x :: l)) by apply list_elem_of_here.
    destruct (bool_decide (x ∈ l)); by rewrite ?Hidem.
  - rewrite (bool_decide_false (v = x)) by done.
    destruct (decide (v ∈ l)).
    + rewrite (bool_decide_true (v ∈ l)) by done.
      by rewrite (bool_decide_true (v ∈ x :: l)) by (by apply list_elem_of_further).
    + rewrite (bool_decide_false (v ∈ l)) by done.
      rewrite (bool_decide_false (v ∈ x :: l)); [done|].
      by apply not_elem_of_cons.
Qed.

(** ** The merge of the old and the new usage of a constraint *)

Lemma usage_diff_ext c new_usage old_usage new_usage' old_usage' v cs :
  (v ∈ new_usage <-> v ∈ new_usage') ->
  (v ∈ old_usage <-> v ∈ old_usage') ->
  usage_diff c new_usage old_usage v cs = usage_diff c new_usage' old_usage' v cs.
Proof.
  intros Hn Ho. unfold usage_diff.
  rewrite (bool_decide_ext _ _ Hn), (bool_decide_ext _ _ Ho). done.
Qed.

Lemma usage_diff_neither c new_usage old_usage v cs :
  v ∉ new_usage -> v ∉ old_usage -> usage_diff c new_usage old_usage v cs = cs.
Proof. intros. unfold usage_diff. by rewrite !bool_decide_false. Qed.

Lemma usage_diff_both c new_usage old_usage v cs :
  v ∈ new_usage -> v ∈ old_usage -> usage_diff c new_usage old_usage v cs = cs.
Proof. intros. unfold usage_diff. by rewrite !bool_decide_true. Qed.

Lemma usage_diff_new c new_usage old_usage v cs :
  v ∈ new_usage -> v ∉ old_usage ->
  usage_diff c new_usage old_usage v cs = {[c]} ∪ cs.
Proof.
  intros. unfold usage_diff.
  by rewrite bool_decide_true, bool_decide_false.
Qed.

Lemma usage_diff_old c new_usage old_usage v cs :
  v ∉ new_usage -> v ∈ old_usage ->
  usage_diff c new_usage old_usage v cs = cs ∖ {[c]}.
Proof.
  intros. unfold usage_diff.
  by rewrite bool_decide_false, bool_decide_true.
Qed.

Lemma erase_smaller_run c var old_usage t :
  StronglySorted Z.lt old_usage ->
  Forall (in_usage_range t) old_usage ->
  exists small rest,
    old_usage = small ++ rest
    /\ Forall (fun x => x < var) small
    /\ Forall (fun x => var <= x) rest
    /\ erase_smaller c var old_usage t
       = Some (rest, map_usage (fun v cs => if bool_decide (v ∈ small)
                                            then cs ∖ {[c]} else cs) t).
Proof.
  intros Hs. revert t. induction Hs as [|o old Hs IH Ho]; intros t Hr.
  { exists [], []. repeat split; try done. cbn [erase_smaller]. unfold retT.
    do 2 f_equal. symmetry.
    transitivity (map_usage (fun _ cs => cs) t); [|apply map_usage_id].
    apply map_usage_ext. intros v cs _.
    by rewrite bool_decide_false by apply not_elem_of_nil. }
  apply Forall_cons in Hr as [[cs Ho'] Hr]. cbn [erase_smaller].
  destruct (Z.ltb_spec o var) as [Hlt|Hge].
  - unfold erase_usage.
    rewrite (runT_bind_eq _ _ _ _ _ (update_usage_run _ _ _ _ Ho')).
    destruct (IH (map_usage (fun v cs => if bool_decide (v = o)
                                         then cs ∖ {[c]} else cs) t))
      as (small & rest & -> & Hsmall & Hrest & Hrun).
    { eapply Forall_impl; [exact Hr|]. intros v Hv.
      by apply in_usage_range_map_usage. }
    exists (o :: small), rest. split; [done|]. split; [by constructor|].
    split; [done|]. rewrite Hrun, map_usage_compose. do 2 f_equal.
    apply map_usage_ext. intros v cs' _.
    destruct (decide (v = o)) as [->|Hne].
    + rewrite (bool_decide_true (o = o)) by done.
      rewrite (bool_decide_true (o ∈ o :: small)) by apply list_elem_of_here.
      destruct (bool_decide (o ∈ small)); [|done].
      apply set_eq. intros x. rewrite !elem_of_difference. tauto.
    + rewrite (bool_decide_false (v = o)) by done.
      apply (f_equal (fun b : bool => if b then cs' ∖ {[c]} else cs')).
      apply bool_decide_ext. rewrite elem_of_cons. tauto.
  - exists [], (o :: old). split; [done|]. split; [done|]. split.
    { constructor; [done|]. eapply Forall_impl; [exact Ho|]. simpl. lia. }
    unfold retT. do 2 f_equal. symmetry.
    transitivity (map_usage (fun _ cs => cs) t); [|apply map_usage_id].
    apply map_usage_ext. intros v cs' _.
    by rewrite bool_decide_false by apply not_elem_of_nil.
Qed.

Lemma UpdateConstraintVariableUsage_loop_run c new_usage old_usage t :
  StronglySorted Z.lt new_usage ->
  StronglySorted Z.lt old_usage ->
  Forall (in_usage_range t) new_usage ->
  Forall (in_usage_range t) old_usage ->
  exists rest delta,
    UpdateConstraintVariableUsage_loop c new_usage old_usage t
    = Some (rest, map_usage delta t)
    /\ rest ⊆ old_usage
    /\ (forall v, v ∈ rest -> v ∉ new_usage)
    /\ (forall v cs, delta v cs
                     = if bool_decide (v ∈ rest) then cs
                       else usage_diff c new_usage old_usage v cs).
Proof.
  intros Hnew. revert old_usage t.
  induction Hnew as [|var new_usage Hnew IH Hvar]; intros old_usage t Hold Hrn Hro.
  { exists old_usage, (fun _ cs => cs). cbn [UpdateConstraintVariableUsage_loop].
    rewrite map_usage_id. split; [done|]. split; [done|].
    split; [intros v _; apply not_elem_of_nil|].
    intros v cs. destruct (bool_decide (v ∈ old_usage)) eqn:E; [done|].
    apply bool_decide_eq_false in E.
    by rewrite usage_diff_neither by (done || apply not_elem_of_nil). }
  apply Forall_cons in Hrn as [[cs0 Hvar_range] Hrn].
  cbn [UpdateConstraintVariableUsage_loop].
  destruct (erase_smaller_run c var old_usage t Hold Hro)
    as (small & old' & -> & Hsmall & Hold' & Hrun).
  rewrite (runT_bind_eq _ _ _ _ _ Hrun). clear Hrun.
  set (delta_small := fun v cs => if bool_decide (v ∈ small) then cs ∖ {[c]} else cs).
  set (t1 := map_usage delta_small t).
  rewrite Forall_forall in Hsmall, Hold', Hvar.
  assert (Hsorted' : StronglySorted Z.lt old').
  { clear -Hold. induction small; [done|].
    apply IHsmall. by apply StronglySorted_inv in Hold as [? _]. }
  assert (Hro' : Forall (in_usage_range t1) old').
  { apply Forall_app in Hro as [_ Hro]. eapply Forall_impl; [exact Hro|].
    intros v Hv. by apply in_usage_range_map_usage. }
  assert (Hrn' : Forall (in_usage_range t1) new_usage).
  { eapply Forall_impl; [exact Hrn|]. intros v Hv.
    by apply in_usage_range_map_usage. }
  assert (Hvar_small : var ∉ small).
  { intros Hin. apply Hsmall in Hin. lia. }
  assert (Hvar_new : var ∉ new_usage).
  { intros Hin. apply Hvar in Hin. lia. }
  destruct old' as [|o rest'].
  - (* the old usage is exhausted: insert *)
    unfold insert_usage.
    assert (Hvar1 : at_index (var_to_constraints_ (context t1)) var
                    = Some (delta_small var cs0)).
    { subst t1. by rewrite var_to_constraints_map_usage, Hvar_range. }
    rewrite (runT_bind_eq _ _ _ _ _ (update_usage_run _ _ _ _ Hvar1)).
    set (t2 := map_usage _ t1).
    destruct (IH [] t2) as (rest & delta & Hrun & Hsub & Hnot & Hdelta).
    { constructor. }
    { eapply Forall_impl; [exact Hrn'|]. intros v Hv.
      by apply in_usage_range_map_usage. }
    { constructor. }
    assert (rest = []) as ->.
    { destruct rest as [|x rest]; [done|]. exfalso.
      by apply (not_elem_of_nil x), Hsub, list_elem_of_here. }
    exists [], (fun v cs =>
      delta v ((if bool_decide (v = var) then {[c]} ∪ delta_small v cs
                else delta_small v cs))).
    split.
    { rewrite Hrun. subst t2 t1. by rewrite !map_usage_compose. }
    split; [intros x Hx; by apply not_elem_of_nil in Hx|].
    split; [intros v Hv; by apply not_elem_of_nil in Hv|].
    intros v cs. rewrite Hdelta. cbn [bool_decide]. rewrite app_nil_r.
    rewrite !(bool_decide_false (v ∈ [])) by apply not_elem_of_nil.
    subst delta_small. cbv beta.
    destruct (decide (v = var)) as [->|Hne].
    + rewrite (bool_decide_true (var = var)) by done.
      rewrite (bool_decide_false (var ∈ small)) by done.
      rewrite usage_diff_neither by (done || apply not_elem_of_nil).
      rewrite usage_diff_new; [done|apply list_elem_of_here|done].
    + rewrite (bool_decide_false (v = var)) by done.
      destruct (decide (v ∈ small)) as [Hin|Hnin].
      * rewrite (bool_decide_true (v ∈ small)) by done.
        assert (v ∉ new_usage) by (intros Hv; apply Hvar in Hv; apply Hsmall in Hin; lia).
        rewrite usage_diff_neither by (done || apply not_elem_of_nil).
        rewrite usage_diff_old; [done| |done].
        by apply not_elem_of_cons.
      * rewrite (bool_decide_false (v ∈ small)) by done.
        apply usage_diff_ext.
        -- rewrite elem_of_cons. tauto.
        -- split; [by intros ?%not_elem_of_nil|done].
  - assert (Ho_ge : var <= o) by (apply Hold'; apply list_elem_of_here).
    assert (Hrest'_gt : forall x, x ∈ rest' -> o < x).
    { apply StronglySorted_inv in Hsorted' as [_ Hf].
      by rewrite Forall_forall in Hf. }
    destruct (Z.eqb_spec o var) as [->|Hne_o].
    + (* the variable was already used: keep it *)
      destruct (IH rest' t1) as (rest & delta & Hrun & Hsub & Hnot & Hdelta).
      { by apply StronglySorted_inv in Hsorted' as [? _]. }
      { done. }
      { by apply Forall_cons in Hro' as [_ ?]. }
      exists rest, (fun v cs => delta v (delta_small v cs)).
      split; [by rewrite Hrun; subst t1; rewrite map_usage_compose|].
      split.
      { intros x Hx. apply elem_of_app. right. apply list_elem_of_further.
        by apply Hsub. }
      split.
      { intros v Hv. apply not_elem_of_cons. split; [|by apply Hnot].
        apply Hsub, Hrest'_gt in Hv. lia. }
      intros v cs. rewrite Hdelta. subst delta_small. cbv beta.
      destruct (decide (v ∈ rest)) as [Hin|Hnin].
      * rewrite (bool_decide_true (v ∈ rest)) by done.
        rewrite (bool_decide_false (v ∈ small)); [done|].
        intros Hs'. apply Hsmall in Hs'. apply Hsub, Hrest'_gt in Hin. lia.
      * rewrite (bool_decide_false (v ∈ rest)) by done.
        destruct (decide (v = var)) as [->|Hne].
        -- rewrite (bool_decide_false (var ∈ small)) by done.
           rewrite usage_diff_neither.
           ++ rewrite usage_diff_both; [done|apply list_elem_of_here|].
              apply elem_of_app. right. apply list_elem_of_here.
           ++ done.
           ++ intros Hv. apply Hrest'_gt in Hv. lia.
        -- destruct (decide (v ∈ small)) as [Hin|Hnin'].
           ++ rewrite (bool_decide_true (v ∈ small)) by done.
              pose proof (Hsmall _ Hin).
              rewrite usage_diff_neither.
              ** rewrite usage_diff_old; [done| |apply elem_of_app; by left].
                 apply not_elem_of_cons. split; [done|].
                 intros Hv. apply Hvar in Hv. lia.
              ** intros Hv. apply Hvar in Hv. lia.
              ** intros Hv. apply Hrest'_gt in Hv. lia.
           ++ rewrite (bool_decide_false (v ∈ small)) by done.
              apply usage_diff_ext.
              ** rewrite elem_of_cons. tauto.
              ** rewrite elem_of_app, elem_of_cons. tauto.
    + (* the variable is new: insert *)
      unfold insert_usage.
      assert (Hvar1 : at_index (var_to_constraints_ (context t1)) var
                      = Some (delta_small var cs0)).
      { subst t1. by rewrite var_to_constraints_map_usage, Hvar_range. }
      rewrite (runT_bind_eq _ _ _ _ _ (update_usage_run _ _ _ _ Hvar1)).
      set (t2 := map_usage _ t1).
      destruct (IH (o :: rest') t2) as (rest & delta & Hrun & Hsub & Hnot & Hdelta).
      { done. }
      { eapply Forall_impl; [exact Hrn'|]. intros v Hv.
        by apply in_usage_range_map_usage. }
      { eapply Forall_impl; [exact Hro'|]. intros v Hv.
        by apply in_usage_range_map_usage. }
      assert (Hold_gt : forall x, x ∈ o :: rest' -> var < x).
      { intros x [->|Hx]%elem_of_cons; [lia|]. apply Hrest'_gt in Hx. lia. }
      exists rest, (fun v cs =>
        delta v ((if bool_decide (v = var) then {[c]} ∪ delta_small v cs
                  else delta_small v cs))).
      split.
      { rewrite Hrun. subst t2 t1. by rewrite !map_usage_compose. }
      split; [intros x Hx; apply elem_of_app; right; by apply Hsub|].
      split.
      { intros v Hv. apply not_elem_of_cons. split; [|by apply Hnot].
        apply Hsub, Hold_gt in Hv. lia. }
      intros v cs. rewrite Hdelta. subst delta_small. cbv beta.
      destruct (decide (v ∈ rest)) as [Hin|Hnin].
      * rewrite (bool_decide_true (v ∈ rest)) by done.
        pose proof (Hold_gt _ (Hsub _ Hin)).
        rewrite (bool_decide_false (v = var)) by lia.
        rewrite (bool_decide_false (v ∈ small)); [done|].
        intros Hs'. apply Hsmall in Hs'. lia.
      * rewrite (bool_decide_false (v ∈ rest)) by done.
        destruct (decide (v = var)) as [->|Hne].
        -- rewrite (bool_decide_true (var = var)) by done.
           rewrite (bool_decide_false (var ∈ small)) by done.
           rewrite usage_diff_neither.
           ++ rewrite usage_diff_new; [done|apply list_elem_of_here|].
              intros [?|Hv]%elem_of_app; [done|]. apply Hold_gt in Hv. lia.
           ++ done.
           ++ intros Hv. apply Hold_gt in Hv. lia.
        -- rewrite (bool_decide_false (v = var)) by done.
           destruct (decide (v ∈ small)) as [Hin|Hnin'].
           ++ rewrite (bool_decide_true (v ∈ small)) by done.
              pose proof (Hsmall _ Hin).
              rewrite usage_diff_neither.
              ** rewrite usage_diff_old; [done| |apply elem_of_app; by left].
                 apply not_elem_of_cons. split; [done|].
                 intros Hv. apply Hvar in Hv. lia.
              ** intros Hv. apply Hvar in Hv. lia.
              ** intros Hv. apply Hold_gt in Hv. lia.
           ++ rewrite (bool_decide_false (v ∈ small)) by done.
              apply usage_diff_ext.
              ** rewrite elem_of_cons. tauto.
              ** rewrite elem_of_app. tauto.
Qed.

(** ** Updating the usage of one constraint *)

Lemma length_set_index {A} (l : list A) i x : length (set_index l i x) = length l.
Proof. unfold set_index. apply length_insert. Qed.

Lemma add_num_linear1_run var delta t :
  is_Some (at_index (var_to_num_linear1_ (context t)) var) ->
  exists num,
    add_num_linear1 var delta t
    = Some (tt, with_context (with_var_to_num_linear1_ num (context t)) t)
    /\ length num = length (var_to_num_linear1_ (context t)).
Proof.
  intros [n Hn]. unfold add_num_linear1.
  eexists. split.
  - erewrite runT_bind_read; [reflexivity|]. unfold add_at. by rewrite Hn.
  - apply length_set_index.
Qed.

Lemma add_interval_usage_run i delta t :
  is_Some (at_index (interval_usage_ t) i) ->
  exists usage,
    add_interval_usage i delta t = Some (tt, with_interval_usage_ usage t)
    /\ length usage = length (interval_usage_ t).
Proof.
  intros [n Hn]. unfold add_interval_usage.
  eexists. split.
  - erewrite runT_bind_read; [reflexivity|]. unfold add_at. by rewrite Hn.
  - apply length_set_index.
Qed.

Lemma for_each_add_interval_usage_run l delta t :
  Forall (fun i => is_Some (at_index (interval_usage_ t) i)) l ->
  exists usage,
    for_each l (fun i => add_interval_usage i delta) t
    = Some (tt, with_interval_usage_ usage t)
    /\ length usage = length (interval_usage_ t).
Proof.
  revert t. induction l as [|i l IH]; intros t Hl.
  { exists (interval_usage_ t). split; [|done]. by destruct t. }
  apply Forall_cons in Hl as [Hi Hl]. cbn [for_each].
  destruct (add_interval_usage_run i delta t Hi) as (u1 & Hrun1 & Hlen1).
  rewrite (runT_bind_eq _ _ _ _ _ Hrun1).
  destruct (IH (with_interval_usage_ u1 t)) as (u2 & Hrun2 & Hlen2).
  { eapply Forall_impl; [exact Hl|]. intros j Hj. simpl.
    by eapply is_Some_at_index_length. }
  exists u2. rewrite Hrun2. split; [done|]. simpl in Hlen2. congruence.
Qed.

Lemma set_constraint_to_intervals_run c intervals t old :
  at_index (constraint_to_intervals_ t) c = Some old ->
  set_constraint_to_intervals c intervals t
  = Some (tt, with_constraint_to_intervals_
                (set_index (constraint_to_intervals_ t) c intervals) t).
Proof.
  intros H. unfold set_constraint_to_intervals.
  by rewrite (runT_bind_read _ _ _ _ H).
Qed.

Lemma set_constraint_to_vars_run c vars t old :
  at_index (constraint_to_vars_ (context t)) c = Some old ->
  set_constraint_to_vars c vars t
  = Some (tt, with_context
                (with_constraint_to_vars_
                   (set_index (constraint_to_vars_ (context t)) c vars)
                   (context t)) t).
Proof.
  intros H. unfold set_constraint_to_vars.
  by rewrite (runT_bind_read _ _ _ _ H).
Qed.

Lemma UpdateLinear1Usage_run ct c t old_var :
  at_index (constraint_to_linear1_var_ t) c = Some old_var ->
  (0 <= old_var -> is_Some (at_index (var_to_num_linear1_ (context t)) old_var)) ->
  Forall (fun v => is_Some (at_index (var_to_num_linear1_ (context t)) v))
         (UsedVariables ct) ->
  exists linear1 num,
    UpdateLinear1Usage ct c t
    = Some (tt, with_constraint_to_linear1_var_ linear1
                  (with_context (with_var_to_num_linear1_ num (context t)) t))
    /\ length num = length (var_to_num_linear1_ (context t))
    /\ length linear1 = length (constraint_to_linear1_var_ t)
    /\ (forall c', c' <> c ->
          at_index linear1 c' = at_index (constraint_to_linear1_var_ t) c').
Proof.
  intros Hold Hrange Hused. unfold UpdateLinear1Usage.
  rewrite (runT_bind_read _ _ _ _ Hold). execT.
  assert (exists num1,
    (if 0 <=? old_var then add_num_linear1 old_var (-1) else retT ()) t
    = Some (tt, with_context (with_var_to_num_linear1_ num1 (context t)) t)
    /\ length num1 = length (var_to_num_linear1_ (context t)))
    as (num1 & Hrun1 & Hlen1).
  { destruct (Z.leb_spec 0 old_var).
    - by apply add_num_linear1_run, Hrange.
    - exists (var_to_num_linear1_ (context t)). split; [|done].
      unfold retT. do 2 f_equal. destruct t as [s ? ? ? ? ? ?]. simpl.
      by destruct s. }
  rewrite (runT_bind_eq _ _ _ _ _ Hrun1).
  set (t1 := with_context _ t).
  assert (Hdone : exists linear1 num,
    Some (tt, t1)
    = Some (tt, with_constraint_to_linear1_var_ linear1
                  (with_context (with_var_to_num_linear1_ num (context t)) t))
    /\ length num = length (var_to_num_linear1_ (context t))
    /\ length linear1 = length (constraint_to_linear1_var_ t)
    /\ (forall c', c' <> c ->
          at_index linear1 c' = at_index (constraint_to_linear1_var_ t) c')).
  { exists (constraint_to_linear1_var_ t), num1. by destruct t. }
  destruct (constraint_case ct) as [| |lin] eqn:Hcase; [done..|].
  destruct (linear_vars lin) as [|ref [|]] eqn:Hvars; [done| |done].
  execT.
  assert (Hin : PositiveRef ref ∈ UsedVariables ct).
  { apply elem_of_UsedVariables. exists ref. split; [|done].
    unfold references. rewrite Hcase, Hvars. apply list_elem_of_here. }
  rewrite Forall_forall in Hused. apply Hused in Hin.
  destruct (add_num_linear1_run (PositiveRef ref) 1
              (with_constraint_to_linear1_var_
                 (set_index (constraint_to_linear1_var_ t1) c (PositiveRef ref)) t1))
    as (num2 & Hrun2 & Hlen2).
  { subst t1. simpl. by eapply is_Some_at_index_length. }
  rewrite Hrun2. eexists _, num2. split.
  - subst t1. reflexivity.
  - subst t1. simpl in *. split; [congruence|].
    split; [apply length_set_index|].
    intros c' Hc'. apply at_index_set_index_ne; [|done].
    by apply at_index_Some in Hold as [? _].
Qed.

(** [UpdateConstraintVariableUsage(c)] replaces the usage of constraint
    [c] by the variables that the constraint uses now, and edits the sets
    of the variables by a merge of the old and the new sorted usage: the
    set of a variable that is newly used gains [c], the set of a variable
    that is no longer used loses [c], and no other set and no other
    constraint index is touched.  When [c] was in the sets of exactly the
    variables of the old usage, it ends in the sets of exactly the
    variables that the constraint uses. *)
Theorem UpdateConstraintVariableUsage_merges_the_usage c t ct old_usage :
  at_index (constraints (working_model (context t))) c = Some ct ->
  at_index (constraint_to_vars_ (context t)) c = Some old_usage ->
  StronglySorted Z.lt old_usage ->
  Forall (in_usage_range t) old_usage ->
  Forall (in_usage_range t) (UsedVariables ct) ->
  usage_tables_in_range c t ->
  exists t',
    UpdateConstraintVariableUsage c t = Some (tt, t')
    /\ working_model (context t') = working_model (context t)
    /\ constraint_to_vars_ (context t')
       = set_index (constraint_to_vars_ (context t)) c (UsedVariables ct)
    /\ (forall v,
          at_index (var_to_constraints_ (context t')) v
          = usage_diff c (UsedVariables ct) old_usage v
              <$> at_index (var_to_constraints_ (context t)) v)
    /\ (forall v cs cs',
          at_index (var_to_constraints_ (context t)) v = Some cs ->
          at_index (var_to_constraints_ (context t')) v = Some cs' ->
          (forall c', c' <> c -> c' ∈ cs' <-> c' ∈ cs)
          /\ ((c ∈ cs <-> v ∈ old_usage) -> (c ∈ cs' <-> v ∈ UsedVariables ct))).
Proof.
  intros Hct Hold Hsorted Hro Hrn (Hlen & (old_intervals & Hoi & Hoi_range)
                                   & (old_var & Hov & Hov_range)).
  assert (exists t',
    UpdateConstraintVariableUsage c t = Some (tt, t')
    /\ working_model (context t') = working_model (context t)
    /\ constraint_to_vars_ (context t')
       = set_index (constraint_to_vars_ (context t)) c (UsedVariables ct)
    /\ (forall v,
          at_index (var_to_constraints_ (context t')) v
          = usage_diff c (UsedVariables ct) old_usage v
              <$> at_index (var_to_constraints_ (context t)) v))
    as (t' & Hrun & Hmodel & Hctv & Hvtc).
  { unfold UpdateConstraintVariableUsage.
    rewrite (runT_bind_read _ _ _ _ Hct), (runT_bind_read _ _ _ _ Hoi).
    destruct (for_each_add_interval_usage_run old_intervals (-1) t Hoi_range)
      as (u1 & Hrun1 & Hlen1).
    rewrite (runT_bind_eq _ _ _ _ _ Hrun1).
    set (t1 := with_interval_usage_ u1 t).
    rewrite (runT_bind_eq _ _ _ _ _
               (set_constraint_to_intervals_run c (UsedIntervals ct) t1 _ Hoi)).
    set (t2 := with_constraint_to_intervals_ _ t1).
    cbn [UsedIntervals for_each]. execT.
    rewrite (runT_bind_read _ _ _ old_usage) by done.
    destruct (UpdateConstraintVariableUsage_loop_run c (UsedVariables ct)
                old_usage t2 (UsedVariables_sorted ct) Hsorted)
      as (rest & delta & Hrun2 & Hsub & Hnot & Hdelta); [done..|].
    rewrite (runT_bind_eq _ _ _ _ _ Hrun2).
    set (t3 := map_usage delta t2).
    assert (Hidem : forall cs : gset Z, cs ∖ {[c]} ∖ {[c]} = cs ∖ {[c]}).
    { intros cs. apply set_eq. intros x. rewrite !elem_of_difference. tauto. }
    assert (Hrest : Forall (in_usage_range t3) rest).
    { apply Forall_forall. intros v Hv. apply in_usage_range_map_usage.
      rewrite Forall_forall in Hro. by apply Hro, Hsub. }
    rewrite (runT_bind_eq _ _ _ _ _
      (for_each_update_usage_run (fun cs => cs ∖ {[c]}) rest t3
         (fun v => erase_usage v c) (fun v => eq_refl) Hidem Hrest)).
    set (t4 := map_usage _ t3).
    rewrite (runT_bind_eq _ _ _ _ _
               (set_constraint_to_vars_run c (UsedVariables ct) t4 old_usage Hold)).
    set (t5 := with_context _ t4).
    destruct (UpdateLinear1Usage_run ct c t5 old_var Hov)
      as (linear1 & num & Hrun5 & _ & _).
    { intros Hpos. subst t5 t4 t3 t2 t1. unfold map_usage. simpl.
      eapply is_Some_at_index_length; [|by apply Hov_range]. by symmetry. }
    { apply Forall_forall. intros v Hv. subst t5 t4 t3 t2 t1.
      unfold map_usage. simpl. rewrite Forall_forall in Hrn.
      eapply is_Some_at_index_length; [|by apply Hrn]. by symmetry. }
    rewrite Hrun5. eexists. split; [reflexivity|].
    split; [done|]. split; [done|].
    intros v. subst t5.
    cbn [context with_constraint_to_linear1_var_ with_context var_to_constraints_
         with_var_to_num_linear1_ with_constraint_to_vars_].
    subst t4 t3. rewrite !var_to_constraints_map_usage.
    subst t2 t1.
    cbn [context with_constraint_to_intervals_ with_interval_usage_].
    destruct (at_index (var_to_constraints_ (context t)) v) as [cs|]; [|done].
    simpl. f_equal. rewrite Hdelta.
    destruct (decide (v ∈ rest)) as [Hin|Hnin].
    - rewrite !(bool_decide_true (v ∈ rest)) by done.
      by rewrite usage_diff_old by (by apply Hnot || by apply Hsub).
    - by rewrite !(bool_decide_false (v ∈ rest)) by done. }
  exists t'. split; [done|]. split; [done|]. split; [done|]. split; [done|].
  intros v cs cs' Hcs Hcs'. rewrite Hvtc, Hcs in Hcs'. injection Hcs' as <-.
  unfold usage_diff. split.
  - intros c' Hc'.
    destruct (bool_decide (v ∈ UsedVariables ct)), (bool_decide (v ∈ old_usage));
      rewrite ?elem_of_union, ?elem_of_difference, ?elem_of_singleton; tauto.
  - intros Hcons.
    destruct (bool_decide (v ∈ UsedVariables ct)) eqn:E1,
             (bool_decide (v ∈ old_usage)) eqn:E2;
      try apply bool_decide_eq_true in E1; try apply bool_decide_eq_false in E1;
      try apply bool_decide_eq_true in E2; try apply bool_decide_eq_false in E2;
      rewrite ?elem_of_union, ?elem_of_difference, ?elem_of_singleton; tauto.
Qed.

(** ** Registering the new constraints *)

Lemma AddVariableUsage_run c t ct :
  at_index (constraints (working_model (context t))) c = Some ct ->
  is_Some (at_index (constraint_to_vars_ (context t)) c) ->
  is_Some (at_index (constraint_to_intervals_ t) c) ->
  Forall (in_usage_range t) (UsedVariables ct) ->
  length (var_to_num_linear1_ (context t)) = length (var_to_constraints_ (context t)) ->
  at_index (constraint_to_linear1_var_ t) c = Some (-1) ->
  exists t',
    AddVariableUsage c t = Some (tt, t')
    /\ working_model (context t') = working_model (context t)
    /\ is_unsat (context t') = is_unsat (context t)
    /\ constraint_to_vars_ (context t')
       = set_index (constraint_to_vars_ (context t)) c (UsedVariables ct)
    /\ (forall v,
          at_index (var_to_constraints_ (context t')) v
          = (fun cs => if bool_decide (v ∈ UsedVariables ct) then {[c]} ∪ cs else cs)
              <$> at_index (var_to_constraints_ (context t)) v)
    /\ length (var_to_num_linear1_ (context t'))
       = length (var_to_num_linear1_ (context t))
    /\ length (constraint_to_intervals_ t') = length (constraint_to_intervals_ t)
    /\ length (constraint_to_linear1_var_ t') = length (constraint_to_linear1_var_ t)
    /\ (forall c', c' <> c ->
          at_index (constraint_to_linear1_var_ t') c'
          = at_index (constraint_to_linear1_var_ t) c').
Proof.
  intros Hct [old Hold] [oi Hoi] Hrn Hlen Hl1. unfold AddVariableUsage.
  rewrite (runT_bind_read _ _ _ _ Hct).
  rewrite (runT_bind_eq _ _ _ _ _
             (set_constraint_to_vars_run c (UsedVariables ct) t old Hold)).
  set (t1 := with_context _ t).
  rewrite (runT_bind_eq _ _ _ _ _
             (set_constraint_to_intervals_run c (UsedIntervals ct) t1 oi Hoi)).
  set (t2 := with_constraint_to_intervals_ _ t1).
  assert (Hidem : forall cs : gset Z, {[c]} ∪ ({[c]} ∪ cs) = {[c]} ∪ cs).
  { intros cs. apply set_eq. intros x. rewrite !elem_of_union. tauto. }
  assert (Hrn2 : Forall (in_usage_range t2) (UsedVariables ct)) by done.
  rewrite (runT_bind_eq _ _ _ _ _
    (for_each_update_usage_run (fun cs => {[c]} ∪ cs) (UsedVariables ct) t2
       (fun v => insert_usage v c) (fun v => eq_refl) Hidem Hrn2)).
  set (t3 := map_usage _ t2).
  cbn [UsedIntervals for_each]. execT.
  destruct (UpdateLinear1Usage_run ct c t3 (-1) Hl1)
    as (linear1 & num & Hrun & Hnum & Hlin & Hframe).
  { lia. }
  { apply Forall_forall. intros v Hv. subst t3 t2 t1.
    unfold map_usage. simpl. rewrite Forall_forall in Hrn.
    eapply is_Some_at_index_length; [|by apply Hrn]. by symmetry. }
  rewrite Hrun. eexists. split; [reflexivity|].
  split; [done|]. split; [done|]. split; [done|]. split.
  { intros v.
    cbn [context with_constraint_to_linear1_var_ with_context var_to_constraints_
         with_var_to_num_linear1_].
    subst t3. rewrite var_to_constraints_map_usage. by subst t2 t1. }
  split; [done|]. split.
  { subst t3 t2 t1. unfold map_usage. simpl. apply length_set_index. }
  done.
Qed.

Lemma lookup_at_index {A} (l : list A) (j : nat) :
  at_index l (Z.of_nat j) = l !! j.
Proof.
  unfold at_index. destruct (Z.ltb_spec (Z.of_nat j) 0); [lia|].
  by rewrite Nat2Z.id.
Qed.

Lemma for_each_AddVariableUsage_run len : forall k t,
  let cts := constraints (working_model (context t)) in
  (k + len = length cts)%nat ->
  length (constraint_to_vars_ (context t)) = length cts ->
  length (constraint_to_intervals_ t) = length cts ->
  length (constraint_to_linear1_var_ t) = length cts ->
  (forall j, (k <= j < length cts)%nat ->
             constraint_to_linear1_var_ t !! j = Some (-1)) ->
  length (var_to_num_linear1_ (context t)) = length (var_to_constraints_ (context t)) ->
  (forall j ct, (k <= j)%nat -> cts !! j = Some ct ->
                Forall (in_usage_range t) (UsedVariables ct)) ->
  exists t',
    for_each (Z.of_nat <$> seq k len) AddVariableUsage t = Some (tt, t')
    /\ working_model (context t') = working_model (context t)
    /\ is_unsat (context t') = is_unsat (context t)
    /\ length (constraint_to_vars_ (context t')) = length cts
    /\ (forall j, (j < k)%nat ->
          constraint_to_vars_ (context t') !! j = constraint_to_vars_ (context t) !! j)
    /\ (forall j ct, (k <= j)%nat -> cts !! j = Some ct ->
          constraint_to_vars_ (context t') !! j = Some (UsedVariables ct))
    /\ (forall v cs,
          at_index (var_to_constraints_ (context t)) v = Some cs ->
          exists cs',
            at_index (var_to_constraints_ (context t')) v = Some cs'
            /\ forall c, c ∈ cs' <->
                 c ∈ cs \/ exists j ct, c = Z.of_nat j /\ (k <= j)%nat
                                         /\ cts !! j = Some ct
                                         /\ v ∈ UsedVariables ct).
Proof.
  induction len as [|len IH]; intros k t cts Hk Hctv Hci Hl1 Hminus Hnum Hrange.
  { cbn [seq fmap list_fmap for_each]. exists t. split; [done|].
    split; [done|]. split; [done|]. split; [done|]. split; [done|].
    split.
    { intros j ct Hj Hct. apply lookup_lt_Some in Hct. subst cts. lia. }
    intros v cs Hcs. exists cs. split; [done|]. intros c. split; [by left|].
    intros [?|(j & ct & _ & Hj & Hct & _)]; [done|].
    apply lookup_lt_Some in Hct. subst cts. lia. }
  cbn [seq fmap list_fmap for_each].
  assert (Hklt : (k < length cts)%nat) by lia.
  destruct (lookup_lt_is_Some_2 cts k Hklt) as [ct Hct].
  destruct (AddVariableUsage_run (Z.of_nat k) t ct)
    as (t1 & Hrun1 & Hwm1 & Hu1 & Hctv1 & Hvtc1 & Hnum1 & Hci1 & Hl1len & Hl1frame).
  { by rewrite lookup_at_index. }
  { rewrite lookup_at_index. apply lookup_lt_is_Some. lia. }
  { rewrite lookup_at_index. apply lookup_lt_is_Some. lia. }
  { by eapply Hrange. }
  { done. }
  { rewrite lookup_at_index. apply Hminus. lia. }
  rewrite (runT_bind_eq _ _ _ _ _ Hrun1).
  assert (Hvtc_len : length (var_to_constraints_ (context t1))
                     = length (var_to_constraints_ (context t))).
  { apply Nat.le_antisymm.
    - destruct (decide (length (var_to_constraints_ (context t1))
                        <= length (var_to_constraints_ (context t)))%nat); [done|].
      exfalso.
      pose proof (Hvtc1 (Z.of_nat (length (var_to_constraints_ (context t))))) as E.
      rewrite !lookup_at_index in E.
      rewrite (lookup_ge_None_2 (var_to_constraints_ (context t))) in E by lia.
      destruct (lookup_lt_is_Some_2 (var_to_constraints_ (context t1))
                  (length (var_to_constraints_ (context t)))) as [x Hx]; [lia|].
      by rewrite Hx in E.
    - destruct (decide (length (var_to_constraints_ (context t))
                        <= length (var_to_constraints_ (context t1)))%nat); [done|].
      exfalso.
      pose proof (Hvtc1 (Z.of_nat (length (var_to_constraints_ (context t1))))) as E.
      rewrite !lookup_at_index in E.
      rewrite (lookup_ge_None_2 (var_to_constraints_ (context t1))) in E by lia.
      destruct (lookup_lt_is_Some_2 (var_to_constraints_ (context t))
                  (length (var_to_constraints_ (context t1)))) as [x Hx]; [lia|].
      by rewrite Hx in E. }
  destruct (IH (S k) t1)
    as (t' & Hrun & Hwm & Hu & Hlen' & Hbefore & Hafter & Hvtc).
  { rewrite Hwm1. fold cts. lia. }
  { rewrite Hwm1, Hctv1, length_set_index. done. }
  { rewrite Hwm1. by rewrite Hci1. }
  { rewrite Hwm1. by rewrite Hl1len. }
  { rewrite Hwm1. fold cts. intros j Hj. rewrite <- lookup_at_index.
    rewrite Hl1frame by lia. rewrite lookup_at_index. apply Hminus. lia. }
  { by rewrite Hnum1, Hvtc_len. }
  { rewrite Hwm1. fold cts. intros j ct' Hj Hct'.
    eapply Forall_impl; [apply (Hrange j ct'); [lia|done]|].
    intros v Hv. unfold in_usage_range in *. rewrite Hvtc1.
    by apply fmap_is_Some. }
  rewrite Hwm1 in Hwm, Hlen', Hafter, Hvtc. fold cts in Hlen', Hafter, Hvtc.
  exists t'. split; [done|]. split; [done|]. split; [congruence|].
  split; [done|]. split.
  { intros j Hj. rewrite Hbefore by lia. rewrite Hctv1.
    unfold set_index. apply list_lookup_insert_ne. lia. }
  split.
  { intros j ct' Hj Hct'. destruct (decide (j = k)) as [->|Hne].
    - rewrite Hbefore by lia. rewrite Hctv1. unfold set_index.
      rewrite Nat2Z.id. rewrite list_lookup_insert_eq by lia. congruence.
    - apply Hafter; [lia|done]. }
  intros v cs Hcs.
  destruct (Hvtc v _ (eq_trans (Hvtc1 v) (f_equal _ Hcs))) as (cs' & Hcs' & Hmem).
  exists cs'. split; [done|]. intros c. rewrite Hmem. split.
  - intros [Hc|(j & ct' & -> & Hj & Hct' & Hv)].
    + destruct (bool_decide (v ∈ UsedVariables ct)) eqn:E.
      * apply bool_decide_eq_true in E.
        apply elem_of_union in Hc as [->%elem_of_singleton|Hc]; [|by left].
        right. exists k, ct. repeat split; try done.
      * by left.
    + right. exists j, ct'. repeat split; try done. lia.
  - intros [Hc|(j & ct' & -> & Hj & Hct' & Hv)].
    + left. destruct (bool_decide (v ∈ UsedVariables ct)); [|done].
      apply elem_of_union. by right.
    + destruct (decide (j = k)) as [->|Hne].
      * left. assert (ct' = ct) as -> by congruence.
        rewrite bool_decide_true by done. apply elem_of_union. left.
        by apply elem_of_singleton.
      * right. exists j, ct'. repeat split; try done. lia.
Qed.

Lemma ConstraintVariableUsageIsConsistent_loop_fmap cts :
  ConstraintVariableUsageIsConsistent_loop (UsedVariables <$> cts) cts = true.
Proof.
  induction cts as [|ct cts IH]; [done|]. cbn [fmap list_fmap].
  cbn [ConstraintVariableUsageIsConsistent_loop].
  by rewrite bool_decide_false by (by intros ?).
Qed.

(** [UpdateNewConstraintsVariableUsage] registers the constraints that
    were appended since the graph was last up to date: when the stored
    usage is that of the first constraints of the model, the call
    succeeds, the stored usage becomes that of all the constraints (so
    that [ConstraintVariableGraphIsUpToDate] and
    [ConstraintVariableUsageIsConsistent] hold), and the set of every
    variable gains exactly the indices of the new constraints that use
    it. *)
Theorem UpdateNewConstraintsVariableUsage_registers_the_new_constraints t :
  let s := context t in
  let cts := constraints (working_model s) in
  let n := length (constraint_to_vars_ s) in
  constraint_to_vars_ s = UsedVariables <$> take n cts ->
  (length (constraint_to_linear1_var_ t) <= n)%nat ->
  length (var_to_num_linear1_ s) = length (var_to_constraints_ s) ->
  (forall j ct, (n <= j)%nat -> cts !! j = Some ct ->
                Forall (in_usage_range t) (UsedVariables ct)) ->
  exists t',
    UpdateNewConstraintsVariableUsage t = Some (tt, t')
    /\ working_model (context t') = working_model s
    /\ constraint_to_vars_ (context t') = UsedVariables <$> cts
    /\ ConstraintVariableGraphIsUpToDate (context t') = true
    /\ ConstraintVariableUsageIsConsistent (context t') = true
    /\ (forall v cs,
          at_index (var_to_constraints_ s) v = Some cs ->
          exists cs',
            at_index (var_to_constraints_ (context t')) v = Some cs'
            /\ forall c, c ∈ cs' <->
                 c ∈ cs \/ exists j ct, c = Z.of_nat j /\ (n <= j)%nat
                                         /\ cts !! j = Some ct
                                         /\ v ∈ UsedVariables ct).
Proof.
  intros s cts n Hprefix Hl1 Hnum Hrange.
  assert (Hn : (n <= length cts)%nat).
  { pose proof (f_equal length Hprefix) as E.
    rewrite length_fmap, length_take in E. fold n in E. lia. }
  unfold UpdateNewConstraintsVariableUsage. execT. fold s cts n.
  rewrite bool_decide_true by done. execT.
  set (t0 := with_interval_usage_ _ _).
  destruct (for_each_AddVariableUsage_run (length cts - n) n t0)
    as (t' & Hrun & Hwm & Hu & Hlen & Hbefore & Hafter & Hvtc).
  { subst t0. simpl. fold s cts. lia. }
  { subst t0. simpl. fold s cts. apply length_resize. }
  { subst t0. simpl. fold s cts. apply length_resize. }
  { subst t0. simpl. fold s cts. apply length_resize. }
  { subst t0. simpl. fold s cts. intros j Hj. apply lookup_resize_new; lia. }
  { done. }
  { subst t0. simpl. fold s cts. intros j ct Hj Hct.
    eapply Forall_impl; [by eapply Hrange|]. done. }
  assert (Hwm0 : working_model (context t0) = working_model s) by done.
  rewrite Hwm0 in Hwm, Hlen, Hafter, Hvtc. fold cts in Hlen, Hafter, Hvtc.
  assert (Hctv : constraint_to_vars_ (context t') = UsedVariables <$> cts).
  { apply list_eq. intros j. rewrite list_lookup_fmap.
    destruct (decide (j < n)%nat) as [Hj|Hj].
    - rewrite Hbefore by done. subst t0. simpl. fold s cts.
      rewrite lookup_resize by (fold n; lia).
      rewrite Hprefix, list_lookup_fmap. fold n.
      by rewrite lookup_take_lt by done.
    - destruct (cts !! j) as [ct|] eqn:Hct.
      + by apply Hafter; [lia|].
      + apply lookup_ge_None_2. apply lookup_ge_None_1 in Hct. lia. }
  exists t'. split; [exact Hrun|]. split; [done|]. split; [done|].
  split.
  { unfold ConstraintVariableGraphIsUpToDate. apply bool_decide_eq_true.
    by rewrite Hwm, Hlen. }
  split.
  { unfold ConstraintVariableUsageIsConsistent.
    destruct (is_unsat (context t')); [done|].
    rewrite Hwm, Hlen. fold cts. rewrite bool_decide_true by done. simpl.
    rewrite Hctv. apply ConstraintVariableUsageIsConsistent_loop_fmap. }
  intros v cs Hcs. by apply Hvtc.
Qed.

(** ** Half encodings *)

Section PreservesT.
Context (R : relation PresolveTables) `{!Reflexive R} `{!Transitive R}.

Lemma preservesT_ret {A} (a : A) : preservesT R (retT a).
Proof. by intros t a' t' [= <- <-]. Qed.

Lemma preservesT_gets {A} (f : PresolveTables -> A) : preservesT R (getsT f).
Proof. by intros t a t' [= <- <-]. Qed.

Lemma preservesT_read {A} (f : PresolveTables -> option A) : preservesT R (readT f).
Proof. intros t a t'. unfold readT. destruct (f t); by intros [= <- <-]. Qed.

Lemma preservesT_CHECK b : preservesT R (CHECKT b).
Proof. intros t a t'. unfold CHECKT. destruct b; by intros [= <- <-]. Qed.

Lemma preservesT_modify f : (forall t, R t (f t)) -> preservesT R (modifyT f).
Proof. intros H t a t' [= <- <-]. apply H. Qed.

Lemma preservesT_lift {A} (m : M A) :
  (forall t s', R t (with_context s' t)) -> preservesT R (liftT m).
Proof.
  intros H t a t' (s' & _ & ->)%liftT_Some. apply H.
Qed.

Lemma preservesT_bind {A B} (m : T A) (f : A -> T B) :
  preservesT R m -> (forall a, preservesT R (f a)) -> preservesT R (bindT m f).
Proof.
  intros Hm Hf t b t' (a & t1 & H1 & H2)%bindT_Some.
  etrans; [by eapply Hm|by eapply Hf].
Qed.

End PreservesT.

Ltac preservesT_step :=
  lazymatch goal with
  | |- preservesT _ (bindT _ _) => apply preservesT_bind; [try apply _..| |intros ?]
  | |- preservesT _ (retT _) => apply preservesT_ret; try apply _
  | |- preservesT _ (getsT _) => apply preservesT_gets; try apply _
  | |- preservesT _ (readT _) => apply preservesT_read; try apply _
  | |- preservesT _ (int64_ofT _) => apply preservesT_read; try apply _
  | |- preservesT _ (CHECKT _) => apply preservesT_CHECK; try apply _
  | |- preservesT _ (liftT _) => apply preservesT_lift; [done..|]
  | |- preservesT _ (if ?b then _ else _) => destruct b
  | |- preservesT _ (match ?x with Some _ => _ | None => _ end) => destruct x
  end.

Global Instance same_half_encodings_Reflexive : Reflexive same_half_encodings.
Proof. by intros t. Qed.

Global Instance same_half_encodings_Transitive : Transitive same_half_encodings.
Proof. intros t1 t2 t3 [? ?] [? ?]. split; congruence. Qed.

Global Instance encoding_grows_Reflexive : Reflexive encoding_grows.
Proof. by intros t key. Qed.

Global Instance encoding_grows_Transitive : Transitive encoding_grows.
Proof. intros t1 t2 t3 H12 H23 key Hk. by apply H23, H12. Qed.

Lemma UpdateRuleStats_run name s :
  UpdateRuleStats name s = Some (tt, rule_counted name s).
Proof. done. Qed.

Lemma half_literals_half_entry key m k :
  half_literals (half_entry key m) k = half_literals m k.
Proof.
  unfold half_literals, half_entry. destruct (decide (key = k)) as [->|Hne].
  - by rewrite lookup_insert_eq.
  - by rewrite lookup_insert_ne.
Qed.

Lemma half_literals_half_insert key literal m k :
  half_literals (half_insert key literal m) k
  = if decide (key = k) then {[literal]} ∪ half_literals m k else half_literals m k.
Proof.
  unfold half_literals, half_insert. destruct (decide (key = k)) as [->|Hne].
  - by rewrite lookup_insert_eq.
  - by rewrite lookup_insert_ne.
Qed.

Lemma half_entry_present (key : Z * Z) (m : gmap (Z * Z) (gset Z)) :
  is_Some (m !! key) -> half_entry key m = m.
Proof. intros [S HS]. unfold half_entry. rewrite HS. by apply insert_id. Qed.

Lemma half_insert_present (key : Z * Z) (literal : Z) (m : gmap (Z * Z) (gset Z)) :
  is_Some (m !! key) -> literal ∈ half_literals m key -> half_insert key literal m = m.
Proof.
  intros [S HS] Hin. unfold half_insert, half_literals in *. rewrite HS in *.
  simpl in *. apply insert_id. rewrite HS. f_equal.
  apply set_eq. intros x. rewrite elem_of_union, elem_of_singleton.
  split; [by right|]. intros [E|?]; [by subst x|done].
Qed.

Lemma half_recorded_fields literal key imply_eq t :
  context (half_recorded literal key imply_eq t) = context t
  /\ encoding (half_recorded literal key imply_eq t) = encoding t
  /\ half_literals (direct_map imply_eq (half_recorded literal key imply_eq t)) key
     = {[literal]} ∪ half_literals (direct_map imply_eq t) key
  /\ (forall k, half_literals (other_map imply_eq
                                 (half_recorded literal key imply_eq t)) k
                = half_literals (other_map imply_eq t) k)
  /\ is_Some (eq_half_encoding (half_recorded literal key imply_eq t) !! key)
  /\ is_Some (neq_half_encoding (half_recorded literal key imply_eq t) !! key).
Proof.
  unfold half_recorded. destruct imply_eq; simpl.
  - split; [done|]. split; [done|]. split.
    { rewrite half_literals_half_insert, decide_True by done.
      by rewrite half_literals_half_entry. }
    split; [intros k; apply half_literals_half_entry|].
    unfold half_insert, half_entry. by rewrite !lookup_insert_eq.
  - split; [done|]. split; [done|]. split.
    { rewrite half_literals_half_insert, decide_True by done.
      by rewrite half_literals_half_entry. }
    split; [intros k; apply half_literals_half_entry|].
    unfold half_insert, half_entry. by rewrite !lookup_insert_eq.
Qed.

Lemma half_recorded_again literal key imply_eq t :
  is_Some (eq_half_encoding t !! key) ->
  is_Some (neq_half_encoding t !! key) ->
  literal ∈ half_literals (direct_map imply_eq t) key ->
  half_recorded literal key imply_eq t = t.
Proof.
  intros He Hn Hin. unfold half_recorded.
  rewrite (half_entry_present _ _ He), (half_entry_present _ _ Hn).
  destruct t as [s l1 ci iu enc eq neq]. simpl in *.
  destruct imply_eq; simpl in *; by rewrite half_insert_present.
Qed.

(** The part of [InsertHalfVarValueEncoding] that follows the insertion
    in the direct map. *)
Lemma InsertHalfVarValueEncoding_unfold literal var value imply_eq t :
  RefIsPositive var = true ->
  let key := (var, value) in
  let new_info :=
    negb (bool_decide (literal ∈ half_literals (direct_map imply_eq t) key)) in
  InsertHalfVarValueEncoding literal var value imply_eq t
  = bindT
      (if new_info then InsertHalfVarValueEncoding_promotion literal key imply_eq
       else retT tt)
      (fun _ => retT new_info)
      (half_recorded literal key imply_eq t).
Proof.
  intros Hpos key new_info. unfold InsertHalfVarValueEncoding.
  rewrite Hpos. execT. fold key.
  assert (Hdirect :
    default ∅ (direct_map imply_eq
       (with_neq_half_encoding (half_entry key (neq_half_encoding t))
          (with_eq_half_encoding (half_entry key (eq_half_encoding t)) t)) !! key)
    = half_literals (direct_map imply_eq t) key).
  { destruct imply_eq; simpl; apply half_literals_half_entry. }
  rewrite Hdirect. reflexivity.
Qed.

Lemma InsertHalfVarValueEncoding_promotion_half_encodings literal key imply_eq :
  preservesT same_half_encodings
    (InsertHalfVarValueEncoding_promotion literal key imply_eq).
Proof.
  unfold InsertHalfVarValueEncoding_promotion, set_encoding.
  repeat preservesT_step; try done; by apply preservesT_modify.
Qed.

Global Instance same_encoding_but_Reflexive key : Reflexive (same_encoding_but key).
Proof. by intros t k. Qed.

Global Instance same_encoding_but_Transitive key :
  Transitive (same_encoding_but key).
Proof. intros t1 t2 t3 H12 H23 k Hk. rewrite H23, H12; done. Qed.

Lemma InsertHalfVarValueEncoding_promotion_encoding literal key imply_eq :
  preservesT (same_encoding_but key)
    (InsertHalfVarValueEncoding_promotion literal key imply_eq).
Proof.
  unfold InsertHalfVarValueEncoding_promotion, set_encoding.
  repeat preservesT_step; try done.
  apply preservesT_modify. intros t k Hk. simpl. by rewrite lookup_insert_ne.
Qed.

(** [InsertHalfVarValueEncoding] answers whether the literal is new in the
    half-encoding map of its direction, and records a half encoding once:
    after any call, the same call returns false and changes nothing. *)
Theorem InsertHalfVarValueEncoding_records_once literal var value imply_eq t r t1 :
  InsertHalfVarValueEncoding literal var value imply_eq t = Some (r, t1) ->
  (r = true <->
   literal ∉ half_literals (direct_map imply_eq t) (var, value))
  /\ literal ∈ half_literals (direct_map imply_eq t1) (var, value)
  /\ InsertHalfVarValueEncoding literal var value imply_eq t1 = Some (false, t1).
Proof.
  intros Hrun.
  assert (Hpos : RefIsPositive var = true).
  { unfold InsertHalfVarValueEncoding in Hrun.
    apply bindT_Some in Hrun as (? & ? & Hc & _).
    unfold CHECKT in Hc. by destruct (RefIsPositive var). }
  rewrite (InsertHalfVarValueEncoding_unfold _ _ _ _ _ Hpos) in Hrun.
  apply bindT_Some in Hrun as (u & t' & Htail & [= <- <-]).
  destruct (half_recorded_fields literal (var, value) imply_eq t)
    as (Hctx & Henc & Hdirect & Hother & Heq & Hneq).
  assert (Hsame : same_half_encodings (half_recorded literal (var, value) imply_eq t) t').
  { destruct (bool_decide (literal ∈ _)); simpl in Htail.
    - unfold retT in Htail. by injection Htail as _ <-.
    - by eapply InsertHalfVarValueEncoding_promotion_half_encodings. }
  destruct Hsame as [Hsame_eq Hsame_neq].
  assert (Hin : literal ∈ half_literals (direct_map imply_eq t') (var, value)).
  { assert (direct_map imply_eq t'
            = direct_map imply_eq (half_recorded literal (var, value) imply_eq t))
      as -> by (by destruct imply_eq).
    rewrite Hdirect. apply elem_of_union. left. by apply elem_of_singleton. }
  split.
  { rewrite negb_true_iff, bool_decide_eq_false. done. }
  split; [done|].
  rewrite (InsertHalfVarValueEncoding_unfold _ _ _ _ _ Hpos).
  rewrite bool_decide_true by done. simpl.
  rewrite half_recorded_again; [done| | |done].
  - by rewrite Hsame_eq.
  - by rewrite Hsame_neq.
Qed.

Lemma other_map_with_context imply_eq s t :
  other_map imply_eq (with_context s t) = other_map imply_eq t.
Proof. by destruct imply_eq. Qed.

Lemma direct_map_with_context imply_eq s t :
  direct_map imply_eq (with_context s t) = direct_map imply_eq t.
Proof. by destruct imply_eq. Qed.

Lemma rule_counted_core name s :
  working_model (rule_counted name s) = working_model s
  /\ domains (rule_counted name s) = domains s
  /\ is_unsat (rule_counted name s) = is_unsat s.
Proof. unfold rule_counted. by destruct (enable_stats s). Qed.

Lemma InsertHalfVarValueEncoding_promotion_none literal key imply_eq t :
  NegatedRef literal ∉ half_literals (other_map imply_eq t) key ->
  InsertHalfVarValueEncoding_promotion literal key imply_eq t
  = Some (tt, with_context
                (rule_counted "variables: detect half reified value encoding"
                   (context t)) t).
Proof.
  intros Hno. unfold InsertHalfVarValueEncoding_promotion.
  rewrite (runT_bind_eq _ _ _ _ _
             (runT_lift _ _ _ _ (UpdateRuleStats_run _ (context t)))).
  execT. rewrite other_map_with_context.
  fold (half_literals (other_map imply_eq t) key).
  by rewrite bool_decide_false.
Qed.

Lemma InsertHalfVarValueEncoding_promotion_new literal key imply_eq t :
  NegatedRef literal ∈ half_literals (other_map imply_eq t) key ->
  encoding t !! key = None ->
  exists t',
    InsertHalfVarValueEncoding_promotion literal key imply_eq t = Some (tt, t')
    /\ encoding t' = <[key := imply_eq_literal imply_eq literal]> (encoding t)
    /\ eq_half_encoding t' = eq_half_encoding t
    /\ neq_half_encoding t' = neq_half_encoding t
    /\ working_model (context t') = working_model (context t)
    /\ domains (context t') = domains (context t)
    /\ is_unsat (context t') = is_unsat (context t).
Proof.
  intros Hin Hnone. unfold InsertHalfVarValueEncoding_promotion.
  rewrite (runT_bind_eq _ _ _ _ _
             (runT_lift _ _ _ _ (UpdateRuleStats_run _ (context t)))).
  execT. rewrite other_map_with_context.
  fold (half_literals (other_map imply_eq t) key).
  rewrite bool_decide_true by done. execT.
  cbn [encoding with_context]. rewrite Hnone. unfold set_encoding. execT.
  erewrite runT_lift; [|apply UpdateRuleStats_run].
  eexists. split; [reflexivity|].
  cbn [context encoding eq_half_encoding neq_half_encoding with_context
       with_encoding].
  split; [done|]. split; [done|]. split; [done|].
  destruct (rule_counted_core "variables: detect half reified value encoding"
              (context t)) as (<- & <- & <-).
  apply rule_counted_core.
Qed.

(** Two complementary half encodings promote to a full encoding: once
    [literal => var = value] and [not(literal) => var <> value] are both
    stored, the pair [(var, value)] is encoded by [literal], and
    [HasVarValueEncoding] finds it.  The model, the domains and
    [is_unsat] are not touched. *)
Theorem complementary_half_encodings_give_a_full_encoding literal var value t :
  RefIsPositive var = true ->
  encoding t !! (var, value) = None ->
  NegatedRef literal ∉ half_literals (neq_half_encoding t) (var, value) ->
  exists r t1 t2,
    StoreLiteralImpliesVarEqValue literal var value t = Some (r, t1)
    /\ StoreLiteralImpliesVarNEqValue (NegatedRef literal) var value t1
       = Some (true, t2)
    /\ encoding t1 = encoding t
    /\ encoding t2 = <[(var, value) := literal]> (encoding t)
    /\ HasVarValueEncoding var value None t2 = Some ((true, None), t2)
    /\ working_model (context t2) = working_model (context t)
    /\ domains (context t2) = domains (context t)
    /\ is_unsat (context t2) = is_unsat (context t).
Proof.
  intros Hpos Hnone Hneq.
  set (key := (var, value)).
  destruct (half_recorded_fields literal key true t)
    as (Hctx & Henc & Hdirect & Hother & _ & _).
  (* the first half *)
  assert (exists r t1,
    StoreLiteralImpliesVarEqValue literal var value t = Some (r, t1)
    /\ encoding t1 = encoding t
    /\ literal ∈ half_literals (eq_half_encoding t1) key
    /\ half_literals (neq_half_encoding t1) key = half_literals (neq_half_encoding t) key
    /\ working_model (context t1) = working_model (context t)
    /\ domains (context t1) = domains (context t)
    /\ is_unsat (context t1) = is_unsat (context t))
    as (r & t1 & Hrun1 & Henc1 & Hin1 & Hneq1 & Hwm1 & Hd1 & Hu1).
  { unfold StoreLiteralImpliesVarEqValue.
    rewrite (InsertHalfVarValueEncoding_unfold _ _ _ _ _ Hpos). fold key.
    assert (Hin : literal ∈ half_literals
                    (eq_half_encoding (half_recorded literal key true t)) key).
    { change (eq_half_encoding (half_recorded literal key true t))
        with (direct_map true (half_recorded literal key true t)).
      rewrite Hdirect. apply elem_of_union. left. by apply elem_of_singleton. }
    destruct (bool_decide (literal ∈ half_literals (direct_map true t) key));
      cbn [negb].
    - execT. eexists _, _. split; [reflexivity|].
      split; [done|]. split; [done|]. split; [apply (Hother key)|].
      by rewrite Hctx.
    - assert (Hno : NegatedRef literal
                    ∉ half_literals
                        (other_map true (half_recorded literal key true t)) key)
        by (by rewrite (Hother key)).
      rewrite (runT_bind_eq _ _ _ _ _
                 (InsertHalfVarValueEncoding_promotion_none _ _ _ _ Hno)).
      execT. eexists _, _. split; [reflexivity|].
      cbn [context encoding eq_half_encoding neq_half_encoding with_context].
      rewrite Hctx.
      split; [done|]. split; [done|]. split; [apply (Hother key)|].
      apply rule_counted_core. }
  (* the second half *)
  destruct (half_recorded_fields (NegatedRef literal) key false t1)
    as (Hctx2 & Henc2 & Hdirect2 & Hother2 & _ & _).
  destruct (InsertHalfVarValueEncoding_promotion_new (NegatedRef literal) key false
              (half_recorded (NegatedRef literal) key false t1))
    as (t2 & Hrun2 & Henc' & _ & _ & Hwm2 & Hd2 & Hu2).
  { rewrite (Hother2 key), NegatedRef_involutive. done. }
  { rewrite Henc2, Henc1. done. }
  exists r, t1, t2. split; [done|]. split.
  { unfold StoreLiteralImpliesVarNEqValue.
    rewrite (InsertHalfVarValueEncoding_unfold _ _ _ _ _ Hpos). fold key.
    rewrite bool_decide_false.
    2:{ change (direct_map false t1) with (neq_half_encoding t1).
        by rewrite Hneq1. }
    cbn [negb]. by rewrite (runT_bind_eq _ _ _ _ _ Hrun2). }
  split; [done|].
  assert (Henc_final : encoding t2 = <[key := literal]> (encoding t)).
  { rewrite Henc', Henc2, Henc1. unfold imply_eq_literal.
    by rewrite NegatedRef_involutive. }
  split; [done|]. split.
  { unfold HasVarValueEncoding. rewrite Hpos. execT.
    rewrite PositiveRef_of_positive by done. fold key.
    by rewrite Henc_final, lookup_insert_eq. }
  rewrite Hwm2, Hd2, Hu2, Hctx2. done.
Qed.

Lemma half_literals_half_recorded_other_key literal key imply_eq t k :
  k <> key ->
  half_literals (eq_half_encoding (half_recorded literal key imply_eq t)) k
  = half_literals (eq_half_encoding t) k
  /\ half_literals (neq_half_encoding (half_recorded literal key imply_eq t)) k
     = half_literals (neq_half_encoding t) k.
Proof.
  intros Hk. unfold half_recorded.
  destruct imply_eq; simpl;
    rewrite ?half_literals_half_insert, ?half_literals_half_entry;
    by rewrite ?decide_False by done.
Qed.

(** A half encoding is promoted only by the opposite half at the same
    [(var, value)]: whatever the other keys hold, a call of
    [InsertHalfVarValueEncoding] leaves every other entry of the encoding
    and of the two half-encoding maps as it was; and when the other map
    does not hold the negated literal for this very key, the encoding, the
    model, the domains and [is_unsat] are unchanged. *)
Theorem half_encodings_promote_only_at_their_key literal var value imply_eq t r t' :
  InsertHalfVarValueEncoding literal var value imply_eq t = Some (r, t') ->
  (forall k, k <> (var, value) ->
     encoding t' !! k = encoding t !! k
     /\ half_literals (eq_half_encoding t') k = half_literals (eq_half_encoding t) k
     /\ half_literals (neq_half_encoding t') k = half_literals (neq_half_encoding t) k)
  /\ (NegatedRef literal ∉ half_literals (other_map imply_eq t) (var, value) ->
      encoding t' = encoding t
      /\ working_model (context t') = working_model (context t)
      /\ domains (context t') = domains (context t)
      /\ is_unsat (context t') = is_unsat (context t)).
Proof.
  intros Hrun.
  assert (Hpos : RefIsPositive var = true).
  { unfold InsertHalfVarValueEncoding in Hrun.
    apply bindT_Some in Hrun as (? & ? & Hc & _).
    unfold CHECKT in Hc. by destruct (RefIsPositive var). }
  rewrite (InsertHalfVarValueEncoding_unfold _ _ _ _ _ Hpos) in Hrun.
  apply bindT_Some in Hrun as (u & t1 & Htail & [= <- <-]).
  set (key := (var, value)) in *.
  destruct (half_recorded_fields literal key imply_eq t)
    as (Hctx & Henc & Hdirect & Hother & _ & _).
  destruct (bool_decide (literal ∈ half_literals (direct_map imply_eq t) key));
    cbn [negb] in Htail.
  - unfold retT in Htail. injection Htail as _ <-. split.
    + intros k Hk. rewrite Henc. split; [done|].
      by apply half_literals_half_recorded_other_key.
    + intros _. by rewrite Henc, Hctx.
  - split.
    + intros k Hk.
      pose proof (InsertHalfVarValueEncoding_promotion_encoding _ _ _ _ _ _ Htail k Hk)
        as Hk_enc.
      destruct (InsertHalfVarValueEncoding_promotion_half_encodings _ _ _ _ _ _ Htail)
        as [Heq Hneq].
      rewrite Hk_enc, Henc, Heq, Hneq. split; [done|].
      by apply half_literals_half_recorded_other_key.
    + intros Hno.
      rewrite InsertHalfVarValueEncoding_promotion_none in Htail
        by (by rewrite (Hother key)).
      injection Htail as _ <-.
      cbn [context encoding with_context]. rewrite Henc, Hctx.
      split; [done|]. apply rule_counted_core.
Qed.

(** ** Full encodings *)

Lemma set_encoding_grows key literal : preservesT encoding_grows (set_encoding key literal).
Proof.
  apply preservesT_modify. intros t k Hk. simpl.
  destruct (decide (key = k)) as [->|Hne].
  - rewrite lookup_insert_eq. by eexists.
  - by rewrite lookup_insert_ne.
Qed.

Lemma preservesT_elim (R : relation PresolveTables) {A} (m : T A) t a t' :
  preservesT R m -> m t = Some (a, t') -> R t t'.
Proof. intros Hm. apply Hm. Qed.

Ltac encoding_grows_steps :=
  repeat preservesT_step;
  first [ apply set_encoding_grows
        | apply preservesT_modify; intros ? ? H; exact H
        | intros ? ? ? H; exact H
        | done ].

Lemma InsertVarValueEncoding_grows literal ref value :
  preservesT encoding_grows (InsertVarValueEncoding literal ref value).
Proof. unfold InsertVarValueEncoding. encoding_grows_steps. Qed.

Lemma signed_value_Some ref value t var_value t' :
  (if RefIsPositive ref then retT value else int64_ofT (- value)) t
  = Some (var_value, t') ->
  t' = t
  /\ var_value = (if RefIsPositive ref then value else - value)
  /\ forall t2, (if RefIsPositive ref then retT value else int64_ofT (- value)) t2
                = Some (var_value, t2).
Proof.
  destruct (RefIsPositive ref).
  - by intros [= <- <-].
  - unfold int64_ofT, readT. destruct (checked64 (- value)) as [z|] eqn:E; [|done].
    intros [= <- <-]. apply checked64_Some in E as ->. split; [done|].
    split; [done|]. intros t2. unfold checked64 in *.
    by destruct (in_int64 (- value)).
Qed.

(** Insert and look up: after [InsertVarValueEncoding(literal, ref, value)]
    the pair is encoded, so that [HasVarValueEncoding(ref, value)] answers
    true; and no entry of the encoding is ever removed. *)
Theorem InsertVarValueEncoding_then_HasVarValueEncoding literal ref value t t' :
  InsertVarValueEncoding literal ref value t = Some (tt, t') ->
  HasVarValueEncoding ref value None t' = Some ((true, None), t')
  /\ encoding_grows t t'.
Proof.
  intros Hrun.
  split; [|by eapply (preservesT_elim _ _ _ _ _ (InsertVarValueEncoding_grows _ _ _))].
  unfold InsertVarValueEncoding in Hrun.
  apply bindT_Some in Hrun as (var_value & t0 & Hsigned & Hrun).
  apply signed_value_Some in Hsigned as (-> & Hvalue & Hsigned).
  apply bindT_Some in Hrun as (previous & t0 & [= <- <-] & Hrun).
  assert (Hkey : is_Some (encoding t' !! (PositiveRef ref, var_value))).
  { destruct (encoding t !! (PositiveRef ref, var_value)) as [previous|] eqn:Hprev.
    - eapply (preservesT_elim encoding_grows) in Hrun.
      + apply Hrun. by eexists.
      + encoding_grows_steps.
    - apply bindT_Some in Hrun as (u & t1 & [= <- <-] & Hrun).
      eapply (preservesT_elim encoding_grows) in Hrun.
      + apply Hrun. simpl. rewrite lookup_insert_eq. by eexists.
      + encoding_grows_steps. }
  destruct Hkey as [encoded Hkey].
  unfold HasVarValueEncoding.
  rewrite (runT_bind_eq _ _ _ _ _ (Hsigned t')). execT. by rewrite Hkey.
Qed.

Lemma int64_ofT_Some z t a t' :
  int64_ofT z t = Some (a, t') -> a = z /\ t' = t.
Proof.
  unfold int64_ofT, readT. destruct (checked64 z) as [r|] eqn:E; [|done].
  intros [= <- <-]. by apply checked64_Some in E.
Qed.

Lemma DomainOf_var var s d :
  RefIsPositive var = true ->
  at_index (domains s) var = Some d ->
  DomainOf var s = Some d.
Proof. intros Hpos Hd. unfold DomainOf. by rewrite Hpos. Qed.

Lemma MinOf_var var s d lo :
  RefIsPositive var = true ->
  at_index (domains s) var = Some d -> Domain.Min d = Some lo ->
  MinOf var s = Some lo.
Proof.
  intros Hpos Hd Hlo. unfold MinOf.
  by rewrite PositiveRef_of_positive, Hd, Hpos.
Qed.

Lemma MaxOf_var var s d hi :
  RefIsPositive var = true ->
  at_index (domains s) var = Some d -> Domain.Max d = Some hi ->
  MaxOf var s = Some hi.
Proof.
  intros Hpos Hd Hhi. unfold MaxOf.
  by rewrite PositiveRef_of_positive, Hd, Hpos.
Qed.

Lemma run_read_lift {A B} (f : PresolveContext -> option A) (k : A -> T B) t a :
  f (context t) = Some a ->
  bindT (liftT (read f)) k t = k a t.
Proof.
  intros H. unfold bindT, liftT, read. rewrite H. by rewrite with_context_same.
Qed.

(** The encoding of a value of a two-valued variable [var] in
    [{var_min, var_max}] by a fresh pair of entries: the value is encoded
    by [literal], the other value by its negation, and one linear
    constraint on [var] and the variable of [literal] is appended; this
    constraint holds exactly when the literal is true if and only if
    [var] takes the encoded value.  The domains are not touched. *)
Theorem InsertVarValueEncoding_links_a_two_valued_variable
    literal var value t t' d var_min var_max :
  RefIsPositive var = true ->
  at_index (domains (context t)) var = Some d ->
  Domain.Size d = 2 ->
  Domain.Min d = Some var_min ->
  Domain.Max d = Some var_max ->
  var_min < var_max ->
  value = var_min \/ value = var_max ->
  encoding t !! (var, var_min) = None ->
  encoding t !! (var, var_max) = None ->
  InsertVarValueEncoding literal var value t = Some (tt, t') ->
  let other_value := if value =? var_min then var_max else var_min in
  let max_is_true := Bool.eqb (RefIsPositive literal) (value =? var_max) in
  let k := if max_is_true then var_min - var_max else var_max - var_min in
  let b := if max_is_true then var_min else var_max in
  encoding t'
  = <[(var, other_value) := NegatedRef literal]>
      (<[(var, value) := literal]> (encoding t))
  /\ constraints (working_model (context t'))
     = constraints (working_model (context t))
       ++ [MkConstraintProto []
             (kLinear (MkLinearConstraintProto
                         [var; PositiveRef literal] [1; k] [b; b]))]
  /\ domains (context t') = domains (context t)
  /\ (forall x l,
        x = var_min \/ x = var_max ->
        l = 0 \/ l = 1 ->
        (1 * x + k * l = b <->
         ((if RefIsPositive literal then l else 1 - l) = 1 <-> x = value))).
Proof.
  intros Hpos Hd Hsize Hmin Hmax Hlt Hvalue Hnone_min Hnone_max Hrun
         other_value max_is_true k b.
  assert (Hnone : encoding t !! (var, value) = None)
    by (by destruct Hvalue as [-> | ->]).
  assert (Hother_ne : (var, value) <> (var, other_value)).
  { subst other_value. intros [= E]. destruct (Z.eqb_spec value var_min); lia. }
  assert (Hnone_other : encoding t !! (var, other_value) = None).
  { subst other_value. by destruct (value =? var_min). }
  split; [|split; [|split]].
  4:{ intros x l Hx Hl. subst k b max_is_true.
      destruct (RefIsPositive literal); simpl;
        destruct (Z.eqb_spec value var_max); simpl; lia. }
  all: unfold InsertVarValueEncoding in Hrun;
    rewrite Hpos in Hrun; rewrite PositiveRef_of_positive in Hrun by done;
    revert Hrun; execT; rewrite Hnone; unfold set_encoding; execT;
    rewrite (run_read_lift _ _ _ d) by (by apply DomainOf_var);
    rewrite Hsize; cbn [Z.eqb Pos.eqb];
    rewrite (run_read_lift _ _ _ var_min) by (by eapply MinOf_var);
    rewrite (run_read_lift _ _ _ var_max) by (by eapply MaxOf_var);
    execT; cbn [encoding with_encoding];
    fold other_value; rewrite lookup_insert_ne by done; rewrite Hnone_other;
    execT; cbn [context with_encoding]; fold max_is_true;
    intros Hrun;
    destruct max_is_true;
    apply bindT_Some in Hrun as (c1 & t1 & [-> ->]%int64_ofT_Some & Hrun);
    apply bindT_Some in Hrun as (u1 & t1 & (s1 & [= <- <-] & ->)%liftT_Some & Hrun);
    apply bindT_Some in Hrun as (c2 & t2 & [-> ->]%int64_ofT_Some & Hrun);
    apply liftT_Some in Hrun as (s2 & Hstore & ->);
    apply (preserves_elim _ _ _ _ _ (StoreAffineRelation_frame _ _ _ _ _)) in Hstore;
    apply relations_frame_core in Hstore as (Hwm & Hdom & _);
    cbn [context with_context encoding] in *;
    try rewrite Hwm; try rewrite Hdom; done.
Qed.

Lemma GetLiteralRepresentative_unrelated ref s :
  affine_relations_ s !! PositiveRef ref = None ->
  var_equiv_relations_ s !! PositiveRef ref = None ->
  CanBeUsedAsLiteral ref s = Some true ->
  GetLiteralRepresentative ref s = Some ref.
Proof.
  intros Ha He Hlit.
  assert (Hrel : GetAffineRelation (PositiveRef ref) s
                 = MkRelation (PositiveRef ref) 1 0).
  { unfold GetAffineRelation, Get.
    rewrite PositiveRef_idemp, Ha. simpl. rewrite He. simpl.
    by rewrite RefIsPositive_PositiveRef. }
  unfold GetLiteralRepresentative. rewrite Hrel, Hlit. simpl.
  assert (Hrep : CanBeUsedAsLiteral (PositiveRef ref) s = Some true).
  { unfold CanBeUsedAsLiteral in *. by rewrite PositiveRef_idemp. }
  rewrite Hrep. simpl.
  destruct (RefIsPositive ref) eqn:Hpos; simpl; f_equal.
  - by apply PositiveRef_of_positive.
  - by apply NegatedRef_PositiveRef_of_negative.
Qed.

(** The value encoding of a Boolean variable is the variable itself: for
    a variable of domain [[0, 1]] without relation nor encoding,
    [GetOrCreateVarValueEncoding(var, 1)] returns [var] and
    [GetOrCreateVarValueEncoding(var, 0)] its negation, no variable is
    created, both pairs are recorded, and a second call returns the same
    literal and changes nothing. *)
Theorem GetOrCreateVarValueEncoding_of_a_Boolean_variable var value t :
  RefIsPositive var = true ->
  at_index (domains (context t)) var = Some [(0, 1)] ->
  affine_relations_ (context t) !! var = None ->
  var_equiv_relations_ (context t) !! var = None ->
  encoding t !! (var, 0) = None ->
  encoding t !! (var, 1) = None ->
  value = 0 \/ value = 1 ->
  let literal := if value =? 1 then var else NegatedRef var in
  let t' := with_encoding
              (<[(var, 0) := NegatedRef var]> (<[(var, 1) := var]> (encoding t))) t in
  GetOrCreateVarValueEncoding var value t = Some (literal, t')
  /\ GetOrCreateVarValueEncoding var value t' = Some (literal, t').
Proof.
  intros Hpos Hd Ha He H0 H1 Hvalue literal t'.
  assert (Hvar : PositiveRef var = var) by (by apply PositiveRef_of_positive).
  assert (Hlit : CanBeUsedAsLiteral var (context t) = Some true).
  { unfold CanBeUsedAsLiteral. by rewrite Hvar, Hd. }
  assert (Hrep : GetLiteralRepresentative var (context t) = Some var).
  { apply GetLiteralRepresentative_unrelated; by rewrite ?Hvar. }
  assert (Hrep_neg : GetLiteralRepresentative (NegatedRef var) (context t)
                     = Some (NegatedRef var)).
  { apply GetLiteralRepresentative_unrelated;
      rewrite ?PositiveRef_NegatedRef, ?Hvar, ?CanBeUsedAsLiteral_NegatedRef; done. }
  assert (Hcontains : Domain.Contains [(0, 1)] value = true)
    by (by destruct Hvalue as [-> | ->]).
  assert (Hnone : encoding t !! (var, value) = None)
    by (by destruct Hvalue as [-> | ->]).
  split.
  - unfold GetOrCreateVarValueEncoding. rewrite Hpos, Hvar. execT.
    rewrite (run_read_lift _ _ _ [(0, 1)]) by done.
    rewrite Hcontains. cbn [negb]. execT. rewrite Hnone.
    change (Domain.Size [(0, 1)]) with 2. cbn [Z.eqb Pos.eqb].
    rewrite (run_read_lift _ _ _ 0) by (by eapply MinOf_var).
    rewrite (run_read_lift _ _ _ 1) by (by eapply MaxOf_var).
    execT.
    assert (Hother : encoding t !! (var, if value =? 0 then 1 else 0) = None)
      by (by destruct Hvalue as [-> | ->]).
    rewrite Hother. cbn [Z.eqb Pos.eqb andb].
    rewrite (run_read_lift _ _ _ var) by done.
    unfold set_encoding. execT. done.
  - unfold GetOrCreateVarValueEncoding. rewrite Hpos, Hvar. execT.
    rewrite (run_read_lift _ _ _ [(0, 1)]) by done.
    rewrite Hcontains. cbn [negb]. execT.
    subst t' literal. cbn [encoding with_encoding].
    destruct Hvalue as [-> | ->].
    + rewrite lookup_insert_eq. cbn [Z.eqb].
      unfold liftT, read. cbn [context with_encoding]. by rewrite Hrep_neg.
    + rewrite lookup_insert_ne by done. rewrite lookup_insert_eq. cbn [Z.eqb Pos.eqb].
      unfold liftT, read. cbn [context with_encoding]. by rewrite Hrep.
Qed.

(** A value outside the domain is encoded by the false literal:
    [GetOrCreateVarValueEncoding] then answers what
    [GetOrCreateConstantVar(0)] answers, with the context that this call
    leaves, and records no encoding.  When the constant 0 has a variable
    already, this variable is the answer and nothing changes; when it has
    none, the answer is a new variable that is a false literal. *)
Theorem GetOrCreateVarValueEncoding_outside_the_domain ref value t d :
  initialized (context t) ->
  at_index (domains (context t)) (PositiveRef ref) = Some d ->
  DomainContains ref value (context t) = Some false ->
  (RefIsPositive ref = false -> in_int64 (- value) = true) ->
  exists i s',
    GetOrCreateConstantVar 0 (context t) = Some (i, s')
    /\ GetOrCreateVarValueEncoding ref value t = Some (i, with_context s' t)
    /\ (forall j, constant_to_ref (context t) !! 0 = Some j ->
          i = j /\ with_context s' t = t)
    /\ (constant_to_ref (context t) !! 0 = None ->
          i = Z.of_nat (length (variables (working_model (context t))))
          /\ LiteralIsFalse i s' = Some true
          /\ LiteralIsTrue i s' = Some false).
Proof.
  intros Hinit Hd Hout H64.
  assert (Hcst : exists i s',
    GetOrCreateConstantVar 0 (context t) = Some (i, s')
    /\ (forall j, constant_to_ref (context t) !! 0 = Some j ->
          i = j /\ with_context s' t = t)
    /\ (constant_to_ref (context t) !! 0 = None ->
          i = Z.of_nat (length (variables (working_model (context t))))
          /\ LiteralIsFalse i s' = Some true
          /\ LiteralIsTrue i s' = Some false)).
  { destruct (constant_to_ref (context t) !! 0) as [j|] eqn:Hk.
    - exists j, (context t). split; [by apply GetOrCreateConstantVar_known|].
      split; [|done]. intros j' [= <-]. split; [done|]. by destruct t.
    - destruct (GetOrCreateConstantVar_new 0 (context t) Hinit eq_refl Hk)
        as (s' & Hrun & Hdom & _ & _ & _ & _).
      eexists _, s'. split; [exact Hrun|]. split; [done|]. intros _.
      assert (Hi : at_index (domains s')
                     (Z.of_nat (length (variables (working_model (context t)))))
                   = Some (Domain.FromValue 0)).
      { rewrite Hdom. unfold initialized in Hinit. rewrite <- Hinit.
        apply at_index_app_length. }
      split; [done|].
      unfold LiteralIsFalse, LiteralIsTrue. rewrite RefIsPositive_of_nat, Hi. done. }
  destruct Hcst as (i & s' & Hrun & Hknown & Hnew).
  exists i, s'. split; [exact Hrun|]. split; [|by split].
  unfold GetOrCreateVarValueEncoding.
  unfold DomainContains in Hout.
  destruct (RefIsPositive ref) eqn:Hpos; cbn [negb] in Hout.
  - rewrite (PositiveRef_of_positive _ Hpos) in Hd.
    rewrite Hd in Hout. injection Hout as Hout.
    execT. rewrite (PositiveRef_of_positive _ Hpos).
    rewrite (run_read_lift _ _ _ d) by done.
    rewrite Hout. cbn [negb]. by apply runT_lift.
  - rewrite Hd in Hout. injection Hout as Hout.
    unfold int64_ofT.
    rewrite (runT_bind_read _ _ _ (- value))
      by (unfold checked64; by rewrite H64).
    rewrite (run_read_lift _ _ _ d) by done.
    rewrite Hout. cbn [negb]. by apply runT_lift.
Qed.

(** A negated reference and the minimum of a two-valued variable: for
    [ref] the negation of a variable of domain [{var_min, var_max}] with
    [var_min <> 0], [InsertVarValueEncoding(literal, ref, -var_min)] (the
    pair [(var, var_min)], not yet encoded) takes [var_min] itself for the
    other value, finds the entry that it has just inserted, and stores
    the equality of [literal] with its own negation: the call records
    [(var, var_min) -> literal] and sets [is_unsat]. *)
Theorem InsertVarValueEncoding_of_a_negated_reference_to_the_minimum
    literal ref t d var_min var_max :
  RefIsPositive ref = false ->
  at_index (domains (context t)) (PositiveRef ref) = Some d ->
  Domain.Size d = 2 ->
  Domain.Min d = Some var_min ->
  Domain.Max d = Some var_max ->
  var_min <> 0 ->
  in_int64 var_min = true ->
  encoding t !! (PositiveRef ref, var_min) = None ->
  CanBeUsedAsLiteral literal (context t) = Some true ->
  InsertVarValueEncoding literal ref (- var_min) t
  = Some (tt, with_context (with_is_unsat true (context t))
                (with_encoding
                   (<[(PositiveRef ref, var_min) := literal]> (encoding t)) t)).
Proof.
  intros Hneg Hd Hsize Hmin Hmax Hne H64 Hnone Hlit.
  unfold InsertVarValueEncoding. rewrite Hneg. unfold int64_ofT.
  rewrite Z.opp_involutive.
  rewrite (runT_bind_read _ _ _ var_min) by (unfold checked64; by rewrite H64).
  execT. rewrite Hnone. unfold set_encoding. execT.
  assert (Hvar : RefIsPositive (PositiveRef ref) = true)
    by apply RefIsPositive_PositiveRef.
  rewrite (run_read_lift _ _ _ d) by (by apply DomainOf_var).
  rewrite Hsize. cbn [Z.eqb Pos.eqb].
  rewrite (run_read_lift _ _ _ var_min) by (by eapply MinOf_var).
  rewrite (run_read_lift _ _ _ var_max) by (by eapply MaxOf_var).
  execT.
  replace (- var_min =? var_min) with false
    by (symmetry; apply Z.eqb_neq; lia).
  cbn [encoding with_encoding]. rewrite lookup_insert_eq.
  replace (literal =? NegatedRef literal) with false
    by (symmetry; apply Z.eqb_neq; intros E; by apply (NegatedRef_neq literal)).
  cbn [negb].
  apply runT_lift. cbn [context with_encoding].
  unfold StoreBooleanEqualityRelation.
  rewrite (run_bind_read _ _ _ true) by done. exec.
  rewrite (run_bind_read _ _ _ true)
    by (by rewrite CanBeUsedAsLiteral_NegatedRef).
  exec.
  replace (literal =? NegatedRef literal) with false
    by (symmetry; apply Z.eqb_neq; intros E; by apply (NegatedRef_neq literal)).
  by rewrite NegatedRef_involutive, Z.eqb_refl.
Qed.
Close Scope tbl_scope.

(** ** Writing the objective and reading it back *)

Lemma with_objective_twice vtc2 om2 vtc1 om1 s :
  with_var_to_constraints_ vtc2
    (with_objective_map om2
       (with_var_to_constraints_ vtc1 (with_objective_map om1 s)))
  = with_var_to_constraints_ vtc2 (with_objective_map om2 s).
Proof. by destruct s. Qed.

Lemma ReadObjectiveFromProto_loop_run (entries : list (Z * Z)) : forall s,
  Forall (fun t => 0 <= t.1 /\ t.2 <> 0 /\ in_int64 t.2 = true
                   /\ is_Some (at_index (var_to_constraints_ s) t.1)) entries ->
  NoDup entries.*1 ->
  Forall (fun t => objective_map s !! t.1 = None) entries ->
  exists vtc,
    ReadObjectiveFromProto_loop entries.*1 entries.*2 s
    = Some (tt, with_var_to_constraints_ vtc
                  (with_objective_map (list_to_map entries ∪ objective_map s) s))
    /\ forall v,
         at_index vtc v
         = (fun cs => if bool_decide (v ∈ entries.*1) then {[-1]} ∪ cs else cs)
             <$> at_index (var_to_constraints_ s) v.
Proof.
  induction entries as [|[k c] entries IH]; intros s Hall Hnodup Hnone.
  { exists (var_to_constraints_ s). split.
    - simpl. unfold ret. do 2 f_equal. rewrite (left_id_L ∅ (∪)). by destruct s.
    - intros v. simpl. by destruct (at_index _ v). }
  apply Forall_cons in Hall as [(Hk & Hc & H64 & [cs Hcs]) Hall].
  apply Forall_cons in Hnone as [Hnone_k Hnone]. simpl in Hnone_k, Hk, Hc, H64, Hcs.
  rewrite fmap_cons in Hnodup. apply NoDup_cons in Hnodup as [Hk_fresh Hnodup].
  simpl in Hk_fresh.
  assert (Hpos : RefIsPositive k = true) by (by apply Z.leb_le).
  cbn [fmap list_fmap fst snd ReadObjectiveFromProto_loop].
  rewrite Hpos. cbn [negb]. exec.
  rewrite (PositiveRef_of_positive _ Hpos).
  unfold objective_coeff at 1. rewrite Hnone_k. cbn [default].
  unfold int64_of.
  rewrite (run_bind_read _ _ _ c) by (unfold checked64; by rewrite Z.add_0_l, H64).
  unfold set_objective_coeff. exec.
  rewrite (proj2 (Z.eqb_neq c 0)) by done.
  unfold insert_objective_usage, update_var_to_constraints. exec.
  rewrite (run_bind_read _ _ _ cs) by done.
  exec.
  set (s1 := with_var_to_constraints_ _ _).
  destruct (IH s1) as (vtc & Hrun & Hvtc).
  { eapply Forall_impl; [exact Hall|]. intros t (? & ? & ? & Hr).
    repeat split; try done. subst s1. simpl.
    eapply is_Some_at_index_length; [|exact Hr]. symmetry. apply length_set_index. }
  { done. }
  { apply Forall_forall. intros t Ht. subst s1. simpl.
    rewrite lookup_insert_ne.
    - rewrite Forall_forall in Hnone. by apply Hnone.
    - intros ->. apply Hk_fresh. apply list_elem_of_fmap. by exists t. }
  exists vtc. split.
  - rewrite Hrun. subst s1. rewrite with_objective_twice. do 3 f_equal.
    simpl. rewrite <- insert_union_l. rewrite <- insert_union_r; [done|].
    apply not_elem_of_list_to_map_1. done.
  - intros v. rewrite Hvtc. subst s1. simpl.
    destruct (decide (v = k)) as [->|Hne].
    + rewrite (at_index_set_index_eq _ _ _ _ Hcs), Hcs. simpl.
      rewrite (bool_decide_true (k ∈ k :: _)) by apply list_elem_of_here.
      destruct (bool_decide (k ∈ entries.*1)); [|done].
      f_equal. apply set_eq. intros x. rewrite !elem_of_union. tauto.
    + rewrite at_index_set_index_ne by done.
      destruct (at_index (var_to_constraints_ s) v); [|done]. simpl. f_equal.
      destruct (decide (v ∈ entries.*1)).
      * rewrite bool_decide_true by done.
        by rewrite bool_decide_true by (by apply list_elem_of_further).
      * rewrite bool_decide_false by done.
        rewrite bool_decide_false; [done|]. by apply not_elem_of_cons.
Qed.

(** [WriteObjectiveToProto] followed by [ReadObjectiveFromProto] runs
    and restores the objective of the context: on a context with a
    well-formed non-empty objective domain, a non-zero scaling factor and
    valid entries, the map, the domain, the offset and the scaling factor
    are the ones before the write, the domain is marked constraining and
    [-1] is in the usage of every objective variable. *)
Theorem WriteObjectiveToProto_then_ReadObjectiveFromProto s :
  Domain.wf (objective_domain s) = true ->
  Domain.IsEmpty (objective_domain s) = false ->
  PrimFloat.eqb (objective_scaling_factor s) 0 = false ->
  objective_entries_valid s ->
  exists s1 s2,
    WriteObjectiveToProto s = Some (tt, s1)
    /\ ReadObjectiveFromProto s1 = Some (tt, s2)
    /\ objective_map s2 = objective_map s
    /\ objective_domain s2 = objective_domain s
    /\ objective_offset s2 = objective_offset s
    /\ objective_scaling_factor s2 = objective_scaling_factor s
    /\ objective_domain_is_constraining s2 = true
    /\ objective_usage_added s s2.
Proof.
  intros Hwf Hne Hscale Hvalid.
  set (entries := sorted_entries (objective_map s)).
  assert (Hperm : entries ≡ₚ map_to_list (objective_map s))
    by apply sorted_entries_Permutation.
  assert (Hnodup : NoDup entries.*1).
  { rewrite Hperm. apply NoDup_fst_map_to_list. }
  assert (Hmap : list_to_map entries = objective_map s).
  { rewrite (list_to_map_proper _ _ Hnodup Hperm). apply list_to_map_to_list. }
  set (s1 := set_objective
               (MkCpObjectiveProto entries.*1 entries.*2
                  (FillDomainInProto (objective_domain s))
                  (objective_offset s) (objective_scaling_factor s)) s).
  assert (Hwrite : WriteObjectiveToProto s = Some (tt, s1)).
  { unfold WriteObjectiveToProto. exec. rewrite Hne. exec. reflexivity. }
  assert (Hfill : FillDomainInProto (objective_domain s) <> []).
  { destruct (objective_domain s) as [|[a b] d]; [done|]. discriminate. }
  set (s0 := with_objective_map ∅
               (with_objective_domain (objective_domain s)
                  (with_objective_domain_is_constraining true
                     (with_objective_scaling_factor (objective_scaling_factor s)
                        (with_objective_offset (objective_offset s) s1))))).
  destruct (ReadObjectiveFromProto_loop_run entries s0) as (vtc & Hrun & Hvtc).
  { apply Forall_forall. intros t Ht.
    apply elem_of_sorted_entries in Ht. by apply Hvalid in Ht. }
  { done. }
  { apply Forall_forall. intros t _. apply lookup_empty. }
  assert (Hread : ReadObjectiveFromProto s1
                  = Some (tt, with_var_to_constraints_ vtc
                                (with_objective_map
                                   (list_to_map entries ∪ objective_map s0) s0))).
  { rewrite <- Hrun. unfold ReadObjectiveFromProto. exec.
    change (objective (working_model s1))
      with (MkCpObjectiveProto entries.*1 entries.*2
              (FillDomainInProto (objective_domain s))
              (objective_offset s) (objective_scaling_factor s)).
    cbn [objective_vars objective_coeffs objective_proto_domain
         objective_proto_offset objective_proto_scaling_factor].
    rewrite Hscale. rewrite bool_decide_false by done. cbn [negb]. exec.
    rewrite (run_bind_read _ _ _ _ (ReadDomainFromProto_Fill _ Hwf)).
    exec. reflexivity. }
  exists s1. eexists. split; [exact Hwrite|].
  split; [exact Hread|].
  split; [simpl; rewrite Hmap; apply (right_id_L ∅ (∪))|].
  do 4 (split; [reflexivity|]).
  intros v. simpl. rewrite Hvtc. simpl.
  destruct (at_index (var_to_constraints_ s) v); [|done]. simpl. f_equal.
  apply (f_equal (fun b : bool => if b then _ else _)).
  apply bool_decide_ext. rewrite list_elem_of_fmap. split.
  - intros ([k c] & -> & Ht). apply elem_of_sorted_entries in Ht. by eexists.
  - intros [c Hc]. exists (v, c). split; [done|]. by apply elem_of_sorted_entries.
Qed.

(** ** The statements at concrete contexts *)

Lemma three_variables_context_run :
  exists s, three_variables_context = Some s.
Proof. eexists. vm_compute. reflexivity. Defined.

Lemma in_domains_intro val s :
  (forall i d, domains s !! i = Some d ->
               Domain.Contains d (val (Z.of_nat i)) = true) ->
  in_domains val s.
Proof.
  intros H var d. unfold at_index. destruct (Z.ltb_spec var 0); [done|].
  intros Hd. apply H in Hd. by rewrite Z2Nat.id in Hd.
Qed.

(** The facts about a context given by a run are computed on its value. *)
Ltac on_context Hs := vm_compute in Hs; injection Hs as <-.

Ltac computed Hs := on_context Hs; vm_compute; reflexivity.

Lemma MinOf_MaxOf_bound_the_signed_domain_witness :
  exists s,
    three_variables_context = Some s
    /\ MinOf (-3) s = Some (-5)
    /\ MaxOf (-3) s = Some (-2)
    /\ -5 <= -4 <= -2.
Proof.
  destruct three_variables_context_run as [s Hs]. exists s.
  split; [exact Hs|].
  assert (Hmin : MinOf (-3) s = Some (-5)) by computed Hs.
  assert (Hmax : MaxOf (-3) s = Some (-2)) by computed Hs.
  split; [exact Hmin|]. split; [exact Hmax|].
  apply (MinOf_MaxOf_bound_the_signed_domain (-3) s (-4) (-5) (-2));
    [|by computed Hs|done|done].
  on_context Hs. unfold canonical_domains. simpl. repeat constructor.
Defined.

Lemma MinOf_MaxOf_expr_bound_the_expression_witness :
  exists s lo hi,
    three_variables_context = Some s
    /\ MinOf_expr (MkLinearExpressionProto [1; -1] [3; -2] 1) s = Some lo
    /\ MaxOf_expr (MkLinearExpressionProto [1; -1] [3; -2] 1) s = Some hi
    /\ lo <= expr_value three_values (MkLinearExpressionProto [1; -1] [3; -2] 1) <= hi.
Proof.
  destruct three_variables_context_run as [s Hs]. exists s.
  assert (Hmin : exists lo,
            MinOf_expr (MkLinearExpressionProto [1; -1] [3; -2] 1) s = Some lo)
    by (on_context Hs; eexists; vm_compute; reflexivity).
  assert (Hmax : exists hi,
            MaxOf_expr (MkLinearExpressionProto [1; -1] [3; -2] 1) s = Some hi)
    by (on_context Hs; eexists; vm_compute; reflexivity).
  destruct Hmin as [lo Hmin], Hmax as [hi Hmax]. exists lo, hi.
  split; [exact Hs|]. split; [exact Hmin|]. split; [exact Hmax|].
  apply (MinOf_MaxOf_expr_bound_the_expression three_values _ s lo hi);
    [| |done|done].
  - on_context Hs. unfold canonical_domains. simpl. repeat constructor.
  - on_context Hs. apply in_domains_intro. simpl.
    intros [|[|[|i]]] d [= <-]; reflexivity.
Defined.

Lemma asserted_literal_has_its_value_witness :
  exists s s',
    three_variables_context = Some s
    /\ SetLiteralToTrue (-1) s = Some (true, s')
    /\ LiteralIsTrue (-1) s' = Some true
    /\ LiteralIsFalse (-1) s' = Some false
    /\ IsFixed (-1) s' = Some true.
Proof.
  destruct three_variables_context_run as [s Hs]. exists s.
  assert (Hrun : exists s', SetLiteralToTrue (-1) s = Some (true, s'))
    by (on_context Hs; eexists; vm_compute; reflexivity).
  destruct Hrun as [s' Hrun]. exists s'.
  split; [exact Hs|]. split; [exact Hrun|].
  assert (Hcur : at_index (domains s) (PositiveRef (-1)) = Some [(0, 1)])
    by computed Hs.
  assert (Hbit : at_index (modified_domains s) (PositiveRef (-1)) = Some false)
    by computed Hs.
  destruct (asserted_literal_has_its_value (-1) s [(0, 1)] false Hcur Hbit
              eq_refl eq_refl) as [Htrue _].
  exact (Htrue s' Hrun).
Defined.

Lemma asserting_a_literal_both_ways_is_unsat_witness :
  exists s s1 s2,
    three_variables_context = Some s
    /\ SetLiteralToTrue (-1) s = Some (true, s1)
    /\ DomainIsEmpty (-1) s1 = Some false
    /\ SetLiteralToFalse (-1) s1 = Some (false, s2)
    /\ is_unsat s2 = true.
Proof.
  destruct three_variables_context_run as [s Hs]. exists s.
  assert (Hcur : at_index (domains s) (PositiveRef (-1)) = Some [(0, 1)])
    by computed Hs.
  assert (Hbit : at_index (modified_domains s) (PositiveRef (-1)) = Some false)
    by computed Hs.
  assert (Htrue : exists s1, SetLiteralToTrue (-1) s = Some (true, s1))
    by (on_context Hs; eexists; vm_compute; reflexivity).
  destruct (asserting_a_literal_both_ways_is_unsat (-1) s [(0, 1)] false Hcur Hbit
              eq_refl eq_refl) as (r1 & s1 & Hrun & _ & Hnext).
  destruct Htrue as [s1' Htrue]. rewrite Hrun in Htrue.
  injection Htrue as -> _.
  destruct (Hnext eq_refl) as (Hne & s2 & Hrun2 & Hunsat).
  exists s1, s2. by repeat split.
Defined.

Lemma literal_queries_decide_the_value_witness :
  exists s,
    three_variables_context = Some s
    /\ LiteralIsTrue (-1) s = negb <$> literal_can_be (-1) 0 s
    /\ LiteralIsFalse (-1) s = negb <$> literal_can_be (-1) 1 s
    /\ LiteralIsTrue (NegatedRef (-1)) s = LiteralIsFalse (-1) s
    /\ LiteralIsFalse (NegatedRef (-1)) s = LiteralIsTrue (-1) s
    /\ ~ (LiteralIsTrue (-1) s = Some true /\ LiteralIsFalse (-1) s = Some true).
Proof.
  destruct three_variables_context_run as [s Hs]. exists s.
  split; [exact Hs|].
  apply (literal_queries_decide_the_value (-1) s [(0, 1)]);
    [by computed Hs|reflexivity|by computed Hs].
Defined.

Lemma unrelated_variable_is_its_own_representative_witness :
  exists s,
    three_variables_context = Some s
    /\ GetAffineRelation (-2) s = MkRelation 1 (-1) 0
    /\ GetVariableRepresentative (-2) s = Some (-2)
    /\ GetLiteralRepresentative (-1) s = Some (-1).
Proof.
  destruct three_variables_context_run as [s Hs]. exists s.
  split; [exact Hs|].
  assert (Hrel : forall v, affine_relations_ s !! v = None)
    by (on_context Hs; intros v; reflexivity).
  assert (Heq : forall v, var_equiv_relations_ s !! v = None)
    by (on_context Hs; intros v; reflexivity).
  destruct (unrelated_variable_is_its_own_representative (-2) s (Hrel _) (Heq _))
    as (H1 & H2 & _).
  destruct (unrelated_variable_is_its_own_representative (-1) s (Hrel _) (Heq _))
    as (_ & _ & H3).
  split; [exact H1|]. split; [exact H2|].
  apply H3. by computed Hs.
Defined.

Lemma GetOrCreateConstantVar_gives_one_variable_per_constant_witness :
  exists s i s',
    three_variables_context = Some s
    /\ GetOrCreateConstantVar 7 s = Some (i, s')
    /\ GetOrCreateConstantVar 7 s' = Some (i, s')
    /\ i = 3
    /\ DomainOf i s' = Some (Domain.FromValue 7).
Proof.
  destruct three_variables_context_run as [s Hs]. exists s.
  assert (Hinit : initialized s) by (on_context Hs; reflexivity).
  assert (Hnew : constant_to_ref s !! 7 = None) by computed Hs.
  assert (Hlen : Z.of_nat (length (variables (working_model s))) = 3)
    by computed Hs.
  destruct (GetOrCreateConstantVar_gives_one_variable_per_constant 7 s Hinit eq_refl)
    as (i & s' & H1 & H2 & _ & H3).
  destruct (H3 Hnew) as (Hi & Hd & _).
  exists i, s'. rewrite Hlen in Hi. by repeat split.
Defined.

Lemma NewIntVar_stores_the_domain_witness :
  exists s i s',
    three_variables_context = Some s
    /\ NewIntVar [(-4, -1); (3, 8)] s = Some (i, s')
    /\ i = 3
    /\ DomainOf i s' = Some [(-4, -1); (3, 8)]
    /\ DomainOf (NegatedRef i) s' = Some [(-8, -3); (1, 4)]
    /\ is_unsat s' = false.
Proof.
  destruct three_variables_context_run as [s Hs]. exists s.
  assert (Hinit : initialized s) by (on_context Hs; reflexivity).
  assert (Hlen : Z.of_nat (length (variables (working_model s))) = 3)
    by computed Hs.
  assert (Hunsat : is_unsat s = false) by computed Hs.
  destruct (NewIntVar_stores_the_domain [(-4, -1); (3, 8)] s Hinit eq_refl)
    as (i & s' & H1 & H2 & H3 & H4 & _ & H5).
  { intros c Hc. discriminate Hc. }
  exists i, s'. rewrite Hlen in H2. rewrite Hunsat in H5.
  by repeat split.
Defined.

Lemma NewIntVar_registers_a_constant_witness :
  exists s i s',
    three_variables_context = Some s
    /\ NewIntVar (Domain.FromValue 7) s = Some (i, s')
    /\ DomainOf i s' = Some (Domain.FromValue 7)
    /\ GetOrCreateConstantVar 7 s' = Some (i, s').
Proof.
  destruct three_variables_context_run as [s Hs]. exists s.
  assert (Hinit : initialized s) by (on_context Hs; reflexivity).
  assert (Hnew : constant_to_ref s !! 7 = None) by computed Hs.
  destruct (NewIntVar_registers_a_constant 7 s Hinit eq_refl Hnew)
    as (i & s' & H).
  exists i, s'. split; [exact Hs|exact H].
Defined.

Lemma IntersectDomainWith_twice_witness :
  exists s flag s',
    three_variables_context = Some s
    /\ IntersectDomainWith (-3) [(-9, -4)] (Some false) s = Some ((true, flag), s')
    /\ DomainIsEmpty (-3) s' = Some false
    /\ IntersectDomainWith (-3) [(-9, -4)] (Some false) s'
       = Some ((true, Some false), s').
Proof.
  destruct three_variables_context_run as [s Hs]. exists s.
  assert (Hcur : at_index (domains s) (PositiveRef (-3)) = Some [(2, 5)])
    by computed Hs.
  assert (Hbit : at_index (modified_domains s) (PositiveRef (-3)) = Some false)
    by computed Hs.
  assert (Htrue : exists flag s',
            IntersectDomainWith (-3) [(-9, -4)] (Some false) s
            = Some ((true, flag), s'))
    by (on_context Hs; eexists _, _; vm_compute; reflexivity).
  destruct (IntersectDomainWith_twice (-3) [(-9, -4)] (Some false) (Some false)
              s [(2, 5)] false Hcur Hbit eq_refl)
    as (result & flag & s' & Hrun & _ & Hnext).
  destruct Htrue as (flag' & s'' & Htrue). rewrite Hrun in Htrue.
  injection Htrue as -> _ _.
  destruct (Hnext eq_refl) as (Hne & Hagain).
  exists flag, s'. by repeat split.
Defined.

Lemma appending_a_constraint_outdates_the_graph_witness :
  exists s s',
    three_variables_context = Some s
    /\ AddImplication 0 (-2) s = Some (tt, s')
    /\ ConstraintVariableGraphIsUpToDate s = true
    /\ ConstraintVariableGraphIsUpToDate s' = false
    /\ VariableIsNotUsedAnymore 2 s = Some true
    /\ VariableIsNotUsedAnymore 2 s' = Some false.
Proof.
  destruct three_variables_context_run as [s Hs]. exists s.
  assert (Hup : ConstraintVariableGraphIsUpToDate s = true) by computed Hs.
  assert (Hunused : VariableIsNotUsedAnymore 2 s = Some true) by computed Hs.
  destruct (appending_a_constraint_outdates_the_graph 0 (-2) 1 [(2, 2)] s Hup)
    as (Hrun & _ & Hframe).
  eexists. split; [exact Hs|]. split; [exact Hrun|].
  destruct (Hframe (MkConstraintProto [0] (kBoolAnd [-2])) _ eq_refl) as (_ & _ & _ & Hstale & Hqueries).
  destruct (Hqueries 2) as (_ & _ & H3 & _).
  by repeat split.
Defined.

Lemma UpdateConstraintVariableUsage_merges_the_usage_witness :
  let ct := MkConstraintProto []
              (kLinear (MkLinearConstraintProto [1; 2] [1; 1] [0; 0])) in
  let t := usage_tables [ct] [[0; 1]] [{[0]}; {[0]}; ∅] in
  exists t',
    UpdateConstraintVariableUsage 0 t = Some (tt, t')
    /\ constraint_to_vars_ (context t') = [[1; 2]]
    /\ at_index (var_to_constraints_ (context t')) 0 = Some ∅
    /\ at_index (var_to_constraints_ (context t')) 1 = Some {[0]}
    /\ at_index (var_to_constraints_ (context t')) 2 = Some {[0]}.
Proof.
  intros ct t.
  assert (Hused : UsedVariables ct = [1; 2]) by reflexivity.
  destruct (UpdateConstraintVariableUsage_merges_the_usage 0 t ct [0; 1])
    as (t' & Hrun & _ & Hvars & Hsets & _).
  - reflexivity.
  - reflexivity.
  - repeat constructor; lia.
  - repeat constructor; by eexists.
  - rewrite Hused. repeat constructor; by eexists.
  - split; [reflexivity|]. split.
    + exists []. split; [reflexivity|constructor].
    + exists (-1). split; [reflexivity|]. intros H. exfalso. lia.
  - exists t'. split; [exact Hrun|]. split; [by rewrite Hvars|].
    rewrite !Hsets, Hused. repeat split; vm_compute; reflexivity.
Defined.

Lemma UpdateNewConstraintsVariableUsage_registers_the_new_constraints_witness :
  let c0 := MkConstraintProto []
              (kLinear (MkLinearConstraintProto [0; 1] [1; 1] [0; 0])) in
  let c1 := MkConstraintProto [0] (kBoolAnd [-3]) in
  let t := usage_tables [c0; c1] [[0; 1]] [{[0]}; {[0]}; ∅] in
  exists t',
    UpdateNewConstraintsVariableUsage t = Some (tt, t')
    /\ constraint_to_vars_ (context t') = [[0; 1]; [0; 2]]
    /\ ConstraintVariableGraphIsUpToDate (context t') = true
    /\ ConstraintVariableUsageIsConsistent (context t') = true.
Proof.
  intros c0 c1 t.
  destruct (UpdateNewConstraintsVariableUsage_registers_the_new_constraints t)
    as (t' & Hrun & _ & Hvars & Hup & Hcons & _).
  - reflexivity.
  - simpl. lia.
  - reflexivity.
  - intros [|[|j]] ct Hle Hct; simpl in Hle, Hct; [lia| |discriminate].
    injection Hct as <-.
    assert (Hused : UsedVariables c1 = [0; 2]) by reflexivity.
    rewrite Hused. repeat constructor; by eexists.
  - exists t'. by rewrite Hvars.
Defined.

Lemma InsertHalfVarValueEncoding_records_once_witness :
  exists s r t1,
    three_variables_context = Some s
    /\ InsertHalfVarValueEncoding 0 2 3 true (empty_tables s) = Some (r, t1)
    /\ r = true
    /\ 0 ∈ half_literals (eq_half_encoding t1) (2, 3)
    /\ InsertHalfVarValueEncoding 0 2 3 true t1 = Some (false, t1).
Proof.
  destruct three_variables_context_run as [s Hs]. exists s.
  assert (Hrun : exists r t1,
            InsertHalfVarValueEncoding 0 2 3 true (empty_tables s) = Some (r, t1))
    by (on_context Hs; eexists _, _; vm_compute; reflexivity).
  destruct Hrun as (r & t1 & Hrun). exists r, t1.
  destruct (InsertHalfVarValueEncoding_records_once 0 2 3 true _ r t1 Hrun)
    as (Hr & Hin & Hagain).
  split; [exact Hs|]. split; [exact Hrun|]. split; [|by split].
  apply Hr. unfold half_literals. simpl. rewrite lookup_empty.
  apply not_elem_of_empty.
Defined.

Lemma complementary_half_encodings_give_a_full_encoding_witness :
  exists s r t1 t2,
    three_variables_context = Some s
    /\ StoreLiteralImpliesVarEqValue 0 2 3 (empty_tables s) = Some (r, t1)
    /\ StoreLiteralImpliesVarNEqValue (NegatedRef 0) 2 3 t1 = Some (true, t2)
    /\ encoding t2 = {[(2, 3) := 0]}
    /\ HasVarValueEncoding 2 3 None t2 = Some ((true, None), t2).
Proof.
  destruct three_variables_context_run as [s Hs]. exists s.
  destruct (complementary_half_encodings_give_a_full_encoding 0 2 3 (empty_tables s))
    as (r & t1 & t2 & H1 & H2 & _ & Henc & Hhas & _).
  - reflexivity.
  - apply lookup_empty.
  - unfold half_literals. simpl. rewrite lookup_empty. apply not_elem_of_empty.
  - exists r, t1, t2. by rewrite Henc.
Defined.

Lemma half_encodings_promote_only_at_their_key_witness :
  exists s r t',
    three_variables_context = Some s
    /\ InsertHalfVarValueEncoding (-1) 2 3 false (empty_tables s) = Some (r, t')
    /\ encoding t' = ∅
    /\ domains (context t') = domains s
    /\ is_unsat (context t') = is_unsat s.
Proof.
  destruct three_variables_context_run as [s Hs]. exists s.
  assert (Hrun : exists r t',
            InsertHalfVarValueEncoding (-1) 2 3 false (empty_tables s)
            = Some (r, t'))
    by (on_context Hs; eexists _, _; vm_compute; reflexivity).
  destruct Hrun as (r & t' & Hrun). exists r, t'.
  destruct (half_encodings_promote_only_at_their_key (-1) 2 3 false _ r t' Hrun)
    as (_ & Hkeep).
  destruct Hkeep as (Henc & _ & Hdom & Hunsat).
  { unfold half_literals. simpl. rewrite lookup_empty. apply not_elem_of_empty. }
  by rewrite Henc.
Defined.

Lemma InsertVarValueEncoding_then_HasVarValueEncoding_witness :
  exists s t',
    three_variables_context = Some s
    /\ InsertVarValueEncoding 0 (-3) (-3) (empty_tables s) = Some (tt, t')
    /\ HasVarValueEncoding (-3) (-3) None t' = Some ((true, None), t').
Proof.
  destruct three_variables_context_run as [s Hs]. exists s.
  assert (Hrun : exists t',
            InsertVarValueEncoding 0 (-3) (-3) (empty_tables s) = Some (tt, t'))
    by (on_context Hs; eexists; vm_compute; reflexivity).
  destruct Hrun as (t' & Hrun). exists t'.
  destruct (InsertVarValueEncoding_then_HasVarValueEncoding 0 (-3) (-3) _ t' Hrun)
    as (Hhas & _).
  by repeat split.
Defined.

Lemma InsertVarValueEncoding_links_a_two_valued_variable_witness :
  exists s t',
    three_variables_context = Some s
    /\ InsertVarValueEncoding 0 1 5 (empty_tables s) = Some (tt, t')
    /\ encoding t' = {[(1, 2) := -1; (1, 5) := 0]}
    /\ constraints (working_model (context t'))
       = [MkConstraintProto []
            (kLinear (MkLinearConstraintProto [1; 0] [1; -3] [2; 2]))]
    /\ domains (context t') = domains s.
Proof.
  destruct three_variables_context_run as [s Hs]. exists s.
  assert (Hrun : exists t',
            InsertVarValueEncoding 0 1 5 (empty_tables s) = Some (tt, t'))
    by (on_context Hs; eexists; vm_compute; reflexivity).
  destruct Hrun as (t' & Hrun). exists t'.
  assert (Hd : at_index (domains (context (empty_tables s))) 1
               = Some [(2, 2); (5, 5)]) by computed Hs.
  assert (Hcts : constraints (working_model s) = []) by computed Hs.
  destruct (InsertVarValueEncoding_links_a_two_valued_variable
              0 1 5 (empty_tables s) t' [(2, 2); (5, 5)] 2 5)
    as (Henc & Hct & Hdom & _); try done.
  - by right.
  - split; [exact Hs|]. split; [exact Hrun|].
    simpl in Henc, Hct, Hdom. rewrite Hcts in Hct.
    split; [|by split]. rewrite Henc. reflexivity.
Defined.

Lemma GetOrCreateVarValueEncoding_of_a_Boolean_variable_witness :
  exists s t',
    three_variables_context = Some s
    /\ GetOrCreateVarValueEncoding 0 0 (empty_tables s) = Some (-1, t')
    /\ GetOrCreateVarValueEncoding 0 0 t' = Some (-1, t')
    /\ encoding t' = {[(0, 0) := -1; (0, 1) := 0]}.
Proof.
  destruct three_variables_context_run as [s Hs]. exists s.
  assert (Hd : at_index (domains (context (empty_tables s))) 0 = Some [(0, 1)])
    by computed Hs.
  assert (Hrel : affine_relations_ (context (empty_tables s)) !! 0 = None)
    by computed Hs.
  assert (Heq : var_equiv_relations_ (context (empty_tables s)) !! 0 = None)
    by computed Hs.
  destruct (GetOrCreateVarValueEncoding_of_a_Boolean_variable 0 0 (empty_tables s))
    as (H1 & H2); try done.
  - by left.
  - eexists. split; [exact Hs|]. split; [exact H1|]. split; [exact H2|].
    reflexivity.
Defined.

Lemma GetOrCreateVarValueEncoding_outside_the_domain_witness :
  exists s i s',
    three_variables_context = Some s
    /\ GetOrCreateVarValueEncoding (-3) 3 (empty_tables s)
       = Some (i, with_context s' (empty_tables s))
    /\ i = 3
    /\ LiteralIsFalse i s' = Some true
    /\ GetOrCreateVarValueEncoding (-3) 3 (with_context s' (empty_tables s))
       = Some (i, with_context s' (empty_tables s)).
Proof.
  destruct three_variables_context_run as [s Hs]. exists s.
  assert (Hinit : initialized s) by (on_context Hs; reflexivity).
  assert (Hd : at_index (domains (context (empty_tables s))) (PositiveRef (-3))
               = Some [(2, 5)]) by computed Hs.
  assert (Hout : DomainContains (-3) 3 (context (empty_tables s)) = Some false)
    by computed Hs.
  assert (Hzero : constant_to_ref (context (empty_tables s)) !! 0 = None)
    by computed Hs.
  assert (Hlen : Z.of_nat (length (variables (working_model s))) = 3)
    by computed Hs.
  destruct (GetOrCreateVarValueEncoding_outside_the_domain
              (-3) 3 (empty_tables s) [(2, 5)] Hinit Hd Hout (fun _ => eq_refl))
    as (i & s' & Hcst & Hrun & _ & Hnew).
  destruct (Hnew Hzero) as (Hi & Hfalse & _).
  simpl in Hi. rewrite Hlen in Hi.
  exists i, s'. split; [exact Hs|]. split; [exact Hrun|]. split; [exact Hi|].
  split; [exact Hfalse|].
  (* the second call finds the variable of the constant 0 *)
  destruct (GetOrCreateConstantVar_new 0 s Hinit eq_refl Hzero)
    as (s'' & Hcst' & Hdom & Hvars & _ & _ & Hreg).
  simpl in Hcst. rewrite Hcst' in Hcst. injection Hcst as Hi' <-.
  assert (Hinit' : initialized (context (with_context s'' (empty_tables s)))).
  { simpl. unfold initialized in *. rewrite Hdom, Hvars, !length_app, Hinit. done. }
  assert (Hd' : at_index (domains (context (with_context s'' (empty_tables s))))
                  (PositiveRef (-3)) = Some [(2, 5)]).
  { simpl. rewrite Hdom. by apply at_index_app_l. }
  assert (Hout' : DomainContains (-3) 3 (context (with_context s'' (empty_tables s)))
                  = Some false).
  { unfold DomainContains. simpl. simpl in Hd'. by rewrite Hd'. }
  destruct (GetOrCreateVarValueEncoding_outside_the_domain
              (-3) 3 (with_context s'' (empty_tables s)) [(2, 5)]
              Hinit' Hd' Hout' (fun _ => eq_refl))
    as (j & s3 & _ & Hrun' & Hknown & _).
  destruct (Hknown i) as [-> Hsame].
  { simpl. rewrite Hreg, Hi'. apply lookup_insert_eq. }
  rewrite Hsame in Hrun'. exact Hrun'.
Defined.

Lemma InsertVarValueEncoding_of_a_negated_reference_to_the_minimum_witness :
  exists s t',
    three_variables_context = Some s
    /\ InsertVarValueEncoding 0 (-2) (-2) (empty_tables s) = Some (tt, t')
    /\ encoding t' = {[(1, 2) := 0]}
    /\ is_unsat s = false
    /\ is_unsat (context t') = true.
Proof.
  destruct three_variables_context_run as [s Hs]. exists s.
  assert (Hd : at_index (domains (context (empty_tables s))) (PositiveRef (-2))
               = Some [(2, 2); (5, 5)]) by computed Hs.
  assert (Hlit : CanBeUsedAsLiteral 0 (context (empty_tables s)) = Some true)
    by computed Hs.
  assert (Hsat : is_unsat s = false) by computed Hs.
  eexists. split; [exact Hs|]. split.
  - apply (InsertVarValueEncoding_of_a_negated_reference_to_the_minimum
             0 (-2) (empty_tables s) [(2, 2); (5, 5)] 2 5); try done.
  - split; [reflexivity|]. by split.
Defined.

Lemma WriteObjectiveToProto_then_ReadObjectiveFromProto_witness :
  exists s1 s2,
    WriteObjectiveToProto objective_context = Some (tt, s1)
    /\ ReadObjectiveFromProto s1 = Some (tt, s2)
    /\ objective_vars (objective (working_model s1)) = [0; 2]
    /\ objective_coeffs (objective (working_model s1)) = [3; -2]
    /\ objective_map s2 = {[0 := 3; 2 := -2]}
    /\ objective_domain s2 = [(0, 10)]
    /\ at_index (var_to_constraints_ s2) 0 = Some {[-1]}
    /\ at_index (var_to_constraints_ s2) 1 = Some ∅.
Proof.
  destruct (WriteObjectiveToProto_then_ReadObjectiveFromProto objective_context)
    as (s1 & s2 & Hwrite & Hread & Hmap & Hdom & _ & _ & _ & Husage).
  - reflexivity.
  - reflexivity.
  - vm_compute. reflexivity.
  - intros v c Hc. change (objective_map objective_context)
      with ({[0 := 3; 2 := -2]} : gmap Z Z) in Hc.
    apply lookup_insert_Some in Hc as [[<- <-]|[_ Hc]].
    + by repeat split.
    + apply lookup_singleton_Some in Hc as [<- <-]. by repeat split.
  - exists s1, s2.
    assert (Hw : WriteObjectiveToProto objective_context = Some (tt, s1))
      by exact Hwrite.
    vm_compute in Hwrite. injection Hwrite as <-.
    split; [exact Hw|]. split; [exact Hread|].
    split; [reflexivity|]. split; [reflexivity|].
    split; [exact Hmap|]. split; [exact Hdom|].
    rewrite !Husage. split; vm_compute; reflexivity.
Defined.
